(** * LogPot transport delivery engine: a shallow embedding

    The development follows the TypeScript sources of the delivery core:

    - [Retry]        packages/utils/src/withRetry.ts
    - [JobQueue]     packages/utils/src/asyncJobQueue.ts
    - [Rotator]      transports/fileRotator.ts (options, retention)
    - [Rotation]     transports/fileRotator.ts ([rotate], [doRotate])
    - [Handshake]    transports/transport.ts (worker handshake)
    - [Transport]    transports/transport.ts ([log], [raw], [close])
    - [ConsoleSink]  transports/consoleTransport.ts
    - [HttpSink]     transports/httpTransport.ts
    - [FileSink]     transports/fileTransport.ts

    Part I holds the definitions, Part II the properties, one theory
    module per source module.

    Conventions.  JavaScript numbers that the code uses as counters or
    integral limits are modelled as [Z]; a function that may throw returns
    a [Completion]; asynchronous code is modelled by explicit state and by
    events at its suspension points, the environment (file system, worker,
    network) supplying the outcome of every operation it performs. *)

From Stdlib Require Import ZArith List String Ascii Bool Lia DecimalString.
From Stdlib Require Import Sorted Permutation OrderedTypeEx.
Import ListNotations.
Local Open Scope Z_scope.

(** A JavaScript [Error] value, reduced to the fields the delivery core
    inspects: [name] (read by [isAbortError]), [code] (read by the retry
    allow-list), [status] (read by [isRetryableHttpError]) and the
    message. *)
Record Thrown : Type := mkThrown {
  errName : option string;
  errCode : option string;
  errStatus : option Z;
  errMessage : string
}.

(** Outcome of evaluating a JavaScript call: it returns or it throws (for
    a promise: it fulfils or it rejects). *)
Inductive Completion (A : Type) : Type :=
| Returns (a : A)
| Throws (e : Thrown).
Arguments Returns {A} a.
Arguments Throws {A} e.

Definition plainError (msg : string) : Thrown :=
  mkThrown (Some "Error"%string) None None msg.

(** typeCheck.ts: [isAbortError]. *)
Definition isAbortError (err : Thrown) : bool :=
  match errName err with
  | Some n => String.eqb n "AbortError"
  | None => false
  end.

(** A property of an options object: missing, present with the value
    [undefined], or present with a value.  Object spread and [merge] keep
    a default only where the property is missing. *)
Inductive Field (A : Type) : Type :=
| Absent
| Undefined
| Value (a : A).
Arguments Absent {A}.
Arguments Undefined {A}.
Arguments Value {A} a.

Abbreviation Num n := (Value n).

(* ------------------------------------------------------------------ *)
(** * withRetry.ts *)
Module Retry.

Record RetryOption : Type := mkRetryOption {
  maxRetry : Field Z;
  baseDelay : Field Z;
  timeout : Field Z;
  maxDelay : Field Z
}.

Definition noOption : RetryOption := mkRetryOption Absent Absent Absent Absent.

Definition spread (dflt : Z) (f : Field Z) : Field Z :=
  match f with
  | Absent => Num dflt
  | _ => f
  end.

(** [const reqOpt = { ...DEFAULTS, ...opt }] *)
Definition reqOpt (opt : RetryOption) : RetryOption :=
  mkRetryOption (spread 3 (maxRetry opt)) (spread 500 (baseDelay opt))
                (spread 5000 (timeout opt)) (spread 30000 (maxDelay opt)).

(** [if (reqOpt.maxRetry == null || reqOpt.maxRetry < 1) reqOpt.maxRetry = 1].
    The number is an integer: a [maxRetry] that is [NaN] (which passes
    both tests and makes the loop guard false at once) or has a
    fractional part is outside this model. *)
Definition effectiveMaxRetry (opt : RetryOption) : Z :=
  match maxRetry (reqOpt opt) with
  | Num n => if n <? 1 then 1 else n
  | _ => 1
  end.

Inductive RetryAction : Type := STOP | CONTINUE.

Inductive Rejection : Type :=
| Rethrown (e : Thrown)
    (* [throw err]: an abort error, or whatever the callback threw *)
| AttemptsFailed (attempts : Z) (cause : option Thrown).
    (* [new Error(`Operation failed after n attempts`, { cause })] *)

Inductive Settled (T : Type) : Type :=
| Fulfilled (v : T)
| Rejected (r : Rejection).
Arguments Fulfilled {T} v.
Arguments Rejected {T} r.

(** What one call of [withRetry] did: how it settled, how many times it
    invoked the operation, the callback invocations and the attempts after
    which it slept. *)
Record Run (T : Type) : Type := mkRun {
  settled : Settled T;
  invocations : nat;
  reported : list (Z * Thrown);
  sleeps : list Z
}.
Arguments mkRun {T}.
Arguments settled {T}.
Arguments invocations {T}.
Arguments reported {T}.
Arguments sleeps {T}.

Section WithRetry.
Context {T : Type}.
(** The operation is an arbitrary stateful function; [operation k] is the
    outcome of its invocation number [k] (counting from 0). *)
Variable operation : nat -> Completion T.
Variable onError : option (Z -> Thrown -> Completion (option RetryAction)).
Variable retryErrorCodes : option (list string).
(** [const { maxRetry, ... } = reqOpt] *)
Variable maxRetry' : Z.

(** Lines 149-153: the allow-list applies only when it is non-empty; an
    error with a falsy [code] or a code outside the list leaves the
    loop. *)
Definition codeBreaks (err : Thrown) : bool :=
  match retryErrorCodes with
  | Some codes =>
      if (0 <? Z.of_nat (List.length codes)) then
        match errCode err with
        | None => true
        | Some c =>
            if String.eqb c "" then true
            else negb (existsb (String.eqb c) codes)
        end
      else false
  | None => false
  end.

(** [await onError?.(attempt, err)] *)
Definition callOnError (attempt : Z) (err : Thrown)
  : Completion (option RetryAction) :=
  match onError with
  | Some f => f attempt err
  | None => Returns None
  end.

Definition noteReport (attempt : Z) (err : Thrown) (l : list (Z * Thrown))
  : list (Z * Thrown) :=
  match onError with
  | Some _ => l ++ [(attempt, err)]
  | None => l
  end.

(** The final [throw new Error(...)] after the loop. *)
Definition giveUp (attempt : Z) (lastError : option Thrown) : Settled T :=
  Rejected (AttemptsFailed (Z.min attempt maxRetry') lastError).

(** The [for (; attempt <= maxRetry; attempt++)] loop.  [calls] counts
    the invocations made so far; [fuel] bounds the iterations. *)
Fixpoint attemptLoop (fuel : nat) (attempt : Z) (calls : nat)
         (lastError : option Thrown) (rep : list (Z * Thrown))
         (slept : list Z) : option (Run T) :=
  match fuel with
  | O => None
  | S fuel' =>
      if attempt <=? maxRetry' then
        match operation calls with
        | Returns result =>
            Some (mkRun (Fulfilled result) (S calls) rep slept)
        | Throws err =>
            if isAbortError err then
              Some (mkRun (Rejected (Rethrown err)) (S calls) rep slept)
            else if codeBreaks err then
              Some (mkRun (giveUp attempt (Some err)) (S calls) rep slept)
            else
              match callOnError attempt err with
              | Throws e' =>
                  Some (mkRun (Rejected (Rethrown e')) (S calls)
                              (noteReport attempt err rep) slept)
              | Returns (Some STOP) =>
                  Some (mkRun (giveUp attempt (Some err)) (S calls)
                              (noteReport attempt err rep) slept)
              | Returns _ =>
                  attemptLoop fuel' (attempt + 1) (S calls) (Some err)
                    (noteReport attempt err rep)
                    (if attempt <? maxRetry' then slept ++ [attempt]
                     else slept)
              end
        end
      else Some (mkRun (giveUp attempt lastError) calls rep slept)
  end.

(** The catch block reaches the end of the iteration (no rethrow, no
    [break]) for this failure. *)
Definition continues (attempt : Z) (err : Thrown) : bool :=
  negb (isAbortError err) && negb (codeBreaks err) &&
  match callOnError attempt err with
  | Returns (Some STOP) => false
  | Returns _ => true
  | Throws _ => false
  end.

(** The operation fails on its first [N] invocations, with the errors
    [errs 0 .. errs (N-1)], and succeeds with [v] on the next one. *)
Definition failsThenSucceeds (errs : nat -> Thrown) (N : nat) (v : T)
  : Prop :=
  (forall k, (k < N)%nat -> operation k = Throws (errs k)) /\
  operation N = Returns v.

End WithRetry.

(** [withRetry(operation, opt, onError, retryErrorCodes)]; the loop needs
    at most [maxRetry + 1] evaluations of its guard. *)
Definition withRetry {T : Type} (operation : nat -> Completion T)
           (opt : RetryOption)
           (onError : option (Z -> Thrown -> Completion (option RetryAction)))
           (retryErrorCodes : option (list string)) : option (Run T) :=
  let maxRetry' := effectiveMaxRetry opt in
  attemptLoop operation onError retryErrorCodes maxRetry'
              (S (Z.to_nat maxRetry')) 1 0%nat None [] [].

(** The value of [lastError] after [n] failed attempts that started at
    invocation [calls]. *)
Definition lastAfter (errs : nat -> Thrown) (last : option Thrown)
           (calls n : nat) : option Thrown :=
  match n with
  | O => last
  | S m => Some (errs (calls + m)%nat)
  end.

(** The error has no [code], or a code that the allow-list does not
    contain. *)
Definition notAllowed (codes : list string) (err : Thrown) : Prop :=
  errCode err = None \/ exists c, errCode err = Some c /\ ~ In c codes.

(** The allow-list rule for one list [codes] handed to [withRetry]: the
    first failure (invocation [n], reached after [n] failures that were
    retried) whose error is not allowed is the last invocation, and the
    call rejects. *)
Definition allowListStops (codes : list string) : Prop :=
  forall (T : Type) (operation : nat -> Completion T) (opt : RetryOption)
         (onError : option (Z -> Thrown -> Completion (option RetryAction)))
         (errs : nat -> Thrown) (n : nat),
    (forall k, (k < n)%nat ->
               operation k = Throws (errs k) /\
               continues onError (Some codes) (Z.of_nat k + 1) (errs k) = true) ->
    Z.of_nat n < effectiveMaxRetry opt ->
    operation n = Throws (errs n) ->
    notAllowed codes (errs n) ->
    exists r rej, withRetry operation opt onError (Some codes) = Some r /\
                  invocations r = S n /\ settled r = Rejected rej.

Definition withMaxRetry (f : Field Z) (opt : RetryOption) : RetryOption :=
  mkRetryOption f (baseDelay opt) (timeout opt) (maxDelay opt).

(** The attempt budget with nothing said about the failures: whatever
    the [N] errors are and whatever the callback answers, a limit above
    [N] gives [N + 1] invocations and the value. *)
Definition attemptBudget : Prop :=
  forall (T : Type) (operation : nat -> Completion T) (opt : RetryOption)
         (onError : option (Z -> Thrown -> Completion (option RetryAction)))
         (retryErrorCodes : option (list string))
         (errs : nat -> Thrown) (N : nat) (v : T) (n : Z),
    failsThenSucceeds operation errs N v ->
    maxRetry opt = Num n ->
    Z.of_nat N < n ->
    exists r, withRetry operation opt onError retryErrorCodes = Some r /\
              settled r = Fulfilled v /\ invocations r = S N.

Definition aborted : Thrown :=
  mkThrown (Some "AbortError"%string) None None "This operation was aborted".

(** An operation that is aborted on its first invocation and returns 7
    on the next. *)
Definition abortedOnce (k : nat) : Completion Z :=
  if (k <? 1)%nat then Throws aborted else Returns 7.

(** The operation of the specification's scenario 4: two failures, then
    the value 7. *)
Definition failsTwice (k : nat) : Completion Z :=
  if (k <? 2)%nat then Throws (plainError "boom") else Returns 7.

(** An operation whose first failure carries no code and which succeeds
    on the second invocation. *)
Definition failsOnceNoCode (k : nat) : Completion Z :=
  if (k <? 1)%nat then Throws (plainError "no code") else Returns 7.

(** An operation that always fails with the code [EPERM]. *)
Definition failsEPERM (_ : nat) : Completion Z :=
  Throws (mkThrown (Some "Error"%string) (Some "EPERM"%string) None
                   "not permitted").

End Retry.

(* ------------------------------------------------------------------ *)
(** * asyncJobQueue.ts *)
Module JobQueue.

(** A job is known to the queue only as a function to call; the model
    names it by a number.  A waiter is the [resolve] function of the
    promise returned by one pending [drain()] call. *)
Abbreviation Job := nat.
Abbreviation Waiter := nat.

Record AsyncJobQueue : Type := mkQueue {
  queue : list Job;
  running : Z;
  waiters : list Waiter;
  concurrency : Z
}.

(** [constructor(private concurrency = 1)]:
    [this.concurrency = Math.max(1, concurrency)] *)
Definition create (concurrency : option Z) : AsyncJobQueue :=
  mkQueue [] 0 []
          (Z.max 1 (match concurrency with Some c => c | None => 1 end)).

(** [get length()] *)
Definition length (q : AsyncJobQueue) : Z := Z.of_nat (List.length (queue q)).

(** [schedule()]: the [while (running < concurrency && queue.length > 0)]
    loop.  Each iteration shifts one job, increments [running] and calls
    the job; [started] collects the jobs called, in order. *)
Fixpoint scheduleLoop (pending : list Job) (running concurrency : Z)
         (started : list Job) : list Job * Z * list Job :=
  match pending with
  | [] => ([], running, started)
  | job :: rest =>
      if running <? concurrency then
        scheduleLoop rest (running + 1) concurrency (started ++ [job])
      else (pending, running, started)
  end.

Definition schedule (q : AsyncJobQueue) : AsyncJobQueue * list Job :=
  match scheduleLoop (queue q) (running q) (concurrency q) [] with
  | (pending, r, started) =>
      (mkQueue pending r (waiters q) (concurrency q), started)
  end.

(** [enqueue(job)]: [this.queue.push(job); this.schedule()] *)
Definition enqueue (job : Job) (q : AsyncJobQueue) : AsyncJobQueue * list Job :=
  schedule (mkQueue (queue q ++ [job]) (running q) (waiters q) (concurrency q)).

Definition idle (q : AsyncJobQueue) : bool :=
  (running q =? 0) && (length q =? 0).

(** [drain()]: returns at once when nothing runs and nothing waits,
    otherwise parks the caller's [resolve] in [waiters].  The second
    component tells whether the call completed at once. *)
Definition drain (w : Waiter) (q : AsyncJobQueue) : AsyncJobQueue * bool :=
  if idle q then (q, true)
  else (mkQueue (queue q) (running q) (waiters q ++ [w]) (concurrency q), false).

(** The [.finally] callback that runs when a started job has settled
    (fulfilled, or rejected and swallowed by [.catch]): decrement
    [running], schedule, and if nothing is left call every waiter and
    clear the list.  Returns the jobs started and the waiters called. *)
Definition onJobSettled (q : AsyncJobQueue)
  : AsyncJobQueue * list Job * list Waiter :=
  let q1 := mkQueue (queue q) (running q - 1) (waiters q) (concurrency q) in
  let '(q2, started) := schedule q1 in
  if idle q2 then
    (mkQueue (queue q2) (running q2) [] (concurrency q2), started, waiters q2)
  else (q2, started, []).

(** The queue together with what an observer sees of it: the jobs that
    were called and have not settled yet, how many jobs were enqueued and
    how many have settled, and the [drain()] calls that have completed. *)
Record System : Type := mkSystem {
  sq : AsyncJobQueue;
  inflight : list Job;
  enqueued : nat;
  finished : nat;
  drained : list Waiter
}.

Definition init (concurrency : option Z) : System :=
  mkSystem (create concurrency) [] 0 0 [].

(** What can happen to a queue: a caller (or a job that is still running)
    enqueues a job, a caller asks to drain, a job in flight settles. *)
Inductive Event : Type :=
| Enqueue (j : Job)
| Drain (w : Waiter)
| Settle (j : Job).

Fixpoint removeFirst (j : Job) (l : list Job) : list Job :=
  match l with
  | [] => []
  | x :: l' => if Nat.eqb x j then l' else x :: removeFirst j l'
  end.

(** One event; the second component lists the [drain()] calls that this
    event completed.  A job can only settle while it is in flight. *)
Definition step (s : System) (e : Event) : option (System * list Waiter) :=
  match e with
  | Enqueue j =>
      let '(q', started) := enqueue j (sq s) in
      Some (mkSystem q' (inflight s ++ started) (S (enqueued s)) (finished s)
                     (drained s), [])
  | Drain w =>
      let '(q', now) := drain w (sq s) in
      let done := if now then [w] else [] in
      Some (mkSystem q' (inflight s) (enqueued s) (finished s)
                     (drained s ++ done), done)
  | Settle j =>
      if existsb (Nat.eqb j) (inflight s) then
        let '(q', started, called) := onJobSettled (sq s) in
        Some (mkSystem q' (removeFirst j (inflight s) ++ started) (enqueued s)
                       (S (finished s)) (drained s ++ called), called)
      else None
  end.

(** The states reachable from a fresh queue. *)
Inductive reachable (concurrency : option Z) : System -> Prop :=
| reach_init : reachable concurrency (init concurrency)
| reach_step s e s' ws :
    reachable concurrency s -> step s e = Some (s', ws) ->
    reachable concurrency s'.

(** Running a list of events from a state. *)
Fixpoint run (s : System) (es : list Event) : option System :=
  match es with
  | [] => Some s
  | e :: es' =>
      match step s e with
      | Some (s', _) => run s' es'
      | None => None
      end
  end.

(** The configured limit: [Math.max(1, concurrency)]. *)
Definition limit (concurrency : option Z) : Z :=
  Z.max 1 (match concurrency with Some c => c | None => 1 end).

(** The invariant of the queue: [running] counts exactly the jobs in
    flight and stays within the limit, jobs wait only while the limit is
    reached, every enqueued job is waiting, in flight or settled, and a
    [drain()] caller is parked only while there is work. *)
Record Inv (c : option Z) (s : System) : Prop := mkInv {
  inv_conc : concurrency (sq s) = limit c;
  inv_running : running (sq s) = Z.of_nat (List.length (inflight s));
  inv_bound : running (sq s) <= concurrency (sq s);
  inv_full : queue (sq s) <> [] -> running (sq s) = concurrency (sq s);
  inv_count : enqueued s
              = (finished s + List.length (inflight s)
                 + List.length (queue (sq s)))%nat;
  inv_waiters : waiters (sq s) <> [] -> idle (sq s) = false
}.

(** The [drain()] callers an event has to release if it releases any:
    every waiter parked so far, and the caller itself for a [drain()]
    that completes at once. *)
Definition pendingDrains (s : System) (e : Event) : list Waiter :=
  waiters (sq s) ++ match e with Drain w => [w] | _ => [] end.

(** A run in which job 1, while still running, enqueues job 4 after a
    [drain()] was requested. *)
Definition nestedEnqueueRun : list Event :=
  [Enqueue 1%nat; Enqueue 2%nat; Enqueue 3%nat; Drain 7%nat; Enqueue 4%nat;
   Settle 1%nat; Drain 8%nat; Settle 2%nat; Settle 3%nat].

Definition beforeLastSettle : System :=
  match run (init (Some 2)) nestedEnqueueRun with
  | Some s => s
  | None => init (Some 2)
  end.

End JobQueue.

(* ------------------------------------------------------------------ *)
(** * fileRotator.ts *)
Module Rotator.

(** ** Strings and paths *)

(** [s.startsWith(prefix)] *)
Definition startsWith (s prefix : string) : bool := String.prefix prefix s.

(** [s.endsWith(suffix)] *)
Definition endsWith (s suffix : string) : bool :=
  let n := String.length s in
  let m := String.length suffix in
  (m <=? n)%nat && String.eqb (substring (n - m) m s) suffix.

(** Node's [path.join(dir, name)] for a directory as [path.dirname]
    returns it and the name of a directory entry.  [path.join] also
    normalises its result; a directory with [.] or [..] segments or
    doubled separators, where that changes the text, is outside this
    model. *)
Definition join (dir name : string) : string :=
  if String.eqb dir "." then name
  else if endsWith dir "/" then (dir ++ name)%string
  else (dir ++ "/" ++ name)%string.

(** [Array.prototype.sort()] without a comparator orders strings by their
    UTF-16 code units; on a total order every sorting algorithm returns
    the same list, here by insertion.  The strings of this model are
    sequences of bytes, compared byte by byte: the two orders agree on
    ASCII names, and names with other characters are outside this
    model. *)
Fixpoint insertSorted (x : string) (l : list string) : list string :=
  match l with
  | [] => [x]
  | y :: l' => if String.leb x y then x :: l else y :: insertSorted x l'
  end.

Fixpoint sortStrings (l : list string) : list string :=
  match l with
  | [] => []
  | x :: l' => insertSorted x (sortStrings l')
  end.

(** [ts.replace(/[:.]/g, '-')] *)
Fixpoint dashed (s : string) : string :=
  match s with
  | EmptyString => EmptyString
  | String c s' =>
      String (if (Ascii.eqb c ":" || Ascii.eqb c ".")%char then "-"%char else c)
             (dashed s')
  end.

(** ** Options and state *)

Inductive Interval : Type := daily | hourly.

(** A JavaScript number used as a count: an integer or [Infinity] (the
    default of [maxFiles] in the file transport). *)
Inductive Limit : Type := Finite (n : Z) | Infinity.

Record RotationOptions : Type := mkRotationOptions {
  maxSize : option Z;
  interval : option Interval;
  maxFiles : option Limit;
  compress : bool
}.

(** The log file's path as the [path] module splits it:
    [dirname(filename)], [basename(filename, ext)], [extname(filename)]. *)
Record LogPath : Type := mkLogPath {
  filename : string;
  dir : string;
  base : string;
  ext : string
}.

Record FileRotator : Type := mkRotator {
  currentKey : option string;
  isRotating : bool;
  rotationPromise : option nat;
  path : LogPath;
  opts : RotationOptions
}.

(** [computeKey()], given [new Date().toISOString()]. *)
Definition computeKey (o : RotationOptions) (now : string) : option string :=
  match interval o with
  | None => None
  | Some hourly => Some (substring 0 13 now)
  | Some daily => Some (substring 0 10 now)
  end.

Definition optStringEqb (a b : option string) : bool :=
  match a, b with
  | Some x, Some y => String.eqb x y
  | None, None => true
  | _, _ => false
  end.

(** [shouldRotate(currentSize)] *)
Definition shouldRotate (r : FileRotator) (now : string) (currentSize : Z)
  : bool * FileRotator :=
  let key := computeKey (opts r) now in
  let changed :=
    match interval (opts r) with
    | Some _ => negb (optStringEqb key (currentKey r))
    | None => false
    end in
  if changed then
    (true, mkRotator key (isRotating r) (rotationPromise r) (path r) (opts r))
  else
    match maxSize (opts r) with
    | None => (false, r)
    | Some m => if m =? 0 then (false, r) else (m <=? currentSize, r)
    end.

(** ** Retention *)

(** The filter of [retention]: names that start with [base + '.'] and end
    with [ext] or [ext + '.gz']. *)
Definition matchesRotated (base ext f : string) : bool :=
  startsWith f (base ++ ".") && (endsWith f ext || endsWith f (ext ++ ".gz")).

(** [files.filter(...).map((f) => join(dir, f)).sort()] *)
Definition candidates (dir base ext : string) (files : list string)
  : list string :=
  sortStrings (map (join dir) (filter (matchesRotated base ext) files)).

(** [candidates.length - maxFiles] *)
Definition excessOf (count : nat) (maxFiles : Limit) : option Z :=
  match maxFiles with
  | Finite m => Some (Z.of_nat count - m)
  | Infinity => None   (* minus infinity: never positive *)
  end.

(** The [for (let i = 0; i < excess; i++)] loop with [todo] iterations
    left; collects the paths handed to [fs.unlink].  Reading
    [candidates[i]] past the end gives [undefined], whose [endsWith] is a
    [TypeError]. *)
Fixpoint pruneLoop (liveName : string) (cands : list string) (todo i : nat)
         (unlinked : list string) : Completion (list string) :=
  match todo with
  | O => Returns unlinked
  | S todo' =>
      match nth_error cands i with
      | None =>
          Throws (mkThrown (Some "TypeError"%string) None None
                           "Cannot read properties of undefined")
      | Some c =>
          if endsWith c liveName then
            pruneLoop liveName cands todo' (S i) unlinked
          else pruneLoop liveName cands todo' (S i) (unlinked ++ [c])
      end
  end.

(** [retention(dir, base, ext, maxFiles)], given what [fs.readdir(dir)]
    produced.  The result lists the paths passed to [fs.unlink], whose own
    failures are swallowed by [.catch(() => {})]. *)
Definition retention (dir base ext : string) (maxFiles : Limit)
           (readdir : Completion (list string)) : Completion (list string) :=
  match readdir with
  | Throws e => Throws e
  | Returns files =>
      let cands := candidates dir base ext files in
      match excessOf (List.length cands) maxFiles with
      | Some excess =>
          if 0 <? excess then
            pruneLoop (base ++ ext) cands (Z.to_nat excess) 0 []
          else Returns []
      | None => Returns []
      end
  end.

(** The candidates still present once every [unlink] has succeeded. *)
Definition remaining (cands unlinked : list string) : list string :=
  filter (fun c => negb (existsb (String.eqb c) unlinked)) cands.

(** The rotated files among the candidates: every candidate but the
    live file itself, which the filter accepts as well
    (['app.log'.startsWith('app.')], ['app.log'.endsWith('.log')]). *)
Definition rotatedFiles (livePath : string) (cands : list string)
  : list string :=
  filter (fun c => negb (String.eqb c livePath)) cands.

(** The order of [sort()]: code-unit order on strings. *)
Definition sle (a b : string) : Prop := String.leb a b = true.

(** The candidates among the [k] oldest that the loop passes over
    because their path ends with the live file's name. *)
Definition skipped (liveName : string) (k : nat) (cands : list string)
  : list string :=
  filter (fun c => endsWith c liveName) (firstn k cands).

(** A directory with two compressed rotated files and the live file. *)
Definition sampleDir : list string :=
  ["app.log"; "app.2025-07-21T10-00-00-000Z.log.gz"; "notes.txt";
   "app.2025-07-20T10-00-00-000Z.log.gz"]%string.

(** A directory with the live file and three rotated files. *)
Definition liveAndThree : list string :=
  ["app.log"; "app.2025-07-22T10-00-00-000Z.log";
   "app.2025-07-20T10-00-00-000Z.log"; "app.2025-07-21T10-00-00-000Z.log"]%string.

End Rotator.

(* ------------------------------------------------------------------ *)
(** * fileRotator.ts: [rotate] and [doRotate] *)
Module Rotation.
Import Rotator.

(** What a rotation does to the outside world. *)
Inductive Effect : Type :=
| CloseSink                                  (* [closeStream()] *)
| Rename (rotated : string) (attempts : nat) (* [renameSync], retried *)
| Compress (rotated : string)                (* the gzip pipeline *)
| Unhandled (rotated : string)   (* a [finished()] promise of [compress]
                                    rejected, and nothing handles it *)
| UnlinkRotated (rotated : string) (attempts : nat)
| Prune (unlinked : list string)             (* [retention]'s unlinks *)
| OnError (message : string)                 (* the caller's [onError] *)
| OpenSink.                                  (* [openStream()] *)

(** What the environment answers during one [doRotate]. *)
Record RotateEnv : Type := mkRotateEnv {
  now : string;                       (* [new Date().toISOString()] *)
  renameSync : nat -> Completion unit;
  pipeline : Completion unit;
  unlinkSync : nat -> Completion unit;
  readdir : Completion (list string);
  onError : string -> Completion unit;
  nowAfter : string
}.

Definition retryErrorCodes : list string := ["ENOENT"; "EBUSY"]%string.

(** [{ maxRetry: 5, baseDelay: 50 }] *)
Definition fsRetry : Retry.RetryOption :=
  Retry.mkRetryOption (Num 5) (Num 50) Absent Absent.

(** [await withRetry(() => op(), fsRetry, undefined, retryErrorCodes)]:
    whether it fulfilled, and the number of attempts. *)
Definition retried (op : nat -> Completion unit) : Completion unit * nat :=
  match Retry.withRetry op fsRetry None (Some retryErrorCodes) with
  | Some r =>
      match Retry.settled r with
      | Retry.Fulfilled _ => (Returns tt, Retry.invocations r)
      | Retry.Rejected (Retry.Rethrown e) => (Throws e, Retry.invocations r)
      | Retry.Rejected (Retry.AttemptsFailed _ _) =>
          (Throws (plainError "Operation failed"), Retry.invocations r)
      end
  | None => (Throws (plainError "Operation failed"), 0%nat)
  end.

(** [catch (err) { onError(new Error(message, { cause: err })) }] *)
Definition report (env : RotateEnv) (message : string)
  : Completion unit * list Effect :=
  (onError env message, [OnError message]).

(** [compress(rotated)].  The promises [finished(inp)] and
    [finished(outp)] are created before [await pipeline(...)] and are
    awaited only after it.  A pipeline that fails destroys its streams
    with the error, so that a promise of [finished] rejects; the
    [await] having thrown, no handler is ever attached to it. *)
Definition compressFile (env : RotateEnv) (rotated : string)
  : Completion unit * list Effect :=
  match pipeline env with
  | Throws e => (Throws e, [Compress rotated; Unhandled rotated])
  | Returns _ =>
      let '(res, attempts) := retried (unlinkSync env) in
      (res, [Compress rotated; UnlinkRotated rotated attempts])
  end.

(** [maxFiles != 0] *)
Definition maxFilesNonZero (o : RotationOptions) : bool :=
  match maxFiles o with
  | Some (Finite n) => negb (n =? 0)
  | _ => true
  end.

(** Lines 159-165 *)
Definition compressStep (o : RotationOptions) (env : RotateEnv)
           (rotated : string) : Completion unit * list Effect :=
  if compress o && maxFilesNonZero o then
    match compressFile env rotated with
    | (Returns _, effs) => (Returns tt, effs)
    | (Throws _, effs) =>
        let '(res, effs') := report env "Failed to compress log." in
        (res, effs ++ effs')
    end
  else (Returns tt, []).

(** Lines 167-173 *)
Definition retentionStep (p : LogPath) (o : RotationOptions) (env : RotateEnv)
  : Completion unit * list Effect :=
  match maxFiles o with
  | Some limit =>
      match retention (dir p) (base p) (ext p) limit (readdir env) with
      | Returns unlinked => (Returns tt, [Prune unlinked])
      | Throws _ => report env "Failed to prune log files."
      end
  | None => (Returns tt, [])
  end.

(** [doRotate(onError)] *)
Definition doRotate (r : FileRotator) (env : RotateEnv)
  : Completion bool * list Effect * FileRotator :=
  let p := path r in
  let ts := dashed (now env) in
  let rotated := join (dir p) (base p ++ "." ++ ts ++ ext p) in
  let '(renamed, attempts) := retried (renameSync env) in
  match renamed with
  | Throws _ =>
      match report env "Failed to rename log." with
      | (Throws e, effs) => (Throws e, Rename rotated attempts :: effs, r)
      | (Returns _, effs) => (Returns false, Rename rotated attempts :: effs, r)
      end
  | Returns _ =>
      match compressStep (opts r) env rotated with
      | (Throws e, effs1) => (Throws e, Rename rotated attempts :: effs1, r)
      | (Returns _, effs1) =>
          match retentionStep p (opts r) env with
          | (Throws e, effs2) =>
              (Throws e, Rename rotated attempts :: effs1 ++ effs2, r)
          | (Returns _, effs2) =>
              (Returns true, Rename rotated attempts :: effs1 ++ effs2,
               mkRotator (computeKey (opts r) (nowAfter env)) (isRotating r)
                         (rotationPromise r) (path r) (opts r))
          end
      end
  end.

(** ** [rotate] as a process

    A call of [rotate] runs up to its next [await] and is resumed later;
    several calls on one rotator interleave at these points. *)
Inductive Frame : Type :=
| AwaitingInflight (p : option nat)  (* line 88: [await this.rotationPromise] *)
| AwaitingClose (own : nat)          (* line 99: [await closeStream()] *)
| AwaitingDoRotate (own : nat)       (* line 100: [await this.doRotate(onError)] *)
| Done (r : Completion bool).        (* the call has settled *)

(** The rotator, the calls made on it (call [i] is entry [i] of
    [frames]), the promises resolved so far, and the effects so far, each
    with the call that caused it. *)
Record World : Type := mkWorld {
  rotator : FileRotator;
  frames : list Frame;
  resolved : list nat;
  nextPromise : nat;
  effects : list (nat * Effect)
}.

(** What Node does with a promise that has rejected and has no handler
    once the microtasks of the turn have run.  By default (the mode
    [throw], no ['unhandledRejection'] and no ['uncaughtException']
    listener) the rejection is raised as an uncaught exception and the
    process, or the worker thread, ends; with a listener, or in the
    modes [warn] and [none], the program goes on. *)
Inductive UnhandledRejections : Type := ExitProcess | KeepRunning.

(** What the environment answers when a call is resumed. *)
Record Env : Type := mkEnv {
  closeStream : Completion unit;
  rotateEnv : RotateEnv;
  openStream : Completion unit;
  unhandledRejections : UnhandledRejections
}.

Definition isUnhandled (e : Effect) : bool :=
  match e with Unhandled _ => true | _ => false end.

(** The effects of a [doRotate] end the process. *)
Definition endsProcess (mode : UnhandledRejections) (effs : list Effect)
  : bool :=
  match mode with
  | ExitProcess => existsb isUnhandled effs
  | KeepRunning => false
  end.

Inductive Event : Type :=
| Call                          (* a new [rotate(closeStream, openStream, onError)] *)
| Resume (i : nat) (env : Env). (* call [i] continues after its [await] *)

Definition setRotating (r : FileRotator) (b : bool) (p : option nat)
  : FileRotator :=
  mkRotator (currentKey r) b p (path r) (opts r).

Fixpoint setFrame (i : nat) (f : Frame) (l : list Frame) : list Frame :=
  match l, i with
  | [], _ => []
  | _ :: l', O => f :: l'
  | x :: l', S i' => x :: setFrame i' f l'
  end.

Definition tagged (i : nat) (effs : list Effect) : list (nat * Effect) :=
  map (fun e => (i, e)) effs.

(** The [finally] block of [rotate], run by call [i] that holds the
    resolver of promise [own] and is about to settle with [result]:
    [openStream(); this.isRotating = false;
     this.rotationPromise = undefined; resolve()]. *)
Definition finallyBlock (w : World) (i own : nat) (env : Env)
           (result : Completion bool) (r : FileRotator)
           (effs : list Effect) : World :=
  match openStream env with
  | Throws e =>
      mkWorld r (setFrame i (Done (Throws e)) (frames w)) (resolved w)
              (nextPromise w) (effects w ++ tagged i (effs ++ [OpenSink]))
  | Returns _ =>
      mkWorld (setRotating r false None)
              (setFrame i (Done result) (frames w)) (resolved w ++ [own])
              (nextPromise w) (effects w ++ tagged i (effs ++ [OpenSink]))
  end.

(** One event.  There is no next state when the event cannot happen
    (the call has settled, or waits for a promise that is not resolved)
    and when the process ends in it, see [exits]. *)
Definition step (w : World) (e : Event) : option World :=
  match e with
  | Call =>
      let i := List.length (frames w) in
      if isRotating (rotator w) then
        Some (mkWorld (rotator w)
                      (frames w ++ [AwaitingInflight (rotationPromise (rotator w))])
                      (resolved w) (nextPromise w) (effects w))
      else
        let own := nextPromise w in
        Some (mkWorld (setRotating (rotator w) true (Some own))
                      (frames w ++ [AwaitingClose own])
                      (resolved w) (S own) (effects w ++ [(i, CloseSink)]))
  | Resume i env =>
      match nth_error (frames w) i with
      | Some (AwaitingInflight p) =>
          let released :=
            match p with
            | Some q => existsb (Nat.eqb q) (resolved w)
            | None => true
            end in
          if released then
            Some (mkWorld (rotator w)
                          (setFrame i (Done (Returns false)) (frames w))
                          (resolved w) (nextPromise w) (effects w))
          else None
      | Some (AwaitingClose own) =>
          match closeStream env with
          | Throws e => Some (finallyBlock w i own env (Throws e) (rotator w) [])
          | Returns _ =>
              Some (mkWorld (rotator w)
                            (setFrame i (AwaitingDoRotate own) (frames w))
                            (resolved w) (nextPromise w) (effects w))
          end
      | Some (AwaitingDoRotate own) =>
          let '(result, effs, r') := doRotate (rotator w) (rotateEnv env) in
          if endsProcess (unhandledRejections env) effs then None
          else Some (finallyBlock w i own env result r' effs)
      | Some (Done _) => None
      | None => None
      end
  end.

(** Resuming call [i] ends the process: the call was awaiting [doRotate],
    whose compression left an unhandled rejection.  Node raises the
    rejection at the end of the turn in which the promise rejected;
    the call is then not resumed any more. *)
Definition exits (w : World) (i : nat) (env : Env) : bool :=
  match nth_error (frames w) i with
  | Some (AwaitingDoRotate _) =>
      endsProcess (unhandledRejections env)
                  (snd (fst (doRotate (rotator w) (rotateEnv env))))
  | _ => false
  end.

Fixpoint run (w : World) (es : list Event) : option World :=
  match es with
  | [] => Some w
  | e :: es' =>
      match step w e with
      | Some w' => run w' es'
      | None => None
      end
  end.

(** A rotator at rest, as the constructor leaves it, with no call made. *)
Definition init (r : FileRotator) : World :=
  mkWorld (setRotating r false None) [] [] 0 [].

Inductive reachable (r : FileRotator) : World -> Prop :=
| reach_init : reachable r (init r)
| reach_step w e w' : reachable r w -> step w e = Some w' -> reachable r w'.

Definition isActive (f : Frame) : bool :=
  match f with
  | AwaitingClose _ | AwaitingDoRotate _ => true
  | _ => false
  end.

Definition isDone (f : Frame) : bool :=
  match f with
  | Done _ => true
  | _ => false
  end.

Definition isOpenSink (e : Effect) : bool :=
  match e with OpenSink => true | _ => false end.

Definition isCloseSink (e : Effect) : bool :=
  match e with CloseSink => true | _ => false end.

Definition isRename (e : Effect) : bool :=
  match e with Rename _ _ => true | _ => false end.

(** How many effects of a kind call [i] has caused. *)
Definition countBy (i : nat) (kind : Effect -> bool)
           (effs : list (nat * Effect)) : nat :=
  List.length (filter (fun x => Nat.eqb (fst x) i && kind (snd x)) effs).

(** The invariant of a rotator and its calls: a call that is rotating
    (between its start and its [finally] block) sees the flag set and the
    promise it created installed, has not reopened the sink yet, and is
    the only such call. *)
Record Inv (w : World) : Prop := mkInv {
  inv_active :
    forall i f, nth_error (frames w) i = Some f -> isActive f = true ->
      isRotating (rotator w) = true /\
      countBy i isOpenSink (effects w) = 0%nat /\
      countBy i isCloseSink (effects w) = 1%nat;
  inv_unique :
    forall i j fi fj,
      nth_error (frames w) i = Some fi -> nth_error (frames w) j = Some fj ->
      isActive fi = true -> isActive fj = true -> i = j;
  inv_tags :
    forall j e, In (j, e) (effects w) -> (j < List.length (frames w))%nat
}.

(** The frame of a call that is rotating and holds the resolver of
    promise [own]. *)
Definition owns (f : Frame) (own : nat) : Prop :=
  f = AwaitingClose own \/ f = AwaitingDoRotate own.

(** The promise of the rotation in flight: it is the one installed in the
    rotator, it has not been resolved, and its call has not renamed
    anything yet; promises are numbered in the order of their creation. *)
Record Promises (w : World) : Prop := mkPromises {
  pr_owner :
    forall i f own, nth_error (frames w) i = Some f -> owns f own ->
      rotationPromise (rotator w) = Some own /\ ~ In own (resolved w) /\
      (own < nextPromise w)%nat /\ countBy i isRename (effects w) = 0%nat;
  pr_resolved : forall p, In p (resolved w) -> (p < nextPromise w)%nat
}.

(** Call [i] arrived while call [j] was rotating with promise [own].
    Either [j] is still rotating and [i] waits for the promise, or [j]
    has settled, having reopened the sink, and [i] still waits or has
    returned [false] after the promise was resolved.  Call [i] causes no
    effect; call [j] closes the sink once and renames at most once, and
    exactly once when it fulfils. *)
Record Overlap (i j own : nat) (w : World) : Prop := mkOverlap {
  ov_distinct : i <> j;
  ov_quiet : forall e, ~ In (i, e) (effects w);
  ov_close : countBy j isCloseSink (effects w) = 1%nat;
  ov_rename : (countBy j isRename (effects w) <= 1)%nat;
  ov_frames :
    (exists fj, nth_error (frames w) j = Some fj /\ owns fj own /\
                nth_error (frames w) i = Some (AwaitingInflight (Some own)) /\
                countBy j isOpenSink (effects w) = 0%nat)
    \/
    (exists res, nth_error (frames w) j = Some (Done res) /\
                 countBy j isOpenSink (effects w) = 1%nat /\
                 (forall b, res = Returns b ->
                            countBy j isRename (effects w) = 1%nat) /\
                 (nth_error (frames w) i = Some (AwaitingInflight (Some own)) \/
                  nth_error (frames w) i = Some (Done (Returns false)) /\
                  In own (resolved w)))
}.

(** The rule for overlapping calls with "exactly one": of two calls of
    which the second arrives while the first is rotating, once the
    first has settled and the second has returned [false], one rename
    has been made. *)
Definition rotatesExactlyOnce : Prop :=
  forall (r : FileRotator) (es : list Event) (w : World)
         (res : Completion bool),
    run (init r) (Call :: Call :: es) = Some w ->
    nth_error (frames w) 0 = Some (Done res) ->
    nth_error (frames w) 1 = Some (Done (Returns false)) ->
    countBy 0 isRename (effects w) = 1%nat.

(** The rotator has been left with its flag set by a call that has
    settled: no call is rotating, and the promise [own] that is
    installed is not resolved. *)
Definition stuck (own : nat) (w : World) : Prop :=
  isRotating (rotator w) = true /\
  (forall i f, nth_error (frames w) i = Some f -> isActive f = false) /\
  rotationPromise (rotator w) = Some own /\
  ~ In own (resolved w).

(** Every call from call number [n] on awaits promise [own]. *)
Definition waitingFrom (n own : nat) (w : World) : Prop :=
  forall k f, (n <= k)%nat -> nth_error (frames w) k = Some f ->
              f = AwaitingInflight (Some own).

(** A rotator for [logs/app.log] with compression and a limit of one
    rotated file, and environments for its runs. *)
Definition sampleRotator : FileRotator :=
  mkRotator None false None
            (mkLogPath "logs/app.log" "logs" "app" ".log")
            (mkRotationOptions (Some 1) None (Some (Finite 1)) true).

Definition quietEnv : RotateEnv :=
  mkRotateEnv "2025-07-21T10:00:00.000Z" (fun _ => Returns tt) (Returns tt)
              (fun _ => Returns tt) (Returns sampleDir) (fun _ => Returns tt)
              "2025-07-21T10:00:01.000Z".

(** [closeStream] rejects; the sink reopens. *)
Definition closeFails : Env :=
  mkEnv (Throws (plainError "close failed")) quietEnv (Returns tt)
        ExitProcess.

Definition allFine : Env :=
  mkEnv (Returns tt) quietEnv (Returns tt) ExitProcess.

(** [closeStream] rejects and [openStream] throws. *)
Definition openFails : Env :=
  mkEnv (Throws (plainError "close failed")) quietEnv
        (Throws (plainError "open failed")) ExitProcess.

(** The gzip pipeline fails, in a process run with Node's defaults. *)
Definition gzipFails : Env :=
  mkEnv (Returns tt)
        (mkRotateEnv "2025-07-21T10:00:00.000Z" (fun _ => Returns tt)
                     (Throws (plainError "gzip failed"))
                     (fun _ => Returns tt) (Returns sampleDir)
                     (fun _ => Returns tt) "2025-07-21T10:00:01.000Z")
        (Returns tt) ExitProcess.

Definition afterFirstCall : World :=
  match run (init sampleRotator) [Call] with
  | Some w => w
  | None => init sampleRotator
  end.

(** The first call has closed the sink and awaits [doRotate]. *)
Definition afterClose : World :=
  match run (init sampleRotator) [Call; Resume 0 allFine] with
  | Some w => w
  | None => init sampleRotator
  end.

End Rotation.

(* ------------------------------------------------------------------ *)
(** * transport.ts: the worker handshake *)
Module Handshake.

(** A value received from the worker.  The handshake looks only at
    strings; anything else is a structured clone of some object. *)
Inductive Message : Type :=
| Text (s : string)
| Structured (id : nat).

(** [TransportOptions.worker], reduced to its two timeouts. *)
Record WorkerOptions : Type := mkWorkerOptions {
  closeTimeout : Field Z;
  readyTimeout : Field Z
}.

(** [DEFAULTS.worker] *)
Definition defaultWorker : WorkerOptions :=
  mkWorkerOptions (Num 60000) (Num 30000).

Definition over {A : Type} (dflt f : Field A) : Field A :=
  match f with
  | Absent => dflt
  | _ => f
  end.

(** [merge(DEFAULTS, options).worker]: a plain object is merged key by
    key, any other value given for [worker] replaces the default. *)
Definition mergeWorker (user : Field WorkerOptions) : Field WorkerOptions :=
  match user with
  | Absent => Value defaultWorker
  | Undefined => Undefined
  | Value u =>
      Value (mkWorkerOptions
               (over (closeTimeout defaultWorker) (closeTimeout u))
               (over (readyTimeout defaultWorker) (readyTimeout u)))
  end.

(** Line 393: [this.options.worker?.closeTimeout ?? 0] *)
Definition handshakeTimeout (worker : Field WorkerOptions) : Z :=
  match worker with
  | Value w =>
      match closeTimeout w with
      | Value n => n
      | _ => 0
      end
  | _ => 0
  end.

(** What the initiator posts: a control token or, for the ready
    handshake, the serialized construction options. *)
Inductive Command : Type := DrainToken | CloseToken | InitOptions.

Inductive Reason : Type :=
| Unexpected (expected : string) (got : Message)
| WorkerFailed (err : Thrown)
| ExitedEarly (code : Z)
| TimedOut (ms : Z).

Inductive Outcome : Type :=
| Succeeded
| Failed (why : Reason).

(** A handshake in progress: the command posted, the reply awaited, the
    delay of the timer armed by [withTimeout], whether the three
    listeners are still attached, and how the awaited promise has settled
    ([None] while it is pending). *)
Record Handshake : Type := mkHandshake {
  command : Command;
  expectedReply : string;
  timerMs : Z;
  listening : bool;
  outcome : option Outcome
}.

(** [workerHandshake(command, expectedReply)] on a transport that has a
    worker. *)
Definition workerHandshake (worker : Field WorkerOptions) (cmd : Command)
           (expected : string) : Handshake :=
  mkHandshake cmd expected (handshakeTimeout worker) true None.

Definition drainWorker (worker : Field WorkerOptions) : Handshake :=
  workerHandshake worker DrainToken "drained".

Definition closeWorker (worker : Field WorkerOptions) : Handshake :=
  workerHandshake worker CloseToken "closed".

Definition runAsWorker (worker : Field WorkerOptions) : Handshake :=
  workerHandshake worker InitOptions "ready".

Inductive Kind : Type := Ready | Drain | Close.

Definition start (worker : Field WorkerOptions) (k : Kind) : Handshake :=
  match k with
  | Ready => runAsWorker worker
  | Drain => drainWorker worker
  | Close => closeWorker worker
  end.

(** What can reach a pending handshake. *)
Inductive WorkerEvent : Type :=
| OnMessage (msg : Message)
| OnError (err : Thrown)
| OnExit (code : Z)
| TimerFired.

Definition errorPrefix : string := "WORKER_ERROR:".

(** [typeof msg === 'string' && msg.startsWith(prefix)] *)
Definition isErrorTagged (msg : Message) : bool :=
  match msg with
  | Text s => String.prefix errorPrefix s
  | Structured _ => false
  end.

(** [msg === expectedReply] *)
Definition isExpected (expected : string) (msg : Message) : bool :=
  match msg with
  | Text s => String.eqb s expected
  | Structured _ => false
  end.

(** [cleanup()] followed by [resolve()] or [reject(...)]; a promise that
    has already settled (by the timer) keeps its outcome. *)
Definition finish (h : Handshake) (o : Outcome) : Handshake :=
  mkHandshake (command h) (expectedReply h) (timerMs h) false
              (match outcome h with
               | None => Some o
               | Some first => Some first
               end).

Definition deliver (h : Handshake) (ev : WorkerEvent) : Handshake :=
  match ev with
  | OnMessage msg =>
      if listening h then
        if isErrorTagged msg then h
        else if isExpected (expectedReply h) msg then finish h Succeeded
        else finish h (Failed (Unexpected (expectedReply h) msg))
      else h
  | OnError err =>
      if listening h then finish h (Failed (WorkerFailed err)) else h
  | OnExit code =>
      if listening h then finish h (Failed (ExitedEarly code)) else h
  | TimerFired =>
      match outcome h with
      | None =>
          mkHandshake (command h) (expectedReply h) (timerMs h) (listening h)
                      (Some (Failed (TimedOut (timerMs h))))
      | Some _ => h
      end
  end.

Definition deliverAll (h : Handshake) (evs : list WorkerEvent) : Handshake :=
  fold_left deliver evs h.

(** Worker options that set only the ready timeout. *)
Definition shortReady : Field WorkerOptions :=
  Value (mkWorkerOptions Absent (Num 10)).

Definition withReadyTimeout (r : Field Z) (w : WorkerOptions) : WorkerOptions :=
  mkWorkerOptions (closeTimeout w) r.

End Handshake.

(* ------------------------------------------------------------------ *)
(** * transport.ts: the abstract transport *)
Module Transport.

(** A log record; its content does not matter to the delivery core. *)
Abbreviation Log := nat.

(** What travels to the worker. *)
Inductive WireMessage : Type :=
| WireLog (l : Log)
| WireRaw (data : string).

(** What a [TransportError] is about. *)
Inductive Subject : Type :=
| ForLog (l : Log)
| ForBatch (b : list Log)
| ForData (attempt : option Z)
| ForStats (processed requested queued : Z).

Record TransportError : Type := mkTransportError {
  err : Thrown;
  subject : Subject
}.

(** The fields of [Transport].  [worker] holds, for an offloaded
    transport, the messages posted to the worker so far; [onError] is
    [options.onError] (or the default, [console.error]); [reported] lists
    what has reached the error channel.  The transport runs in the main
    thread ([parentPort] is null). *)
Record Core : Type := mkCore {
  isClosing : bool;
  isClosed : bool;
  logRequests : Z;
  logProcessed : Z;
  worker : option (list WireMessage);
  queue : JobQueue.AsyncJobQueue;
  onError : TransportError -> Completion unit;
  reported : list TransportError
}.

Definition withRequests (n : Z) (c : Core) : Core :=
  mkCore (isClosing c) (isClosed c) n (logProcessed c) (worker c) (queue c)
         (onError c) (reported c).

Definition withProcessed (n : Z) (c : Core) : Core :=
  mkCore (isClosing c) (isClosed c) (logRequests c) n (worker c) (queue c)
         (onError c) (reported c).

Definition withQueue (q : JobQueue.AsyncJobQueue) (c : Core) : Core :=
  mkCore (isClosing c) (isClosed c) (logRequests c) (logProcessed c) (worker c)
         q (onError c) (reported c).

Definition withWorker (w : option (list WireMessage)) (c : Core) : Core :=
  mkCore (isClosing c) (isClosed c) (logRequests c) (logProcessed c) w
         (queue c) (onError c) (reported c).

Definition withFlags (closing closed : bool) (c : Core) : Core :=
  mkCore closing closed (logRequests c) (logProcessed c) (worker c) (queue c)
         (onError c) (reported c).

Definition withReported (r : list TransportError) (c : Core) : Core :=
  mkCore (isClosing c) (isClosed c) (logRequests c) (logProcessed c) (worker c)
         (queue c) (onError c) r.

(** [this.logProcessed += n] *)
Definition addProcessed (n : Z) (c : Core) : Core :=
  withProcessed (logProcessed c + n) c.

(** [handleError(err)] in the main thread: the error callback is invoked
    with the normalized error. *)
Definition handleError (e : TransportError) (c : Core) : Completion unit * Core :=
  (onError c e, withReported (reported c ++ [e]) c).

(** [handleError] inside a promise chain, where what the callback throws
    only rejects that chain. *)
Definition note (e : TransportError) (c : Core) : Core :=
  snd (handleError e c).

Definition closedError : Thrown :=
  plainError "Transport is closed and cannot process new log request.".

Definition closingError : Thrown :=
  plainError "Transport is closing and cannot process new log request.".

(** [checkTransportState()] *)
Definition checkTransportState (c : Core) : Completion unit :=
  if isClosed c then Throws closedError
  else if isClosing c then Throws closingError
  else Returns tt.

(** [worker.postMessage(msg)] on an offloaded transport. *)
Definition post (postMessage : WireMessage -> Completion unit)
           (msg : WireMessage) (posted : list WireMessage) (c : Core)
  : Completion unit * Core :=
  match postMessage msg with
  | Throws e => (Throws e, c)
  | Returns _ => (Returns tt, withWorker (Some (posted ++ [msg])) c)
  end.

Section Calls.
Context {S : Type}.
(** The sink's [doLog] hook: it may change the transport and the sink,
    and it may throw after having done so. *)
Variable doLog : Log -> Core -> S -> Completion unit * Core * S.
(** Whether [worker.postMessage] accepts a message (it throws when the
    value cannot be cloned). *)
Variable postMessage : WireMessage -> Completion unit.

(** The [try] block of [log]. *)
Definition tryLog (l : Log) (c : Core) (s : S) : Completion unit * Core * S :=
  let c1 := withRequests (logRequests c + 1) c in
  match checkTransportState c1 with
  | Throws e => (Throws e, c1, s)
  | Returns _ =>
      match worker c1 with
      | Some posted =>
          let '(r, c2) := post postMessage (WireLog l) posted c1 in (r, c2, s)
      | None => doLog l c1 s
      end
  end.

(** [log(log)]; the per-transport context merged into the record leaves
    its identity alone. *)
Definition log (l : Log) (c : Core) (s : S) : Completion unit * Core * S :=
  match tryLog l c s with
  | (Returns _, c2, s2) => (Returns tt, c2, s2)
  | (Throws e, c2, s2) =>
      let '(r, c3) := handleError (mkTransportError e (ForLog l))
                                  (addProcessed 1 c2) in
      (r, c3, s2)
  end.

(** The payload of [raw]: the text and what [JSON.parse] makes of it. *)
Record RawData : Type := mkRawData {
  rawText : string;
  rawParsed : Completion Log
}.

(** The [try] block of [raw]. *)
Definition tryRaw (data : RawData) (posted : list WireMessage) (c : Core)
  : Completion unit * Core :=
  let c1 := withRequests (logRequests c + 1) c in
  match checkTransportState c1 with
  | Throws e => (Throws e, c1)
  | Returns _ => post postMessage (WireRaw (rawText data)) posted c1
  end.

(** [raw(data)]: in the [catch] block [JSON.parse(data)] is evaluated
    before [handleError] is called, so that what it throws leaves the
    call. *)
Definition raw (data : RawData) (c : Core) : Completion unit * Core :=
  match worker c with
  | None => (Throws (plainError "Not supported in main thread"), c)
  | Some posted =>
      match tryRaw data posted c with
      | (Returns _, c2) => (Returns tt, c2)
      | (Throws e, c2) =>
          let c3 := addProcessed 1 c2 in
          match rawParsed data with
          | Throws pe => (Throws pe, c3)
          | Returns l => handleError (mkTransportError e (ForLog l)) c3
          end
      end
  end.

(** A call of the logging surface. *)
Inductive Call : Type :=
| CallLog (l : Log)
| CallRaw (data : RawData).

Definition perform (call : Call) (c : Core) (s : S)
  : Completion unit * Core * S :=
  match call with
  | CallLog l => log l c s
  | CallRaw data => let '(r, c') := raw data c in (r, c', s)
  end.

(** The call failed synchronously: it threw, or it reported an error
    before returning. *)
Definition failedSynchronously (call : Call) (c : Core) (s : S) : Prop :=
  let '(r, c', _) := perform call c s in
  (exists e, r = Throws e) \/
  (List.length (reported c) < List.length (reported c'))%nat.

(** The hook leaves the two counters alone. *)
Definition keepsCounters : Prop :=
  forall l c s r c' s',
    doLog l c s = (r, c', s') ->
    logRequests c' = logRequests c /\ logProcessed c' = logProcessed c.

(** The rule for failing calls as the specification words it: every
    call that fails synchronously is counted once as requested and once
    as processed, and returns. *)
Definition failingCallsCounted : Prop :=
  forall (call : Call) (c : Core) (s : S),
    failedSynchronously call c s ->
    let '(r, c', _) := perform call c s in
    logRequests c' = logRequests c + 1 /\
    logProcessed c' = logProcessed c + 1 /\
    r = Returns tt.

End Calls.

(** [assertStats()]; the flag tells whether the diagnostic was
    reported. *)
Definition assertStats (c : Core) : Completion unit * Core * bool :=
  match worker c with
  | Some _ => (Returns tt, c, false)
  | None =>
      if negb (logProcessed c =? logRequests c)
         || (0 <? JobQueue.length (queue c))
      then
        let '(r, c') :=
          handleError
            (mkTransportError
               (plainError "The stats gathered on close indicates a problem")
               (ForStats (logProcessed c) (logRequests c)
                         (JobQueue.length (queue c)))) c in
        (r, c', true)
      else (Returns tt, c, false)
  end.

(** ** A transport that is not offloaded, as a machine

    The sink supplies the hooks; [Env] is what the environment answers
    during a synchronous hook (formatter, file system, clock) and [Done]
    names the completions of the sink's asynchronous work. *)
Record Sink : Type := mkSink {
  State : Type;
  Env : Type;
  Done : Type;
  (** [doLog(log)] *)
  doLog : Env -> Log -> Core -> State -> Completion unit * Core * State;
  (** [doFlushAndWait()] up to its [await this.queue?.drain()] *)
  beforeDrain : Env -> Core -> State -> Completion unit * Core * State;
  (** a tick of the flush timer, when one is running *)
  onTimer : Env -> Core -> State -> option (Completion unit * Core * State);
  (** an asynchronous operation completes; also returns the [drain()]
      callers released by it *)
  onDone : Done -> Core -> State -> option (Core * State * list JobQueue.Waiter);
  (** [doClose()] up to its [await], and after it *)
  closeBegin : Core -> State -> Core * State;
  closeEnd : Core -> State -> Core * State
}.

(** Where a [close()] call stands. *)
Inductive Phase : Type :=
| Open
| Polling (snapshot : Z) (drained : bool)
    (* in [waitUntil]'s condition, at [await queue.drain()] *)
| Sleeping (snapshot : Z)
    (* in [waitUntil]'s delay between two checks *)
| ClosingSink
    (* at [await this.doClose()] *)
| Completed
| Rejected (e : Thrown).

Record Machine (K : Sink) : Type := mkMachine {
  core : Core;
  sink : State K;
  phase : Phase;
  alarm : bool   (* [assertStats] has reported its diagnostic *)
}.
Arguments mkMachine {K}.
Arguments core {K}.
Arguments sink {K}.
Arguments phase {K}.
Arguments alarm {K}.

Inductive Event (K : Sink) : Type :=
| LogCall (env : Env K) (l : Log)
| TimerTick (env : Env K)
| Settled (d : Done K)
| CloseCall (env : Env K)
| Resumed                     (* the awaited [drain()] has completed *)
| Woken (env : Env K)         (* [waitUntil]'s delay has elapsed *)
| SinkClosed (r : Completion unit). (* [doClose()] has settled *)
Arguments LogCall {K}.
Arguments TimerTick {K}.
Arguments Settled {K}.
Arguments CloseCall {K}.
Arguments Resumed {K}.
Arguments Woken {K}.
Arguments SinkClosed {K}.

(** The waiter of the [drain()] awaited by [flushAndWait]. *)
Definition closeWaiter : JobQueue.Waiter := 0%nat.

Section Machine.
Variable K : Sink.

(** One evaluation of [waitUntil]'s condition up to its [await]:
    [doFlushAndWait()] runs its synchronous part and asks the queue to
    drain. *)
Definition poll (env : Env K) (c : Core) (s : State K) (snapshot : Z)
           (a : bool) : Machine K :=
  match beforeDrain K env c s with
  | (Throws e, c', s') => mkMachine c' s' (Rejected e) a
  | (Returns _, c', s') =>
      let '(q, now) := JobQueue.drain closeWaiter (queue c') in
      mkMachine (withQueue q c') s' (Polling snapshot now) a
  end.

Definition release (released : list JobQueue.Waiter) (p : Phase) : Phase :=
  match p with
  | Polling snapshot drained =>
      Polling snapshot (drained || existsb (Nat.eqb closeWaiter) released)
  | _ => p
  end.

Definition step (m : Machine K) (e : Event K) : option (Machine K) :=
  match e with
  | LogCall env l =>
      let '(_, c, s) := log (doLog K env) (fun _ => Returns tt) l
                            (core m) (sink m) in
      Some (mkMachine c s (phase m) (alarm m))
  | TimerTick env =>
      match onTimer K env (core m) (sink m) with
      | Some (_, c, s) => Some (mkMachine c s (phase m) (alarm m))
      | None => None
      end
  | Settled d =>
      match onDone K d (core m) (sink m) with
      | Some (c, s, released) =>
          Some (mkMachine c s (release released (phase m)) (alarm m))
      | None => None
      end
  | CloseCall env =>
      (* [close()]: [this.isClosing = true], then [flushAndWait()] *)
      match phase m with
      | Open =>
          let c := withFlags true (isClosed (core m)) (core m) in
          Some (poll env c (sink m) (logRequests c) (alarm m))
      | _ => None
      end
  | Resumed =>
      (* [return this.logProcessed >= logRequests] *)
      match phase m with
      | Polling snapshot true =>
          if snapshot <=? logProcessed (core m) then
            let '(c, s) := closeBegin K (core m) (sink m) in
            Some (mkMachine c s ClosingSink (alarm m))
          else Some (mkMachine (core m) (sink m) (Sleeping snapshot) (alarm m))
      | _ => None
      end
  | Woken env =>
      match phase m with
      | Sleeping snapshot =>
          Some (poll env (core m) (sink m) snapshot (alarm m))
      | _ => None
      end
  | SinkClosed r =>
      (* [this.assertStats(); this.isClosed = true] *)
      match phase m with
      | ClosingSink =>
          match r with
          | Throws e =>
              Some (mkMachine (core m) (sink m) (Rejected e) (alarm m))
          | Returns _ =>
              let '(c, s) := closeEnd K (core m) (sink m) in
              match assertStats c with
              | (Throws e, c', a) =>
                  Some (mkMachine c' s (Rejected e) (alarm m || a))
              | (Returns _, c', a) =>
                  Some (mkMachine (withFlags (isClosing c') true c') s
                                  Completed (alarm m || a))
              end
          end
      | _ => None
      end
  end.

Fixpoint run (m : Machine K) (es : list (Event K)) : option (Machine K) :=
  match es with
  | [] => Some m
  | e :: es' =>
      match step m e with
      | Some m' => run m' es'
      | None => None
      end
  end.

Definition isLogCall (e : Event K) : bool :=
  match e with
  | LogCall _ _ => true
  | _ => false
  end.

Definition isCloseCall (e : Event K) : bool :=
  match e with
  | CloseCall _ => true
  | _ => false
  end.

End Machine.

Arguments step {K}.
Arguments run {K}.
Arguments isLogCall {K}.
Arguments isCloseCall {K}.

(** ** Accounting

    A sink accounts for the entries it has accepted when every hook keeps
    [logProcessed + owed] where it was, [owed] counting the accepted
    entries not yet counted as processed; [doLog] adds one to it when it
    returns and nothing when it throws, the entry then being counted by
    the [catch] of [log]. *)
Record Accounting (K : Sink) : Type := mkAccounting {
  good : JobQueue.AsyncJobQueue -> State K -> Prop;
  owed : JobQueue.AsyncJobQueue -> State K -> Z
}.
Arguments good {K}.
Arguments owed {K}.

(** The hook left the flags, the request counter, the worker and the
    callback alone. *)
Definition same (c c' : Core) : Prop :=
  isClosing c' = isClosing c /\ isClosed c' = isClosed c /\
  logRequests c' = logRequests c /\ worker c' = worker c /\
  onError c' = onError c.

Definition keeps {K : Sink} (A : Accounting K) (extra : Z)
           (c : Core) (s : State K) (c' : Core) (s' : State K) : Prop :=
  good A (queue c') s' /\ same c c' /\
  logProcessed c <= logProcessed c' /\
  logProcessed c' + owed A (queue c') s'
  = logProcessed c + owed A (queue c) s + extra.

Record Lawful (K : Sink) (A : Accounting K) : Prop := mkLawful {
  law_nonneg : forall q s, good A q s -> 0 <= owed A q s;
  law_queue : forall q s, good A q s -> JobQueue.length q <= owed A q s;
  law_drain : forall q s w,
      good A q s ->
      good A (fst (JobQueue.drain w q)) s /\
      owed A (fst (JobQueue.drain w q)) s = owed A q s;
  law_doLog : forall env l c s r c' s',
      good A (queue c) s -> doLog K env l c s = (r, c', s') ->
      keeps A (match r with Returns _ => 1 | Throws _ => 0 end) c s c' s';
  law_beforeDrain : forall env c s r c' s',
      good A (queue c) s -> beforeDrain K env c s = (r, c', s') ->
      keeps A 0 c s c' s';
  law_onTimer : forall env c s r c' s',
      good A (queue c) s -> onTimer K env c s = Some (r, c', s') ->
      keeps A 0 c s c' s';
  law_onDone : forall d c s c' s' released,
      good A (queue c) s -> onDone K d c s = Some (c', s', released) ->
      keeps A 0 c s c' s';
  law_closeBegin : forall c s c' s',
      good A (queue c) s -> closeBegin K c s = (c', s') -> keeps A 0 c s c' s';
  law_closeEnd : forall c s c' s',
      good A (queue c) s -> closeEnd K c s = (c', s') -> keeps A 0 c s c' s'
}.

(** The counters of a machine are in balance. *)
Record Balanced {K : Sink} (A : Accounting K) (m : Machine K) : Prop :=
  mkBalanced {
  bal_good : good A (queue (core m)) (sink m);
  bal_eq : logProcessed (core m) + owed A (queue (core m)) (sink m)
           = logRequests (core m);
  bal_local : worker (core m) = None;
  bal_open : phase m = Open -> alarm m = false
}.

(** Where a [close()] that started with [R] requests can be. *)
Definition closingWith {K : Sink} (R : Z) (m : Machine K) : Prop :=
  logRequests (core m) = R /\
  match phase m with
  | Open => False
  | Polling snapshot _ => snapshot = R /\ alarm m = false
  | Sleeping snapshot => snapshot = R /\ alarm m = false
  | ClosingSink => R <= logProcessed (core m) /\ alarm m = false
  | Completed => logProcessed (core m) = R /\ alarm m = false /\
                 JobQueue.length (queue (core m)) = 0
  | Rejected _ => True
  end.

(** The transport as its constructor leaves it. *)
Definition newCore (concurrency : option Z)
           (callback : TransportError -> Completion unit) : Core :=
  mkCore false false 0 0 None (JobQueue.create concurrency) callback [].

Definition quiet (_ : TransportError) : Completion unit := Returns tt.

(** A transport after [close()], a sink hook that accepts everything, a
    worker that accepts every message, and a serialized record. *)
Definition closedCore : Core := withFlags true true (newCore None quiet).

Definition acceptAll (_ : Log) (c : Core) (s : unit)
  : Completion unit * Core * unit := (Returns tt, c, s).

Definition postOk (_ : WireMessage) : Completion unit := Returns tt.

Definition sampleRaw : RawData := mkRawData "{}" (Returns 7%nat).

(** An error callback that throws. *)
Definition callbackError : Thrown := plainError "callback failed".

Definition throwing (_ : TransportError) : Completion unit :=
  Throws callbackError.

(** A closed transport with a worker. *)
Definition closedOffloaded : Core := withWorker (Some []) closedCore.

(** Text that is no JSON, with what [JSON.parse] throws for it. *)
Definition syntaxError : Thrown :=
  mkThrown (Some "SyntaxError"%string) None None
           "Unexpected token 'h', ...is not valid JSON".

Definition notJson : RawData := mkRawData "hello" (Throws syntaxError).

End Transport.

(* ------------------------------------------------------------------ *)
(** * consoleTransport.ts *)
Module ConsoleSink.
Import Transport.

(** [useJobQueue], and the writes to standard output that are under way;
    a write is named by the record it writes. *)
Record State : Type := mkState {
  useJobQueue : bool;
  writes : list Log
}.

(** What [this.format(log)] does for the record being logged. *)
Definition Env : Type := Completion string.

(** [writeAsync(process.stdout, line)] has settled. *)
Inductive Done : Type :=
| WriteSettled (l : Log) (outcome : Completion unit).

(** [doLog(log)]: with the job queue the write starts when the queue
    calls the job, otherwise at once. *)
Definition doLog (format : Env) (l : Log) (c : Core) (s : State)
  : Completion unit * Core * State :=
  match format with
  | Throws e => (Throws e, c, s)
  | Returns _ =>
      if useJobQueue s then
        let '(q, started) := JobQueue.enqueue l (queue c) in
        (Returns tt, withQueue q c, mkState (useJobQueue s) (writes s ++ started))
      else (Returns tt, c, mkState (useJobQueue s) (writes s ++ [l]))
  end.

(** [.catch((err) => this.handleError({ err, log }))
     .finally(() => { ++this.logProcessed })], followed for a queued job
    by the queue's own [.finally]. *)
Definition onDone (d : Done) (c : Core) (s : State)
  : option (Core * State * list JobQueue.Waiter) :=
  match d with
  | WriteSettled l outcome =>
      if existsb (Nat.eqb l) (writes s) then
        let c1 := match outcome with
                  | Throws e => note (mkTransportError e (ForLog l)) c
                  | Returns _ => c
                  end in
        let c2 := addProcessed 1 c1 in
        if useJobQueue s then
          let '(q, started, released) := JobQueue.onJobSettled (queue c2) in
          Some (withQueue q c2,
                mkState (useJobQueue s)
                        (JobQueue.removeFirst l (writes s) ++ started),
                released)
        else
          Some (c2, mkState (useJobQueue s) (JobQueue.removeFirst l (writes s)),
                [])
      else None
  end.

(** [flush() {}], [doFlushAndWait()] only drains, [doClose() {}], and no
    timer. *)
Definition sink : Sink :=
  mkSink State Env Done doLog
         (fun _ c s => (Returns tt, c, s))
         (fun _ _ _ => None)
         onDone
         (fun c s => (c, s))
         (fun c s => (c, s)).

Definition accounting : Accounting sink :=
  mkAccounting sink (fun _ _ => True)
               (fun q s => JobQueue.length q + Z.of_nat (List.length (writes s))).

(** [new ConsoleTransport(levels, { useJobQueue, concurrency })] *)
Definition create (useQueue : bool) (concurrency : option Z)
           (callback : TransportError -> Completion unit) : Machine sink :=
  @mkMachine sink (newCore concurrency callback) (mkState useQueue []) Open
             false.

End ConsoleSink.

(* ------------------------------------------------------------------ *)
(** * httpTransport.ts *)
Module HttpSink.
Import Transport.

(** [batchSize] (at least 1: with 0 the loop of [flush] does not end),
    the retry options, the buffer, the send jobs enqueued and not yet
    settled with their batches, the jobs the queue has called, the next
    job number and whether the flush timer runs.  [dropped] only keeps
    the books: it counts the entries of batches whose job failed before
    its guaranteed-run block. *)
Record State : Type := mkState {
  batchSize : nat;
  retry : Retry.RetryOption;
  buffer : list Log;
  jobs : list (nat * list Log);
  running : list nat;
  nextJob : nat;
  timerOn : bool;
  dropped : nat
}.

Definition Env : Type := unit.

(** A send job has settled.  [prepared] is what formatting the batch,
    [new URL(...)] and [authenticator.apply] did before [withRetry];
    [attempts] are the outcomes of the requests. *)
Inductive Done : Type :=
| SendSettled (id : nat) (prepared : Completion unit)
              (attempts : nat -> Completion unit).

(** The [while (this.buffer.length)] loop of [flush]; [fuel] is the
    length of the buffer. *)
Fixpoint flushLoop (fuel : nat) (c : Core) (s : State) : Core * State :=
  match fuel with
  | O => (c, s)
  | S fuel' =>
      match buffer s with
      | [] => (c, s)
      | _ :: _ =>
          let batch := firstn (batchSize s) (buffer s) in
          let id := nextJob s in
          let '(q, started) := JobQueue.enqueue id (queue c) in
          flushLoop fuel' (withQueue q c)
                    (mkState (batchSize s) (retry s)
                             (skipn (batchSize s) (buffer s))
                             (jobs s ++ [(id, batch)])
                             (running s ++ started) (S id) (timerOn s)
                             (dropped s))
      end
  end.

Definition flush (c : Core) (s : State) : Core * State :=
  flushLoop (List.length (buffer s)) c s.

Definition push (l : Log) (s : State) : State :=
  mkState (batchSize s) (retry s) (buffer s ++ [l]) (jobs s) (running s)
          (nextJob s) (timerOn s) (dropped s).

(** [doLog(log)] *)
Definition doLog (_ : Env) (l : Log) (c : Core) (s : State)
  : Completion unit * Core * State :=
  let s1 := push l s in
  if (batchSize s1 <=? List.length (buffer s1))%nat then
    let '(c', s') := flush c s1 in (Returns tt, c', s')
  else (Returns tt, c, s1).

(** isRetryableHttpError.ts *)
Definition isRetryableHttpError (e : Thrown) : bool :=
  match errStatus e with
  | None => true
  | Some status =>
      ((500 <=? status) && (status <? 600))
      || (status =? 408) || (status =? 429)
  end.

(** The [onError] callback handed to [withRetry] by [sendBatch]. *)
Definition onAttemptFailed (_ : Z) (e : Thrown)
  : Completion (option Retry.RetryAction) :=
  Returns (Some (if isRetryableHttpError e then Retry.CONTINUE
                 else Retry.STOP)).

Fixpoint takeJob (id : nat) (l : list (nat * list Log))
  : option (list Log * list (nat * list Log)) :=
  match l with
  | [] => None
  | (k, b) :: l' =>
      if Nat.eqb k id then Some (b, l')
      else match takeJob id l' with
           | Some (b', rest) => Some (b', (k, b) :: rest)
           | None => None
           end
  end.

Definition noteAll (batch : list Log) (errs : list Thrown) (c : Core) : Core :=
  fold_left (fun acc e => note (mkTransportError e (ForBatch batch)) acc) errs c.

(** The errors [sendBatch] reports for its requests: one per failed
    attempt, and the final one when [withRetry] rejects. *)
Definition sendReports (r : Retry.RetryOption) (attempts : nat -> Completion unit)
  : list Thrown :=
  match Retry.withRetry attempts r (Some onAttemptFailed) None with
  | Some run =>
      map snd (Retry.reported run) ++
      match Retry.settled run with
      | Retry.Fulfilled _ => []
      | Retry.Rejected (Retry.Rethrown e) => [e]
      | Retry.Rejected (Retry.AttemptsFailed _ _) =>
          [plainError "Operation failed"]
      end
  | None => []
  end.

(** A send job settles: its reports, then
    [.finally(() => { this.logProcessed += batch.length })] unless the
    job failed before [withRetry], then the queue's [.finally]. *)
Definition onDone (d : Done) (c : Core) (s : State)
  : option (Core * State * list JobQueue.Waiter) :=
  match d with
  | SendSettled id prepared attempts =>
      if existsb (Nat.eqb id) (running s) then
        match takeJob id (jobs s) with
        | Some (batch, rest) =>
            let '(c1, lost) :=
              match prepared with
              | Throws _ => (c, List.length batch)
              | Returns _ =>
                  (addProcessed (Z.of_nat (List.length batch))
                                (noteAll batch (sendReports (retry s) attempts) c),
                   0%nat)
              end in
            let '(q, started, released) := JobQueue.onJobSettled (queue c1) in
            Some (withQueue q c1,
                  mkState (batchSize s) (retry s) (buffer s) rest
                          (JobQueue.removeFirst id (running s) ++ started)
                          (nextJob s) (timerOn s) (dropped s + lost),
                  released)
        | None => None
        end
      else None
  end.

(** The flush timer: [setInterval(() => this.flush(), flushInterval)] *)
Definition onTimer (_ : Env) (c : Core) (s : State)
  : option (Completion unit * Core * State) :=
  if timerOn s then let '(c', s') := flush c s in Some (Returns tt, c', s')
  else None.

(** [doFlushAndWait()]: [this.flush()] *)
Definition beforeDrain (_ : Env) (c : Core) (s : State)
  : Completion unit * Core * State :=
  let '(c', s') := flush c s in (Returns tt, c', s').

(** [doClose()]: [this.stopFlushTimer()] *)
Definition closeBegin (c : Core) (s : State) : Core * State :=
  (c, mkState (batchSize s) (retry s) (buffer s) (jobs s) (running s)
              (nextJob s) false (dropped s)).

Definition sink : Sink :=
  mkSink State Env Done doLog beforeDrain onTimer onDone closeBegin
         (fun c s => (c, s)).

Definition batchTotal (l : list (nat * list Log)) : nat :=
  list_sum (map (fun jb => List.length (snd jb)) l).

Definition accounting : Accounting sink :=
  mkAccounting sink
    (fun q s =>
       (1 <= batchSize s)%nat /\
       Permutation (map fst (jobs s)) (JobQueue.queue q ++ running s) /\
       Forall (fun jb => (1 <= List.length (snd jb))%nat) (jobs s))
    (fun q s =>
       Z.of_nat (List.length (buffer s) + batchTotal (jobs s) + dropped s)).

(** [new HttpTransport(levels, { batchSize, retry, concurrency })] *)
Definition create (size : nat) (r : Retry.RetryOption)
           (concurrency : option Z)
           (callback : TransportError -> Completion unit) : Machine sink :=
  @mkMachine sink (newCore concurrency callback)
             (mkState size r [] [] [] 0 true 0) Open false.

End HttpSink.

(* ------------------------------------------------------------------ *)
(** * fileTransport.ts *)
Module FileSink.
Import Transport.

(** What the environment answers during one [flush()]: [ensureDir]
    ([existsSync], [mkdirSync]), the size [statSync] reports in
    [openStream] ([None] when it throws), the clock read by
    [shouldRotate], and the formatter. *)
Record Env : Type := mkEnv {
  ensureDir : Completion unit;
  statSize : option Z;
  now : string;
  format : list Log -> Completion string
}.

(** The batch a rotation in progress holds in its closure, and whether
    [queue.drain()] has resolved so that [rotator.rotate] runs. *)
Record Held : Type := mkHeld {
  heldBody : string;
  heldBatch : list Log;
  rotateCalled : bool
}.

(** The fields of [FileTransport], then its asynchronous work: the write
    jobs enqueued and not settled with the number of entries of each, the
    jobs the queue has called, the next job number. *)
Record State : Type := mkState {
  batchSize : nat;
  retry : Retry.RetryOption;
  rotator : option Rotator.FileRotator;
  isOpen : bool;
  currentSize : Z;
  buffer : list Log;
  isRotating : bool;
  isFlushing : bool;
  timerOn : bool;
  jobs : list (nat * nat);
  running : list nat;
  nextJob : nat;
  held : option Held
}.

Definition setFlushing (b : bool) (s : State) : State :=
  mkState (batchSize s) (retry s) (rotator s) (isOpen s) (currentSize s)
          (buffer s) (isRotating s) b (timerOn s) (jobs s) (running s)
          (nextJob s) (held s).

Definition setBuffer (b : list Log) (s : State) : State :=
  mkState (batchSize s) (retry s) (rotator s) (isOpen s) (currentSize s) b
          (isRotating s) (isFlushing s) (timerOn s) (jobs s) (running s)
          (nextJob s) (held s).

Definition setRotator (r : option Rotator.FileRotator) (s : State) : State :=
  mkState (batchSize s) (retry s) r (isOpen s) (currentSize s) (buffer s)
          (isRotating s) (isFlushing s) (timerOn s) (jobs s) (running s)
          (nextJob s) (held s).

Definition setStream (open : bool) (size : Z) (s : State) : State :=
  mkState (batchSize s) (retry s) (rotator s) open size (buffer s)
          (isRotating s) (isFlushing s) (timerOn s) (jobs s) (running s)
          (nextJob s) (held s).

Definition setRotation (rotating : bool) (h : option Held) (s : State) : State :=
  mkState (batchSize s) (retry s) (rotator s) (isOpen s) (currentSize s)
          (buffer s) rotating (isFlushing s) (timerOn s) (jobs s) (running s)
          (nextJob s) h.

Definition setTimer (b : bool) (s : State) : State :=
  mkState (batchSize s) (retry s) (rotator s) (isOpen s) (currentSize s)
          (buffer s) (isRotating s) (isFlushing s) b (jobs s) (running s)
          (nextJob s) (held s).

Definition setJobs (j : list (nat * nat)) (r : list nat) (n : nat) (s : State)
  : State :=
  mkState (batchSize s) (retry s) (rotator s) (isOpen s) (currentSize s)
          (buffer s) (isRotating s) (isFlushing s) (timerOn s) j r n (held s).

(** The waiter of the [drain()] that precedes a rotation. *)
Definition rotationWaiter : JobQueue.Waiter := 1%nat.

(** [openStream()] *)
Definition openStream (env : Env) (s : State) : State :=
  setStream true (match statSize env with Some n => n | None => 0 end) s.

(** [sendBody(body, length)]: the job writes the body with retries and,
    in its [finally], adds [length] to [logProcessed]. *)
Definition sendBody (body : string) (count : nat) (c : Core) (s : State)
  : Core * State :=
  let s1 := setStream (isOpen s)
                      (currentSize s + Z.of_nat (String.length body)) s in
  let id := nextJob s1 in
  let '(q, started) := JobQueue.enqueue id (queue c) in
  (withQueue q c,
   setJobs (jobs s1 ++ [(id, count)]) (running s1 ++ started) (S id) s1).

(** [this.currentSize != 0 && rotator &&
     rotator.shouldRotate(this.currentSize + body.length)] *)
Definition wantsRotation (env : Env) (body : string) (s : State)
  : bool * State :=
  if currentSize s =? 0 then (false, s)
  else
    match rotator s with
    | None => (false, s)
    | Some r =>
        let '(yes, r') :=
          Rotator.shouldRotate r (now env)
            (currentSize s + Z.of_nat (String.length body)) in
        (yes, setRotator (Some r') s)
    end.

(** The [while (this.buffer.length)] loop of [flush]; [fuel] is the
    length of the buffer. *)
Fixpoint flushLoop (env : Env) (fuel : nat) (c : Core) (s : State)
  : Completion unit * Core * State :=
  match fuel with
  | O => (Returns tt, c, s)
  | S fuel' =>
      match buffer s with
      | [] => (Returns tt, c, s)
      | _ :: _ =>
          let batch := firstn (batchSize s) (buffer s) in
          let s1 := setBuffer (skipn (batchSize s) (buffer s)) s in
          match format env batch with
          | Throws e =>
              (* [catch (err) { this.handleError({ err, batch }) }] *)
              match handleError (mkTransportError e (ForBatch batch)) c with
              | (Throws e', c') => (Throws e', c', s1)
              | (Returns _, c') => flushLoop env fuel' c' s1
              end
          | Returns body =>
              let '(rotate, s2) := wantsRotation env body s1 in
              if rotate then
                (* [this.isRotating = true; queue.drain().then(...); return] *)
                let '(q, now) := JobQueue.drain rotationWaiter (queue c) in
                (Returns tt, withQueue q c,
                 setRotation true (Some (mkHeld body batch now)) s2)
              else
                let '(c', s3) := sendBody body (List.length batch) c s2 in
                flushLoop env fuel' c' s3
          end
      end
  end.

(** [flush()] *)
Definition flush (env : Env) (c : Core) (s : State)
  : Completion unit * Core * State :=
  if isFlushing s then (Returns tt, c, s)
  else if isRotating s then (Returns tt, c, s)
  else
    let s1 := setFlushing true s in
    let '(r, c', s2) :=
      if isOpen s1 then flushLoop env (List.length (buffer s1)) c s1
      else
        match ensureDir env with
        | Throws e => (Throws e, c, s1)
        | Returns _ =>
            flushLoop env (List.length (buffer s1)) c (openStream env s1)
        end in
    (* [finally { this.isFlushing = false }] *)
    (r, c', setFlushing false s2).

(** [doLog(log)] *)
Definition doLog (env : Env) (l : Log) (c : Core) (s : State)
  : Completion unit * Core * State :=
  let s1 := setBuffer (buffer s ++ [l]) s in
  if (batchSize s1 <=? List.length (buffer s1))%nat then flush env c s1
  else (Returns tt, c, s1).

(** What completes asynchronously: a write job (with the outcomes of its
    attempts), or [rotator.rotate] (with the errors it handed to its
    [onError] callback, its result, and the environment of the [flush]
    that follows). *)
Inductive Done : Type :=
| WriteSettled (id : nat) (attempts : nat -> Completion unit)
| RotationSettled (env : Env) (errors : list Thrown) (result : Completion bool).

Fixpoint takeJob (id : nat) (l : list (nat * nat))
  : option (nat * list (nat * nat)) :=
  match l with
  | [] => None
  | (k, n) :: l' =>
      if Nat.eqb k id then Some (n, l')
      else match takeJob id l' with
           | Some (n', rest) => Some (n', (k, n) :: rest)
           | None => None
           end
  end.

(** The errors [writeBody] reports: one per failed attempt through the
    callback given to [withRetry], and the final one through [.catch]. *)
Definition writeReports (r : Retry.RetryOption) (attempts : nat -> Completion unit)
  : list Thrown :=
  match Retry.withRetry attempts r (Some (fun _ _ => Returns None)) None with
  | Some run =>
      map snd (Retry.reported run) ++
      match Retry.settled run with
      | Retry.Fulfilled _ => []
      | Retry.Rejected (Retry.Rethrown e) => [e]
      | Retry.Rejected (Retry.AttemptsFailed _ _) =>
          [plainError "Operation failed"]
      end
  | None => []
  end.

Definition noteAll (about : Subject) (errs : list Thrown) (c : Core) : Core :=
  fold_left (fun acc e => note (mkTransportError e about) acc) errs c.

Definition onDone (d : Done) (c : Core) (s : State)
  : option (Core * State * list JobQueue.Waiter) :=
  match d with
  | WriteSettled id attempts =>
      if existsb (Nat.eqb id) (running s) then
        match takeJob id (jobs s) with
        | Some (count, rest) =>
            (* [this.writeBody(body).finally(() => { this.logProcessed += length })],
               then the queue's [.finally] *)
            let c1 := addProcessed (Z.of_nat count)
                        (noteAll (ForData None)
                                 (writeReports (retry s) attempts) c) in
            let '(q, started, released) := JobQueue.onJobSettled (queue c1) in
            let s1 := setJobs rest
                              (JobQueue.removeFirst id (running s) ++ started)
                              (nextJob s) s in
            let s2 :=
              if existsb (Nat.eqb rotationWaiter) released then
                match held s1 with
                | Some h =>
                    setRotation (isRotating s1)
                                (Some (mkHeld (heldBody h) (heldBatch h) true)) s1
                | None => s1
                end
              else s1 in
            Some (withQueue q c1, s2, released)
        | None => None
        end
      else None
  | RotationSettled env errors result =>
      match held s with
      | Some h =>
          if rotateCalled h then
            (* [rotate] closed the stream and reopened it *)
            let s1 := openStream env s in
            let c1 := noteAll (ForBatch (heldBatch h)) errors c in
            (* [.catch((err) => this.handleError({ err, batch }))] *)
            let c2 := match result with
                      | Throws e =>
                          note (mkTransportError e (ForBatch (heldBatch h))) c1
                      | Returns _ => c1
                      end in
            (* [.finally(() => { this.sendBody(body, batch.length);
                 this.currentSize = 0; this.isRotating = false;
                 this.isFlushing = false; this.flush() })] *)
            let '(c3, s2) := sendBody (heldBody h) (List.length (heldBatch h))
                                      c2 s1 in
            let s3 := setFlushing false
                        (setRotation false None (setStream (isOpen s2) 0 s2)) in
            let '(_, c4, s4) := flush env c3 s3 in
            Some (c4, s4, [])
          else None
      | None => None
      end
  end.

(** The flush timer: [if (this.hasWorker) this.stopFlushTimer() else
    this.flush()] *)
Definition onTimer (env : Env) (c : Core) (s : State)
  : option (Completion unit * Core * State) :=
  if timerOn s then Some (flush env c s) else None.

(** [doClose()]: [this.stopFlushTimer(); await this.closeStream()] *)
Definition closeBegin (c : Core) (s : State) : Core * State :=
  (c, setTimer false s).

Definition closeEnd (c : Core) (s : State) : Core * State :=
  (c, setStream false (currentSize s) s).

Definition sink : Sink :=
  mkSink State Env Done doLog flush onTimer onDone closeBegin closeEnd.

(** [new FileTransport(levels, { filename, batchSize, retry, concurrency })]
    without a rotation policy. *)
Definition create (size : nat) (r : Retry.RetryOption)
           (concurrency : option Z)
           (callback : TransportError -> Completion unit) : Machine sink :=
  @mkMachine sink (newCore concurrency callback)
             (mkState size r None false 0 [] false false true [] [] 0 None)
             Open false.

(** ** The run that breaks the balance

    The directory of the log file cannot be created when the first
    record arrives, and can when [close()] flushes. *)
Definition render (_ : list Log) : Completion string := Returns "line"%string.

Definition dirFails : Env :=
  mkEnv (Throws (mkThrown (Some "Error"%string) (Some "EACCES"%string) None
                          "permission denied, mkdir"))
        None "2025-07-21T10:00:00.000Z" render.

Definition dirThere : Env :=
  mkEnv (Returns tt) None "2025-07-21T10:00:05.000Z" render.

Definition writeOk (_ : nat) : Completion unit := Returns tt.

Definition doubleCountRun : list (Event sink) :=
  [@LogCall sink dirFails 1%nat;
   @CloseCall sink dirThere;
   @Settled sink (WriteSettled 0 writeOk);
   Resumed;
   SinkClosed (Returns tt)].

End FileSink.

(* ------------------------------------------------------------------ *)
(** * withRetry.ts: what a run reports and when it sleeps *)
Module RetryTrace.
Import Retry.

(** The callback invocations [onError(attempt, err)] for [n] failed
    attempts, the first being attempt [first] on invocation [calls]. *)
Fixpoint reportsFrom (errs : nat -> Thrown) (first : Z) (calls n : nat)
  : list (Z * Thrown) :=
  match n with
  | O => []
  | S m => (first, errs calls) :: reportsFrom errs (first + 1) (S calls) m
  end.

(** The attempts, among [n] from [first] on, after which the loop
    sleeps: [if (attempt < maxRetry)]. *)
Fixpoint sleepsFrom (limit first : Z) (n : nat) : list Z :=
  match n with
  | O => []
  | S m => (if first <? limit then [first] else [])
           ++ sleepsFrom limit (first + 1) m
  end.

(** What reaches the callback: nothing when none was given. *)
Definition seen {A B : Type} (onError : option A) (l : list B) : list B :=
  match onError with
  | Some _ => l
  | None => []
  end.

(** The attempts [1; 2; ...; n]. *)
Definition upTo (n : nat) : list Z := map Z.of_nat (seq 1 n).

(** An error as [fetch] wrappers make it: [err.status = status]. *)
Definition httpError (status : Z) : Thrown :=
  mkThrown (Some "Error"%string) None (Some status) "HTTP".

(** An operation that always fails with the same error. *)
Definition alwaysFails (e : Thrown) (_ : nat) : Completion Z := Throws e.

(** A callback that stops on the status 404, as in the example of the
    documentation comment of [withRetry]. *)
Definition stopOn404 (_ : Z) (e : Thrown) : Completion (option RetryAction) :=
  match errStatus e with
  | Some 404 => Returns (Some STOP)
  | _ => Returns None
  end.

(** [makeAbortError('Timed out')] *)
Definition timedOut : Thrown :=
  mkThrown (Some "AbortError"%string) None None "Timed out".

(** Two ordinary failures, then an abort. *)
Definition abortsThird (k : nat) : Completion Z :=
  if (k <? 2)%nat then Throws (plainError "boom") else Throws timedOut.

Definition abortsThirdErrs (k : nat) : Thrown :=
  if (k <? 2)%nat then plainError "boom" else timedOut.

End RetryTrace.

(* ------------------------------------------------------------------ *)
(** * asyncJobQueue.ts: the order in which jobs are called *)
Module QueueTrace.
Import JobQueue.

(** The jobs an event makes the queue call ([job()] in [schedule]), in
    the order of the calls. *)
Definition startedAt (s : System) (e : Event) : list Job :=
  match e with
  | Enqueue j => snd (enqueue j (sq s))
  | Drain _ => []
  | Settle j =>
      if existsb (Nat.eqb j) (inflight s)
      then snd (fst (onJobSettled (sq s)))
      else []
  end.

(** The jobs called along a run, in order. *)
Fixpoint starts (s : System) (es : list Event) : list Job :=
  match es with
  | [] => []
  | e :: es' =>
      match step s e with
      | Some (s', _) => startedAt s e ++ starts s' es'
      | None => []
      end
  end.

(** The jobs handed to [enqueue] along a run, in order. *)
Fixpoint enqueuedJobs (es : list Event) : list Job :=
  match es with
  | [] => []
  | Enqueue j :: es' => j :: enqueuedJobs es'
  | _ :: es' => enqueuedJobs es'
  end.

(** Five jobs on a queue of two slots; the first two settle. *)
Definition fiveJobs : list Event :=
  [Enqueue 1%nat; Enqueue 2%nat; Enqueue 3%nat; Enqueue 4%nat;
   Settle 2%nat; Enqueue 5%nat; Settle 1%nat].

Definition busyQueue : System :=
  match run (init (Some 2)) [Enqueue 1%nat; Enqueue 2%nat] with
  | Some s => s
  | None => init (Some 2)
  end.

End QueueTrace.

(* ------------------------------------------------------------------ *)
(** * fileRotator.ts: the outcomes of a rotation *)
Module RotationCases.
Import Rotator Rotation.

(** [`${base}.${ts}${ext}`] with [ts] the dashed timestamp. *)
Definition rotatedName (p : LogPath) (now : string) : string :=
  (base p ++ "." ++ dashed now ++ ext p)%string.

(** The last two lines of [shouldRotate]:
    [if (!maxSize) return false; return currentSize >= maxSize]. *)
Definition sizeRule (o : RotationOptions) (currentSize : Z) : bool :=
  match maxSize o with
  | None => false
  | Some m => if m =? 0 then false else m <=? currentSize
  end.

(** [this.currentKey = this.computeKey()] *)
Definition withKey (key : option string) (r : FileRotator) : FileRotator :=
  mkRotator key (isRotating r) (rotationPromise r) (path r) (opts r).

(** A rename refused with [EPERM]. *)
Definition denied : Thrown :=
  mkThrown (Some "Error"%string) (Some "EPERM"%string) None
           "operation not permitted, rename".

Definition renameDenied : RotateEnv :=
  mkRotateEnv "2025-07-21T10:00:00.000Z" (fun _ => Throws denied) (Returns tt)
              (fun _ => Returns tt) (Returns sampleDir) (fun _ => Returns tt)
              "2025-07-21T10:00:01.000Z".


(** Hourly rotation, compression, keep nothing. *)
Definition keepNothing : FileRotator :=
  mkRotator (Some "2025-07-21T09"%string) false None
            (mkLogPath "logs/app.log" "logs" "app" ".log")
            (mkRotationOptions None (Some hourly) (Some (Finite 0)) true).

End RotationCases.

(* ------------------------------------------------------------------ *)
(** * abort.ts and waitUntil.ts *)
Module Polling.

(** abort.ts: [makeAbortError(reason)], the reason being a string (or
    the message of an [Error]) or missing. *)
Definition makeAbortError (reason : option string) : Thrown :=
  mkThrown (Some "AbortError"%string) None None
           (match reason with
            | Some r => r
            | None => "The operation was aborted"%string
            end).

(** [WaitUntilOptions] without the signal; a missing property takes the
    default of the parameter list. *)
Record WaitUntilOptions : Type := mkWaitUntilOptions {
  initialInterval : option Z;
  maxInterval : option Z;
  timeout : option Z
}.

Definition noOptions : WaitUntilOptions := mkWaitUntilOptions None None None.

(** [initialInterval = 50] *)
Definition initialOf (o : WaitUntilOptions) : Z :=
  match initialInterval o with Some n => n | None => 50 end.

(** [maxInterval = 30_000] *)
Definition maxOf (o : WaitUntilOptions) : Z :=
  match maxInterval o with Some n => n | None => 30000 end.

(** An [AbortSignal] as [waitUntil] observes it: its reason, whether it
    is aborted when iteration [i] of the loop starts, and whether it
    aborts during the delay of that iteration. *)
Record Signal : Type := mkSignal {
  reason : option string;
  abortedBefore : nat -> bool;
  abortedDuring : nat -> bool
}.

(** What one call did: how it settled, how many times it evaluated the
    condition, and the delays it started. *)
Record Waited (T : Type) : Type := mkWaited {
  outcome : Completion T;
  evaluations : nat;
  delays : list Z
}.
Arguments mkWaited {T}.
Arguments outcome {T}.
Arguments evaluations {T}.
Arguments delays {T}.

(** [`Timed out after ${timeout}ms`] *)
Definition timeoutMessage (t : Z) : string :=
  ("Timed out after " ++ NilZero.string_of_int (Z.to_int t) ++ "ms")%string.

Section WaitUntil.
Context {T : Type}.
(** [condition k] is what evaluation number [k] of the condition gives:
    a truthy value, a falsy one ([None]), or an exception.  [clock 0] is
    the reading taken for [start], [clock (i + 1)] the reading of
    iteration [i]. *)
Variable condition : nat -> Completion (option T).
Variable clock : nat -> Z.
Variable signal : option Signal.
Variable opts : WaitUntilOptions.

(** [if (signal?.aborted) throw makeAbortError(signal.reason)] *)
Definition abortedAt (observe : Signal -> nat -> bool) (i : nat)
  : option Thrown :=
  match signal with
  | Some s => if observe s i then Some (makeAbortError (reason s)) else None
  | None => None
  end.

(** [if (timeout != null && Date.now() - start >= timeout) throw ...] *)
Definition deadlinePassed (i : nat) : option Thrown :=
  match timeout opts with
  | Some t =>
      if t <=? clock (S i) - clock 0
      then Some (makeAbortError (Some (timeoutMessage t)))
      else None
  | None => None
  end.

(** The [while (true)] loop, iteration [i], with [fuel] iterations
    allowed. *)
Fixpoint pollLoop (fuel : nat) (i : nat) (interval : Z) (slept : list Z)
  : option (Waited T) :=
  match fuel with
  | O => None
  | S fuel' =>
      match abortedAt abortedBefore i with
      | Some e => Some (mkWaited (Throws e) (S i) slept)
      | None =>
          match deadlinePassed i with
          | Some e => Some (mkWaited (Throws e) (S i) slept)
          | None =>
              (* [await delay(interval, undefined, { signal })] *)
              match abortedAt abortedDuring i with
              | Some e => Some (mkWaited (Throws e) (S i) (slept ++ [interval]))
              | None =>
                  match condition (S i) with
                  | Returns (Some v) =>
                      Some (mkWaited (Returns v) (S (S i)) (slept ++ [interval]))
                  | Throws e =>
                      Some (mkWaited (Throws e) (S (S i)) (slept ++ [interval]))
                  | Returns None =>
                      pollLoop fuel' (S i) (Z.min (interval * 2) (maxOf opts))
                               (slept ++ [interval])
                  end
              end
          end
      end
  end.

(** [waitUntil(condition, options)] *)
Definition waitUntil (fuel : nat) : option (Waited T) :=
  match condition 0%nat with
  | Returns (Some v) => Some (mkWaited (Returns v) 1 [])
  | Throws e => Some (mkWaited (Throws e) 1 [])
  | Returns None => pollLoop fuel 0 (initialOf opts) []
  end.

(** Iteration [i] passes its checks and its delay. *)
Definition undisturbed (i : nat) : Prop :=
  abortedAt abortedBefore i = None /\ deadlinePassed i = None /\
  abortedAt abortedDuring i = None.

End WaitUntil.

(** The delays of [n] iterations: [interval = Math.min(interval * 2,
    maxInterval)] after each. *)
Fixpoint backoff (interval maxI : Z) (n : nat) : list Z :=
  match n with
  | O => []
  | S m => interval :: backoff (Z.min (interval * 2) maxI) maxI m
  end.

(** How a condition ends the polling: with a truthy value or with an
    exception. *)
Definition lift {T : Type} (final : Completion T) : Completion (option T) :=
  match final with
  | Returns v => Returns (Some v)
  | Throws e => Throws e
  end.

(** A condition that turns truthy at its fourth evaluation, a clock that
    advances by 40 ms per reading, a limit of 100 ms. *)
Definition fourthTime (k : nat) : Completion (option Z) :=
  if (k <? 3)%nat then Returns None else Returns (Some 7).

Definition never (_ : nat) : Completion (option Z) := Returns None.

Definition ticking (k : nat) : Z := 1000 + 40 * Z.of_nat k.

Definition within100 : WaitUntilOptions :=
  mkWaitUntilOptions (Some 10) (Some 30) (Some 100).

End Polling.

(* ------------------------------------------------------------------ *)
(** * merge.ts *)
Module Merge.

(** What is not a plain object. *)
Inductive Atom : Type :=
| UndefinedA
| NullA
| NumberA (n : Z)
| TextA (s : string)
| ObjectA (shown : string).  (* an array, a function, an instance of a
                                class, with what [String] gives for it *)

(** A JavaScript value as [merge] sees it: a plain object, given by its
    own enumerable keys in the order of [Object.keys] (each key once), or
    anything else. *)
#[warnings="-register-all"]
Inductive Val : Type :=
| Plain (fields : list (string * Val))
| Leaf (a : Atom).

Abbreviation Fields := (list (string * Val)).

(** [obj[key]] *)
Fixpoint get (key : string) (fs : Fields) : option Val :=
  match fs with
  | [] => None
  | (k, v) :: rest => if String.eqb k key then Some v else get key rest
  end.

(** [obj[key] = v]: an existing key keeps its place, a new one comes
    last. *)
Fixpoint set (key : string) (v : Val) (fs : Fields) : Fields :=
  match fs with
  | [] => [(key, v)]
  | (k, v') :: rest =>
      if String.eqb k key then (k, v) :: rest else (k, v') :: set key v rest
  end.

(** The first pass of [mergeInternal(prev, src)]: the keys of [prev]
    go into the fresh result one by one. *)
Definition copy (fs : Fields) : Fields :=
  fold_left (fun result kv => set (fst kv) (snd kv) result) fs [].

(** The value stored under a key whose current value is [prev] when
    [src] arrives (lines 21-27): two plain objects are merged by
    [mergeInternal(prev, src)], anything else is overwritten. *)
Fixpoint absorb (prev : option Val) (src : Val) {struct src} : Val :=
  match src, prev with
  | Plain s, Some (Plain p) =>
      Plain ((fix into (result : Fields) (entries : Fields) {struct entries}
                : Fields :=
                match entries with
                | [] => result
                | (k, v) :: rest =>
                    into (set k (absorb (get k result) v) result) rest
                end) (copy p) s)
  | _, _ => src
  end.

(** The body of the outer loop for one object: [if (!isPlainObject(obj))
    continue], then the loop over its keys. *)
Definition mergeInto (result : Fields) (obj : Val) : Fields :=
  match obj with
  | Plain s =>
      fold_left (fun res kv => set (fst kv) (absorb (get (fst kv) res) (snd kv)) res)
                s result
  | Leaf _ => result
  end.

(** [mergeInternal(...objects)] *)
Definition mergeInternal (objects : list Val) : Fields :=
  fold_left mergeInto objects [].

(** [String(base)] for a base that is no plain object; a number is an
    integer below [10^21] in absolute value, which JavaScript writes in
    decimal. *)
Definition shown (a : Atom) : string :=
  match a with
  | UndefinedA => "undefined"
  | NullA => "null"
  | NumberA n => NilZero.string_of_int (Z.to_int n)
  | TextA s => s
  | ObjectA s => s
  end.

(** [merge(base, ...overrides)] *)
Definition merge (base : Val) (overrides : list Val) : Completion Val :=
  match base with
  | Plain _ => Returns (Plain (mergeInternal (base :: overrides)))
  | Leaf a => Throws (plainError ("merge is not possible with " ++ shown a))
  end.

Definition keys (fs : Fields) : list string := map fst fs.

(** What every object satisfies: at each depth, a key occurs once. *)
Inductive wf : Val -> Prop :=
| wf_leaf (a : Atom) : wf (Leaf a)
| wf_plain (fs : Fields) :
    NoDup (keys fs) -> (forall k v, In (k, v) fs -> wf v) -> wf (Plain fs).

(** ** The options of a transport as objects *)

Definition encodeField (key : string) (f : Field Z) : Fields :=
  match f with
  | Absent => []
  | Undefined => [(key, Leaf UndefinedA)]
  | Value n => [(key, Leaf (NumberA n))]
  end.

Definition encodeWorker (w : Handshake.WorkerOptions) : Val :=
  Plain (encodeField "closeTimeout" (Handshake.closeTimeout w)
         ++ encodeField "readyTimeout" (Handshake.readyTimeout w)).

(** The options handed to a transport's constructor, reduced to their
    [worker] property. *)
Definition encodeOptions (worker : Field Handshake.WorkerOptions) : Val :=
  Plain (match worker with
         | Absent => []
         | Undefined => [("worker"%string, Leaf UndefinedA)]
         | Value w => [("worker"%string, encodeWorker w)]
         end).

(** transport.ts: [DEFAULTS] *)
Definition transportDefaults : Val :=
  Plain [("logLevel"%string, Leaf (NumberA 0));
         ("worker"%string, encodeWorker Handshake.defaultWorker);
         ("formatter"%string,
          Plain [("kind"%string, Leaf (TextA "ndjson"));
                 ("delimiter"%string, Leaf (TextA "
"));
                 ("stringify"%string, Leaf (TextA "simple"))])].

Definition decodeField (v : option Val) : Field Z :=
  match v with
  | None => Absent
  | Some (Leaf (NumberA n)) => Value n
  | Some _ => Undefined
  end.

(** [this.options.worker] read back. *)
Definition decodeWorker (v : option Val) : Field Handshake.WorkerOptions :=
  match v with
  | None => Absent
  | Some (Plain fs) =>
      Value (Handshake.mkWorkerOptions (decodeField (get "closeTimeout" fs))
                                       (decodeField (get "readyTimeout" fs)))
  | Some (Leaf _) => Undefined
  end.

(** [merge(DEFAULTS, options).worker] *)
Definition mergedWorker (user : Field Handshake.WorkerOptions)
  : Field Handshake.WorkerOptions :=
  decodeWorker (get "worker" (mergeInternal [transportDefaults; encodeOptions user])).

(** Sample objects. *)
Definition baseObject : Fields :=
  [("level"%string, Leaf (NumberA 1));
   ("worker"%string, Plain [("closeTimeout"%string, Leaf (NumberA 60000));
                            ("readyTimeout"%string, Leaf (NumberA 30000))])].

Definition overrideObject : Fields :=
  [("worker"%string, Plain [("readyTimeout"%string, Leaf (NumberA 10))]);
   ("level"%string, Leaf UndefinedA)].

End Merge.

(* ------------------------------------------------------------------ *)
(** * transport.ts: the two ends of the worker channel *)
Module WorkerLink.
Import Handshake.

(** What arrives on [parentPort] inside the worker. *)
Inductive ParentMessage : Type :=
| FromText (s : string)
| FromRecord (l : Transport.Log).

(** What the listener installed by [listenParent] does with it. *)
Inductive Reaction : Type :=
| ParseAndLog (data : string)
| LogRecord (l : Transport.Log)
| FlushAndReply
| CloseAndReply
| Nothing.

(** [listenParent]: the body of the ['message'] listener. *)
Definition listenParent (msg : ParentMessage) : Reaction :=
  match msg with
  | FromText s =>
      if String.prefix "{" s then ParseAndLog s
      else if String.eqb s "drain" then FlushAndReply
      else if String.eqb s "close" then CloseAndReply
      else Nothing
  | FromRecord l => LogRecord l
  end.

(** [.catch((err) => console.log(err)).then(() => postMessage(reply))]:
    what is printed and what is posted once the flush or the close has
    settled. *)
Definition replyOf (r : Reaction) (settled : Completion unit)
  : list Thrown * option string :=
  let printed := match settled with
                 | Returns _ => []
                 | Throws e => [e]
                 end in
  match r with
  | FlushAndReply => (printed, Some "drained"%string)
  | CloseAndReply => (printed, Some "closed"%string)
  | _ => ([], None)
  end.

(** The command as it is posted: a token, or the construction options,
    which [initWorker]'s one-time listener receives. *)
Definition posted (cmd : Command) : option ParentMessage :=
  match cmd with
  | DrainToken => Some (FromText "drain")
  | CloseToken => Some (FromText "close")
  | InitOptions => None
  end.

(** What the worker posts back for a command once the operation it
    started ([onInit], the flush, the close) has settled. *)
Definition workerReply (cmd : Command) (settled : Completion unit)
  : option Message :=
  match posted cmd with
  | Some msg => option_map Text (snd (replyOf (listenParent msg) settled))
  | None =>
      match settled with
      | Returns _ => Some (Text "ready")
      | Throws _ => None
      end
  end.

(** [handleError] inside the worker (line 318): [payload], the text
    that [JSON.stringify(transportError)] gave, goes to the parent
    behind the prefix. *)
Definition workerError (payload : string) : Message :=
  Text (errorPrefix ++ payload).

(** Lines 459-462: the argument of [JSON.parse] in the listener that
    [runAsWorker] installs, [msg.slice('WORKER_ERROR:'.length)] for an
    error-tagged string; the listener does nothing for any other
    message.  What [JSON.parse] makes of the text (it throws on text
    that is no JSON) and what [handleError] then does with the parsed
    error are not part of this model. *)
Definition parsedText (msg : Message) : option string :=
  match msg with
  | Text s =>
      if String.prefix errorPrefix s then
        Some (substring (String.length errorPrefix)
                        (String.length s - String.length errorPrefix) s)
      else None
  | Structured _ => None
  end.

(** The arguments of [JSON.parse] over the messages of the worker, in
    the order of the messages. *)
Definition parsedTexts (msgs : list Message) : list string :=
  flat_map (fun m => match parsedText m with
                     | Some p => [p]
                     | None => []
                     end) msgs.

(** Two serialized errors: [{}] and [{"transport":"file"}]. *)
Definition quoted (s : string) : string :=
  String (ascii_of_nat 34) (s ++ String (ascii_of_nat 34) EmptyString).

Definition serializedErrors : list string :=
  ["{}"%string;
   ("{" ++ quoted "transport" ++ ":" ++ quoted "file" ++ "}")%string].

(** A worker event reaches the listeners of every handshake that is
    under way. *)
Definition broadcast (hs : list Handshake) (ev : WorkerEvent) : list Handshake :=
  map (fun h => deliver h ev) hs.

(** What a reply makes of a handshake that is waiting. *)
Definition settledBy (reply : string) (h : Handshake) : Outcome :=
  if String.eqb reply (expectedReply h) then Succeeded
  else Failed (Unexpected (expectedReply h) (Text reply)).

Definition waiting (h : Handshake) : Prop :=
  listening h = true /\ outcome h = None.

(** ** The logging surface of an offloaded transport *)

Definition wire (call : Transport.Call) : Transport.WireMessage :=
  match call with
  | Transport.CallLog l => Transport.WireLog l
  | Transport.CallRaw data => Transport.WireRaw (Transport.rawText data)
  end.

Section Calls.
Context {S : Type}.
Variable doLog : Transport.Log -> Transport.Core -> S
                 -> Completion unit * Transport.Core * S.
Variable postMessage : Transport.WireMessage -> Completion unit.

(** One call after the other. *)
Fixpoint performAll (calls : list Transport.Call) (c : Transport.Core) (s : S)
  : Transport.Core * S :=
  match calls with
  | [] => (c, s)
  | call :: rest =>
      let '(_, c', s') := Transport.perform doLog postMessage call c s in
      performAll rest c' s'
  end.

End Calls.

(** A transport with a worker that has been sent nothing yet. *)
Definition offloaded : Transport.Core :=
  Transport.withWorker (Some []) (Transport.newCore None Transport.quiet).

End WorkerLink.

(* ------------------------------------------------------------------ *)
(** * httpTransport.ts: batches and requests *)
Module HttpSend.
Import Transport HttpSink.

(** Every batch is full, except that the last may be shorter (and is
    not empty). *)
Fixpoint fullButLast {A : Type} (size : nat) (batches : list (list A)) : Prop :=
  match batches with
  | [] => True
  | b :: rest =>
      match rest with
      | [] => (1 <= List.length b <= size)%nat
      | _ :: _ => List.length b = size /\ fullButLast size rest
      end
  end.

(** withRetry.ts, lines 166-171: the error thrown after the loop. *)
Definition attemptsError (attempts : Z) : Thrown :=
  plainError ("Operation failed after "
              ++ NilZero.string_of_int (Z.to_int attempts) ++ " attempts").

(** The requests of [sendBatch] for one batch: how many times [fetch]
    was called, and the errors handed to [handleError], in order: one by
    the retry callback for every failed request, and the rejection of
    [withRetry] by the final [.catch]. *)
Definition sendBatch (r : Retry.RetryOption) (attempts : nat -> Completion unit)
  : option (nat * list Thrown) :=
  match Retry.withRetry attempts r (Some onAttemptFailed) None with
  | Some run =>
      Some (Retry.invocations run,
            map snd (Retry.reported run) ++
            match Retry.settled run with
            | Retry.Fulfilled _ => []
            | Retry.Rejected (Retry.Rethrown e) => [e]
            | Retry.Rejected (Retry.AttemptsFailed n _) => [attemptsError n]
            end)
  | None => None
  end.

(** [new Error(`HTTP ${res.status}`)] with [err.status = res.status] *)
Definition httpStatus (status : Z) : Thrown :=
  mkThrown (Some "Error"%string) None (Some status)
           ("HTTP " ++ NilZero.string_of_int (Z.to_int status)).

(** The server answers 503 twice, then 400. *)
Definition busyThenRefused (k : nat) : Thrown :=
  if (k <? 2)%nat then httpStatus 503 else httpStatus 400.

(** A transport with three buffered records and batches of two. *)
Definition threeBuffered : State :=
  mkState 2 Retry.noOption [1; 2; 3]%nat [] [] 0 true 0.

(** ** Runs that end with [close()] *)

Definition consoleRun : list (Event ConsoleSink.sink) :=
  [@LogCall ConsoleSink.sink (Returns "a"%string) 1%nat;
   @LogCall ConsoleSink.sink (Returns "b"%string) 2%nat].

Definition consoleClosing : list (Event ConsoleSink.sink) :=
  [@Settled ConsoleSink.sink (ConsoleSink.WriteSettled 1 (Returns tt));
   @Settled ConsoleSink.sink
            (ConsoleSink.WriteSettled 2 (Throws (plainError "write EPIPE")));
   Resumed;
   SinkClosed (Returns tt)].

Definition httpRun : list (Event sink) :=
  [@LogCall sink tt 1%nat; @LogCall sink tt 2%nat; @LogCall sink tt 3%nat].

Definition httpClosing : list (Event sink) :=
  [@Settled sink (SendSettled 0 (Returns tt) (fun _ => Returns tt));
   @Settled sink (SendSettled 1 (Returns tt) (fun _ => Throws (httpStatus 400)));
   Resumed;
   SinkClosed (Returns tt)].

End HttpSend.

(* ------------------------------------------------------------------ *)
(** * fileTransport.ts: a transport without a rotation policy *)
Module FilePlain.
Import Transport FileSink.

(** No rotator, no rotation under way, no batch held back. *)
Definition plain (s : State) : Prop :=
  rotator s = None /\ isRotating s = false /\ held s = None.

(** A file that has grown large, at a later day. *)
Definition largeFile : Env :=
  mkEnv (Returns tt) (Some 1000000000) "2031-01-01T00:00:00.000Z" render.

Definition plainRun : list (Event sink) :=
  [@LogCall sink dirThere 1%nat;
   @LogCall sink largeFile 2%nat;
   @Settled sink (WriteSettled 0 writeOk);
   @TimerTick sink largeFile;
   @LogCall sink largeFile 3%nat].

End FilePlain.

(* ------------------------------------------------------------------ *)
(** * levels.ts *)
Module Levels.

(** The [levels] object: its names, in the order of [Object.keys], with
    their numbers.  (A name is an own key once; names that only
    [Object.prototype] has are left aside.) *)
Abbreviation LevelMap := (list (string * Z)).

(** [levels[name]] *)
Fixpoint numberOf (name : string) (levels : LevelMap) : option Z :=
  match levels with
  | [] => None
  | (k, n) :: rest => if String.eqb k name then Some n else numberOf name rest
  end.

(** A [Map<number, string>]: [get] and [set]. *)
Fixpoint mapGet (n : Z) (m : list (Z * string)) : option string :=
  match m with
  | [] => None
  | (k, name) :: rest => if k =? n then Some name else mapGet n rest
  end.

Fixpoint mapSet (n : Z) (name : string) (m : list (Z * string))
  : list (Z * string) :=
  match m with
  | [] => [(n, name)]
  | (k, old) :: rest =>
      if k =? n then (k, name) :: rest else (k, old) :: mapSet n name rest
  end.

(** Lines 22-25: [levelNames] *)
Definition levelNames (levels : LevelMap) : list (Z * string) :=
  fold_left (fun m entry => mapSet (snd entry) (fst entry) m) levels [].

(** The number in a template string: an integer below [10^21] in
    absolute value, which JavaScript writes in decimal (larger ones are
    written with an exponent, which this model does not do). *)
Definition shownNumber (n : Z) : string := NilZero.string_of_int (Z.to_int n).

(** [getLevelName(levelNumber)] *)
Definition getLevelName (levels : LevelMap) (levelNumber : Z) : Completion string :=
  match mapGet levelNumber (levelNames levels) with
  | Some name =>
      if String.eqb name "" then
        Throws (plainError ("Incorrect level number:" ++ shownNumber levelNumber))
      else Returns name
  | None =>
      Throws (plainError ("Incorrect level number:" ++ shownNumber levelNumber))
  end.

(** [getLevelNumber(levelName)] *)
Definition getLevelNumber (levels : LevelMap) (levelName : string) : Completion Z :=
  match numberOf levelName levels with
  | Some n => Returns n
  | None => Throws (plainError ("Incorrect level name:" ++ levelName))
  end.

(** [hasLevel(levelNumber)] *)
Definition hasLevel (levels : LevelMap) (levelNumber : Z) : bool :=
  match mapGet levelNumber (levelNames levels) with
  | Some _ => true
  | None => false
  end.

(** [STD_LEVEL_DEF] *)
Definition standard : LevelMap :=
  [("TRACE", 10); ("DEBUG", 20); ("INFO", 30); ("WARN", 40); ("ERROR", 50);
   ("FATAL", 60)]%string.

(** Levels in which two names share a number. *)
Definition aliased : LevelMap :=
  [("INFO", 30); ("WARN", 40); ("ALERT", 40); ("ERROR", 50)]%string.

End Levels.

(* ------------------------------------------------------------------ *)
(** * logPot.ts *)
Module LogPot.
Import Merge.

(** A transport, by identity. *)
Abbreviation TransportRef := nat.

(** [arr.includes(transport)] *)
Definition includes (t : TransportRef) (arr : list TransportRef) : bool :=
  existsb (Nat.eqb t) arr.

(** [arr.splice(arr.indexOf(transport), 1)] *)
Fixpoint spliceOut (t : TransportRef) (arr : list TransportRef)
  : list TransportRef :=
  match arr with
  | [] => []
  | x :: rest => if Nat.eqb x t then rest else x :: spliceOut t rest
  end.

(** [addTransport(transport)] *)
Definition addTransport (t : TransportRef) (arr : list TransportRef)
  : Completion (list TransportRef) :=
  if includes t arr then Throws (plainError "Transport is already added.")
  else Returns (arr ++ [t]).

(** [removeTransport(transport)]: the array afterwards; the transport is
    closed in any case. *)
Definition removeTransport (t : TransportRef) (arr : list TransportRef)
  : list TransportRef :=
  if includes t arr then spliceOut t arr else arr.

(** [this.transports.map((transport) => this.removeTransport(transport))]:
    [map] reads the length once and then visits the indices [k], [k+1],
    ... below it that the array still has when their turn comes, while
    the callback takes elements out.  Returns the array and the
    transports whose [close()] was called, in order. *)
Fixpoint mapRemoving (remaining k : nat) (arr closed : list TransportRef)
  : list TransportRef * list TransportRef :=
  match remaining with
  | O => (arr, closed)
  | S remaining' =>
      match nth_error arr k with
      | Some t => mapRemoving remaining' (S k) (removeTransport t arr)
                              (closed ++ [t])
      | None => mapRemoving remaining' (S k) arr closed
      end
  end.

(** [clear()]: the transports afterwards ([this.transports.length = 0])
    and the transports closed. *)
Definition clear (arr : list TransportRef)
  : list TransportRef * list TransportRef :=
  ([], snd (mapRemoving (List.length arr) 0 arr [])).

(** The elements at the positions 0, 2, 4, ... *)
Fixpoint everyOther {A : Type} (l : list A) : list A :=
  match l with
  | [] => []
  | x :: rest =>
      x :: match rest with
           | [] => []
           | _ :: rest' => everyOther rest'
           end
  end.

(** ** The context of a logger and of its ancestors *)

(** [!log.meta] *)
Definition falsy (v : Val) : bool :=
  match v with
  | Leaf UndefinedA => true
  | Leaf NullA => true
  | Leaf (NumberA n) => n =? 0
  | Leaf (TextA s) => String.eqb s ""
  | _ => false
  end.

(** Lines 144-147: what [broadcast] makes of [log.meta] in a logger
    with this context. *)
Definition inContext (context : option Fields) (meta : Val) : Completion Val :=
  match context with
  | None => Returns meta
  | Some ctx =>
      if falsy meta then Returns (Plain ctx) else merge meta [Plain ctx]
  end.

(** [broadcast] up the chain of parents: [contexts] are the contexts of
    the logger that was called, of its parent, and so on up to the
    root. *)
Fixpoint broadcastMeta (contexts : list (option Fields)) (meta : Val)
  : Completion Val :=
  match contexts with
  | [] => Returns meta
  | ctx :: parents =>
      match inContext ctx meta with
      | Returns m => broadcastMeta parents m
      | Throws e => Throws e
      end
  end.

(** The value a key has in the outermost context that has the key. *)
Definition outermost (key : string) (contexts : list (option Fields))
  : option Val :=
  fold_left (fun found ctx =>
               match ctx with
               | Some c => match get key c with
                           | Some v => Some v
                           | None => found
                           end
               | None => found
               end) contexts None.

Definition distinctKeys (ctx : option Fields) : Prop :=
  match ctx with
  | Some c => NoDup (keys c)
  | None => True
  end.

(** What the value under a key becomes on the way up, from the value
    [start] that the call gave it: every context that has the key
    stores what lines 21-27 of [mergeInternal] make of the value so far
    and its own, so that two plain objects are merged and anything else
    is overwritten. *)
Definition overridden (key : string) (contexts : list (option Fields))
           (start : option Val) : option Val :=
  fold_left (fun prev ctx =>
               match ctx with
               | Some c => match get key c with
                           | Some v => Some (absorb prev v)
                           | None => prev
                           end
               | None => prev
               end) contexts start.

(** A request logger below a service logger.  The call and the root
    both give an object under [tags]. *)
Definition requestMeta : Fields :=
  [("user"%string, Leaf (TextA "ada"));
   ("service"%string, Leaf (TextA "mine"));
   ("tags"%string, Plain [("x"%string, Leaf (NumberA 1));
                          ("shared"%string, Leaf (TextA "call"))])].

Definition loggerChain : list (option Fields) :=
  [Some [("category"%string, Leaf (TextA "http"))];
   None;
   Some [("service"%string, Leaf (TextA "api"));
         ("category"%string, Leaf (TextA "root"));
         ("tags"%string, Plain [("y"%string, Leaf (NumberA 2));
                                ("shared"%string, Leaf (TextA "root"))])]].

End LogPot.

(* ------------------------------------------------------------------ *)
(** * fileTransport.ts: where the books are kept *)
Module FileSteady.
Import Transport FileSink.

(** An environment in which the directory of the log file exists or can
    be created, and the formatter returns. *)
Record Steady : Type := mkSteady {
  sizeOnDisk : option Z;
  clock : string;
  formatted : list Log -> string
}.

Definition lift (g : Steady) : Env :=
  mkEnv (Returns tt) (sizeOnDisk g) (clock g)
        (fun batch => Returns (formatted g batch)).

Inductive SteadyDone : Type :=
| Written (id : nat) (attempts : nat -> Completion unit)
| Rotated (g : Steady) (errors : list Thrown) (result : Completion bool).

Definition liftDone (d : SteadyDone) : Done :=
  match d with
  | Written id attempts => WriteSettled id attempts
  | Rotated g errors result => RotationSettled (lift g) errors result
  end.

(** The file transport, restricted to such environments. *)
Definition steady : Sink :=
  mkSink State Steady SteadyDone
         (fun g => doLog (lift g)) (fun g => flush (lift g))
         (fun g => onTimer (lift g)) (fun d => onDone (liftDone d))
         closeBegin closeEnd.

Definition liftEvent (e : Event steady) : Event sink :=
  match e with
  | LogCall g l => @LogCall sink (lift g) l
  | TimerTick g => @TimerTick sink (lift g)
  | Settled d => @Settled sink (liftDone d)
  | CloseCall g => @CloseCall sink (lift g)
  | Resumed => Resumed
  | Woken g => @Woken sink (lift g)
  | SinkClosed r => SinkClosed r
  end.

Definition asFile (m : Machine steady) : Machine sink :=
  @mkMachine sink (core m) (Transport.sink m) (phase m) (alarm m).

Definition asSteady (m : Machine sink) : Machine steady :=
  @mkMachine steady (core m) (Transport.sink m) (phase m) (alarm m).

(** The entries of the batch a rotation holds back. *)
Definition heldCount (s : State) : nat :=
  match held s with
  | Some h => List.length (heldBatch h)
  | None => 0
  end.

Definition jobTotal (l : list (nat * nat)) : nat := list_sum (map snd l).

(** The entries accepted and not yet counted as processed: buffered, in
    a write job, or held back by a rotation. *)
Definition accounting : Accounting steady :=
  mkAccounting steady
    (fun q s =>
       (1 <= batchSize s)%nat /\
       Permutation (map fst (jobs s)) (JobQueue.queue q ++ running s) /\
       Forall (fun jb => (1 <= snd jb)%nat) (jobs s) /\
       match held s with
       | Some h => isRotating s = true /\ (1 <= List.length (heldBatch h))%nat
       | None => True
       end)
    (fun q s =>
       Z.of_nat (List.length (buffer s) + jobTotal (jobs s) + heldCount s)).

(** What the hooks keep. *)
Definition kept (c : Core) (s : State) (c' : Core) (s' : State) : Prop :=
  good accounting (queue c') s' /\ same c c' /\
  logProcessed c' = logProcessed c /\
  (List.length (buffer s') + jobTotal (jobs s') + heldCount s'
   = List.length (buffer s) + jobTotal (jobs s) + heldCount s)%nat.

(** [new FileTransport(levels, { filename, rotate, batchSize, retry,
    concurrency })] *)
Definition createWith (rotate : option Rotator.FileRotator) (size : nat)
           (r : Retry.RetryOption) (concurrency : option Z)
           (callback : TransportError -> Completion unit) : Machine sink :=
  @mkMachine sink (newCore concurrency callback)
             (mkState size r rotate false 0 [] false false true [] [] 0 None)
             Open false.

(** ** A run with a rotation

    Batches of one record, bodies of ten bytes, a file that may grow to
    fifteen: the second record starts a rotation. *)

Definition bySize : Rotator.FileRotator :=
  Rotator.mkRotator None false None
    (Rotator.mkLogPath "logs/app.log" "logs" "app" ".log")
    (Rotator.mkRotationOptions (Some 15) None None false).

Definition smallFile : Steady :=
  mkSteady (Some 0) "2025-07-21T10:00:00.000Z" (fun _ => "0123456789"%string).

Definition rotatingRun : list (Event steady) :=
  [@LogCall steady smallFile 1%nat;
   @LogCall steady smallFile 2%nat;
   @Settled steady (Written 0 writeOk);
   @Settled steady (Rotated smallFile [plainError "gzip failed"] (Returns true));
   @LogCall steady smallFile 3%nat].

Definition rotatingClose : list (Event steady) :=
  [@Settled steady (Written 1 writeOk);
   @Settled steady (Written 2 writeOk);
   Resumed;
   SinkClosed (Returns tt)].

End FileSteady.

(* ------------------------------------------------------------------ *)
(** * auth/oauth2.ts *)
Module OAuth2.
Import Retry.

(** [FetchTokenResponse], once checked. *)
Record TokenResponse : Type := mkTokenResponse {
  access_token : string;
  expires_in : Z;
  scope : option string
}.

(** What the token endpoint does with a request: it answers with a
    status that is not ok and a body ([None] when the body cannot be
    read); it answers with a JSON body, of which [token] is
    [access_token] when that is a string, [expires] is
    [Number(json.expires_in)] unless that is [NaN] (so [None] stands
    for a missing field or a value that does not convert to a number,
    and a numeric string or [null] count as the number they convert
    to), and [granted] is [scope] when that is a string; or [fetch], or
    reading the body as JSON, rejects. *)
Inductive Answer : Type :=
| Refused (status : Z) (text : option string)
| Granted (token : option string) (expires : option Z) (granted : option string)
| Unreachable (e : Thrown).

(** [new Error(`Token fetch failed ${res.status}: ${text}`)] *)
Definition refusal (status : Z) (text : option string) : Thrown :=
  plainError ("Token fetch failed " ++ NilZero.string_of_int (Z.to_int status)
              ++ ": " ++ match text with
                         | Some t => t
                         | None => "<unreadable>"
                         end).

(** [fetchToken(signal)] *)
Definition fetchToken (a : Answer) : Completion TokenResponse :=
  match a with
  | Refused status text => Throws (refusal status text)
  | Granted None _ _ => Throws (plainError "Token response missing access_token")
  | Granted (Some _) None _ =>
      Throws (plainError "Token response missing expires_in")
  | Granted (Some token) (Some n) granted =>
      Returns (mkTokenResponse token n granted)
  | Unreachable e => Throws e
  end.

(** The fields of [OAuth2Authenticator]. *)
Record Authenticator : Type := mkAuthenticator {
  currentScope : option string;
  expiresAt : Z;
  accessToken : string;
  retry : RetryOption
}.

(** [new OAuth2Authenticator(opts)] *)
Definition create (scope : option string) (r : RetryOption) : Authenticator :=
  mkAuthenticator scope 0 "" r.

(** [invalidate()] *)
Definition invalidate (a : Authenticator) : Authenticator :=
  mkAuthenticator (currentScope a) 0 (accessToken a) (retry a).

(** The callback that [fetchTokenWithRetry] hands to [withRetry]. *)
Definition onFetchFailed (_ : Z) (e : Thrown)
  : Completion (option RetryAction) :=
  Returns (Some (if HttpSink.isRetryableHttpError e then CONTINUE else STOP)).

(** [fetchTokenWithRetry()]: how it settles, the authenticator
    afterwards and the number of requests made.  [answers k] is what the
    endpoint does with request number [k]; [fetched] is [Date.now()]
    when the token has arrived. *)
Definition fetchTokenWithRetry (answers : nat -> Answer) (fetched : Z)
           (a : Authenticator) : option (Settled unit * Authenticator * nat) :=
  match withRetry (fun k => fetchToken (answers k)) (retry a)
                  (Some onFetchFailed) None with
  | Some run =>
      match settled run with
      | Fulfilled data =>
          Some (Fulfilled tt,
                mkAuthenticator
                  (match scope data with
                   | Some s => Some s
                   | None => currentScope a
                   end)
                  (fetched + expires_in data * 1000 - 5000)
                  (access_token data) (retry a),
                invocations run)
      | Rejected why => Some (Rejected why, a, invocations run)
      end
  | None => None
  end.

(** [apply(init)] at the time [now]: the [Authorization] header it
    sets, the authenticator afterwards and the number of requests made
    to the token endpoint. *)
Definition apply (now : Z) (answers : nat -> Answer) (fetched : Z)
           (a : Authenticator) : option (Settled string * Authenticator * nat) :=
  if String.eqb (accessToken a) "" || (expiresAt a <=? now) then
    match fetchTokenWithRetry answers fetched a with
    | Some (Fulfilled _, a', n) =>
        Some (Fulfilled ("Bearer " ++ accessToken a')%string, a', n)
    | Some (Rejected why, a', n) => Some (Rejected why, a', n)
    | None => None
    end
  else Some (Fulfilled ("Bearer " ++ accessToken a)%string, a, 0%nat).

(** The error of a request that was refused. *)
Definition refusalOf (a : Answer) : Thrown :=
  match a with
  | Refused status text => refusal status text
  | _ => plainError ""
  end.

Definition isRefused (a : Answer) : bool :=
  match a with
  | Refused _ _ => true
  | _ => false
  end.

(** An endpoint that does not know the client. *)
Definition unauthorized (_ : nat) : Answer := Refused 401 (Some "invalid_client"%string).

End OAuth2.

(* ================================================================== *)
(** * Part II: properties *)

(* ------------------------------------------------------------------ *)
(** * Properties of withRetry *)
Module RetryTheory.
Import Retry.

Lemma effectiveMaxRetry_pos opt : 1 <= effectiveMaxRetry opt.
Proof.
  unfold effectiveMaxRetry.
  destruct (maxRetry (reqOpt opt)) as [| |n]; try lia.
  destruct (Z.ltb_spec n 1); lia.
Qed.

Lemma effectiveMaxRetry_below_1 opt n :
  maxRetry opt = Num n -> n < 1 -> effectiveMaxRetry opt = 1.
Proof.
  intros E Hn. unfold effectiveMaxRetry, reqOpt. cbn. rewrite E. cbn.
  destruct (Z.ltb_spec n 1); lia.
Qed.

Lemma effectiveMaxRetry_num opt n :
  maxRetry opt = Num n -> 1 <= n -> effectiveMaxRetry opt = n.
Proof.
  intros E Hn. unfold effectiveMaxRetry, reqOpt. cbn. rewrite E. cbn.
  destruct (Z.ltb_spec n 1); lia.
Qed.

Section Loop.
Context {T : Type}.
Variable operation : nat -> Completion T.
Variable onError : option (Z -> Thrown -> Completion (option RetryAction)).
Variable retryErrorCodes : option (list string).
Variable M : Z.

Abbreviation loop := (attemptLoop operation onError retryErrorCodes M).
Abbreviation goesOn := (continues onError retryErrorCodes).

(** One iteration on a failure that lets the loop go on. *)
Lemma loop_step_continue fuel attempt calls last rep slept err :
  attempt <= M ->
  operation calls = Throws err ->
  goesOn attempt err = true ->
  exists rep' slept',
    loop (S fuel) attempt calls last rep slept
    = loop fuel (attempt + 1) (S calls) (Some err) rep' slept'.
Proof.
  intros Hle Hop Hgo. unfold continues in Hgo.
  apply andb_prop in Hgo as [Hgo Hcb]. apply andb_prop in Hgo as [Hab Hcode].
  apply negb_true_iff in Hab, Hcode.
  cbn [attemptLoop].
  destruct (Z.leb_spec attempt M); [|lia].
  rewrite Hop, Hab, Hcode.
  destruct (callOnError onError attempt err) as [[[|]|]|e'];
    try discriminate; eauto.
Qed.

(** Running through [n] failures that all let the loop go on: the loop
    arrives at the next attempt with one invocation made per failure. *)
Lemma loop_through_failures (errs : nat -> Thrown) :
  forall (n : nat) fuel calls last rep slept,
    Z.of_nat calls + Z.of_nat n <= M ->
    (forall k, (calls <= k)%nat -> (k < calls + n)%nat ->
               operation k = Throws (errs k) /\
               goesOn (Z.of_nat k + 1) (errs k) = true) ->
    exists rep' slept',
      loop (n + fuel)%nat (Z.of_nat calls + 1) calls last rep slept
      = loop fuel (Z.of_nat (calls + n) + 1) (calls + n)%nat
             (lastAfter errs last calls n) rep' slept'.
Proof.
  induction n as [|n IH]; intros fuel calls last rep slept Hle Hfail.
  - exists rep, slept. rewrite Nat.add_0_r. reflexivity.
  - destruct (Hfail calls ltac:(lia) ltac:(lia)) as [Hop Hgo].
    destruct (loop_step_continue (n + fuel) (Z.of_nat calls + 1) calls
                last rep slept (errs calls) ltac:(lia) Hop Hgo)
      as (rep1 & slept1 & E1).
    destruct (IH fuel (S calls) (Some (errs calls)) rep1 slept1
                ltac:(lia)) as (rep' & slept' & E2).
    { intros k Hk1 Hk2. apply Hfail; lia. }
    exists rep', slept'.
    replace (S n + fuel)%nat with (S (n + fuel)) by lia.
    rewrite E1.
    replace (Z.of_nat calls + 1 + 1) with (Z.of_nat (S calls) + 1) by lia.
    rewrite E2.
    replace (S calls + n)%nat with (calls + S n)%nat by lia.
    f_equal. destruct n as [|m]; cbn [lastAfter].
    + rewrite Nat.add_0_r. reflexivity.
    + do 2 f_equal. lia.
Qed.

(** The number of invocations never decreases along the loop. *)
Lemma loop_invocations_mono :
  forall fuel attempt calls last rep slept r,
    loop fuel attempt calls last rep slept = Some r ->
    (calls <= invocations r)%nat.
Proof.
  induction fuel as [|fuel IH]; intros attempt calls last rep slept r;
    [discriminate|].
  cbn [attemptLoop].
  destruct (attempt <=? M); [|intros [= <-]; cbn; lia].
  destruct (operation calls) as [v|e]; [intros [= <-]; cbn; lia|].
  destruct (isAbortError e); [intros [= <-]; cbn; lia|].
  destruct (codeBreaks retryErrorCodes e); [intros [= <-]; cbn; lia|].
  destruct (callOnError onError attempt e) as [[[|]|]|e'];
    try (intros [= <-]; cbn; lia);
    intros Hr; apply IH in Hr; lia.
Qed.

(** The loop settles whenever the fuel covers the attempts left. *)
Lemma attemptLoop_total :
  forall fuel attempt calls last rep slept,
    M + 1 < attempt + Z.of_nat fuel -> (0 < fuel)%nat ->
    exists r, loop fuel attempt calls last rep slept = Some r.
Proof.
  induction fuel as [|fuel IH]; intros attempt calls last rep slept Hf Hpos;
    [lia|].
  cbn [attemptLoop].
  destruct (Z.leb_spec attempt M); [|eauto].
  destruct (operation calls) as [v|e]; [eauto|].
  destruct (isAbortError e); [eauto|].
  destruct (codeBreaks retryErrorCodes e); [eauto|].
  destruct (callOnError onError attempt e) as [[[|]|]|e']; eauto;
    apply IH; lia.
Qed.

End Loop.

Section Facts.
Context {T : Type}.
Variable operation : nat -> Completion T.
Variable opt : RetryOption.
Variable onError : option (Z -> Thrown -> Completion (option RetryAction)).
Variable retryErrorCodes : option (list string).

Abbreviation M := (effectiveMaxRetry opt).
Abbreviation run := (withRetry operation opt onError retryErrorCodes).

(** [withRetry] always settles. *)
Lemma withRetry_total : exists r, run = Some r.
Proof.
  unfold withRetry. pose proof (effectiveMaxRetry_pos opt).
  apply attemptLoop_total; lia.
Qed.

Lemma withRetry_success (errs : nat -> Thrown) (N : nat) (v : T) :
  failsThenSucceeds operation errs N v ->
  (forall k, (k < N)%nat ->
             continues onError retryErrorCodes (Z.of_nat k + 1) (errs k) = true) ->
  Z.of_nat N < M ->
  exists r, run = Some r /\ settled r = Fulfilled v /\ invocations r = S N.
Proof.
  intros [Hfail Hok] Hgo HN. unfold withRetry. cbv zeta.
  destruct (loop_through_failures operation onError retryErrorCodes M errs N
              (S (Z.to_nat M - N)) 0%nat None [] [])
    as (rep & slept & E).
  { lia. }
  { intros k _ Hk. split; [apply Hfail | apply Hgo]; lia. }
  replace (S (Z.to_nat M)) with (N + S (Z.to_nat M - N))%nat by lia.
  cbn [Z.of_nat Z.add] in E. rewrite E. cbn [Nat.add attemptLoop].
  destruct (Z.leb_spec (Z.of_nat N + 1) M); [|lia].
  rewrite Hok. eexists; repeat split.
Qed.

Lemma withRetry_exhausted (errs : nat -> Thrown) (N : nat) (v : T) :
  failsThenSucceeds operation errs N v ->
  (forall k, (k < N)%nat ->
             continues onError retryErrorCodes (Z.of_nat k + 1) (errs k) = true) ->
  M <= Z.of_nat N ->
  exists r, run = Some r /\
            settled r
            = Rejected (AttemptsFailed M (Some (errs (Z.to_nat M - 1)%nat))) /\
            invocations r = Z.to_nat M.
Proof.
  intros [Hfail Hok] Hgo HN. unfold withRetry. cbv zeta.
  pose proof (effectiveMaxRetry_pos opt) as Hpos.
  destruct (loop_through_failures operation onError retryErrorCodes M errs
              (Z.to_nat M) 1%nat 0%nat None [] [])
    as (rep & slept & E).
  { lia. }
  { intros k _ Hk. split; [apply Hfail | apply Hgo]; lia. }
  replace (S (Z.to_nat M)) with (Z.to_nat M + 1)%nat by lia.
  cbn [Z.of_nat Z.add] in E. rewrite E. cbn [Nat.add attemptLoop].
  destruct (Z.leb_spec (Z.of_nat (Z.to_nat M) + 1) M); [lia|].
  eexists; split; [reflexivity|]. cbn [settled invocations]. split; [|reflexivity].
  unfold giveUp. rewrite Z.min_r by lia.
  destruct (Z.to_nat M) as [|m] eqn:Em; [lia|].
  cbn [lastAfter Nat.add]. replace (S m - 1)%nat with m by lia. reflexivity.
Qed.

(** Any run invokes the operation at least once. *)
Lemma withRetry_at_least_once r :
  run = Some r -> (1 <= invocations r)%nat.
Proof.
  unfold withRetry. cbv zeta. pose proof (effectiveMaxRetry_pos opt) as Hpos.
  cbn [attemptLoop]. destruct (Z.leb_spec 1 M); [|lia].
  destruct (operation 0%nat) as [v|err]; [intros [= <-]; cbn; lia|].
  destruct (isAbortError err); [intros [= <-]; cbn; lia|].
  destruct (codeBreaks retryErrorCodes err); [intros [= <-]; cbn; lia|].
  destruct (callOnError onError 1 err) as [[[|]|]|e'];
    try (intros [= <-]; cbn; lia);
    intros Hr; apply loop_invocations_mono in Hr; lia.
Qed.

End Facts.

(** C4 (as amended).  An operation that fails exactly [N] times, each
    time with a failure that the executor goes on from (no abort error,
    not refused by a non-empty allow-list, the callback neither answering
    STOP nor throwing), and then succeeds is invoked [N + 1] times and its
    value returned when the retry limit exceeds [N]; otherwise it is
    invoked exactly limit-many times and the call rejects with a new
    error whose cause is the last underlying error.  The limit is the
    configured integer [maxRetry], raised to 1 when it is below 1; and
    every call, whatever the failures, settles having attempted the
    operation at least once. *)
Theorem withRetry_attempt_budget :
  forall (T : Type) (operation : nat -> Completion T) (opt : RetryOption)
         (onError : option (Z -> Thrown -> Completion (option RetryAction)))
         (retryErrorCodes : option (list string)),
    let limit := effectiveMaxRetry opt in
    (forall (errs : nat -> Thrown) (N : nat) (v : T),
        failsThenSucceeds operation errs N v ->
        (forall k, (k < N)%nat ->
                   continues onError retryErrorCodes (Z.of_nat k + 1) (errs k)
                   = true) ->
        (Z.of_nat N < limit ->
         exists r, withRetry operation opt onError retryErrorCodes = Some r /\
                   settled r = Fulfilled v /\ invocations r = S N) /\
        (limit <= Z.of_nat N ->
         exists r, withRetry operation opt onError retryErrorCodes = Some r /\
                   settled r = Rejected (AttemptsFailed limit
                                           (Some (errs (Z.to_nat limit - 1)%nat))) /\
                   invocations r = Z.to_nat limit)) /\
    (forall n, maxRetry opt = Num n -> limit = Z.max 1 n) /\
    (forall n, maxRetry opt = Num n -> n < 1 ->
               withRetry operation opt onError retryErrorCodes
               = withRetry operation (withMaxRetry (Num 1) opt) onError
                           retryErrorCodes) /\
    (exists r, withRetry operation opt onError retryErrorCodes = Some r /\
               (1 <= invocations r)%nat).
Proof.
  intros T operation opt onError codes limit.
  split; [|split; [|split]].
  - intros errs N v Hop Hgo. split.
    + intros HN. eapply withRetry_success; eauto.
    + intros HN. eapply withRetry_exhausted; eauto.
  - intros n E. subst limit. destruct (Z.lt_ge_cases n 1).
    + rewrite (effectiveMaxRetry_below_1 opt n E) by lia. lia.
    + rewrite (effectiveMaxRetry_num opt n E) by lia. lia.
  - intros n E Hn. unfold withRetry.
    rewrite (effectiveMaxRetry_below_1 opt n E Hn).
    rewrite (effectiveMaxRetry_num (withMaxRetry (Num 1) opt) 1 eq_refl) by lia.
    reflexivity.
  - destruct (withRetry_total operation opt onError codes) as (r & Hr).
    exists r. split; [exact Hr|].
    exact (withRetry_at_least_once operation opt onError codes r Hr).
Qed.

(** C4 (as stated) fails.  An abort error is a failure too, and ends
    the run at once: the operation that is aborted once and would then
    succeed is invoked once under a limit of 5, and the call rejects
    with the abort error. *)
Lemma withRetry_abort_counterexample :
  withRetry abortedOnce (withMaxRetry (Num 5) noOption) None None
  = Some (mkRun (Rejected (Rethrown aborted)) 1 [] []) /\
  ~ attemptBudget.
Proof.
  split; [reflexivity|]. intros H.
  destruct (H Z abortedOnce (withMaxRetry (Num 5) noOption) None None
              (fun _ => aborted) 1%nat 7 5) as (r & Hr & Hs & _).
  - split; [|reflexivity]. intros [|k] Hk; [reflexivity|lia].
  - reflexivity.
  - lia.
  - cbv in Hr. injection Hr as <-. discriminate Hs.
Qed.

Lemma withRetry_attempt_budget_witness :
  exists r, withRetry failsTwice (withMaxRetry (Num 5) noOption) None None = Some r /\
            settled r = Fulfilled 7 /\ invocations r = 3%nat.
Proof.
  refine (proj1 (proj1 (withRetry_attempt_budget Z failsTwice
                          (withMaxRetry (Num 5) noOption) None None)
                       (fun _ => plainError "boom") 2%nat 7 _ _) _).
  - split; [|reflexivity].
    intros k Hk. destruct k as [|[|k]]; [reflexivity|reflexivity|lia].
  - intros k Hk. destruct k as [|[|k]]; [reflexivity|reflexivity|lia].
  - vm_compute. reflexivity.
Defined.

Lemma codeBreaks_notAllowed codes err :
  codes <> [] -> notAllowed codes err ->
  codeBreaks (Some codes) err = true.
Proof.
  intros Hne Hna. unfold codeBreaks.
  destruct codes as [|c0 cs]; [congruence|].
  cbn [List.length]. destruct (Z.ltb_spec 0 (Z.of_nat (S (List.length cs)))); [|lia].
  destruct Hna as [-> | (c & -> & Hnin)]; [reflexivity|].
  destruct (String.eqb c ""); [reflexivity|].
  apply negb_true_iff. apply not_true_is_false. intros Hex.
  apply existsb_exists in Hex as (x & Hin & Heq).
  apply String.eqb_eq in Heq. subst x. contradiction.
Qed.

(** C8 (as amended).  With a non-empty allow-list, the first failed
    attempt whose error has no code, or a code outside the list, is the
    last invocation of the operation, whatever budget remains, and the
    call rejects. *)
Theorem allowList_stops_nonempty :
  forall codes : list string, codes <> [] -> allowListStops codes.
Proof.
  intros codes Hne T operation opt onError errs n Hpre HM Hop Hna.
  unfold withRetry. cbv zeta.
  destruct (loop_through_failures operation onError (Some codes)
              (effectiveMaxRetry opt) errs n
              (S (Z.to_nat (effectiveMaxRetry opt) - n)) 0%nat None [] [])
    as (rep & slept & E).
  { lia. }
  { intros k _ Hk. apply Hpre. lia. }
  replace (S (Z.to_nat (effectiveMaxRetry opt)))
    with (n + S (Z.to_nat (effectiveMaxRetry opt) - n))%nat by lia.
  cbn [Z.of_nat Z.add] in E. rewrite E. cbn [Nat.add attemptLoop].
  destruct (Z.leb_spec (Z.of_nat n + 1) (effectiveMaxRetry opt)); [|lia].
  rewrite Hop.
  destruct (isAbortError (errs n)).
  - do 2 eexists. repeat split.
  - rewrite (codeBreaks_notAllowed codes (errs n) Hne Hna).
    do 2 eexists. repeat split.
Qed.

Lemma allowList_stops_nonempty_witness :
  exists r rej,
    withRetry failsEPERM (withMaxRetry (Num 5) noOption) None
              (Some ["ENOENT"; "EBUSY"]%string) = Some r /\
    invocations r = 1%nat /\ settled r = Rejected rej.
Proof.
  refine (allowList_stops_nonempty ["ENOENT"; "EBUSY"]%string _ Z failsEPERM
            (withMaxRetry (Num 5) noOption) None (fun _ => _) 0%nat _ _ _ _).
  - discriminate.
  - intros k Hk. lia.
  - vm_compute. reflexivity.
  - reflexivity.
  - right. exists "EPERM"%string. split; [reflexivity|].
    cbn. intros [H|[H|[]]]; discriminate.
Defined.

(** C8 (as stated) fails for an allow-list that is supplied but empty:
    the code-less failure is retried and the call fulfils. *)
Lemma allowList_empty_counterexample : ~ allowListStops [].
Proof.
  intros H.
  destruct (H Z failsOnceNoCode noOption None (fun _ => plainError "no code") 0%nat)
    as (r & rej & Hr & Hinv & Hset).
  - intros k Hk. lia.
  - vm_compute. reflexivity.
  - reflexivity.
  - left. reflexivity.
  - vm_compute in Hr. injection Hr as <-. cbn in Hinv. discriminate.
Qed.

End RetryTheory.

(* ------------------------------------------------------------------ *)
(** * Properties of AsyncJobQueue *)
Module JobQueueTheory.
Import JobQueue.

Lemma scheduleLoop_spec :
  forall pending r c started,
    r <= c ->
    exists fresh rest,
      scheduleLoop pending r c started
      = (rest, r + Z.of_nat (List.length fresh), started ++ fresh) /\
      pending = fresh ++ rest /\
      r + Z.of_nat (List.length fresh) <= c /\
      (rest <> [] -> r + Z.of_nat (List.length fresh) = c).
Proof.
  induction pending as [|job rest IH]; intros r c started Hle.
  - exists [], []. cbn. rewrite Z.add_0_r, app_nil_r. repeat split; auto.
    congruence.
  - cbn [scheduleLoop]. destruct (Z.ltb_spec r c) as [Hlt|Hge].
    + destruct (IH (r + 1) c (started ++ [job]) ltac:(lia))
        as (fresh & rest' & E & Hp & Hb & Hfull).
      exists (job :: fresh), rest'. rewrite E. cbn [List.length app].
      rewrite <- app_assoc. cbn [app].
      replace (r + Z.of_nat (S (List.length fresh)))
        with (r + 1 + Z.of_nat (List.length fresh)) by lia.
      repeat split; auto. now rewrite Hp.
    + exists [], (job :: rest). cbn. rewrite Z.add_0_r, app_nil_r.
      repeat split; auto; intros; lia.
Qed.

Lemma removeFirst_length j l :
  existsb (Nat.eqb j) l = true ->
  S (List.length (removeFirst j l)) = List.length l.
Proof.
  induction l as [|x l IH]; cbn; [discriminate|].
  rewrite (Nat.eqb_sym j x).
  destruct (Nat.eqb x j); cbn; [reflexivity|].
  intros H. now rewrite IH.
Qed.

(** Scheduling moves a prefix of the waiting jobs to the started ones,
    whatever the counters are. *)
Lemma scheduleLoop_split :
  forall pending r c started,
    exists fresh rest r',
      scheduleLoop pending r c started = (rest, r', started ++ fresh) /\
      pending = fresh ++ rest.
Proof.
  induction pending as [|job rest IH]; intros r c started.
  - exists [], [], r. cbn. now rewrite app_nil_r.
  - cbn [scheduleLoop]. destruct (r <? c).
    + destruct (IH (r + 1) c (started ++ [job])) as (fresh & rest' & r' & E & Hp).
      exists (job :: fresh), rest', r'. rewrite E, <- app_assoc. cbn.
      split; [reflexivity|]. now rewrite Hp.
    + exists [], (job :: rest), r. cbn. now rewrite app_nil_r.
Qed.

Lemma schedule_split q q' started :
  schedule q = (q', started) ->
  queue q = started ++ queue q' /\ waiters q' = waiters q.
Proof.
  unfold schedule.
  destruct (scheduleLoop_split (queue q) (running q) (concurrency q) [])
    as (fresh & rest & r' & E & Hp).
  rewrite E. cbn. intros [= <- <-]. cbn. auto.
Qed.

Lemma enqueue_split j q q' started :
  enqueue j q = (q', started) -> queue q ++ [j] = started ++ queue q'.
Proof.
  unfold enqueue. intros H. apply schedule_split in H as [H _]. exact H.
Qed.

Lemma onJobSettled_split q q' started released :
  onJobSettled q = (q', started, released) ->
  queue q = started ++ queue q'.
Proof.
  unfold onJobSettled.
  destruct (schedule _) as [q2 st] eqn:E.
  apply schedule_split in E as [E _]. cbn in E.
  destruct (idle q2); intros [= <- <- <-]; exact E.
Qed.

Lemma drain_queue w q : queue (fst (drain w q)) = queue q.
Proof. unfold drain. destruct (idle q); reflexivity. Qed.

Lemma removeFirst_perm j l :
  existsb (Nat.eqb j) l = true -> Permutation l (j :: removeFirst j l).
Proof.
  induction l as [|x l IH]; cbn; [discriminate|].
  rewrite (Nat.eqb_sym j x).
  destruct (Nat.eqb_spec x j) as [->|Hne]; cbn; [reflexivity|].
  intros H. rewrite perm_swap. constructor. now apply IH.
Qed.

Lemma idle_iff q :
  0 <= running q ->
  idle q = true <-> running q = 0 /\ queue q = [].
Proof.
  intros Hr. unfold idle, length. rewrite andb_true_iff, !Z.eqb_eq.
  destruct (queue q); cbn [List.length]; split; intros [? ?];
    split; auto; try lia; discriminate.
Qed.

Lemma queue_Inv_init c : Inv c (init c).
Proof.
  constructor; cbn; try reflexivity; try congruence.
  unfold limit. lia.
Qed.

Lemma queue_Inv_step c s e s' ws :
  Inv c s -> step s e = Some (s', ws) -> Inv c s'.
Proof.
  intros [Hc Hr Hb Hf Hn Hw] Hstep.
  destruct e as [j|w|j]; cbn [step] in Hstep.
  - (* enqueue *)
    unfold enqueue, schedule in Hstep. cbn [queue running concurrency waiters] in Hstep.
    destruct (scheduleLoop_spec (queue (sq s) ++ [j]) (running (sq s))
                (concurrency (sq s)) [] Hb)
      as (fresh & rest & E & Hp & Hb' & Hfull).
    rewrite E in Hstep. injection Hstep as <- <-.
    assert (Hlen : (List.length (queue (sq s)) + 1
                    = List.length fresh + List.length rest)%nat).
    { apply (f_equal (@List.length Job)) in Hp.
      rewrite !length_app in Hp. exact Hp. }
    constructor; cbn; auto.
    + rewrite length_app. lia.
    + rewrite length_app. lia.
    + intros Hne. unfold idle, length. cbn.
      destruct rest as [|x rest]; cbn [List.length].
      * destruct fresh as [|y fresh]; [cbn in Hlen; lia|].
        cbn [List.length] in *. apply andb_false_iff. left.
        apply Z.eqb_neq. lia.
      * apply andb_false_iff. right. apply Z.eqb_neq. lia.
  - (* drain *)
    unfold drain in Hstep. destruct (idle (sq s)) eqn:Hidle.
    + injection Hstep as <- <-. constructor; cbn; auto.
      intros H. apply Hw in H. discriminate.
    + injection Hstep as <- <-. constructor; cbn; auto.
  - (* a job settles *)
    destruct (existsb (Nat.eqb j) (inflight s)) eqn:Hin; [|discriminate].
    pose proof (removeFirst_length j (inflight s) Hin) as Hrem.
    unfold onJobSettled, schedule in Hstep.
    cbn [queue running concurrency waiters] in Hstep.
    destruct (scheduleLoop_spec (queue (sq s)) (running (sq s) - 1)
                (concurrency (sq s)) [] ltac:(lia))
      as (fresh & rest & E & Hp & Hb' & Hfull).
    rewrite E in Hstep. cbn [app] in Hstep.
    assert (Hlen : List.length (queue (sq s))
                   = (List.length fresh + List.length rest)%nat).
    { rewrite Hp. apply length_app. }
    match type of Hstep with
    | context [if ?b then _ else _] => destruct b eqn:Hidle
    end; cbn in Hstep; injection Hstep as <- <-; constructor; cbn;
      auto; try (rewrite length_app; lia); try congruence.
Qed.

Lemma queue_reachable_Inv c s : reachable c s -> Inv c s.
Proof.
  induction 1 as [|s e s' ws _ IH Hstep]; [apply queue_Inv_init|].
  eapply queue_Inv_step; eauto.
Qed.

Lemma queue_run_reachable c :
  forall es s s', reachable c s -> run s es = Some s' -> reachable c s'.
Proof.
  induction es as [|e es IH]; intros s s' Hs; cbn.
  - intros [= <-]. exact Hs.
  - destruct (step s e) as [[s1 ws]|] eqn:E; [|discriminate].
    apply IH. eapply reach_step; eauto.
Qed.

(** An event that completes a [drain()] call leaves the queue without
    work and without waiters, and completes all the pending calls. *)
Lemma step_releases c s e s' ws :
  Inv c s -> step s e = Some (s', ws) -> ws <> [] ->
  inflight s' = [] /\ queue (sq s') = [] /\ finished s' = enqueued s' /\
  waiters (sq s') = [] /\ ws = pendingDrains s e.
Proof.
  intros HI Hstep Hne. pose proof (queue_Inv_step c s e s' ws HI Hstep) as HI'.
  destruct HI as [Hc Hr Hb Hf Hn Hw].
  destruct HI' as [Hc' Hr' Hb' Hf' Hn' Hw'].
  assert (Hidle : idle (sq s') = true -> inflight s' = [] /\
                    queue (sq s') = [] /\ finished s' = enqueued s').
  { intros Hi. apply idle_iff in Hi as [H0 Hq]; [|lia].
    assert (Hl : List.length (inflight s') = 0%nat) by lia.
    apply length_zero_iff_nil in Hl. rewrite Hn', Hl, Hq. cbn.
    repeat split; auto. lia. }
  unfold pendingDrains.
  destruct e as [j|w|j]; cbn [step] in Hstep.
  - destruct (enqueue j (sq s)) as [q' started]. injection Hstep as <- <-.
    congruence.
  - unfold drain in Hstep. destruct (idle (sq s)) eqn:Hi.
    + injection Hstep as <- <-. cbn in *.
      destruct (Hidle Hi) as (? & ? & ?).
      assert (waiters (sq s) = []) as ->.
      { destruct (waiters (sq s)) eqn:Ew; [reflexivity|].
        exfalso. assert (true = false) by (apply Hw; congruence).
        discriminate. }
      repeat split; auto.
    + injection Hstep as <- <-. congruence.
  - destruct (existsb (Nat.eqb j) (inflight s)); [|discriminate].
    unfold onJobSettled in Hstep.
    destruct (schedule _) as [q2 started] eqn:Es.
    assert (Hw2 : waiters q2 = waiters (sq s)).
    { unfold schedule in Es. cbn [queue running concurrency waiters] in Es.
      destruct (scheduleLoop _ _ _ _) as [[p r] st]. injection Es as <- <-.
      reflexivity. }
    destruct (idle q2) eqn:Hi.
    + injection Hstep as <- <-. cbn in Hidle.
      destruct (Hidle Hi) as (? & ? & ?). cbn.
      rewrite Hw2, app_nil_r. repeat split; auto.
    + injection Hstep as <- <-. congruence.
Qed.

(** C6.  In every state a queue can reach, the jobs running at once are
    counted by [running] and never exceed the limit [max(1, concurrency)];
    a [drain()] call completes only at an event after which no job is
    waiting or in flight, so that every job enqueued up to then, by
    whomever, has settled; that event completes all the pending [drain()]
    calls together; and no caller stays parked once the work is done. *)
Theorem drain_waits_for_all_jobs :
  forall (c : option Z) (s : System),
    reachable c s ->
    (running (sq s) = Z.of_nat (List.length (inflight s)) /\
     running (sq s) <= limit c /\ 1 <= limit c) /\
    (inflight s = [] -> queue (sq s) = [] -> waiters (sq s) = []) /\
    (forall e s' ws,
        step s e = Some (s', ws) -> ws <> [] ->
        inflight s' = [] /\ queue (sq s') = [] /\
        finished s' = enqueued s' /\
        waiters (sq s') = [] /\ ws = pendingDrains s e).
Proof.
  intros c s Hs. pose proof (queue_reachable_Inv c s Hs) as HI.
  split; [|split].
  - destruct HI as [Hc Hr Hb Hf Hn Hw]. rewrite <- Hc.
    repeat split; auto. rewrite Hc. unfold limit. lia.
  - intros Hin Hq. destruct HI as [Hc Hr Hb Hf Hn Hw].
    destruct (waiters (sq s)) eqn:Ew; [reflexivity|]. exfalso.
    assert (Hi : idle (sq s) = false) by (apply Hw; congruence).
    unfold idle, length in Hi. rewrite Hr, Hin, Hq in Hi. discriminate.
  - intros e s' ws. apply step_releases with (c := c). exact HI.
Qed.

(** The run [nestedEnqueueRun]: both [drain()] callers, 7 and 8, are
    released by the settling of job 4, the job that job 1 enqueued while
    running. *)
Lemma drain_waits_for_all_jobs_witness :
  exists s',
    step beforeLastSettle (Settle 4%nat) = Some (s', [7%nat; 8%nat]) /\
    inflight s' = [] /\ queue (sq s') = [] /\ finished s' = enqueued s' /\
    waiters (sq s') = [] /\
    [7%nat; 8%nat] = pendingDrains beforeLastSettle (Settle 4%nat).
Proof.
  assert (Hreach : reachable (Some 2) beforeLastSettle).
  { apply (queue_run_reachable (Some 2) nestedEnqueueRun (init (Some 2))).
    - apply reach_init.
    - vm_compute. reflexivity. }
  destruct (step beforeLastSettle (Settle 4%nat)) as [[s' ws]|] eqn:E;
    [|vm_compute in E; discriminate].
  assert (Hws : ws = [7%nat; 8%nat]).
  { vm_compute in E. injection E as _ <-. reflexivity. }
  subst ws. exists s'. split; [reflexivity|].
  apply (proj2 (proj2 (drain_waits_for_all_jobs (Some 2) beforeLastSettle Hreach))
           (Settle 4%nat) s' [7%nat; 8%nat] E).
  discriminate.
Defined.

End JobQueueTheory.

(* ------------------------------------------------------------------ *)
(** * Properties of retention pruning *)
Module RetentionTheory.
Import Rotator.

Lemma sle_trans a b c : sle a b -> sle b c -> sle a c.
Proof.
  unfold sle, String.leb. intros Hab Hbc.
  destruct (String.compare a b) eqn:Eab; try discriminate.
  - apply String.compare_eq_iff in Eab. subst b. exact Hbc.
  - destruct (String.compare b c) eqn:Ebc; try discriminate.
    + apply String.compare_eq_iff in Ebc. subst c. now rewrite Eab.
    + apply String_as_OT.cmp_lt in Eab, Ebc.
      pose proof (String_as_OT.lt_trans _ _ _ Eab Ebc) as Hac.
      apply String_as_OT.cmp_lt in Hac. unfold String_as_OT.cmp in Hac.
      now rewrite Hac.
Qed.

Lemma sle_total a b : sle a b \/ sle b a.
Proof. apply String.leb_total. Qed.

Lemma insertSorted_perm x l : Permutation (x :: l) (insertSorted x l).
Proof.
  induction l as [|y l IH]; cbn; [reflexivity|].
  destruct (String.leb x y); [reflexivity|].
  rewrite perm_swap. now constructor.
Qed.

Lemma sortStrings_perm l : Permutation l (sortStrings l).
Proof.
  induction l as [|x l IH]; cbn; [constructor|].
  rewrite <- insertSorted_perm. now constructor.
Qed.

Lemma insertSorted_sorted x l :
  StronglySorted sle l -> StronglySorted sle (insertSorted x l).
Proof.
  induction 1 as [|y l Hs IH Hall]; cbn.
  - repeat constructor.
  - destruct (String.leb x y) eqn:E.
    + constructor; [constructor; assumption|].
      constructor; [exact E|].
      eapply Forall_impl; [|exact Hall]. intros z Hz.
      eapply sle_trans; eauto.
    + constructor; [exact IH|].
      assert (Hyx : sle y x).
      { destruct (sle_total x y) as [H|H]; [unfold sle in H; congruence|exact H]. }
      eapply Permutation_Forall; [apply insertSorted_perm|].
      constructor; assumption.
Qed.

Lemma sortStrings_sorted l : StronglySorted sle (sortStrings l).
Proof.
  induction l as [|x l IH]; cbn; [constructor|].
  now apply insertSorted_sorted.
Qed.

(** In a sorted list everything among the first [k] elements is below
    everything after them. *)
Lemma sorted_firstn_skipn k :
  forall l, StronglySorted sle l ->
            forall x y, In x (firstn k l) -> In y (skipn k l) -> sle x y.
Proof.
  induction k as [|k IH]; intros l Hs x y Hx Hy; [destruct Hx|].
  destruct l as [|z l]; [destruct Hx|].
  apply StronglySorted_inv in Hs as [Hs Hall].
  cbn in Hx, Hy. destruct Hx as [<-|Hx].
  - rewrite Forall_forall in Hall. apply Hall.
    rewrite <- (firstn_skipn k l). apply in_or_app. now right.
  - eapply IH; eauto.
Qed.

Lemma string_length_append a b :
  String.length (a ++ b) = (String.length a + String.length b)%nat.
Proof. induction a as [|c a IH]; cbn; [reflexivity|]. now rewrite IH. Qed.

Lemma substring_full s : substring 0 (String.length s) s = s.
Proof. induction s as [|c s IH]; cbn; [reflexivity|]. now rewrite IH. Qed.

Lemma substring_append_r a b :
  substring (String.length a) (String.length b) (a ++ b) = b.
Proof.
  induction a as [|c a IH]; cbn; [apply substring_full|exact IH].
Qed.

Lemma endsWith_append a b : endsWith (a ++ b) b = true.
Proof.
  unfold endsWith. rewrite string_length_append.
  replace (String.length a + String.length b - String.length b)%nat
    with (String.length a) by lia.
  rewrite substring_append_r, String.eqb_refl, andb_true_r.
  apply Nat.leb_le. lia.
Qed.

(** A joined path ends with the entry's name. *)
Lemma endsWith_join dir name : endsWith (join dir name) name = true.
Proof.
  unfold join. destruct (String.eqb dir ".").
  - apply (endsWith_append "" name).
  - destruct (endsWith dir "/").
    + apply endsWith_append.
    + replace (dir ++ "/" ++ name)%string with ((dir ++ "/") ++ name)%string.
      * apply endsWith_append.
      * clear. induction dir as [|c d IH]; cbn; [reflexivity|]. now rewrite IH.
Qed.

(** The loop unlinks, among the [todo] candidates from index [i] on,
    exactly those whose path does not end with the live name. *)
Lemma pruneLoop_spec liveName cands :
  forall todo i unlinked,
    (i + todo <= List.length cands)%nat ->
    pruneLoop liveName cands todo i unlinked
    = Returns (unlinked ++
               filter (fun c => negb (endsWith c liveName))
                      (firstn todo (skipn i cands))).
Proof.
  induction todo as [|todo IH]; intros i unlinked Hle.
  - cbn. now rewrite app_nil_r.
  - cbn [pruneLoop].
    destruct (nth_error cands i) as [c|] eqn:En.
    2:{ apply nth_error_None in En. lia. }
    assert (Hskip : skipn i cands = c :: skipn (S i) cands).
    { rewrite <- (firstn_skipn_middle i cands En) at 1.
      rewrite skipn_app, skipn_firstn_comm, Nat.sub_diag. cbn [firstn app].
      rewrite length_firstn, Nat.min_l, Nat.sub_diag by lia.
      reflexivity. }
    rewrite Hskip. cbn [firstn filter].
    destruct (endsWith c liveName); cbn [negb].
    + apply IH. lia.
    + rewrite IH by lia. now rewrite <- app_assoc.
Qed.

Lemma filter_partition_perm {A} (f : A -> bool) (l : list A) :
  Permutation l (filter (fun x => negb (f x)) l ++ filter f l).
Proof.
  induction l as [|x l IH]; cbn; [constructor|].
  destruct (f x); cbn.
  - apply Permutation_cons_app. exact IH.
  - now constructor.
Qed.

(** What pruning unlinks.  With limit [m], only candidates among the
    [count - m] lexicographically smallest, and of those only the ones
    whose path does not end with the live file's name; so the live file
    is never removed, the [min(count, m)] newest candidates all stay,
    and nothing is removed when no more than [m] candidates exist. *)
Theorem retention_prunes_oldest_excess :
  forall (dir base ext : string) (m : Z) (files : list string),
    0 <= m ->
    let cands := candidates dir base ext files in
    let k := Z.to_nat (Z.of_nat (List.length cands) - m) in
    let live := (base ++ ext)%string in
    exists unlinked,
      retention dir base ext (Finite m) (Returns files) = Returns unlinked /\
      unlinked = filter (fun c => negb (endsWith c live)) (firstn k cands) /\
      ~ In (join dir live) unlinked /\
      Permutation cands (unlinked ++ skipped live k cands ++ skipn k cands) /\
      Z.of_nat (List.length (skipn k cands))
      = Z.min (Z.of_nat (List.length cands)) m /\
      (forall x y, In x unlinked -> In y (skipn k cands) ->
                   String.leb x y = true) /\
      (Z.of_nat (List.length cands) <= m -> unlinked = []).
Proof.
  intros dir base ext m files Hm cands k live.
  exists (filter (fun c => negb (endsWith c live)) (firstn k cands)).
  assert (Hk : (k <= List.length cands)%nat) by (subst k; lia).
  split; [|split; [reflexivity|split; [|split; [|split; [|split]]]]].
  - unfold retention. fold cands. cbn [excessOf].
    destruct (Z.ltb_spec 0 (Z.of_nat (List.length cands) - m)) as [Hpos|Hnp].
    + fold k. fold live. rewrite pruneLoop_spec by lia. reflexivity.
    + replace k with 0%nat by (subst k; lia). reflexivity.
  - intros Hin. apply filter_In in Hin as [_ Hn].
    subst live. rewrite endsWith_join in Hn. discriminate.
  - unfold skipped. rewrite app_assoc.
    rewrite <- (firstn_skipn k cands) at 1.
    apply Permutation_app_tail. apply filter_partition_perm.
  - rewrite length_skipn. lia.
  - intros x y Hx Hy. apply filter_In in Hx as [Hx _].
    eapply sorted_firstn_skipn; eauto. apply sortStrings_sorted.
  - intros Hle. replace k with 0%nat by (subst k; lia). reflexivity.
Qed.

Lemma retention_prunes_oldest_excess_witness :
  retention "logs"%string "app"%string ".log"%string (Finite 1)
            (Returns sampleDir)
  = Returns ["logs/app.2025-07-20T10-00-00-000Z.log.gz";
             "logs/app.2025-07-21T10-00-00-000Z.log.gz"]%string.
Proof.
  destruct (retention_prunes_oldest_excess "logs"%string "app"%string
              ".log"%string 1 sampleDir)
    as (unlinked & Hret & Hun & _); [lia|].
  rewrite Hret, Hun. vm_compute. reflexivity.
Defined.

Lemma append_inj_r (a b c : string) : (a ++ b)%string = (a ++ c)%string -> b = c.
Proof. induction a as [|x a IH]; cbn; [auto|]. intros [= H]. auto. Qed.

Lemma join_inj dir a b : join dir a = join dir b -> a = b.
Proof.
  unfold join. destruct (String.eqb dir "."); [auto|].
  destruct (endsWith dir "/"); intros H.
  - eapply append_inj_r; eauto.
  - apply append_inj_r in H. now injection H.
Qed.

Lemma NoDup_candidates dir base ext files :
  NoDup files -> NoDup (candidates dir base ext files).
Proof.
  intros Hnd. unfold candidates.
  eapply Permutation_NoDup; [apply sortStrings_perm|].
  generalize (NoDup_filter (matchesRotated base ext) Hnd).
  induction 1 as [|x l Hx _ IH]; cbn [map]; constructor; [|exact IH].
  intros Hin. apply in_map_iff in Hin as (y & Hy & Hin).
  apply join_inj in Hy. now subst y.
Qed.

Lemma filter_none {A} (f : A -> bool) l :
  (forall x, In x l -> f x = false) -> filter f l = [].
Proof.
  induction l as [|x l IH]; intros H; cbn; [reflexivity|].
  rewrite (H x) by now left. apply IH. intros y Hy. apply H. now right.
Qed.

Lemma filter_all {A} (f : A -> bool) l :
  (forall x, In x l -> f x = true) -> filter f l = l.
Proof.
  induction l as [|x l IH]; intros H; cbn; [reflexivity|].
  rewrite (H x) by now left. f_equal. apply IH. intros y Hy. apply H. now right.
Qed.

Lemma NoDup_app_disjoint {A} (a b : list A) x :
  NoDup (a ++ b) -> In x a -> In x b -> False.
Proof.
  induction a as [|z a IH]; intros Hnd Ha Hb; [destruct Ha|].
  cbn in Hnd. inversion Hnd as [|? ? Hz Hnd']; subst. destruct Ha as [->|Ha].
  - apply Hz. apply in_or_app. now right.
  - eapply IH; eauto.
Qed.

Lemma filter_out_one (x : string) l :
  NoDup l -> In x l ->
  S (List.length (filter (fun c => negb (String.eqb c x)) l)) = List.length l.
Proof.
  induction 1 as [|y l Hy Hnd IH]; intros Hin; [destruct Hin|].
  cbn [filter List.length]. destruct Hin as [->|Hin].
  - rewrite String.eqb_refl. cbn [negb]. f_equal.
    f_equal. apply filter_all. intros z Hz.
    destruct (String.eqb_spec z x); [subst; contradiction|reflexivity].
  - destruct (String.eqb_spec y x); [subst; contradiction|].
    cbn [negb List.length]. now rewrite IH.
Qed.

(** The live file's own name passes the filter of [retention] whenever
    the log file has an extension. *)
Lemma live_file_matches_rotated_pattern (base rest : string) :
  matchesRotated base ("." ++ rest) (base ++ "." ++ rest) = true.
Proof.
  unfold matchesRotated. apply andb_true_iff. split.
  - unfold startsWith. clear. induction base as [|x base IH]; cbn.
    + destruct (ascii_dec "." "."); [now destruct rest|congruence].
    + destruct (ascii_dec x x); [exact IH|congruence].
  - apply orb_true_iff. left. apply endsWith_append.
Qed.

(** C2.  The names of a directory being distinct and the live file's
    path the only candidate that ends with the live file's name: pruning
    with limit [m] never unlinks the live file, and where the live file
    is not among the candidates it leaves exactly the [min(count, m)]
    newest rotated files.  But the live file, when it is there at
    pruning time, passes the filter and is counted as one of the [m]
    files to keep: with more than [m] candidates and the live file among
    the [m] newest of them, only [m - 1] rotated files are left although
    at least [m] existed. *)
Theorem retention_counts_live_file_among_rotated :
  forall (dir base ext : string) (m : Z) (files : list string),
    0 <= m ->
    NoDup files ->
    let cands := candidates dir base ext files in
    let k := Z.to_nat (Z.of_nat (List.length cands) - m) in
    let live := join dir (base ++ ext) in
    (forall c, In c cands -> endsWith c (base ++ ext) = true -> c = live) ->
    exists unlinked,
      retention dir base ext (Finite m) (Returns files) = Returns unlinked /\
      ~ In live unlinked /\
      let rotated := rotatedFiles live cands in
      let left := remaining rotated unlinked in
      (~ In live cands ->
       left = skipn k cands /\
       Z.of_nat (List.length left) = Z.min (Z.of_nat (List.length rotated)) m) /\
      (In live (skipn k cands) ->
       m < Z.of_nat (List.length cands) ->
       Z.of_nat (List.length left) = m - 1 /\
       m <= Z.of_nat (List.length rotated)).
Proof.
  intros dir base ext m files Hm Hnd cands k live Hends.
  destruct (retention_prunes_oldest_excess dir base ext m files Hm)
    as (unlinked & Hret & Hun & Hlive & _ & Hlen & _).
  fold cands in Hun, Hlen. fold k in Hun, Hlen.
  exists unlinked. split; [exact Hret|]. split; [exact Hlive|]. cbv zeta.
  assert (Hnc : NoDup cands) by now apply NoDup_candidates.
  assert (Hsplit : cands = firstn k cands ++ skipn k cands)
    by now rewrite firstn_skipn.
  assert (Hin_un : forall c, In c unlinked <-> In c (firstn k cands) /\ c <> live).
  { intros c. rewrite Hun, filter_In. split; intros [Hc Hx]; split; try exact Hc.
    - intros ->. unfold live in Hx. rewrite endsWith_join in Hx. discriminate.
    - destruct (endsWith c (base ++ ext)) eqn:E; [|reflexivity].
      exfalso. apply Hx. apply Hends; [|exact E].
      rewrite Hsplit. apply in_or_app. now left. }
  assert (Hleft : remaining (rotatedFiles live cands) unlinked
                  = rotatedFiles live (skipn k cands)).
  { unfold remaining, rotatedFiles. rewrite Hsplit at 1.
    rewrite !filter_app. rewrite Hsplit in Hnc.
    rewrite (filter_none _ (filter _ (firstn k cands))).
    - cbn [app]. apply filter_all. intros x Hx. apply filter_In in Hx as [Hx _].
      apply negb_true_iff. apply not_true_is_false. intros Hex.
      apply existsb_exists in Hex as (y & Hy & Heq).
      apply String.eqb_eq in Heq. subst y. apply Hin_un in Hy as [Hy _].
      exact (NoDup_app_disjoint _ _ _ Hnc Hy Hx).
    - intros x Hx. apply filter_In in Hx as [Hx Hne].
      apply negb_false_iff. apply existsb_exists. exists x.
      split; [|apply String.eqb_refl]. apply Hin_un. split; [exact Hx|].
      intros ->. rewrite String.eqb_refl in Hne. discriminate. }
  rewrite Hleft. split.
  - intros Hno.
    assert (Hall : forall l, (forall x, In x l -> In x cands) ->
                             rotatedFiles live l = l).
    { intros l Hl. apply filter_all. intros x Hx. apply negb_true_iff.
      destruct (String.eqb_spec x live); [subst; exfalso; auto|reflexivity]. }
    rewrite (Hall (skipn k cands)), (Hall cands); [split; [reflexivity|exact Hlen]|auto|].
    intros x Hx. rewrite Hsplit. apply in_or_app. now right.
  - intros Hin Hlt.
    assert (Hnk : NoDup (skipn k cands)).
    { rewrite Hsplit in Hnc. now apply NoDup_app_remove_l in Hnc. }
    pose proof (filter_out_one live (skipn k cands) Hnk Hin) as H1.
    assert (Hinc : In live cands)
      by (rewrite Hsplit; apply in_or_app; now right).
    pose proof (filter_out_one live cands Hnc Hinc) as H2.
    unfold rotatedFiles. lia.
Qed.

Lemma retention_counts_live_file_among_rotated_witness :
  exists unlinked,
    retention "logs"%string "app"%string ".log"%string (Finite 2)
              (Returns liveAndThree) = Returns unlinked /\
    unlinked = ["logs/app.2025-07-20T10-00-00-000Z.log";
                "logs/app.2025-07-21T10-00-00-000Z.log"]%string /\
    let rotated := rotatedFiles "logs/app.log"
                     (candidates "logs" "app" ".log" liveAndThree) in
    Z.of_nat (List.length (remaining rotated unlinked)) = 1 /\
    2 <= Z.of_nat (List.length rotated).
Proof.
  destruct (retention_counts_live_file_among_rotated "logs"%string "app"%string
              ".log"%string 2 liveAndThree)
    as (unlinked & Hret & _ & _ & Hbug).
  - lia.
  - repeat constructor; cbn; intuition discriminate.
  - intros c Hc He. vm_compute in Hc.
    repeat (destruct Hc as [<-|Hc];
            [vm_compute in He; try discriminate He; reflexivity|]).
    destruct Hc.
  - exists unlinked. split; [exact Hret|].
    split; [vm_compute in Hret; now injection Hret as <-|].
    apply Hbug; [vm_compute; tauto|vm_compute; reflexivity].
Defined.

End RetentionTheory.

(* ------------------------------------------------------------------ *)
(** * Properties of rotate *)
Module RotationTheory.
Import Rotator Rotation.

#[local] Arguments countBy : simpl never.

Lemma setFrame_length i f l : List.length (setFrame i f l) = List.length l.
Proof.
  revert i. induction l as [|x l IH]; intros [|i]; cbn; auto.
Qed.

Lemma nth_error_setFrame i f l j :
  nth_error (setFrame i f l) j
  = if Nat.eqb j i then
      match nth_error l j with Some _ => Some f | None => None end
    else nth_error l j.
Proof.
  revert i j. induction l as [|x l IH]; intros [|i] [|j]; cbn; auto.
  - destruct (Nat.eqb j i); reflexivity.
Qed.

Lemma countBy_app i kind a b :
  countBy i kind (a ++ b) = (countBy i kind a + countBy i kind b)%nat.
Proof. unfold countBy. now rewrite filter_app, length_app. Qed.

Lemma countBy_tagged i kind effs :
  countBy i kind (tagged i effs) = List.length (filter kind effs).
Proof.
  unfold countBy, tagged. induction effs as [|e effs IH]; cbn; [reflexivity|].
  rewrite Nat.eqb_refl. cbn. destruct (kind e); cbn; now rewrite IH.
Qed.

Lemma countBy_tagged_other i j kind effs :
  i <> j -> countBy i kind (tagged j effs) = 0%nat.
Proof.
  intros Hij. unfold countBy, tagged.
  induction effs as [|e effs IH]; cbn; [reflexivity|].
  destruct (Nat.eqb_spec j i); [congruence|]. cbn. exact IH.
Qed.

Lemma countBy_none i kind effs :
  (forall j e, In (j, e) effs -> j <> i) -> countBy i kind effs = 0%nat.
Proof.
  unfold countBy. induction effs as [|[j e] effs IH]; intros H; cbn; [reflexivity|].
  destruct (Nat.eqb_spec j i) as [->|_].
  - exfalso. apply (H i e); [now left|reflexivity].
  - cbn. apply IH. intros j' e' Hin. apply (H j' e'). now right.
Qed.

(** [doRotate] leaves the rotation flag and promise alone, invokes
    neither sink callback, and performs the rename step once. *)
Lemma doRotate_spec r env :
  forall result effs r',
    doRotate r env = (result, effs, r') ->
    isRotating r' = isRotating r /\
    rotationPromise r' = rotationPromise r /\
    filter isOpenSink effs = [] /\ filter isCloseSink effs = [] /\
    List.length (filter isRename effs) = 1%nat.
Proof.
  intros result effs r' H.
  unfold doRotate, compressStep, compressFile, retentionStep, report in H.
  repeat match type of H with
         | context [match ?x with _ => _ end] =>
             lazymatch x with
             | context [match _ with _ => _ end] => fail
             | _ => destruct x; cbn in H
             end
         end;
    injection H as <- <- <-; cbn; repeat split;
    rewrite ?filter_app; cbn; reflexivity.
Qed.

Lemma rotation_Inv_init r : Inv (init r).
Proof.
  constructor; cbn.
  - intros [|i] f; discriminate.
  - intros [|i] j fi fj; discriminate.
  - intros j e [].
Qed.

Lemma nth_error_snoc {A} (l : list A) x i y :
  nth_error (l ++ [x]) i = Some y ->
  nth_error l i = Some y \/ (i = List.length l /\ y = x).
Proof.
  intros H. destruct (Nat.lt_ge_cases i (List.length l)) as [Hlt|Hge].
  - left. now rewrite nth_error_app1 in H.
  - right. rewrite nth_error_app2 in H by lia.
    destruct (i - List.length l)%nat as [|k] eqn:Ek; cbn in H.
    + injection H as <-. split; [lia|reflexivity].
    + destruct k; discriminate.
Qed.

Lemma rotation_Inv_finally w i own env result r' effs :
  Inv w ->
  (exists f, nth_error (frames w) i = Some f /\ isActive f = true) ->
  filter isOpenSink effs = [] -> filter isCloseSink effs = [] ->
  Inv (finallyBlock w i own env result r' effs).
Proof.
  intros [Ha Hu Ht] (f & Hf & Hact) Hno Hnc.
  assert (Hothers : forall j fj, nth_error (frames w) j = Some fj ->
                                 isActive fj = true -> j = i).
  { intros j fj Hj Hfj. eapply Hu; eauto. }
  assert (Hdone : forall res j g,
             nth_error (setFrame i (Done res) (frames w)) j = Some g ->
             isActive g = true -> False).
  { intros res j g Hj Hg. rewrite nth_error_setFrame in Hj.
    destruct (Nat.eqb_spec j i) as [->|Hne].
    - rewrite Hf in Hj. injection Hj as <-. discriminate.
    - apply Hne. eapply Hothers; eauto. }
  assert (Htags : forall res j e',
             In (j, e') (effects w ++ tagged i (effs ++ [OpenSink])) ->
             (j < List.length (setFrame i (Done res) (frames w)))%nat).
  { intros res j e' Hin. rewrite setFrame_length.
    apply in_app_or in Hin as [Hin|Hin]; [eauto|].
    unfold tagged in Hin. apply in_map_iff in Hin as (x & [= <- <-] & _).
    apply nth_error_Some. congruence. }
  unfold finallyBlock. destruct (openStream env) as [[]|e]; constructor; cbn.
  - intros j g Hj Hg. exfalso. eapply Hdone; eauto.
  - intros j k fj fk Hj Hk Hfj. exfalso. eapply Hdone; eauto.
  - apply Htags.
  - intros j g Hj Hg. exfalso. eapply Hdone; eauto.
  - intros j k fj fk Hj Hk Hfj. exfalso. eapply Hdone; eauto.
  - apply Htags.
Qed.

Lemma rotation_Inv_step w e w' : Inv w -> step w e = Some w' -> Inv w'.
Proof.
  intros HI Hstep.
  destruct e as [|i env]; cbn [step] in Hstep.
  - (* a new call *)
    destruct (isRotating (rotator w)) eqn:Hrot; injection Hstep as <-;
      pose proof HI as [Ha Hu Ht].
    + constructor; cbn.
      * intros i f Hi Hf. apply nth_error_snoc in Hi as [Hi|[_ ->]];
          [eauto|discriminate].
      * intros i j fi fj Hi Hj Hfi Hfj.
        apply nth_error_snoc in Hi as [Hi|[_ ->]]; [|discriminate].
        apply nth_error_snoc in Hj as [Hj|[_ ->]]; [|discriminate].
        eauto.
      * intros j e Hin. rewrite length_app. cbn. apply Ht in Hin. lia.
    + assert (Hnone : forall i f, nth_error (frames w) i = Some f ->
                                  isActive f = true -> False).
      { intros i f Hi Hf. destruct (Ha i f Hi Hf) as [H _]. congruence. }
      constructor; cbn.
      * intros i f Hi Hf.
        apply nth_error_snoc in Hi as [Hi|[-> ->]]; [exfalso; eauto|].
        assert (Hfresh : forall kind,
                   countBy (List.length (frames w)) kind (effects w) = 0%nat).
        { intros kind. apply countBy_none. intros j e Hin.
          apply Ht in Hin. lia. }
        rewrite !countBy_app, !Hfresh. unfold countBy. cbn.
        rewrite Nat.eqb_refl. auto.
      * intros i j fi fj Hi Hj Hfi Hfj.
        apply nth_error_snoc in Hi as [Hi|[-> ->]]; [exfalso; eauto|].
        apply nth_error_snoc in Hj as [Hj|[-> ->]]; [exfalso; eauto|].
        reflexivity.
      * intros j e Hin. rewrite length_app. cbn.
        apply in_app_or in Hin as [Hin|[[= <- <-]|[]]]; [apply Ht in Hin|]; lia.
  - (* a call resumes *)
    pose proof HI as [Ha Hu Ht].
    destruct (nth_error (frames w) i) as [[p|own|own|r]|] eqn:Hi;
      try discriminate.
    + (* released from waiting *)
      match type of Hstep with
      | (if ?b then _ else _) = _ => destruct b; [|discriminate]
      end.
      injection Hstep as <-.
      assert (Hsame : forall j g,
                 nth_error (setFrame i (Done (Returns false)) (frames w)) j = Some g ->
                 isActive g = true -> nth_error (frames w) j = Some g).
      { intros j g Hj Hg. rewrite nth_error_setFrame in Hj.
        destruct (Nat.eqb j i); [|exact Hj].
        destruct (nth_error (frames w) j); [|discriminate].
        injection Hj as <-. discriminate. }
      constructor; cbn.
      * intros j g Hj Hg. eauto.
      * intros j k fj fk Hj Hk Hfj Hfk. eauto.
      * intros j e Hin. rewrite setFrame_length. eauto.
    + (* [closeStream] has settled *)
      destruct (closeStream env) as [[]|e].
      * injection Hstep as <-.
        assert (Hsame : forall j g,
                   nth_error (setFrame i (AwaitingDoRotate own) (frames w)) j = Some g ->
                   isActive g = true ->
                   exists g', nth_error (frames w) j = Some g' /\ isActive g' = true).
        { intros j g Hj Hg. rewrite nth_error_setFrame in Hj.
          destruct (Nat.eqb_spec j i) as [->|_]; [|eauto].
          rewrite Hi in Hj. eexists; split; [exact Hi|reflexivity]. }
        constructor; cbn.
        -- intros j g Hj Hg. destruct (Hsame j g Hj Hg) as (g' & Hj' & Hg'). eauto.
        -- intros j k fj fk Hj Hk Hfj Hfk.
           destruct (Hsame j fj Hj Hfj) as (gj & Hgj & Hgj').
           destruct (Hsame k fk Hk Hfk) as (gk & Hgk & Hgk'). eauto.
        -- intros j e Hin. rewrite setFrame_length. eauto.
      * injection Hstep as <-. apply rotation_Inv_finally; auto.
        eexists; split; [exact Hi|reflexivity].
    + (* [doRotate] has settled *)
      destruct (doRotate (rotator w) (rotateEnv env)) as [[result effs] r'] eqn:Ed.
      destruct (endsProcess _ _); [discriminate|].
      injection Hstep as <-.
      destruct (doRotate_spec _ _ _ _ _ Ed) as (_ & _ & Hno & Hnc & _).
      apply rotation_Inv_finally; auto.
      eexists; split; [exact Hi|reflexivity].
Qed.

Lemma rotation_reachable_Inv r w : reachable r w -> Inv w.
Proof.
  induction 1 as [|w e w' _ IH Hstep]; [apply rotation_Inv_init|].
  eapply rotation_Inv_step; eauto.
Qed.

Lemma rotation_run_reachable r :
  forall es w w', reachable r w -> run w es = Some w' -> reachable r w'.
Proof.
  induction es as [|e es IH]; intros w w' Hw; cbn.
  - intros [= <-]. exact Hw.
  - destruct (step w e) as [w1|] eqn:E; [|discriminate].
    apply IH. eapply reach_step; eauto.
Qed.

(** A call that finds the rotator at rest starts a rotation: it sets the
    flag, installs a fresh promise and closes the sink. *)
Lemma call_at_rest_starts_rotation w :
  isRotating (rotator w) = false ->
  step w Call
  = Some (mkWorld (setRotating (rotator w) true (Some (nextPromise w)))
                  (frames w ++ [AwaitingClose (nextPromise w)])
                  (resolved w) (S (nextPromise w))
                  (effects w ++ [(List.length (frames w), CloseSink)])).
Proof. intros H. cbn. now rewrite H. Qed.

Lemma finallyBlock_frame w i own env result r' effs f :
  nth_error (frames w) i = Some f ->
  exists res, nth_error (frames (finallyBlock w i own env result r' effs)) i
              = Some (Done res) /\
              res = match openStream env with
                    | Returns _ => result
                    | Throws e => Throws e
                    end.
Proof.
  intros Hf. unfold finallyBlock.
  destruct (openStream env) as [[]|e]; cbn;
    rewrite nth_error_setFrame, Nat.eqb_refl, Hf; eauto.
Qed.

Lemma finallyBlock_opens w i own env result r' effs :
  countBy i isOpenSink (effects w) = 0%nat ->
  filter isOpenSink effs = [] ->
  countBy i isOpenSink (effects (finallyBlock w i own env result r' effs))
  = 1%nat.
Proof.
  intros H0 Hno. unfold finallyBlock.
  destruct (openStream env) as [[]|e]; cbn;
    rewrite countBy_app, H0, countBy_tagged, filter_app, Hno; reflexivity.
Qed.

Lemma finallyBlock_flag w i own env result r' effs :
  openStream env = Returns tt ->
  isRotating (rotator (finallyBlock w i own env result r' effs)) = false /\
  rotationPromise (rotator (finallyBlock w i own env result r' effs)) = None /\
  In own (resolved (finallyBlock w i own env result r' effs)).
Proof.
  intros Ho. unfold finallyBlock. rewrite Ho. cbn.
  repeat split. apply in_or_app. right. now left.
Qed.

(** ** Overlapping calls *)

Lemma owns_active f own : owns f own -> isActive f = true.
Proof. intros [-> | ->]; reflexivity. Qed.

Lemma active_owns f : isActive f = true -> exists own, owns f own.
Proof.
  destruct f as [p|own|own|res]; try discriminate; intros _; exists own;
    [left|right]; reflexivity.
Qed.

Lemma in_tagged i k e effs : In (i, e) (tagged k effs) -> k = i.
Proof.
  unfold tagged. intros Hin. now apply in_map_iff in Hin as (x & [= <- <-] & _).
Qed.

(** What a new call changes: it adds its own frame, and nothing but its
    own effects. *)
Lemma call_shape w w' :
  step w Call = Some w' ->
  (forall x, (x < List.length (frames w))%nat ->
             nth_error (frames w') x = nth_error (frames w) x) /\
  (exists effs, effects w' = effects w ++ tagged (List.length (frames w)) effs) /\
  resolved w' = resolved w.
Proof.
  cbn [step]. destruct (isRotating (rotator w)); intros [= <-]; cbn.
  - split; [|split]; auto.
    + intros x Hx. now rewrite nth_error_app1.
    + exists []. cbn. now rewrite app_nil_r.
  - split; [|split]; auto.
    + intros x Hx. now rewrite nth_error_app1.
    + exists [CloseSink]. reflexivity.
Qed.

Lemma finallyBlock_shape w k own env result r' effs :
  (forall x, x <> k ->
             nth_error (frames (finallyBlock w k own env result r' effs)) x
             = nth_error (frames w) x) /\
  effects (finallyBlock w k own env result r' effs)
  = effects w ++ tagged k (effs ++ [OpenSink]) /\
  (forall p, In p (resolved w) ->
             In p (resolved (finallyBlock w k own env result r' effs))).
Proof.
  assert (Hfr : forall res x, x <> k ->
             nth_error (setFrame k (Done res) (frames w)) x
             = nth_error (frames w) x).
  { intros res x Hx. rewrite nth_error_setFrame.
    destruct (Nat.eqb_spec x k); [contradiction|reflexivity]. }
  unfold finallyBlock. destruct (openStream env) as [[]|e]; cbn.
  - split; [apply Hfr|]. split; [reflexivity|].
    intros p Hp. apply in_or_app. now left.
  - split; [apply Hfr|]. split; [reflexivity|]. auto.
Qed.

(** What resuming call [k] changes: frame [k], and nothing but effects
    of call [k]; no promise becomes unresolved. *)
Lemma resume_shape w k env w' :
  step w (Resume k env) = Some w' ->
  (forall x, x <> k -> nth_error (frames w') x = nth_error (frames w) x) /\
  (exists effs, effects w' = effects w ++ tagged k effs) /\
  (forall p, In p (resolved w) -> In p (resolved w')).
Proof.
  cbn [step].
  destruct (nth_error (frames w) k) as [[p|own|own|res]|]; try discriminate.
  - match goal with
    | |- (if ?b then _ else _) = _ -> _ => destruct b; [|discriminate]
    end.
    intros [= <-]; cbn. split; [|split]; auto.
    + intros x Hx. rewrite nth_error_setFrame.
      destruct (Nat.eqb_spec x k); [contradiction|reflexivity].
    + exists []. cbn. now rewrite app_nil_r.
  - destruct (closeStream env) as [[]|e]; intros [= <-].
    + cbn. split; [|split]; auto.
      * intros x Hx. rewrite nth_error_setFrame.
        destruct (Nat.eqb_spec x k); [contradiction|reflexivity].
      * exists []. cbn. now rewrite app_nil_r.
    + destruct (finallyBlock_shape w k own env (Throws e) (rotator w) [])
        as (H1 & H2 & H3).
      split; [exact H1|split; [eauto|exact H3]].
  - destruct (doRotate (rotator w) (rotateEnv env)) as [[result effs] r'].
    destruct (endsProcess _ _); [discriminate|].
    intros [= <-].
    destruct (finallyBlock_shape w k own env result r' effs) as (H1 & H2 & H3).
    split; [exact H1|split; [eauto|exact H3]].
Qed.

Lemma Promises_init r : Promises (init r).
Proof.
  constructor; cbn.
  - intros [|i] f own; discriminate.
  - intros p [].
Qed.

Lemma Promises_finally w i own env result r' effs f :
  Inv w -> Promises w ->
  nth_error (frames w) i = Some f -> owns f own ->
  Promises (finallyBlock w i own env result r' effs).
Proof.
  intros HI HP Hf Hown.
  assert (Hnone : forall res j g own',
             nth_error (setFrame i (Done res) (frames w)) j = Some g ->
             owns g own' -> False).
  { intros res j g own' Hj Hg. rewrite nth_error_setFrame in Hj.
    destruct (Nat.eqb_spec j i) as [->|Hne].
    - rewrite Hf in Hj. injection Hj as <-. destruct Hg; discriminate.
    - apply Hne. eapply (inv_unique w HI); eauto using owns_active. }
  destruct (pr_owner w HP i f own Hf Hown) as (_ & _ & Hlt & _).
  unfold finallyBlock. destruct (openStream env) as [[]|e]; constructor; cbn.
  - intros j g own' Hj Hg. exfalso. eapply Hnone; eauto.
  - intros p Hp. apply in_app_or in Hp as [Hp|[<-|[]]];
      [now apply (pr_resolved w HP)|exact Hlt].
  - intros j g own' Hj Hg. exfalso. eapply Hnone; eauto.
  - apply (pr_resolved w HP).
Qed.

Lemma Promises_step w e w' :
  Inv w -> Promises w -> step w e = Some w' -> Promises w'.
Proof.
  intros HI HP Hstep. destruct e as [|i env]; cbn [step] in Hstep.
  - destruct (isRotating (rotator w)) eqn:Hrot; injection Hstep as <-.
    + constructor; cbn.
      * intros i f own Hi Hown. apply nth_error_snoc in Hi as [Hi|[_ ->]].
        -- eapply (pr_owner w HP); eauto.
        -- destruct Hown; discriminate.
      * apply (pr_resolved w HP).
    + constructor; cbn.
      * intros i f own Hi Hown. apply nth_error_snoc in Hi as [Hi|[-> ->]].
        -- exfalso.
           destruct (inv_active w HI i f Hi (owns_active _ _ Hown)) as [H _].
           congruence.
        -- destruct Hown as [[= <-]|[=]]. split; [reflexivity|]. split.
           { intros Hin. apply (pr_resolved w HP) in Hin. lia. }
           split; [lia|].
           rewrite countBy_app, countBy_none.
           ++ unfold countBy. cbn. now rewrite Nat.eqb_refl.
           ++ intros j e Hin. apply (inv_tags w HI) in Hin. lia.
      * intros p Hp. apply (pr_resolved w HP) in Hp. lia.
  - destruct (nth_error (frames w) i) as [[p|own|own|r]|] eqn:Hi;
      try discriminate.
    + match type of Hstep with
      | (if ?b then _ else _) = _ => destruct b; [|discriminate]
      end.
      injection Hstep as <-. constructor; cbn.
      * intros j f own Hj Hown. rewrite nth_error_setFrame in Hj.
        destruct (Nat.eqb_spec j i) as [->|_].
        -- rewrite Hi in Hj. injection Hj as <-. destruct Hown; discriminate.
        -- eapply (pr_owner w HP); eauto.
      * apply (pr_resolved w HP).
    + destruct (closeStream env) as [[]|e]; injection Hstep as <-.
      * constructor; cbn.
        -- intros j f own' Hj Hown. rewrite nth_error_setFrame in Hj.
           destruct (Nat.eqb_spec j i) as [->|_].
           ++ rewrite Hi in Hj. injection Hj as <-.
              destruct Hown as [[=]|[= <-]].
              apply (pr_owner w HP i (AwaitingClose own) own Hi). now left.
           ++ eapply (pr_owner w HP); eauto.
        -- apply (pr_resolved w HP).
      * eapply Promises_finally; eauto. now left.
    + destruct (doRotate (rotator w) (rotateEnv env)) as [[result effs] r'].
      destruct (endsProcess _ _); [discriminate|].
      injection Hstep as <-.
      eapply Promises_finally; eauto. now right.
Qed.

Lemma reachable_Promises r w : reachable r w -> Promises w.
Proof.
  induction 1 as [|w e w' Hw IH Hstep]; [apply Promises_init|].
  eapply Promises_step; eauto. eapply rotation_reachable_Inv; eauto.
Qed.

(** A step of a third call does not touch the two overlapping calls. *)
Lemma Overlap_other i j own w w' k effs :
  Overlap i j own w -> k <> i -> k <> j ->
  nth_error (frames w') i = nth_error (frames w) i ->
  nth_error (frames w') j = nth_error (frames w) j ->
  effects w' = effects w ++ tagged k effs ->
  (forall p, In p (resolved w) -> In p (resolved w')) ->
  Overlap i j own w'.
Proof.
  intros [Hd Hq Hc Hr Hf] Hki Hkj Hi Hj He Hres.
  assert (Hcount : forall kind,
             countBy j kind (effects w') = countBy j kind (effects w)).
  { intros kind. rewrite He, countBy_app, countBy_tagged_other by auto. lia. }
  constructor.
  - exact Hd.
  - intros e Hin. rewrite He in Hin.
    apply in_app_or in Hin as [Hin|Hin]; [eapply Hq; eauto|].
    apply in_tagged in Hin. contradiction.
  - now rewrite Hcount.
  - now rewrite Hcount.
  - rewrite Hi, Hj, !Hcount.
    destruct Hf as [Hf|(res & H1 & H2 & Hb & [H3|[H3 H4]])];
      [left; exact Hf|right; exists res; auto|right].
    exists res. split; [exact H1|]. split; [exact H2|].
    split; [exact Hb|]. right. auto.
Qed.

(** The [finally] block of the rotating call settles it; the waiting call
    is left waiting. *)
Lemma Overlap_finally i j own w fj env result r' effs :
  Overlap i j own w ->
  nth_error (frames w) j = Some fj -> owns fj own ->
  nth_error (frames w) i = Some (AwaitingInflight (Some own)) ->
  countBy j isOpenSink (effects w) = 0%nat ->
  countBy j isRename (effects w) = 0%nat ->
  filter isOpenSink effs = [] -> filter isCloseSink effs = [] ->
  (List.length (filter isRename effs) <= 1)%nat ->
  (forall b, result = Returns b ->
             List.length (filter isRename effs) = 1%nat) ->
  Overlap i j own (finallyBlock w j own env result r' effs).
Proof.
  intros [Hd Hq Hc Hr _] Hj Hown Hi Ho Hren Hno Hnc Hnr Hone.
  destruct (finallyBlock_shape w j own env result r' effs) as (Hfr & He & _).
  destruct (finallyBlock_frame w j own env result r' effs fj Hj)
    as (res & Hres & Hval).
  constructor.
  - exact Hd.
  - intros e Hin. rewrite He in Hin.
    apply in_app_or in Hin as [Hin|Hin]; [eapply Hq; eauto|].
    apply in_tagged in Hin. congruence.
  - rewrite He, countBy_app, Hc, countBy_tagged, filter_app, Hnc. reflexivity.
  - rewrite He, countBy_app, Hren, countBy_tagged, filter_app, length_app.
    cbn. lia.
  - right. exists res. split; [exact Hres|]. split; [|split].
    + rewrite He, countBy_app, Ho, countBy_tagged, filter_app, Hno. reflexivity.
    + intros b Hb. rewrite He, countBy_app, Hren, countBy_tagged, filter_app,
        length_app. cbn. rewrite (Hone b); [reflexivity|].
      subst res. destruct (openStream env); [exact Hb|discriminate].
    + left. rewrite Hfr by exact Hd. exact Hi.
Qed.

Lemma existsb_absent own l :
  ~ In own l -> existsb (Nat.eqb own) l = false.
Proof.
  intros Hn. apply not_true_is_false. intros Hex.
  apply existsb_exists in Hex as (x & Hx & Heq).
  apply Nat.eqb_eq in Heq. now subst x.
Qed.

Lemma Overlap_step i j own w e w' :
  Inv w -> Promises w -> Overlap i j own w -> step w e = Some w' ->
  Overlap i j own w'.
Proof.
  intros HI HP HO Hstep.
  assert (Hbound : (i < List.length (frames w))%nat /\
                   (j < List.length (frames w))%nat).
  { destruct (ov_frames _ _ _ _ HO)
      as [(fj & H1 & _ & H2 & _)|(res & H1 & _ & _ & [H2|[H2 _]])];
      split; apply nth_error_Some; congruence. }
  destruct Hbound as [Hbi Hbj].
  destruct e as [|k env].
  - destruct (call_shape w w' Hstep) as (Hfr & (effs & He) & Hres).
    eapply Overlap_other with (k := List.length (frames w)); eauto;
      try lia.
    intros p. now rewrite Hres.
  - destruct (Nat.eq_dec k i) as [->|Hki];
      [|destruct (Nat.eq_dec k j) as [->|Hkj]].
    + (* the waiting call *)
      pose proof HO as [Hd Hq Hc Hr Hf]. cbn [step] in Hstep.
      destruct Hf as [(fj & Hj & Hown & Hi & Ho)
                     |(res & Hj & Ho & Hb & [Hi|[Hi Hin]])];
        rewrite Hi in Hstep.
      * destruct (pr_owner w HP j fj own Hj Hown) as (_ & Hnr & _).
        rewrite (existsb_absent own _ Hnr) in Hstep. discriminate.
      * destruct (existsb (Nat.eqb own) (resolved w)) eqn:Ex; [|discriminate].
        injection Hstep as <-. constructor; cbn; auto.
        right. exists res.
        rewrite !nth_error_setFrame, Nat.eqb_refl, Hi.
        destruct (Nat.eqb_spec j i); [congruence|].
        split; [exact Hj|]. split; [exact Ho|]. split; [exact Hb|].
        right. split; [reflexivity|].
        apply existsb_exists in Ex as (x & Hx & Heq).
        apply Nat.eqb_eq in Heq. now subst x.
      * discriminate.
    + (* the rotating call *)
      pose proof HO as [Hd Hq Hc Hr Hf]. cbn [step] in Hstep.
      destruct Hf as [(fj & Hj & Hown & Hi & Ho)|(res & Hj & _)];
        rewrite Hj in Hstep; [|discriminate].
      destruct (pr_owner w HP j fj own Hj Hown) as (_ & _ & _ & Hren).
      destruct Hown as [-> | ->].
      * destruct (closeStream env) as [[]|e]; injection Hstep as <-.
        -- constructor; cbn; auto. left. exists (AwaitingDoRotate own).
           rewrite !nth_error_setFrame, Nat.eqb_refl, Hj.
           destruct (Nat.eqb_spec i j); [congruence|].
           split; [reflexivity|]. split; [now right|]. auto.
        -- eapply Overlap_finally; eauto; [now left|discriminate].
      * destruct (doRotate (rotator w) (rotateEnv env))
          as [[result effs] r'] eqn:Ed.
        destruct (doRotate_spec _ _ _ _ _ Ed) as (_ & _ & Hno & Hncl & Hnr).
        destruct (endsProcess _ _); [discriminate|].
        injection Hstep as <-.
        eapply Overlap_finally; eauto; [now right|lia].
    + destruct (resume_shape w k env w' Hstep) as (Hfr & (effs & He) & Hres).
      eapply Overlap_other with (k := k); eauto.
Qed.

Lemma Overlap_run r i j own :
  forall es w w',
    reachable r w -> Overlap i j own w -> run w es = Some w' ->
    reachable r w' /\ Overlap i j own w'.
Proof.
  induction es as [|e es IH]; intros w w' Hw HO; cbn.
  - intros [= <-]. auto.
  - destruct (step w e) as [w1|] eqn:E; [|discriminate].
    apply IH.
    + eapply reach_step; eauto.
    + eapply Overlap_step; eauto.
      * eapply rotation_reachable_Inv; eauto.
      * eapply reachable_Promises; eauto.
Qed.

(** [doRotate] leaves an unhandled rejection exactly when the rename
    has worked, compression is on and the gzip pipeline fails. *)
Lemma doRotate_unhandled r env :
  existsb isUnhandled (snd (fst (doRotate r env))) = true <->
  fst (retried (renameSync env)) = Returns tt /\
  compress (opts r) && maxFilesNonZero (opts r) = true /\
  exists e, pipeline env = Throws e.
Proof.
  unfold doRotate, compressStep, compressFile, retentionStep, report.
  destruct (retried (renameSync env)) as [[[]|e0] attempts]; cbn [fst].
  2:{ destruct (onError env _); cbn; split;
        [discriminate|intros [H _]; discriminate| |intros [H _]; discriminate];
        discriminate. }
  destruct (compress (opts r) && maxFilesNonZero (opts r)).
  2:{ destruct (maxFiles (opts r)) as [limit|];
        [destruct (retention _ _ _ limit (readdir env));
         [|destruct (onError env _)]|];
        cbn; (split; [discriminate|intros (_ & H & _); discriminate]). }
  destruct (pipeline env) as [[]|e].
  - destruct (retried (unlinkSync env)) as [[[]|e1] att];
      [|destruct (onError env _)];
      try (destruct (maxFiles (opts r)) as [limit|];
           [destruct (retention _ _ _ limit (readdir env));
            [|destruct (onError env _)]|]);
      cbn; (split; [discriminate|intros (_ & _ & e' & H); discriminate]).
  - destruct (onError env _);
      try (destruct (maxFiles (opts r)) as [limit|];
           [destruct (retention _ _ _ limit (readdir env));
            [|destruct (onError env _)]|]);
      cbn; (split; [intros _; repeat split; eauto|reflexivity]).
Qed.

(** When resuming a call ends the process. *)
Lemma exits_iff w i env :
  exits w i env = true <->
  (exists own, nth_error (frames w) i = Some (AwaitingDoRotate own)) /\
  unhandledRejections env = ExitProcess /\
  fst (retried (renameSync (rotateEnv env))) = Returns tt /\
  compress (opts (rotator w)) && maxFilesNonZero (opts (rotator w)) = true /\
  exists e, pipeline (rotateEnv env) = Throws e.
Proof.
  unfold exits, endsProcess.
  destruct (nth_error (frames w) i) as [[p|own|own|res]|];
    try (split; [discriminate|intros [(own' & H) _]; discriminate]).
  destruct (unhandledRejections env).
  - rewrite doRotate_unhandled. split.
    + intros H. split; [eauto|]. split; [reflexivity|exact H].
    + intros (_ & _ & H). exact H.
  - split; [discriminate|intros (_ & H & _); discriminate].
Qed.

(** A rotator left with its flag set stays so: no later call starts a
    rotation, none of them settles. *)
Lemma stuck_step own n w e w' :
  stuck own w -> waitingFrom n own w -> (n <= List.length (frames w))%nat ->
  step w e = Some w' ->
  stuck own w' /\ waitingFrom n own w' /\ (n <= List.length (frames w'))%nat.
Proof.
  intros (Hrot & Hnone & Hprom & Hnr) Hwait Hn Hstep.
  destruct e as [|k env]; cbn [step] in Hstep.
  - rewrite Hrot, Hprom in Hstep. injection Hstep as <-. cbn.
    split; [|split].
    + repeat split; auto. cbn. intros i f Hi.
      apply nth_error_snoc in Hi as [Hi|[_ ->]]; [eauto|reflexivity].
    + intros k f Hk Hf. cbn in Hf.
      apply nth_error_snoc in Hf as [Hf|[_ ->]]; [eauto|reflexivity].
    + rewrite length_app. cbn. lia.
  - destruct (nth_error (frames w) k) as [[p|o|o|res]|] eqn:Hk;
      try discriminate.
    + match type of Hstep with
      | (if ?b then _ else _) = _ => destruct b eqn:Hrel; [|discriminate]
      end.
      injection Hstep as <-. cbn.
      assert (Hlt : (k < n)%nat).
      { destruct (Nat.lt_ge_cases k n) as [H|H]; [exact H|].
        pose proof (Hwait k _ H Hk) as Hp. injection Hp as ->.
        rewrite (existsb_absent own _ Hnr) in Hrel. discriminate. }
      split; [|split].
      * repeat split; auto. cbn. intros i f Hi.
        rewrite nth_error_setFrame in Hi.
        destruct (Nat.eqb i k); [|eauto].
        destruct (nth_error (frames w) i); [|discriminate].
        now injection Hi as <-.
      * intros i f Hi Hf. cbn in Hf. rewrite nth_error_setFrame in Hf.
        destruct (Nat.eqb_spec i k); [lia|eauto].
      * now rewrite setFrame_length.
    + pose proof (Hnone k _ Hk). discriminate.
    + pose proof (Hnone k _ Hk). discriminate.
Qed.

Lemma stuck_run own n :
  forall es w w',
    stuck own w -> waitingFrom n own w -> (n <= List.length (frames w))%nat ->
    run w es = Some w' -> stuck own w' /\ waitingFrom n own w'.
Proof.
  induction es as [|e es IH]; intros w w' Hs Hw Hn; cbn.
  - intros [= <-]. auto.
  - destruct (step w e) as [w1|] eqn:E; [|discriminate].
    destruct (stuck_step own n w e w1 Hs Hw Hn E) as (Hs1 & Hw1 & Hn1).
    now apply IH.
Qed.

(** The [finally] block with an [openStream] that throws: the call
    rejects with that error, and the rotator is left stuck. *)
Lemma finallyBlock_stuck w i own env result r' effs f e :
  Inv w -> Promises w ->
  nth_error (frames w) i = Some f -> owns f own ->
  isRotating r' = isRotating (rotator w) ->
  rotationPromise r' = rotationPromise (rotator w) ->
  openStream env = Throws e ->
  let w' := finallyBlock w i own env result r' effs in
  nth_error (frames w') i = Some (Done (Throws e)) /\
  stuck own w' /\
  waitingFrom (List.length (frames w')) own w'.
Proof.
  intros HI HP Hf Hown Hflag Hprom Ho. cbv zeta.
  destruct (inv_active w HI i f Hf (owns_active _ _ Hown)) as (Hrot & _).
  destruct (pr_owner w HP i f own Hf Hown) as (Hp & Hnr & _).
  unfold finallyBlock. rewrite Ho. cbn.
  split; [now rewrite nth_error_setFrame, Nat.eqb_refl, Hf|]. split.
  - repeat split; cbn; try congruence.
    intros k g Hk. rewrite nth_error_setFrame in Hk.
    destruct (Nat.eqb_spec k i) as [->|Hne].
    + rewrite Hf in Hk. now injection Hk as <-.
    + destruct (isActive g) eqn:Hg; [|reflexivity].
      exfalso. apply Hne.
      eapply (inv_unique w HI); eauto using owns_active.
  - intros k g Hk Hg. exfalso. cbn in Hg, Hk.
    assert (Hlt : (k < List.length (setFrame i (Done (@Throws bool e)) (frames w)))%nat)
      by (apply nth_error_Some; congruence).
    lia.
Qed.

(** C9.  Resuming a [rotate] call that has started a rotation, in any
    environment.  Unless the process ends, the call either was awaiting
    [closeStream], which fulfilled, and goes on to [doRotate] without
    having touched the sink, or it settles, having invoked [openStream]
    exactly once in its [finally] block; if [openStream] returned, the
    flag is then cleared and the promise resolved, as claimed.  But the
    block calls [openStream] first: if that throws, the call rejects
    with its error and the flag stays set for good, with a promise that
    is never resolved, so that every later call waits and never
    settles.  And the process ends while the call awaits [doRotate],
    before the block has run, exactly when unhandled rejections end it,
    the rename has worked, compression is on and the gzip pipeline
    fails. *)
Theorem rotate_finally_block_can_be_cut_short :
  forall (r : FileRotator) (w : World) (i : nat) (f : Frame) (env : Env),
    reachable r w ->
    nth_error (frames w) i = Some f -> isActive f = true ->
    (exits w i env = false ->
     exists w',
       step w (Resume i env) = Some w' /\
       ((exists own, f = AwaitingClose own /\
                     closeStream env = Returns tt /\
                     nth_error (frames w') i = Some (AwaitingDoRotate own) /\
                     countBy i isOpenSink (effects w') = 0%nat /\
                     isRotating (rotator w') = true)
        \/
        (exists res own,
            owns f own /\
            nth_error (frames w') i = Some (Done res) /\
            countBy i isOpenSink (effects w') = 1%nat /\
            match openStream env with
            | Returns _ =>
                isRotating (rotator w') = false /\
                rotationPromise (rotator w') = None /\
                In own (resolved w')
            | Throws e =>
                res = Throws e /\
                forall es w2,
                  run w' es = Some w2 ->
                  stuck own w2 /\
                  waitingFrom (List.length (frames w')) own w2
            end))) /\
    (exits w i env = true -> step w (Resume i env) = None) /\
    (exits w i env = true <->
     (exists own, f = AwaitingDoRotate own) /\
     unhandledRejections env = ExitProcess /\
     fst (retried (renameSync (rotateEnv env))) = Returns tt /\
     compress (opts (rotator w)) && maxFilesNonZero (opts (rotator w)) = true /\
     exists e, pipeline (rotateEnv env) = Throws e).
Proof.
  intros r w i f env Hreach Hf Hact.
  pose proof (rotation_reachable_Inv r w Hreach) as HI.
  pose proof (reachable_Promises r w Hreach) as HP.
  destruct (inv_active w HI i f Hf Hact) as (Hrot & Hopen & _).
  assert (Hsettles :
            forall own result r' effs,
              owns f own ->
              isRotating r' = isRotating (rotator w) ->
              rotationPromise r' = rotationPromise (rotator w) ->
              filter isOpenSink effs = [] ->
              let w' := finallyBlock w i own env result r' effs in
              exists res own',
                owns f own' /\
                nth_error (frames w') i = Some (Done res) /\
                countBy i isOpenSink (effects w') = 1%nat /\
                match openStream env with
                | Returns _ =>
                    isRotating (rotator w') = false /\
                    rotationPromise (rotator w') = None /\
                    In own' (resolved w')
                | Throws e =>
                    res = Throws e /\
                    forall es w2,
                      run w' es = Some w2 ->
                      stuck own' w2 /\
                      waitingFrom (List.length (frames w')) own' w2
                end).
  { intros own result r' effs Hown Hflag Hprom Hno. cbv zeta.
    destruct (finallyBlock_frame w i own env result r' effs _ Hf)
      as (res & Hres & Hval).
    exists res, own. split; [exact Hown|]. split; [exact Hres|].
    split; [now apply finallyBlock_opens|].
    destruct (openStream env) as [[]|e] eqn:Ho.
    - apply finallyBlock_flag. exact Ho.
    - split; [exact Hval|]. intros es w2 Hrun.
      destruct (finallyBlock_stuck w i own env result r' effs f e
                  HI HP Hf Hown Hflag Hprom Ho) as (_ & Hs & Hw).
      eapply stuck_run; eauto. }
  split; [|split].
  - intros Hex. unfold exits in Hex. cbn [step]. rewrite Hf in *.
    destruct f as [p|own|own|res]; try discriminate.
    + destruct (closeStream env) as [[]|e] eqn:Hc.
      * eexists; split; [reflexivity|]. left. exists own. cbn.
        rewrite nth_error_setFrame, Nat.eqb_refl, Hf. auto.
      * eexists; split; [reflexivity|]. right.
        apply Hsettles; auto. now left.
    + destruct (doRotate (rotator w) (rotateEnv env))
        as [[result effs] r'] eqn:Ed.
      cbn [fst snd] in Hex. rewrite Hex.
      destruct (doRotate_spec _ _ _ _ _ Ed) as (Hflag & Hprom & Hno & _ & _).
      eexists; split; [reflexivity|]. right.
      apply Hsettles; auto. now right.
  - intros Hex. unfold exits in Hex. cbn [step]. rewrite Hf in *.
    destruct f as [p|own|own|res]; try discriminate.
    destruct (doRotate (rotator w) (rotateEnv env)) as [[result effs] r'].
    cbn [fst snd] in Hex. now rewrite Hex.
  - rewrite exits_iff, Hf. split.
    + intros [(own & Heq) Hrest]. injection Heq as ->.
      split; [eauto|exact Hrest].
    + intros [(own & ->) Hrest]. split; [eauto|exact Hrest].
Qed.

(** In the sample run the first call is resumed with a [closeStream]
    that rejects and an [openStream] that throws; and, after its
    [closeStream] has fulfilled, with a gzip pipeline that fails. *)
Lemma rotate_finally_block_can_be_cut_short_witness :
  (exists w',
      step afterFirstCall (Resume 0 openFails) = Some w' /\
      nth_error (frames w') 0 = Some (Done (Throws (plainError "open failed"))) /\
      countBy 0 isOpenSink (effects w') = 1%nat /\
      isRotating (rotator w') = true /\
      resolved w' = []) /\
  exits afterClose 0 gzipFails = true /\
  step afterClose (Resume 0 gzipFails) = None.
Proof.
  assert (Hreach1 : reachable sampleRotator afterFirstCall).
  { apply (rotation_run_reachable sampleRotator [Call] (init sampleRotator)).
    - apply reach_init.
    - reflexivity. }
  assert (Hreach2 : reachable sampleRotator afterClose).
  { apply (rotation_run_reachable sampleRotator [Call; Resume 0 allFine]
             (init sampleRotator)).
    - apply reach_init.
    - reflexivity. }
  split.
  - destruct (rotate_finally_block_can_be_cut_short sampleRotator
                afterFirstCall 0 (AwaitingClose 0) openFails
                Hreach1 eq_refl eq_refl) as (Hgo & _).
    destruct (Hgo eq_refl)
      as (w' & Hstep & [(own & _ & Hc & _)|(res & own & _ & Hres & Hopen & Hs)]).
    + discriminate Hc.
    + destruct Hs as (-> & Hstuck).
      destruct (Hstuck [] w' eq_refl) as ((Hflag & _) & _).
      exists w'. split; [exact Hstep|]. split; [exact Hres|].
      split; [exact Hopen|]. split; [exact Hflag|].
      vm_compute in Hstep. now injection Hstep as <-.
  - destruct (rotate_finally_block_can_be_cut_short sampleRotator
                afterClose 0 (AwaitingDoRotate 0) gzipFails
                Hreach2 eq_refl eq_refl) as (_ & Hexit & Hiff).
    assert (Hex : exits afterClose 0 gzipFails = true).
    { apply Hiff. split; [eauto|].
      split; [reflexivity|]. split; [reflexivity|]. split; [reflexivity|].
      eexists. reflexivity. }
    split; [exact Hex|exact (Hexit Hex)].
Defined.

(** [withRetry] for a step of the rotation always makes an attempt. *)
Lemma retried_attempts (op : nat -> Completion unit) :
  (1 <= snd (retried op))%nat.
Proof.
  unfold retried.
  destruct (RetryTheory.withRetry_total op fsRetry None (Some retryErrorCodes))
    as (run & Hrun).
  rewrite Hrun.
  pose proof (RetryTheory.withRetry_at_least_once op fsRetry None
                (Some retryErrorCodes) run Hrun) as Hone.
  destruct (Retry.settled run) as [v|[e|n c]]; exact Hone.
Qed.

(** The first thing [doRotate] does is the rename, with its retries;
    the result is [true] only if it worked and [false] only if it did
    not. *)
Lemma doRotate_renames r env :
  forall result effs r',
    doRotate r env = (result, effs, r') ->
    exists rest,
      effs = Rename (join (dir (path r))
                          (base (path r) ++ "." ++ dashed (now env)
                                ++ ext (path r)))
                    (snd (retried (renameSync env))) :: rest /\
      (1 <= snd (retried (renameSync env)))%nat /\
      (result = Returns true -> fst (retried (renameSync env)) = Returns tt) /\
      (result = Returns false ->
       exists e, fst (retried (renameSync env)) = Throws e).
Proof.
  intros result effs r' H.
  pose proof (retried_attempts (renameSync env)) as Hone.
  unfold doRotate in H.
  destruct (retried (renameSync env)) as [[[]|e] attempts]; cbn [fst snd] in *.
  - destruct (compressStep (opts r) env _) as [[[]|e1] effs1].
    + destruct (retentionStep (path r) (opts r) env) as [[[]|e2] effs2];
        injection H as <- <- <-; eexists; (split; [reflexivity|]);
        (split; [exact Hone|]); split; (reflexivity || discriminate).
    + injection H as <- <- <-. eexists. split; [reflexivity|].
      split; [exact Hone|]. split; discriminate.
  - destruct (report env "Failed to rename log.") as [[[]|e1] effs1];
      injection H as <- <- <-; eexists; (split; [reflexivity|]);
      (split; [exact Hone|]); split; (discriminate || eauto).
Qed.

(** C5 (as amended).  A [rotate] call [i] made while call [j] is
    rotating only waits for the promise [own] of that rotation.
    Whatever happens next (the calls resume in any order, further calls
    arrive), call [i] never causes an effect, and the rotation of call
    [j] closes the sink once, reopens it at most once and renames at
    most once: exactly once whenever call [j] fulfils, and the rename
    is what [doRotate] starts with, attempted at least once, having
    worked when the result is [true].  At no time are two calls
    rotating.  Call [i] cannot be resumed before the promise is
    resolved, which the [finally] block of call [j] does; from then on
    it can, and it returns [false] without an effect. *)
Theorem overlapping_rotate_calls_rotate_at_most_once :
  forall (r : FileRotator) (w : World) (j : nat) (fj : Frame),
    reachable r w ->
    nth_error (frames w) j = Some fj -> isActive fj = true ->
    let i := List.length (frames w) in
    exists own w1,
      step w Call = Some w1 /\
      nth_error (frames w1) i = Some (AwaitingInflight (Some own)) /\
      effects w1 = effects w /\ rotator w1 = rotator w /\
      (forall es w2,
        run w1 es = Some w2 ->
        (forall e, ~ In (i, e) (effects w2)) /\
        countBy j isCloseSink (effects w2) = 1%nat /\
        (countBy j isRename (effects w2) <= 1)%nat /\
        (countBy j isOpenSink (effects w2) <= 1)%nat /\
        (forall b, nth_error (frames w2) j = Some (Done (Returns b)) ->
                   countBy j isRename (effects w2) = 1%nat) /\
        (forall a b fa fb,
            nth_error (frames w2) a = Some fa ->
            nth_error (frames w2) b = Some fb ->
            isActive fa = true -> isActive fb = true -> a = b) /\
        (nth_error (frames w2) i = Some (AwaitingInflight (Some own)) \/
         nth_error (frames w2) i = Some (Done (Returns false)) /\
         In own (resolved w2) /\
         countBy j isOpenSink (effects w2) = 1%nat /\
         exists res, nth_error (frames w2) j = Some (Done res)) /\
        (~ In own (resolved w2) ->
         forall env, step w2 (Resume i env) = None) /\
        (In own (resolved w2) ->
         nth_error (frames w2) i = Some (AwaitingInflight (Some own)) ->
         forall env, exists w3,
           step w2 (Resume i env) = Some w3 /\
           nth_error (frames w3) i = Some (Done (Returns false)) /\
           effects w3 = effects w2)) /\
      (forall renv result effs r',
          doRotate (rotator w) renv = (result, effs, r') ->
          exists rest,
            effs = Rename (join (dir (path (rotator w)))
                                (base (path (rotator w)) ++ "."
                                      ++ dashed (now renv)
                                      ++ ext (path (rotator w))))
                          (snd (retried (renameSync renv))) :: rest /\
            (1 <= snd (retried (renameSync renv)))%nat /\
            (result = Returns true ->
             fst (retried (renameSync renv)) = Returns tt) /\
            (result = Returns false ->
             exists e, fst (retried (renameSync renv)) = Throws e)).
Proof.
  intros r w j fj Hreach Hj Hact i.
  pose proof (rotation_reachable_Inv r w Hreach) as HI.
  pose proof (reachable_Promises r w Hreach) as HP.
  destruct (active_owns fj Hact) as (own & Hown).
  destruct (inv_active w HI j fj Hj Hact) as (Hrot & Hopen & Hclose).
  destruct (pr_owner w HP j fj own Hj Hown) as (Hprom & Hnr & _ & Hren).
  assert (Hlt : (j < i)%nat) by (apply nth_error_Some; congruence).
  exists own.
  eexists. split; [cbn [step]; rewrite Hrot, Hprom; reflexivity|].
  cbn [frames effects rotator].
  split; [rewrite nth_error_app2, Nat.sub_diag by lia; reflexivity|].
  split; [reflexivity|]. split; [reflexivity|].
  split; [|apply doRotate_renames].
  intros es w2 Hrun.
  match type of Hrun with run ?w1 _ = _ => set (w1' := w1) in * end.
  assert (Hreach1 : reachable r w1').
  { apply (reach_step r w Call w1' Hreach).
    cbn [step]. rewrite Hrot, Hprom. reflexivity. }
  assert (HO : Overlap i j own w1').
  { constructor; cbn.
    - lia.
    - intros e Hin. apply (inv_tags w HI) in Hin. fold i in Hin. lia.
    - exact Hclose.
    - lia.
    - left. exists fj. rewrite nth_error_app1 by lia.
      rewrite nth_error_app2, Nat.sub_diag by lia. auto. }
  destruct (Overlap_run r i j own es w1' w2 Hreach1 HO Hrun) as [Hreach2 HO2].
  pose proof (rotation_reachable_Inv r w2 Hreach2) as HI2.
  destruct HO2 as [Hd Hq Hc Hr Hf].
  split; [exact Hq|]. split; [exact Hc|]. split; [exact Hr|].
  split; [|split; [|split; [apply (inv_unique w2 HI2)|split; [|split]]]].
  - destruct Hf as [(_ & _ & _ & _ & ->)|(_ & _ & -> & _)]; lia.
  - intros b Hb.
    destruct Hf as [(g & Hg & Hog & _)|(res & Hres & _ & Hone & _)].
    + rewrite Hb in Hg. injection Hg as <-. destruct Hog; discriminate.
    + rewrite Hb in Hres. injection Hres as <-. eapply Hone; reflexivity.
  - destruct Hf as [(g & _ & _ & Hi & _)|(res & Hres & Ho & _ & [Hi|[Hi Hin]])];
      [now left|now left|right; eauto 6].
  - intros Hnot env. cbn [step].
    destruct Hf as [(g & _ & _ & Hi & _)|(res & _ & _ & _ & [Hi|[Hi Hin]])];
      rewrite Hi; [| |reflexivity];
      now rewrite (existsb_absent own _ Hnot).
  - intros Hin Hi env. cbn [step]. rewrite Hi.
    assert (Ex : existsb (Nat.eqb own) (resolved w2) = true).
    { apply existsb_exists. exists own. split; [exact Hin|apply Nat.eqb_refl]. }
    rewrite Ex. eexists. split; [reflexivity|]. cbn.
    rewrite nth_error_setFrame, Nat.eqb_refl, Hi. auto.
Qed.

(** The two calls of the sample run: the second call arrives while the
    first awaits [closeStream]; the first then rotates, the second
    returns [false]. *)
Lemma overlapping_rotate_calls_rotate_at_most_once_witness :
  exists w1 w2,
    step afterFirstCall Call = Some w1 /\
    run w1 [Resume 0 allFine; Resume 0 allFine; Resume 1 allFine] = Some w2 /\
    countBy 0 isCloseSink (effects w2) = 1%nat /\
    countBy 0 isRename (effects w2) = 1%nat /\
    frames w2 = [Done (Returns true); Done (Returns false)] /\
    effects w2
    = [(0%nat, CloseSink);
       (0%nat, Rename "logs/app.2025-07-21T10-00-00-000Z.log" 1);
       (0%nat, Compress "logs/app.2025-07-21T10-00-00-000Z.log");
       (0%nat, UnlinkRotated "logs/app.2025-07-21T10-00-00-000Z.log" 1);
       (0%nat, Prune ["logs/app.2025-07-20T10-00-00-000Z.log.gz";
                      "logs/app.2025-07-21T10-00-00-000Z.log.gz"]%string);
       (0%nat, OpenSink)].
Proof.
  assert (Hreach : reachable sampleRotator afterFirstCall).
  { apply (rotation_run_reachable sampleRotator [Call] (init sampleRotator)).
    - apply reach_init.
    - reflexivity. }
  destruct (overlapping_rotate_calls_rotate_at_most_once sampleRotator
              afterFirstCall 0 (AwaitingClose 0) Hreach eq_refl eq_refl)
    as (own & w1 & Hstep & _ & _ & _ & Hall & _).
  destruct (run w1 [Resume 0 allFine; Resume 0 allFine; Resume 1 allFine])
    as [w2|] eqn:Hrun.
  - exists w1, w2. split; [exact Hstep|]. split; [exact Hrun|].
    destruct (Hall _ _ Hrun) as (_ & Hc & _ & _ & Hone & _).
    split; [exact Hc|].
    vm_compute in Hstep. injection Hstep as <-.
    vm_compute in Hrun. injection Hrun as <-.
    split; [exact (Hone true eq_refl)|]. split; reflexivity.
  - vm_compute in Hstep. injection Hstep as <-.
    vm_compute in Hrun. discriminate.
Defined.

(** C5 (as stated) fails: when [closeStream] rejects for the first of
    two overlapping calls, that call reopens the sink and rejects, the
    second call returns [false], and nothing has been renamed. *)
Lemma overlapping_calls_without_rotation_counterexample :
  (exists w,
      run (init sampleRotator)
          [Call; Call; Resume 0 closeFails; Resume 1 allFine] = Some w /\
      frames w = [Done (Throws (plainError "close failed"));
                  Done (Returns false)] /\
      effects w = [(0%nat, CloseSink); (0%nat, OpenSink)]) /\
  ~ rotatesExactlyOnce.
Proof.
  split.
  - eexists. split; [vm_compute; reflexivity|]. split; reflexivity.
  - intros H.
    specialize (H sampleRotator [Resume 0 closeFails; Resume 1 allFine]).
    vm_compute in H.
    specialize (H _ _ eq_refl eq_refl eq_refl). discriminate H.
Qed.

End RotationTheory.

(* ------------------------------------------------------------------ *)
(** * Properties of the worker handshake *)
Module HandshakeTheory.
Import Handshake.

Lemma deliver_tagged h msg :
  isErrorTagged msg = true -> deliver h (OnMessage msg) = h.
Proof. intros H. cbn. rewrite H. now destruct (listening h). Qed.

Lemma deliverAll_tagged msgs :
  Forall (fun m => isErrorTagged m = true) msgs ->
  forall h, deliverAll h (map OnMessage msgs) = h.
Proof.
  unfold deliverAll.
  induction 1 as [|m msgs Hm _ IH]; intros h; cbn [map fold_left];
    [reflexivity|].
  rewrite (deliver_tagged h m Hm). apply IH.
Qed.

(** C7.  Whatever number of error-tagged messages arrives, the handshake
    is left exactly as it was: pending for its reply or its timer.  From
    there the literal reply completes it, and any other message that does
    not carry the prefix, a worker error, the worker's exit or the timer
    fails it at once. *)
Theorem error_tagged_messages_do_not_settle :
  forall (worker : Field WorkerOptions) (k : Kind) (tagged : list Message),
    Forall (fun m => isErrorTagged m = true) tagged ->
    let h := deliverAll (start worker k) (map OnMessage tagged) in
    h = start worker k /\ outcome h = None /\ listening h = true /\
    outcome (deliver h (OnMessage (Text (expectedReply h)))) = Some Succeeded /\
    (forall m, isErrorTagged m = false -> isExpected (expectedReply h) m = false ->
               outcome (deliver h (OnMessage m))
               = Some (Failed (Unexpected (expectedReply h) m))) /\
    (forall err, outcome (deliver h (OnError err))
                 = Some (Failed (WorkerFailed err))) /\
    (forall code, outcome (deliver h (OnExit code))
                  = Some (Failed (ExitedEarly code))) /\
    outcome (deliver h TimerFired) = Some (Failed (TimedOut (timerMs h))).
Proof.
  intros worker k tagged Htag h. subst h.
  rewrite (deliverAll_tagged tagged Htag).
  split; [reflexivity|].
  destruct k; cbn; repeat split; auto;
    intros m Hm Hx; rewrite Hm, Hx; reflexivity.
Qed.

Lemma error_tagged_messages_do_not_settle_witness :
  let h := deliverAll (start (Value defaultWorker) Drain)
                      [OnMessage (Text "WORKER_ERROR:{}");
                       OnMessage (Text "WORKER_ERROR:disk full")] in
  outcome h = None /\
  outcome (deliver h (OnMessage (Text "drained"))) = Some Succeeded /\
  outcome (deliver h (OnMessage (Text "closed")))
  = Some (Failed (Unexpected "drained" (Text "closed"))).
Proof.
  destruct (error_tagged_messages_do_not_settle (Value defaultWorker) Drain
              [Text "WORKER_ERROR:{}"; Text "WORKER_ERROR:disk full"])
    as (Heq & Hnone & _ & Hok & Hother & _).
  - repeat constructor.
  - cbv zeta. cbn [map] in *. split; [exact Hnone|]. split.
    + exact Hok.
    + exact (Hother (Text "closed") eq_refl eq_refl).
Defined.

(** C3 (what the code does).  Every handshake, the ready one included,
    arms its timer with [worker.closeTimeout] (0 when that is not a
    number); [worker.readyTimeout] has no influence on it.  With only
    [readyTimeout: 10] configured the ready handshake waits for the
    default close timeout of 60000 ms. *)
Theorem ready_handshake_ignores_readyTimeout :
  (forall (worker : Field WorkerOptions) (k : Kind),
      timerMs (start worker k) = handshakeTimeout worker) /\
  (forall (w : WorkerOptions) (r : Field Z),
      timerMs (runAsWorker (Value (withReadyTimeout r w)))
      = timerMs (runAsWorker (Value w))) /\
  timerMs (runAsWorker (mergeWorker shortReady)) = 60000.
Proof.
  split; [|split].
  - intros worker []; reflexivity.
  - intros w r. reflexivity.
  - reflexivity.
Qed.

End HandshakeTheory.

(* ------------------------------------------------------------------ *)
(** * Properties of the abstract transport *)
Module TransportTheory.
Import Transport.

Section Calls.
Context {S : Type}.
Variable doLog : Log -> Core -> S -> Completion unit * Core * S.
Variable postMessage : WireMessage -> Completion unit.

Lemma checkTransportState_closing c :
  isClosed c = true \/ isClosing c = true ->
  exists e, checkTransportState c = Throws e /\
            (e = closedError \/ e = closingError).
Proof.
  unfold checkTransportState. intros [H|H].
  - rewrite H. eauto.
  - rewrite H. destruct (isClosed c); eauto.
Qed.

(** A [log] call whose [try] block throws is caught: the transport left
    by the block gets [logProcessed + 1] and the error is reported;
    the call returns what the error callback returns. *)
Lemma log_caught l c s e c2 s2 :
  tryLog doLog postMessage l c s = (Throws e, c2, s2) ->
  log doLog postMessage l c s
  = (onError c2 (mkTransportError e (ForLog l)),
     withReported (reported c2 ++ [mkTransportError e (ForLog l)])
                  (addProcessed 1 c2),
     s2).
Proof. intros H. unfold log. rewrite H. reflexivity. Qed.

Lemma tryLog_rejected l c s :
  isClosed c = true \/ isClosing c = true ->
  exists e, (e = closedError \/ e = closingError) /\
            tryLog doLog postMessage l c s
            = (Throws e, withRequests (logRequests c + 1) c, s).
Proof.
  intros H. unfold tryLog.
  destruct (checkTransportState_closing (withRequests (logRequests c + 1) c))
    as (e & He & Hcase); [exact H|].
  rewrite He. eauto.
Qed.

(** The [catch] block of [raw], for data that is JSON text and for data
    that is not. *)
Lemma raw_caught data posted c e c2 :
  worker c = Some posted ->
  tryRaw postMessage data posted c = (Throws e, c2) ->
  raw postMessage data c
  = match rawParsed data with
    | Returns l =>
        (onError c2 (mkTransportError e (ForLog l)),
         withReported (reported c2 ++ [mkTransportError e (ForLog l)])
                      (addProcessed 1 c2))
    | Throws pe => (Throws pe, addProcessed 1 c2)
    end.
Proof.
  intros Hw H. unfold raw. rewrite Hw, H. now destruct (rawParsed data).
Qed.

(** What the [try] block of [raw] leaves behind when it throws. *)
Lemma tryRaw_thrown data posted c e c2 :
  tryRaw postMessage data posted c = (Throws e, c2) ->
  c2 = withRequests (logRequests c + 1) c.
Proof.
  unfold tryRaw, post.
  destruct (checkTransportState _); [|now intros [= _ <-]].
  destruct (postMessage _); [discriminate|now intros [= _ <-]].
Qed.

Lemma tryRaw_rejected data posted c :
  isClosed c = true \/ isClosing c = true ->
  exists e, (e = closedError \/ e = closingError) /\
            tryRaw postMessage data posted c
            = (Throws e, withRequests (logRequests c + 1) c).
Proof.
  intros H. unfold tryRaw.
  destruct (checkTransportState_closing (withRequests (logRequests c + 1) c))
    as (e & He & Hcase); [exact H|].
  rewrite He. eauto.
Qed.

(** What the [try] block of [log] leaves of the counters when it
    throws. *)
Lemma tryLog_thrown l c s e c2 s2 :
  keepsCounters doLog ->
  tryLog doLog postMessage l c s = (Throws e, c2, s2) ->
  logRequests c2 = logRequests c + 1 /\ logProcessed c2 = logProcessed c.
Proof.
  intros Hkeep. unfold tryLog, post.
  destruct (checkTransportState _); [|now intros [= _ <- _]].
  cbn [worker withRequests].
  destruct (worker c) as [posted|].
  - destruct (postMessage _); [discriminate|now intros [= _ <- _]].
  - intros H. apply Hkeep in H. exact H.
Qed.

End Calls.

(** The hooks of the three sinks leave the counters alone. *)
Lemma console_doLog_counters env : keepsCounters (ConsoleSink.doLog env).
Proof.
  intros l c s r c' s'. unfold ConsoleSink.doLog.
  destruct env; [|now intros [= _ <- _]].
  destruct (ConsoleSink.useJobQueue s); [|now intros [= _ <- _]].
  destruct (JobQueue.enqueue _ _). now intros [= _ <- _].
Qed.

Lemma http_flushLoop_counters fuel :
  forall c s c' s',
    HttpSink.flushLoop fuel c s = (c', s') ->
    logRequests c' = logRequests c /\ logProcessed c' = logProcessed c.
Proof.
  induction fuel as [|fuel IH]; intros c s c' s'; cbn [HttpSink.flushLoop];
    [now intros [= <- _]|].
  destruct (HttpSink.buffer s); [now intros [= <- _]|].
  destruct (JobQueue.enqueue _ _) as [q started]. intros H.
  apply IH in H. exact H.
Qed.

Lemma http_doLog_counters env : keepsCounters (HttpSink.doLog env).
Proof.
  intros l c s r c' s'. unfold HttpSink.doLog, HttpSink.flush.
  destruct (_ <=? _)%nat; [|now intros [= _ <- _]].
  destruct (HttpSink.flushLoop _ _ _) as [c1 s1] eqn:E. intros [= _ <- _].
  exact (http_flushLoop_counters _ _ _ _ _ E).
Qed.

Lemma file_flushLoop_counters env fuel :
  forall c s r c' s',
    FileSink.flushLoop env fuel c s = (r, c', s') ->
    logRequests c' = logRequests c /\ logProcessed c' = logProcessed c.
Proof.
  induction fuel as [|fuel IH]; intros c s r c' s'; cbn [FileSink.flushLoop];
    [now intros [= _ <- _]|].
  destruct (FileSink.buffer s); [now intros [= _ <- _]|].
  destruct (FileSink.format env _).
  - destruct (FileSink.wantsRotation _ _ _) as [[|] s2].
    + destruct (JobQueue.drain _ _). now intros [= _ <- _].
    + unfold FileSink.sendBody. destruct (JobQueue.enqueue _ _).
      intros H. apply IH in H. exact H.
  - cbn [handleError]. destruct (onError c _).
    + intros H. apply IH in H. exact H.
    + now intros [= _ <- _].
Qed.

Lemma file_doLog_counters env : keepsCounters (FileSink.doLog env).
Proof.
  intros l c s r c' s'. unfold FileSink.doLog, FileSink.flush.
  destruct (_ <=? _)%nat; [|now intros [= _ <- _]].
  destruct (FileSink.isFlushing _); [now intros [= _ <- _]|].
  destruct (FileSink.isRotating _); [now intros [= _ <- _]|].
  destruct (FileSink.isOpen _).
  - destruct (FileSink.flushLoop _ _ _ _) as [[r1 c1] s1] eqn:E.
    intros [= _ <- _]. exact (file_flushLoop_counters _ _ _ _ _ _ _ E).
  - destruct (FileSink.ensureDir env); [|now intros [= _ <- _]].
    destruct (FileSink.flushLoop _ _ _ _) as [[r1 c1] s1] eqn:E.
    intros [= _ <- _]. exact (file_flushLoop_counters _ _ _ _ _ _ _ E).
Qed.

(** C10 (as amended).  On a transport whose [doLog] hook leaves the two
    counters alone (as the hooks of the console, HTTP and file sinks
    do), every [log] call whose [try] block throws, in particular one
    made while the transport is closing or closed, has added one to
    [logRequests] and one to [logProcessed] when it hands the error to
    the error callback, and ends as the callback ends: it returns when
    the callback returns and throws what the callback throws.  A [raw]
    call on an offloaded transport whose [try] block throws adds one to
    each counter as well; it then reports the error and ends as the
    callback ends when its data is JSON text, and throws what
    [JSON.parse] throws, reporting nothing, when it is not.  A call
    rejected because the transport is closing or closed leaves the
    queue alone too, so that the verdict of [assertStats] is after the
    call what it was before.  A [raw] call on a transport without a
    worker throws before it touches a counter. *)
Theorem failed_calls_are_counted :
  forall (S : Type) (doLog : Log -> Core -> S -> Completion unit * Core * S)
         (postMessage : WireMessage -> Completion unit),
    keepsCounters doLog ->
    (forall l c s e c2 s2,
        tryLog doLog postMessage l c s = (Throws e, c2, s2) ->
        exists c',
          log doLog postMessage l c s
          = (onError c2 (mkTransportError e (ForLog l)), c', s2) /\
          logRequests c' = logRequests c + 1 /\
          logProcessed c' = logProcessed c + 1 /\
          reported c' = reported c2 ++ [mkTransportError e (ForLog l)]) /\
    (forall l c s,
        isClosed c = true \/ isClosing c = true ->
        exists e c',
          (e = closedError \/ e = closingError) /\
          tryLog doLog postMessage l c s
          = (Throws e, withRequests (logRequests c + 1) c, s) /\
          log doLog postMessage l c s
          = (onError c (mkTransportError e (ForLog l)), c', s) /\
          logRequests c' = logRequests c + 1 /\
          logProcessed c' = logProcessed c + 1 /\
          reported c' = reported c ++ [mkTransportError e (ForLog l)] /\
          queue c' = queue c /\
          snd (assertStats c') = snd (assertStats c)) /\
    (forall data c posted e c2,
        worker c = Some posted ->
        tryRaw postMessage data posted c = (Throws e, c2) ->
        exists r c',
          raw postMessage data c = (r, c') /\
          logRequests c' = logRequests c + 1 /\
          logProcessed c' = logProcessed c + 1 /\
          match rawParsed data with
          | Returns l =>
              r = onError c (mkTransportError e (ForLog l)) /\
              reported c' = reported c ++ [mkTransportError e (ForLog l)]
          | Throws pe => r = Throws pe /\ reported c' = reported c
          end) /\
    (forall data c posted,
        worker c = Some posted ->
        isClosed c = true \/ isClosing c = true ->
        exists e,
          (e = closedError \/ e = closingError) /\
          tryRaw postMessage data posted c
          = (Throws e, withRequests (logRequests c + 1) c)) /\
    (forall data c,
        worker c = None ->
        raw postMessage data c
        = (Throws (plainError "Not supported in main thread"), c)).
Proof.
  intros S doLog postMessage Hkeep. split; [|split; [|split; [|split]]].
  - intros l c s e c2 s2 Htry.
    rewrite (log_caught _ _ _ _ _ _ _ _ Htry).
    destruct (tryLog_thrown _ _ _ _ _ _ _ _ Hkeep Htry) as [Hr Hp].
    eexists. split; [reflexivity|]. cbn. rewrite Hr, Hp. auto.
  - intros l c s H.
    destruct (tryLog_rejected doLog postMessage l c s H) as (e & He & Htry).
    exists e. rewrite (log_caught _ _ _ _ _ _ _ _ Htry).
    eexists. split; [exact He|]. split; [exact Htry|].
    do 5 (split; [reflexivity|]).
    unfold assertStats. cbn.
    destruct (worker c); [reflexivity|].
    replace (logProcessed c + 1 =? logRequests c + 1)
      with (logProcessed c =? logRequests c)
      by (destruct (Z.eqb_spec (logProcessed c) (logRequests c));
          destruct (Z.eqb_spec (logProcessed c + 1) (logRequests c + 1));
          (reflexivity || lia)).
    destruct (negb _ || _); [|reflexivity].
    now destruct (onError c _).
  - intros data c posted e c2 Hw Htry.
    rewrite (raw_caught _ _ _ _ _ _ Hw Htry).
    apply tryRaw_thrown in Htry. subst c2.
    destruct (rawParsed data); do 2 eexists; (split; [reflexivity|]);
      cbn; auto.
  - intros data c posted Hw H. apply tryRaw_rejected. exact H.
  - intros data c Hw. unfold raw. now rewrite Hw.
Qed.

Lemma failed_calls_are_counted_witness :
  let m := FileSink.create 1 Retry.noOption (Some 20) quiet in
  exists e c2 s2 c',
    tryLog (FileSink.doLog FileSink.dirFails) postOk 7%nat (core m) (sink m)
    = (Throws e, c2, s2) /\
    errCode e = Some "EACCES"%string /\
    log (FileSink.doLog FileSink.dirFails) postOk 7%nat (core m) (sink m)
    = (Returns tt, c', s2) /\
    logRequests c' = 1 /\ logProcessed c' = 1 /\
    reported c' = [mkTransportError e (ForLog 7%nat)].
Proof.
  cbv zeta.
  destruct (tryLog (FileSink.doLog FileSink.dirFails) postOk 7%nat
                   (core (FileSink.create 1 Retry.noOption (Some 20) quiet))
                   (sink (FileSink.create 1 Retry.noOption (Some 20) quiet)))
    as [[[u|e] c2] s2] eqn:Htry; [vm_compute in Htry; discriminate Htry|].
  destruct (proj1 (failed_calls_are_counted _ (FileSink.doLog FileSink.dirFails)
                     postOk (file_doLog_counters FileSink.dirFails))
                  7%nat _ _ e c2 s2 Htry)
    as (c' & Hlog & Hreq & Hproc & Hrep).
  pose proof Htry as Hrun. vm_compute in Hrun. injection Hrun as <- <- <-.
  do 4 eexists. split; [exact Htry|]. split; [reflexivity|].
  split; [exact Hlog|]. split; [exact Hreq|]. split; [exact Hproc|].
  exact Hrep.
Defined.

(** C10 (as stated) fails in three ways.  A [raw] call on a transport
    that is not offloaded throws and moves neither counter.  A [log]
    call on a closed transport whose error callback throws is counted
    and reported, and throws what the callback threw.  A [raw] call
    with text that is no JSON on a closed, offloaded transport is
    counted, reports nothing and throws the error of [JSON.parse]. *)
Lemma failing_calls_counterexample :
  ~ failingCallsCounted acceptAll postOk /\
  raw postOk sampleRaw (newCore None quiet)
  = (Throws (plainError "Not supported in main thread"), newCore None quiet) /\
  (exists c',
      log acceptAll postOk 7%nat (withFlags true true (newCore None throwing)) tt
      = (Throws callbackError, c', tt) /\
      logRequests c' = 1 /\ logProcessed c' = 1 /\
      reported c' = [mkTransportError closedError (ForLog 7%nat)]) /\
  (exists c',
      raw postOk notJson closedOffloaded = (Throws syntaxError, c') /\
      logRequests c' = 1 /\ logProcessed c' = 1 /\ reported c' = []).
Proof.
  split; [|split; [reflexivity|split; eexists; repeat split]].
  intros H.
  specialize (H (CallRaw sampleRaw) (newCore None quiet) tt).
  cbn in H. destruct H as (Hreq & _).
  - left. eauto.
  - discriminate.
Qed.

End TransportTheory.

(* ------------------------------------------------------------------ *)
(** * The close protocol of a transport whose sink accounts for its
      entries *)
Module CloseTheory.
Import Transport.

Section Lawful.
Variable K : Sink.
Variable A : Accounting K.
Hypothesis law : Lawful K A.

Lemma log_balance env l c s r c' s' :
  good A (queue c) s -> worker c = None ->
  log (doLog K env) (fun _ => Returns tt) l c s = (r, c', s') ->
  good A (queue c') s' /\ worker c' = None /\
  logRequests c' = logRequests c + 1 /\
  logProcessed c <= logProcessed c' /\
  logProcessed c' + owed A (queue c') s'
  = logProcessed c + owed A (queue c) s + 1.
Proof.
  intros Hg Hw. unfold log, tryLog.
  destruct (checkTransportState _) as [[]|e]; cbn [worker withRequests].
  - rewrite Hw.
    destruct (doLog K env l _ s) as [[r1 c1] s1] eqn:E.
    apply (law_doLog K A law) in E; [|exact Hg].
    destruct E as (Hg1 & (_ & _ & Hr & Hw1 & _) & Hmono & Hbal).
    cbn in Hr, Hw1, Hmono, Hbal.
    destruct r1 as [[]|e1]; intros [= <- <- <-]; cbn;
      repeat split; auto; try congruence; lia.
  - intros [= <- <- <-]. cbn. repeat split; auto; lia.
Qed.

Lemma poll_spec env c s R a :
  good A (queue c) s ->
  good A (queue (core (poll K env c s R a))) (sink (poll K env c s R a)) /\
  same c (core (poll K env c s R a)) /\
  logProcessed c <= logProcessed (core (poll K env c s R a)) /\
  logProcessed (core (poll K env c s R a))
  + owed A (queue (core (poll K env c s R a))) (sink (poll K env c s R a))
  = logProcessed c + owed A (queue c) s /\
  alarm (poll K env c s R a) = a /\
  ((exists d, phase (poll K env c s R a) = Polling R d) \/
   (exists e, phase (poll K env c s R a) = Rejected e)).
Proof.
  intros Hg. unfold poll.
  destruct (beforeDrain K env c s) as [[r c1] s1] eqn:E.
  apply (law_beforeDrain K A law) in E; [|exact Hg].
  destruct E as (Hg1 & Hsame & Hmono & Hbal).
  destruct r as [[]|e].
  - destruct (law_drain K A law (queue c1) s1 closeWaiter Hg1) as (Hg2 & Ho2).
    destruct (JobQueue.drain closeWaiter (queue c1)) as [q now]. cbn in *.
    repeat split; try apply Hsame; auto; try lia. left. eauto.
  - cbn. repeat split; try apply Hsame; auto; try lia. right. eauto.
Qed.

Lemma assertStats_keeps c r c' a :
  assertStats c = (r, c', a) ->
  queue c' = queue c /\ logProcessed c' = logProcessed c /\
  logRequests c' = logRequests c /\ worker c' = worker c.
Proof.
  unfold assertStats. destruct (worker c) eqn:Hw; [intros [= <- <- <-]; auto|].
  destruct (negb (logProcessed c =? logRequests c)
            || (0 <? JobQueue.length (queue c)));
    intros [= <- <- <-]; cbn; auto.
Qed.

Lemma assertStats_silent c :
  worker c = None -> logProcessed c = logRequests c ->
  JobQueue.length (queue c) = 0 -> assertStats c = (Returns tt, c, false).
Proof.
  intros Hw He Hq. unfold assertStats. rewrite Hw, He, Hq, Z.eqb_refl.
  reflexivity.
Qed.

(** Every step keeps the counters in balance. *)
Lemma step_Balanced m e m' :
  Balanced A m -> step m e = Some m' -> Balanced A m'.
Proof.
  intros [Hg Hb Hw Ho] Hstep. destruct e as [env l|env|d|env| |env|r];
    cbn [step] in Hstep.
  - destruct (log _ _ l (core m) (sink m)) as [[r c] s] eqn:E.
    injection Hstep as <-.
    destruct (log_balance env l _ _ _ _ _ Hg Hw E) as (Hg' & Hw' & Hr & _ & Hbal).
    constructor; cbn; auto. lia.
  - destruct (onTimer K env (core m) (sink m)) as [[[r c] s]|] eqn:E;
      [|discriminate].
    injection Hstep as <-.
    apply (law_onTimer K A law) in E; [|exact Hg].
    destruct E as (Hg' & (_ & _ & Hr & Hw' & _) & _ & Hbal).
    constructor; cbn; auto; try congruence. lia.
  - destruct (onDone K d (core m) (sink m)) as [[[c s] rel]|] eqn:E;
      [|discriminate].
    injection Hstep as <-.
    apply (law_onDone K A law) in E; [|exact Hg].
    destruct E as (Hg' & (_ & _ & Hr & Hw' & _) & _ & Hbal).
    constructor; cbn; auto; try congruence; try lia.
    intros Hp. apply Ho. destruct (phase m); cbn in Hp; congruence.
  - destruct (phase m) eqn:Hp; try discriminate.
    injection Hstep as <-.
    destruct (poll_spec env (withFlags true (isClosed (core m)) (core m))
                (sink m) (logRequests (core m)) (alarm m) Hg)
      as (Hg' & (_ & _ & Hr & Hw' & _) & _ & Hbal & Ha & Hph).
    cbn in Hr, Hw', Hbal.
    constructor; auto; try congruence; try lia.
    intros Hop. destruct Hph as [[d Hd]|[e He]]; cbn in *; congruence.
  - destruct (phase m) as [|R [|]| | | |] eqn:Hp; try discriminate.
    destruct (R <=? logProcessed (core m)).
    + destruct (closeBegin K (core m) (sink m)) as [c s] eqn:E.
      injection Hstep as <-.
      apply (law_closeBegin K A law) in E; [|exact Hg].
      destruct E as (Hg' & (_ & _ & Hr & Hw' & _) & _ & Hbal).
      constructor; cbn; auto; try congruence; try lia; try discriminate.
    + injection Hstep as <-. constructor; cbn; auto; try discriminate.
  - destruct (phase m) eqn:Hp; try discriminate.
    injection Hstep as <-.
    destruct (poll_spec env (core m) (sink m) snapshot (alarm m) Hg)
      as (Hg' & (_ & _ & Hr & Hw' & _) & _ & Hbal & Ha & Hph).
    constructor; auto; try congruence; try lia.
    intros Hop. destruct Hph as [[d Hd]|[e He]]; congruence.
  - destruct (phase m) eqn:Hp; try discriminate.
    destruct r as [[]|e].
    + destruct (closeEnd K (core m) (sink m)) as [c s] eqn:E.
      apply (law_closeEnd K A law) in E; [|exact Hg].
      destruct E as (Hg' & (_ & _ & Hr & Hw' & _) & _ & Hbal).
      destruct (assertStats c) as [[r' c'] a] eqn:Ea.
      destruct (assertStats_keeps c r' c' a Ea) as (Hq & Hpr & Hrq & Hwk).
      destruct r' as [[]|e']; injection Hstep as <-;
        (constructor; cbn; try congruence; try discriminate;
         rewrite Hq, Hpr, Hrq; lia).
    + injection Hstep as <-. constructor; cbn; auto; try discriminate.
Qed.

Lemma run_Balanced :
  forall es m m', Balanced A m -> run m es = Some m' -> Balanced A m'.
Proof.
  induction es as [|e es IH]; intros m m' Hm; cbn.
  - now intros [= <-].
  - destruct (step m e) as [m1|] eqn:E; [|discriminate].
    apply IH. eapply step_Balanced; eauto.
Qed.

Lemma length_nonneg q : 0 <= JobQueue.length q.
Proof. unfold JobQueue.length. lia. Qed.

(** Once the balance holds and nothing is owed, the close-time check is
    silent. *)
Lemma settled_when_processed_reaches R c s :
  good A (queue c) s ->
  logProcessed c + owed A (queue c) s = R -> R <= logProcessed c ->
  logProcessed c = R /\ JobQueue.length (queue c) = 0.
Proof.
  intros Hg Hb Hle.
  pose proof (law_nonneg K A law _ _ Hg).
  pose proof (law_queue K A law _ _ Hg).
  pose proof (length_nonneg (queue c)). lia.
Qed.

(** After [close()] has been called, and as long as no further [log]
    call arrives, the request counter stays at its value [R] and the
    protocol advances as [closingWith] says. *)
Lemma step_closing R m e m' :
  Balanced A m -> closingWith R m -> isLogCall e = false ->
  step m e = Some m' -> closingWith R m'.
Proof.
  intros HB [HR Hph] Hnl Hstep.
  pose proof (step_Balanced m e m' HB Hstep) as [Hg' Hb' Hw' _].
  destruct HB as [Hg Hb Hw Ho].
  destruct e as [env l|env|d|env| |env|r]; [discriminate| | | | | |];
    cbn [step] in Hstep.
  - destruct (onTimer K env (core m) (sink m)) as [[[r c] s]|] eqn:E;
      [|discriminate].
    injection Hstep as <-.
    apply (law_onTimer K A law) in E; [|exact Hg].
    destruct E as (_ & (_ & _ & Hr & _) & Hmono & _). cbn in *.
    unfold closingWith; cbn [core sink phase alarm]; split; [congruence|].
    destruct (phase m); auto.
    + destruct Hph. split; [lia|auto].
    + destruct Hph as (Hp & Ha & _).
      destruct (settled_when_processed_reaches R c s Hg') as (? & ?);
        try lia; auto.
  - destruct (onDone K d (core m) (sink m)) as [[[c s] rel]|] eqn:E;
      [|discriminate].
    injection Hstep as <-.
    apply (law_onDone K A law) in E; [|exact Hg].
    destruct E as (_ & (_ & _ & Hr & _) & Hmono & _). cbn in *.
    unfold closingWith; cbn [core sink phase alarm]; split; [congruence|].
    destruct (phase m); cbn; auto.
    + destruct Hph. split; [lia|auto].
    + destruct Hph as (Hp & Ha & _).
      destruct (settled_when_processed_reaches R c s Hg') as (? & ?);
        try lia; auto.
  - destruct (phase m); try discriminate. destruct Hph.
  - destruct (phase m) as [|R' [|]| | | |] eqn:Hp; try discriminate.
    destruct Hph as [-> Ha].
    destruct (Z.leb_spec R (logProcessed (core m))).
    + destruct (closeBegin K (core m) (sink m)) as [c s] eqn:E.
      injection Hstep as <-.
      apply (law_closeBegin K A law) in E; [|exact Hg].
      destruct E as (_ & (_ & _ & Hr & _) & Hmono & _). cbn.
      unfold closingWith; cbn [core sink phase alarm]; split; [congruence|]. split; [lia|auto].
    + injection Hstep as <-. unfold closingWith. cbn. auto.
  - destruct (phase m) eqn:Hp; try discriminate.
    destruct Hph as [-> Ha].
    injection Hstep as <-.
    destruct (poll_spec env (core m) (sink m) R (alarm m) Hg)
      as (_ & (_ & _ & Hr & _) & _ & _ & Hal & Hcase).
    unfold closingWith; cbn [core sink phase alarm]; split; [congruence|].
    destruct Hcase as [[d Hd]|[e He]].
    + rewrite Hd. split; [reflexivity|congruence].
    + now rewrite He.
  - destruct (phase m) eqn:Hp; try discriminate.
    destruct Hph as [Hle Ha].
    destruct r as [[]|e].
    + destruct (closeEnd K (core m) (sink m)) as [c s] eqn:E.
      apply (law_closeEnd K A law) in E; [|exact Hg].
      destruct E as (Hgc & (_ & _ & Hr & Hwc & _) & Hmono & Hbal).
      destruct (settled_when_processed_reaches R c s Hgc) as (Hpc & Hqc);
        try lia.
      rewrite (assertStats_silent c ltac:(congruence) ltac:(lia) Hqc) in Hstep.
      injection Hstep as <-. unfold closingWith. cbn.
      rewrite Ha. repeat split; auto. congruence.
    + injection Hstep as <-. unfold closingWith. cbn. auto.
Qed.

Lemma run_closing R :
  forall es m m',
    Balanced A m -> closingWith R m ->
    forallb (fun e => negb (isLogCall e)) es = true ->
    run m es = Some m' -> closingWith R m'.
Proof.
  induction es as [|e es IH]; intros m m' HB HC Hnl; cbn.
  - now intros [= <-].
  - cbn in Hnl. apply andb_prop in Hnl as [He Hes].
    destruct (step m e) as [m1|] eqn:E; [|discriminate].
    apply IH; auto.
    + eapply step_Balanced; eauto.
    + eapply step_closing; eauto. now apply negb_true_iff.
Qed.

(** The close protocol of a sink that accounts for its entries: when
    [close()] is called on an open transport and no [log] call follows
    it, then at the moment [close()] completes [logProcessed] equals
    [logRequests], the queue is empty and [assertStats] has reported
    nothing. *)
Lemma close_completes_balanced env :
  forall post m1 m,
    Balanced A m1 -> phase m1 = Open ->
    forallb (fun e => negb (isLogCall e)) post = true ->
    run m1 (CloseCall env :: post) = Some m ->
    phase m = Completed ->
    logProcessed (core m) = logRequests (core m) /\
    alarm m = false /\ JobQueue.length (queue (core m)) = 0.
Proof.
  intros post m1 m HB Hopen Hnl Hrun Hdone.
  cbn [run] in Hrun.
  destruct (step m1 (CloseCall env)) as [m2|] eqn:E; [|discriminate].
  pose proof (step_Balanced m1 _ m2 HB E) as HB2.
  assert (HC : closingWith (logRequests (core m1)) m2).
  { cbn [step] in E. rewrite Hopen in E. injection E as <-.
    destruct HB as [Hg Hb Hw Ho].
    destruct (poll_spec env (withFlags true (isClosed (core m1)) (core m1))
                (sink m1) (logRequests (core m1)) (alarm m1) Hg)
      as (_ & (_ & _ & Hr & _) & _ & _ & Hal & Hcase).
    cbn in Hr. split; [exact Hr|].
    destruct Hcase as [[d Hd]|[e He]]; cbn in *.
    - rewrite Hd. split; [reflexivity|]. rewrite Hal. auto.
    - now rewrite He. }
  pose proof (run_closing _ post m2 m HB2 HC Hnl Hrun) as [HR Hph].
  rewrite Hdone in Hph. destruct Hph as (Hp & Ha & Hq).
  repeat split; auto. congruence.
Qed.

End Lawful.
End CloseTheory.

(* ------------------------------------------------------------------ *)
(** * The console transport accounts for its entries *)
Module ConsoleTheory.
Import Transport ConsoleSink.

Lemma same_refl c : same c c.
Proof. unfold same. auto. Qed.

Lemma queue_length_split (a b c : list nat) x :
  a ++ [x] = b ++ c ->
  (List.length a + 1 = List.length b + List.length c)%nat.
Proof.
  intros H. apply (f_equal (@List.length nat)) in H.
  rewrite !length_app in H. exact H.
Qed.

Lemma console_lawful : Lawful sink accounting.
Proof.
  constructor; cbn.
  - intros q s _. unfold JobQueue.length. lia.
  - intros q s _. lia.
  - intros q s w _. split; [exact I|].
    unfold JobQueue.length. now rewrite JobQueueTheory.drain_queue.
  - (* doLog *)
    intros format l c s r c' s' _. unfold doLog, keeps. cbn.
    destruct format as [line|e].
    + destruct (useJobQueue s).
      * destruct (JobQueue.enqueue l (queue c)) as [q started] eqn:E.
        intros [= <- <- <-]. cbn.
        apply JobQueueTheory.enqueue_split, queue_length_split in E.
        unfold same, JobQueue.length. cbn. rewrite length_app.
        repeat split; auto; lia.
      * intros [= <- <- <-]. cbn. rewrite length_app. cbn.
        repeat split; auto using same_refl; try apply same_refl; lia.
    + intros [= <- <- <-]. repeat split; auto; try apply same_refl; lia.
  - intros _ c s r c' s' _ [= <- <- <-]. unfold keeps. cbn.
    repeat split; auto; try apply same_refl; lia.
  - discriminate.
  - (* a write settles *)
    intros [l outcome] c s c' s' released _. unfold onDone, keeps. cbn.
    destruct (existsb (Nat.eqb l) (writes s)) eqn:Hin; [|discriminate].
    pose proof (JobQueueTheory.removeFirst_length l (writes s) Hin) as Hrem.
    assert (Hc1 : forall c1,
               c1 = match outcome with
                    | Throws e => note (mkTransportError e (ForLog l)) c
                    | Returns _ => c
                    end ->
               same c c1 /\ logProcessed c1 = logProcessed c /\
               queue c1 = queue c).
    { intros c1 ->. destruct outcome; cbn; unfold same; cbn;
        repeat split; reflexivity. }
    destruct (Hc1 _ eq_refl) as ((H1 & H2 & H3 & H4 & H5) & Hp1 & Hq1).
    destruct (useJobQueue s).
    + destruct (JobQueue.onJobSettled _) as [[q started] rel] eqn:E.
      intros [= <- <- <-]. cbn in *.
      apply JobQueueTheory.onJobSettled_split in E. rewrite Hq1 in E.
      apply (f_equal (@List.length nat)) in E. rewrite length_app in E.
      unfold same, JobQueue.length. cbn. rewrite length_app, Hp1.
      repeat split; auto; lia.
    + intros [= <- <- <-]. cbn in *.
      unfold same, JobQueue.length. cbn. rewrite Hp1, Hq1.
      repeat split; auto; lia.
  - intros c s c' s' _ [= <- <-]. unfold keeps.
    repeat split; auto; try apply same_refl; lia.
  - intros c s c' s' _ [= <- <-]. unfold keeps.
    repeat split; auto; try apply same_refl; lia.
Qed.

Lemma console_create_Balanced useQueue concurrency callback :
  Balanced accounting (create useQueue concurrency callback).
Proof. constructor; cbn; auto. Qed.

(** The console transport: after any events (log calls, writes settling)
    followed by a [close()] call, with no [log] call after it, the moment
    [close()] completes finds [logProcessed = logRequests], no queued job
    and no diagnostic from [assertStats]. *)
Lemma console_close_balanced useQueue concurrency callback :
  forall pre env post m1 m,
    run (create useQueue concurrency callback) pre = Some m1 ->
    phase m1 = Open ->
    forallb (fun e => negb (isLogCall e)) post = true ->
    run m1 (CloseCall env :: post) = Some m ->
    phase m = Completed ->
    logProcessed (core m) = logRequests (core m) /\
    alarm m = false /\ JobQueue.length (queue (core m)) = 0.
Proof.
  intros pre env post m1 m Hpre Hopen Hnl Hrun Hdone.
  eapply (CloseTheory.close_completes_balanced sink accounting console_lawful);
    eauto.
  eapply (CloseTheory.run_Balanced sink accounting console_lawful); eauto.
  apply console_create_Balanced.
Qed.

End ConsoleTheory.

(* ------------------------------------------------------------------ *)
(** * The HTTP transport accounts for its entries *)
Module HttpTheory.
Import Transport HttpSink.

#[local] Arguments batchTotal : simpl never.

Lemma batchTotal_app l l' :
  batchTotal (l ++ l') = (batchTotal l + batchTotal l')%nat.
Proof. unfold batchTotal. now rewrite map_app, list_sum_app. Qed.

Lemma batchTotal_cons id (b : list Log) rest :
  batchTotal ((id, b) :: rest) = (List.length b + batchTotal rest)%nat.
Proof. reflexivity. Qed.

Lemma batchTotal_perm l l' :
  Permutation l l' -> batchTotal l = batchTotal l'.
Proof.
  induction 1; unfold batchTotal in *; cbn; auto; try lia.
Qed.

Lemma batchTotal_ge_length l :
  Forall (fun jb : nat * list Log => (1 <= List.length (snd jb))%nat) l ->
  (List.length l <= batchTotal l)%nat.
Proof.
  unfold batchTotal, list_sum. induction 1 as [|jb l Hjb _ IH]; cbn in *; lia.
Qed.

Lemma takeJob_perm id :
  forall l b rest, takeJob id l = Some (b, rest) ->
                   Permutation l ((id, b) :: rest).
Proof.
  induction l as [|[k b0] l IH]; intros b rest; cbn; [discriminate|].
  destruct (Nat.eqb_spec k id) as [->|Hne].
  - intros [= <- <-]. reflexivity.
  - destruct (takeJob id l) as [[b' rest']|]; [|discriminate].
    intros [= <- <-]. rewrite perm_swap. constructor. now apply IH.
Qed.

Lemma takeJob_found id :
  forall l, In id (map fst l) -> exists b rest, takeJob id l = Some (b, rest).
Proof.
  induction l as [|[k b0] l IH]; cbn; [intros []|].
  destruct (Nat.eqb_spec k id) as [->|Hne]; [eauto|].
  intros [H|H]; [congruence|].
  destruct (IH H) as (b & rest & ->). eauto.
Qed.

Lemma perm_enqueue (J Q R St Q' : list nat) id :
  Permutation J (Q ++ R) -> Q ++ [id] = St ++ Q' ->
  Permutation (J ++ [id]) (Q' ++ R ++ St).
Proof.
  intros HJ HQ. rewrite HJ, <- app_assoc.
  rewrite (Permutation_app_comm R [id]), app_assoc, HQ.
  rewrite <- app_assoc, (Permutation_app_comm St (Q' ++ R)), <- app_assoc.
  reflexivity.
Qed.

Lemma perm_settle (J' Q R St Q' : list nat) id :
  Permutation (id :: J') (Q ++ R) -> existsb (Nat.eqb id) R = true ->
  Q = St ++ Q' ->
  Permutation J' (Q' ++ JobQueue.removeFirst id R ++ St).
Proof.
  intros HJ Hin ->.
  apply JobQueueTheory.removeFirst_perm in Hin.
  rewrite Hin in HJ. rewrite <- Permutation_middle in HJ.
  apply Permutation_cons_inv in HJ. rewrite HJ, <- app_assoc.
  rewrite (Permutation_app_comm St (Q' ++ _)), <- app_assoc. reflexivity.
Qed.

Lemma withQueue_same q c : same c (withQueue q c).
Proof. unfold same. cbn. auto. Qed.

(** What [flush] keeps: the entries move from the buffer into batches of
    new jobs. *)
Lemma flushLoop_spec :
  forall fuel c s c' s',
    good accounting (queue c) s ->
    flushLoop fuel c s = (c', s') ->
    good accounting (queue c') s' /\ same c c' /\
    logProcessed c' = logProcessed c /\
    (List.length (buffer s') + batchTotal (jobs s')
     = List.length (buffer s) + batchTotal (jobs s))%nat /\
    dropped s' = dropped s.
Proof.
  induction fuel as [|fuel IH]; intros c s c' s' Hg; cbn [flushLoop].
  - intros [= <- <-]. unfold same. auto 10.
  - destruct (buffer s) as [|x xs] eqn:Hb.
    + intros [= <- <-]. unfold same. rewrite Hb. auto 10.
    + destruct (JobQueue.enqueue (nextJob s) (queue c)) as [q started] eqn:E.
      intros Hloop. apply IH in Hloop.
      * destruct Hloop as (Hg' & (H1 & H2 & H3 & H4 & H5) & Hp & Hsum & Hd).
        cbn in *. split; [exact Hg'|]. split; [unfold same; auto|].
        split; [exact Hp|]. split; [|exact Hd].
        rewrite Hsum, batchTotal_app. unfold batchTotal at 2.
        cbn [map list_sum snd fold_right]. rewrite Nat.add_0_r.
        pose proof (firstn_skipn (batchSize s) (x :: xs)) as Hfs.
        apply (f_equal (@List.length nat)) in Hfs. rewrite length_app in Hfs.
        cbn [List.length] in Hfs. lia.
      * destruct Hg as (Hbs & Hperm & Hall). cbn in *.
        split; [exact Hbs|]. split.
        -- rewrite map_app. cbn.
           apply perm_enqueue with (Q := JobQueue.queue (queue c)); auto.
           now apply JobQueueTheory.enqueue_split.
        -- apply Forall_app. split; [exact Hall|].
           constructor; [|constructor]. cbn.
           destruct (batchSize s) as [|n]; [lia|]. cbn. lia.
Qed.

Lemma flush_keeps c s c' s' :
  good accounting (queue c) s -> flush c s = (c', s') ->
  keeps accounting 0 c s c' s'.
Proof.
  intros Hg Hf. unfold flush in Hf.
  destruct (flushLoop_spec _ _ _ _ _ Hg Hf) as (Hg' & Hs & Hp & Hsum & Hd).
  unfold keeps. cbn. repeat split; auto; try apply Hs; try apply Hg'; lia.
Qed.

Lemma noteAll_keeps batch errs :
  forall c, same c (noteAll batch errs c) /\
            logProcessed (noteAll batch errs c) = logProcessed c /\
            queue (noteAll batch errs c) = queue c.
Proof.
  unfold noteAll. induction errs as [|e errs IH]; intros c; cbn.
  - unfold same. auto 10.
  - destruct (IH (note (mkTransportError e (ForBatch batch)) c))
      as ((H1 & H2 & H3 & H4 & H5) & Hp & Hq).
    unfold same. cbn in *. repeat split; congruence.
Qed.

Lemma http_lawful : Lawful sink accounting.
Proof.
  constructor.
  - intros q s _. cbn. lia.
  - intros q s (Hbs & Hperm & Hall). cbn. unfold JobQueue.length.
    apply Permutation_length in Hperm. rewrite length_map, length_app in Hperm.
    pose proof (batchTotal_ge_length _ Hall). lia.
  - intros q s w Hg. cbn in *. now rewrite JobQueueTheory.drain_queue.
  - (* doLog *)
    intros env l c s r c' s' Hg. unfold sink at 2; cbn [Transport.doLog]; unfold HttpSink.doLog.
    assert (Hg1 : good accounting (queue c) (push l s)) by exact Hg.
    destruct (batchSize (push l s) <=? List.length (buffer (push l s)))%nat.
    + destruct (flush c (push l s)) as [c1 s1] eqn:E.
      intros [= <- <- <-].
      destruct (flush_keeps _ _ _ _ Hg1 E) as (Hg' & Hs & Hm & Hbal).
      unfold keeps. repeat split; auto; try apply Hs; try apply Hg'.
      rewrite Hbal. cbn. rewrite length_app. cbn. lia.
    + intros [= <- <- <-]. unfold keeps, same. cbn. rewrite length_app. cbn.
      repeat split; auto; try apply Hg; lia.
  - intros env c s r c' s' Hg. unfold sink at 2; cbn [Transport.beforeDrain]; unfold HttpSink.beforeDrain.
    destruct (flush c s) as [c1 s1] eqn:E. intros [= <- <- <-].
    now apply flush_keeps.
  - intros env c s r c' s' Hg. unfold sink at 2; cbn [Transport.onTimer]; unfold HttpSink.onTimer.
    destruct (timerOn s); [|discriminate].
    destruct (flush c s) as [c1 s1] eqn:E. intros [= <- <- <-].
    now apply flush_keeps.
  - (* a send job settles *)
    intros [id prepared attempts] c s c' s' released (Hbs & Hperm & Hall).
    unfold sink at 2; cbn [Transport.onDone]; unfold HttpSink.onDone.
    destruct (existsb (Nat.eqb id) (running s)) eqn:Hin; [|discriminate].
    destruct (takeJob id (jobs s)) as [[batch rest]|] eqn:Ht; [|discriminate].
    pose proof (takeJob_perm _ _ _ _ Ht) as Hjobs.
    assert (Hc1 : forall c1 lost,
               (c1, lost) = match prepared with
                            | Throws _ => (c, List.length batch)
                            | Returns _ =>
                                (addProcessed (Z.of_nat (List.length batch))
                                   (noteAll batch (sendReports (retry s) attempts) c),
                                 0%nat)
                            end ->
               same c c1 /\ queue c1 = queue c /\
               logProcessed c1 + Z.of_nat lost
               = logProcessed c + Z.of_nat (List.length batch) /\
               logProcessed c <= logProcessed c1).
    { intros c1 lost. destruct prepared as [[]|e]; intros [= -> ->].
      - destruct (noteAll_keeps batch (sendReports (retry s) attempts) c)
          as ((H1 & H2 & H3 & H4 & H5) & Hp & Hq).
        unfold same. cbn. rewrite Hp. repeat split; auto; lia.
      - unfold same. repeat split; auto; lia. }
    match goal with
    | |- context [let '(c1, lost) := ?x in _] => destruct x as [c1 lost] eqn:E1
    end.
    destruct (Hc1 c1 lost eq_refl) as ((H1 & H2 & H3 & H4 & H5) & Hq1 & Hp1 & Hm1).
    destruct (JobQueue.onJobSettled (queue c1)) as [[q started] rel] eqn:E.
    intros [= <- <- <-].
    apply JobQueueTheory.onJobSettled_split in E. rewrite Hq1 in E.
    unfold keeps. cbn.
    split; [split; [exact Hbs|split]|].
    + apply perm_settle with (Q := JobQueue.queue (queue c)); auto.
      rewrite <- Hperm. rewrite Hjobs. reflexivity.
    + rewrite Hjobs in Hall. now inversion Hall.
    + split; [unfold same; cbn; auto|]. split; [exact Hm1|].
      rewrite (batchTotal_perm _ _ Hjobs), batchTotal_cons. lia.
  - intros c s c' s' Hg [= <- <-]. unfold keeps, same. cbn.
    repeat split; auto; try apply Hg; lia.
  - intros c s c' s' Hg [= <- <-]. unfold keeps, same. cbn.
    repeat split; auto; try apply Hg; lia.
Qed.

Lemma http_create_Balanced size r concurrency callback :
  (1 <= size)%nat ->
  Balanced accounting (create size r concurrency callback).
Proof. intros Hs. constructor; cbn; auto. Qed.

(** The HTTP transport with a batch size of at least one: after any
    events followed by a [close()] call, with no [log] call after it, the
    moment [close()] completes finds [logProcessed = logRequests], no
    queued job and no diagnostic from [assertStats]. *)
Lemma http_close_balanced size r concurrency callback :
  (1 <= size)%nat ->
  forall pre env post m1 m,
    run (create size r concurrency callback) pre = Some m1 ->
    phase m1 = Open ->
    forallb (fun e => negb (isLogCall e)) post = true ->
    run m1 (CloseCall env :: post) = Some m ->
    phase m = Completed ->
    logProcessed (core m) = logRequests (core m) /\
    alarm m = false /\ JobQueue.length (queue (core m)) = 0.
Proof.
  intros Hs pre env post m1 m Hpre Hopen Hnl Hrun Hdone.
  eapply (CloseTheory.close_completes_balanced sink accounting http_lawful);
    eauto.
  eapply (CloseTheory.run_Balanced sink accounting http_lawful); eauto.
  now apply http_create_Balanced.
Qed.

End HttpTheory.

(* ------------------------------------------------------------------ *)
(** * The file transport counts an entry twice *)
Module FileTheory.
Import Transport FileSink.

Lemma wantsRotation_flags env body s yes s' :
  wantsRotation env body s = (yes, s') ->
  isRotating s' = isRotating s /\ isFlushing s' = isFlushing s /\
  held s' = held s.
Proof.
  unfold wantsRotation. destruct (currentSize s =? 0); [intros [= <- <-]; auto|].
  destruct (rotator s) as [r|]; [|intros [= <- <-]; auto].
  destruct (Rotator.shouldRotate r (now env) _) as [y r'].
  intros [= <- <-]. auto.
Qed.

Lemma sendBody_flags body n c s c' s' :
  sendBody body n c s = (c', s') ->
  isRotating s' = isRotating s /\ isFlushing s' = isFlushing s /\
  held s' = held s.
Proof.
  unfold sendBody. destruct (JobQueue.enqueue _ _) as [q started].
  intros [= <- <-]. auto.
Qed.

(** The loop of [flush] leaves the flushing guard alone, and sets the
    rotation flag only together with the batch that waits for the
    rotation. *)
Lemma flushLoop_flags env :
  forall fuel c s r c' s',
    flushLoop env fuel c s = (r, c', s') ->
    isFlushing s' = isFlushing s /\
    ((isRotating s = true -> held s <> None) ->
     isRotating s' = true -> held s' <> None).
Proof.
  induction fuel as [|fuel IH]; intros c s r c' s'; cbn [flushLoop].
  - intros [= <- <- <-]. auto.
  - destruct (buffer s) as [|l ls] eqn:Eb; [intros [= <- <- <-]; auto|].
    destruct (format env _) as [body|e].
    + destruct (wantsRotation env body _) as [yes s2] eqn:Ew.
      apply wantsRotation_flags in Ew as (Hr & Hf & Hh). cbn in Hr, Hf, Hh.
      destruct yes.
      * destruct (JobQueue.drain _ _) as [q now0].
        intros [= <- <- <-]. cbn. split; [exact Hf|]. intros _ _. discriminate.
      * destruct (sendBody body _ c s2) as [c3 s3] eqn:Es.
        apply sendBody_flags in Es as (Hr3 & Hf3 & Hh3).
        intros H. apply IH in H as (Hf' & Hc').
        split; [congruence|]. intros Hs. apply Hc'.
        rewrite Hr3, Hh3, Hr, Hh. exact Hs.
    + destruct (handleError _ c) as [[[]|e'] c1].
      * intros H. apply IH in H as (Hf' & Hc'). cbn in Hf', Hc'. auto.
      * intros [= <- <- <-]. cbn. auto.
Qed.

Lemma flush_flags env c s r c' s' :
  flush env c s = (r, c', s') ->
  isFlushing s = false ->
  (isRotating s = true -> held s <> None) ->
  isFlushing s' = false /\ (isRotating s' = true -> held s' <> None).
Proof.
  unfold flush. intros H Hf Hc. rewrite Hf in H.
  destruct (isRotating s) eqn:Hr; [injection H as <- <- <-; auto|].
  destruct (isOpen (setFlushing true s)).
  - destruct (flushLoop env _ c _) as [[r1 c1] s1] eqn:E.
    injection H as <- <- <-. apply flushLoop_flags in E as (_ & Hc1).
    cbn in Hc1 |- *. split; [reflexivity|]. apply Hc1. rewrite Hr. discriminate.
  - destruct (ensureDir env) as [[]|e].
    + destruct (flushLoop env _ c _) as [[r1 c1] s1] eqn:E.
      injection H as <- <- <-. apply flushLoop_flags in E as (_ & Hc1).
      cbn in Hc1 |- *. split; [reflexivity|]. apply Hc1. rewrite Hr. discriminate.
    + injection H as <- <- <-. cbn. rewrite Hr. split; [reflexivity|discriminate].
Qed.

(** When [rotator.rotate] settles, fulfilled or rejected, the transport
    clears its flushing guard and its rotation flag; the flag is set
    again only if the [flush] that follows starts the next rotation. *)
Lemma rotation_settled_clears_flags env errors result c s c' s' released :
  onDone (RotationSettled env errors result) c s = Some (c', s', released) ->
  isFlushing s' = false /\ (isRotating s' = true -> held s' <> None).
Proof.
  cbn [onDone]. destruct (held s) as [h|]; [|discriminate].
  destruct (rotateCalled h); [|discriminate].
  destruct (sendBody _ _ _ _) as [c3 s2] eqn:Es.
  destruct (flush env c3 _) as [[r4 c4] s4] eqn:Ef.
  intros [= <- <- <-].
  apply flush_flags in Ef; [exact Ef|reflexivity|discriminate].
Qed.

(** C1 (what the code does).  A file transport with batch size 1 gets one
    record while [ensureDir] throws: [flush] throws out of [doLog] with
    the record already buffered, and the [catch] of [log] counts it as
    processed.  [close()] then flushes the buffered record, whose write
    job counts it again: [close()] completes with [logRequests = 1],
    [logProcessed = 2] and the diagnostic of [assertStats] reported. *)
Theorem file_close_counts_entry_twice :
  exists m,
    run (create 1 Retry.noOption (Some 20) quiet) doubleCountRun = Some m /\
    phase m = Completed /\
    isClosed (core m) = true /\
    logRequests (core m) = 1 /\
    logProcessed (core m) = 2 /\
    alarm m = true /\
    List.length (reported (core m)) = 2%nat.
Proof.
  eexists. split; [vm_compute; reflexivity|].
  cbn. repeat split; reflexivity.
Qed.

End FileTheory.

(* ------------------------------------------------------------------ *)
(** * withRetry: callback invocations, delays and early exits *)
Module RetryTraceTheory.
Import Retry RetryTrace.

Lemma seen_app {A B : Type} (o : option A) (l1 l2 : list B) :
  seen o (l1 ++ l2) = seen o l1 ++ seen o l2.
Proof. destruct o; reflexivity. Qed.

Lemma noteReport_seen
      (onError : option (Z -> Thrown -> Completion (option RetryAction)))
      attempt err rep :
  noteReport onError attempt err rep = rep ++ seen onError [(attempt, err)].
Proof. destruct onError; cbn; [reflexivity|now rewrite app_nil_r]. Qed.

Lemma reportsFrom_snoc errs :
  forall n first calls,
    reportsFrom errs first calls (S n)
    = reportsFrom errs first calls n
      ++ [(first + Z.of_nat n, errs (calls + n)%nat)].
Proof.
  induction n as [|n IH]; intros first calls.
  - cbn. now rewrite Z.add_0_r, Nat.add_0_r.
  - change (reportsFrom errs first calls (S (S n)))
      with ((first, errs calls) :: reportsFrom errs (first + 1) (S calls) (S n)).
    rewrite (IH (first + 1) (S calls)).
    change (reportsFrom errs first calls (S n))
      with ((first, errs calls) :: reportsFrom errs (first + 1) (S calls) n).
    cbn [app].
    replace (first + 1 + Z.of_nat n) with (first + Z.of_nat (S n)) by lia.
    replace (S calls + n)%nat with (calls + S n)%nat by lia.
    reflexivity.
Qed.

Lemma reportsFrom_length errs n :
  forall first calls, List.length (reportsFrom errs first calls n) = n.
Proof. induction n as [|n IH]; intros; cbn; [reflexivity|now rewrite IH]. Qed.

Lemma offsets_shift (first : Z) (n : nat) :
  map (fun k => first + 1 + Z.of_nat k) (seq 0 n)
  = map (fun k => first + Z.of_nat k) (seq 1 n).
Proof.
  rewrite <- seq_shift, map_map. apply map_ext. intros k. lia.
Qed.

(** While the attempts stay below the limit the loop sleeps after every
    one of them. *)
Lemma sleepsFrom_below limit :
  forall n first,
    first + Z.of_nat n <= limit ->
    sleepsFrom limit first n = map (fun k => first + Z.of_nat k) (seq 0 n).
Proof.
  induction n as [|n IH]; intros first Hle; [reflexivity|].
  cbn [sleepsFrom]. destruct (Z.ltb_spec first limit); [|lia].
  rewrite IH by lia. cbn [app seq map]. rewrite offsets_shift.
  f_equal. lia.
Qed.

(** No sleep follows the attempt that reaches the limit. *)
Lemma sleepsFrom_reaching limit :
  forall n first,
    first + Z.of_nat n = limit ->
    sleepsFrom limit first (S n) = map (fun k => first + Z.of_nat k) (seq 0 n).
Proof.
  induction n as [|n IH]; intros first He.
  - cbn. destruct (Z.ltb_spec first limit); [lia|reflexivity].
  - change (sleepsFrom limit first (S (S n)))
      with ((if first <? limit then [first] else [])
            ++ sleepsFrom limit (first + 1) (S n)).
    destruct (Z.ltb_spec first limit); [|lia].
    rewrite (IH (first + 1)) by lia. cbn [app seq map].
    rewrite offsets_shift. f_equal. lia.
Qed.

Lemma offsets_upTo n : map (fun k => 1 + Z.of_nat k) (seq 0 n) = upTo n.
Proof.
  unfold upTo. rewrite <- seq_shift, map_map. apply map_ext. intros k. lia.
Qed.

Section Loop.
Context {T : Type}.
Variable operation : nat -> Completion T.
Variable onError : option (Z -> Thrown -> Completion (option RetryAction)).
Variable retryErrorCodes : option (list string).
Variable M : Z.

(** One iteration on a failure that lets the loop go on. *)
Lemma loop_step_exact fuel attempt calls last rep slept err :
  attempt <= M ->
  operation calls = Throws err ->
  continues onError retryErrorCodes attempt err = true ->
  attemptLoop operation onError retryErrorCodes M (S fuel) attempt calls last
              rep slept
  = attemptLoop operation onError retryErrorCodes M fuel (attempt + 1)
                (S calls) (Some err) (noteReport onError attempt err rep)
                (if attempt <? M then slept ++ [attempt] else slept).
Proof.
  intros Hle Hop Hgo. unfold continues in Hgo.
  apply andb_prop in Hgo as [Hgo Hcb]. apply andb_prop in Hgo as [Hab Hcode].
  apply negb_true_iff in Hab, Hcode.
  cbn [attemptLoop].
  destruct (Z.leb_spec attempt M); [|lia].
  rewrite Hop, Hab, Hcode.
  destruct (callOnError onError attempt err) as [[[|]|]|e'];
    try discriminate; reflexivity.
Qed.

(** Running through [n] failures that all let the loop go on: what the
    callback has seen and after which attempts the loop has slept. *)
Lemma loop_trace (errs : nat -> Thrown) :
  forall (n : nat) fuel calls last rep slept,
    Z.of_nat calls + Z.of_nat n <= M ->
    (forall k, (calls <= k)%nat -> (k < calls + n)%nat ->
               operation k = Throws (errs k) /\
               continues onError retryErrorCodes (Z.of_nat k + 1) (errs k)
               = true) ->
    attemptLoop operation onError retryErrorCodes M (n + fuel)
                (Z.of_nat calls + 1) calls last rep slept
    = attemptLoop operation onError retryErrorCodes M fuel
                  (Z.of_nat (calls + n) + 1) (calls + n)%nat
                  (lastAfter errs last calls n)
                  (rep ++ seen onError
                            (reportsFrom errs (Z.of_nat calls + 1) calls n))
                  (slept ++ sleepsFrom M (Z.of_nat calls + 1) n).
Proof.
  induction n as [|n IH]; intros fuel calls last rep slept Hle Hfail.
  - cbn [reportsFrom sleepsFrom lastAfter Nat.add].
    destruct onError; cbn [seen]; now rewrite Nat.add_0_r, !app_nil_r.
  - destruct (Hfail calls ltac:(lia) ltac:(lia)) as [Hop Hgo].
    replace (S n + fuel)%nat with (S (n + fuel)) by lia.
    rewrite (loop_step_exact (n + fuel) (Z.of_nat calls + 1) calls last rep
               slept (errs calls) ltac:(lia) Hop Hgo).
    replace (Z.of_nat calls + 1 + 1) with (Z.of_nat (S calls) + 1) by lia.
    rewrite IH; [|lia|intros k Hk1 Hk2; apply Hfail; lia].
    replace (S calls + n)%nat with (calls + S n)%nat by lia.
    f_equal.
    + destruct n as [|m]; cbn [lastAfter].
      * now rewrite Nat.add_0_r.
      * do 2 f_equal. lia.
    + rewrite noteReport_seen, <- app_assoc, <- seen_app. cbn [app reportsFrom].
      now replace (Z.of_nat (S calls) + 1) with (Z.of_nat calls + 1 + 1) by lia.
    + cbn [sleepsFrom].
      replace (Z.of_nat (S calls) + 1) with (Z.of_nat calls + 1 + 1) by lia.
      destruct (Z.of_nat calls + 1 <? M); cbn [app];
        [now rewrite <- app_assoc|reflexivity].
Qed.

End Loop.

(** When the callback answers [STOP] to a failed attempt, that attempt is
    the last: the operation is not invoked again whatever budget remains,
    no delay follows, and the call rejects with the attempts made so far
    and that error as cause.  The callback has seen every failed attempt,
    in order, and the loop slept after each attempt but the stopped
    one. *)
Theorem callback_stop_ends_retrying :
  forall (T : Type) (operation : nat -> Completion T) (opt : RetryOption)
         (f : Z -> Thrown -> Completion (option RetryAction))
         (codes : option (list string)) (errs : nat -> Thrown) (n : nat),
    (forall k, (k < n)%nat ->
               operation k = Throws (errs k) /\
               continues (Some f) codes (Z.of_nat k + 1) (errs k) = true) ->
    Z.of_nat n < effectiveMaxRetry opt ->
    operation n = Throws (errs n) ->
    isAbortError (errs n) = false ->
    codeBreaks codes (errs n) = false ->
    f (Z.of_nat n + 1) (errs n) = Returns (Some STOP) ->
    exists r,
      withRetry operation opt (Some f) codes = Some r /\
      invocations r = S n /\
      settled r
      = Rejected (AttemptsFailed (Z.of_nat n + 1) (Some (errs n))) /\
      reported r = reportsFrom errs 1 0 (S n) /\
      sleeps r = upTo n.
Proof.
  intros T operation opt f codes errs n Hpre HM Hop Hab Hcode Hstop.
  unfold withRetry. cbv zeta.
  replace (S (Z.to_nat (effectiveMaxRetry opt)))
    with (n + S (Z.to_nat (effectiveMaxRetry opt) - n))%nat by lia.
  change 1 with (Z.of_nat 0 + 1) at 1.
  rewrite (loop_trace operation (Some f) codes (effectiveMaxRetry opt) errs n);
    [|cbn; lia|intros k _ Hk; apply Hpre; lia].
  cbn [Nat.add attemptLoop app seen Z.of_nat Z.add].
  destruct (Z.leb_spec (Z.of_nat n + 1) (effectiveMaxRetry opt)); [|lia].
  rewrite Hop, Hab, Hcode. cbn [callOnError]. rewrite Hstop.
  eexists. split; [reflexivity|]. cbn [invocations settled reported sleeps].
  split; [reflexivity|]. split; [|split].
  - unfold giveUp. now rewrite Z.min_l by lia.
  - cbn [noteReport]. rewrite reportsFrom_snoc. cbn [Nat.add].
    now rewrite (Z.add_comm 1).
  - rewrite sleepsFrom_below by lia. apply offsets_upTo.
Qed.

Lemma callback_stop_ends_retrying_witness :
  exists r,
    withRetry (alwaysFails (httpError 404)) (withMaxRetry (Num 5) noOption)
              (Some stopOn404) None = Some r /\
    invocations r = 1%nat /\
    settled r = Rejected (AttemptsFailed 1 (Some (httpError 404))) /\
    reported r = [(1, httpError 404)] /\
    sleeps r = [].
Proof.
  apply (callback_stop_ends_retrying Z (alwaysFails (httpError 404))
           (withMaxRetry (Num 5) noOption) stopOn404 None
           (fun _ => httpError 404) 0%nat).
  - intros k Hk. lia.
  - vm_compute. reflexivity.
  - reflexivity.
  - reflexivity.
  - reflexivity.
  - reflexivity.
Defined.

(** An abort error ends the call at once: it is rethrown as it is (not
    wrapped in the attempts error), the operation is not invoked again,
    and the callback is not told about it. *)
Theorem abort_error_is_rethrown :
  forall (T : Type) (operation : nat -> Completion T) (opt : RetryOption)
         (onError : option (Z -> Thrown -> Completion (option RetryAction)))
         (codes : option (list string)) (errs : nat -> Thrown) (n : nat),
    (forall k, (k < n)%nat ->
               operation k = Throws (errs k) /\
               continues onError codes (Z.of_nat k + 1) (errs k) = true) ->
    Z.of_nat n < effectiveMaxRetry opt ->
    operation n = Throws (errs n) ->
    isAbortError (errs n) = true ->
    exists r,
      withRetry operation opt onError codes = Some r /\
      invocations r = S n /\
      settled r = Rejected (Rethrown (errs n)) /\
      reported r = seen onError (reportsFrom errs 1 0 n).
Proof.
  intros T operation opt onError codes errs n Hpre HM Hop Hab.
  unfold withRetry. cbv zeta.
  replace (S (Z.to_nat (effectiveMaxRetry opt)))
    with (n + S (Z.to_nat (effectiveMaxRetry opt) - n))%nat by lia.
  change 1 with (Z.of_nat 0 + 1) at 1.
  rewrite (loop_trace operation onError codes (effectiveMaxRetry opt) errs n);
    [|cbn; lia|intros k _ Hk; apply Hpre; lia].
  cbn [Nat.add attemptLoop app Z.of_nat Z.add].
  destruct (Z.leb_spec (Z.of_nat n + 1) (effectiveMaxRetry opt)); [|lia].
  rewrite Hop, Hab.
  eexists. split; [reflexivity|]. cbn. auto.
Qed.

Lemma abort_error_is_rethrown_witness :
  exists r,
    withRetry abortsThird (withMaxRetry (Num 5) noOption) (Some stopOn404) None
    = Some r /\
    invocations r = 3%nat /\
    settled r = Rejected (Rethrown timedOut) /\
    reported r = [(1, plainError "boom"); (2, plainError "boom")].
Proof.
  apply (abort_error_is_rethrown Z abortsThird (withMaxRetry (Num 5) noOption)
           (Some stopOn404) None abortsThirdErrs 2%nat).
  - intros k Hk. destruct k as [|[|k]]; [split; reflexivity|split; reflexivity|lia].
  - vm_compute. reflexivity.
  - reflexivity.
  - reflexivity.
Defined.

(** When every attempt within the limit fails with an error that is
    retried, the operation is invoked limit-many times, the callback is
    told about each failure in order, the last included, and the loop
    sleeps after every attempt except the last one. *)
Theorem exhausted_run_trace :
  forall (T : Type) (operation : nat -> Completion T) (opt : RetryOption)
         (onError : option (Z -> Thrown -> Completion (option RetryAction)))
         (codes : option (list string)) (errs : nat -> Thrown),
    (forall k, Z.of_nat k < effectiveMaxRetry opt ->
               operation k = Throws (errs k) /\
               continues onError codes (Z.of_nat k + 1) (errs k) = true) ->
    let limit := Z.to_nat (effectiveMaxRetry opt) in
    exists r,
      withRetry operation opt onError codes = Some r /\
      invocations r = limit /\
      settled r
      = Rejected (AttemptsFailed (effectiveMaxRetry opt)
                                 (Some (errs (limit - 1)%nat))) /\
      reported r = seen onError (reportsFrom errs 1 0 limit) /\
      sleeps r = upTo (limit - 1).
Proof.
  intros T operation opt onError codes errs Hall limit.
  pose proof (RetryTheory.effectiveMaxRetry_pos opt) as Hpos.
  unfold withRetry. cbv zeta. fold limit.
  replace (S limit) with (limit + 1)%nat by lia.
  change 1 with (Z.of_nat 0 + 1) at 1.
  rewrite (loop_trace operation onError codes (effectiveMaxRetry opt) errs
             limit);
    [|subst limit; cbn; lia|intros k _ Hk; apply Hall; subst limit; lia].
  cbn [Nat.add attemptLoop app Z.of_nat Z.add].
  destruct (Z.leb_spec (Z.of_nat limit + 1) (effectiveMaxRetry opt));
    [subst limit; lia|].
  eexists. split; [reflexivity|]. cbn [invocations settled reported sleeps].
  split; [reflexivity|]. split; [|split; [reflexivity|]].
  - unfold giveUp. rewrite Z.min_r by lia.
    destruct limit as [|m] eqn:El; [subst limit; lia|].
    cbn [lastAfter Nat.add]. now replace (S m - 1)%nat with m by lia.
  - destruct limit as [|m] eqn:El; [subst limit; lia|].
    rewrite sleepsFrom_reaching by (subst limit; lia).
    replace (S m - 1)%nat with m by lia. apply offsets_upTo.
Qed.

Lemma exhausted_run_trace_witness :
  exists r,
    withRetry (alwaysFails (httpError 503)) noOption (Some stopOn404) None
    = Some r /\
    invocations r = 3%nat /\
    settled r = Rejected (AttemptsFailed 3 (Some (httpError 503))) /\
    reported r = [(1, httpError 503); (2, httpError 503); (3, httpError 503)] /\
    sleeps r = [1; 2].
Proof.
  apply (exhausted_run_trace Z (alwaysFails (httpError 503)) noOption
           (Some stopOn404) None (fun _ => httpError 503)).
  intros k Hk. split; reflexivity.
Defined.

End RetryTraceTheory.

(* ------------------------------------------------------------------ *)
(** * AsyncJobQueue: first in, first called *)
Module QueueTraceTheory.
Import JobQueue QueueTrace.

Lemma run_starts :
  forall es s s',
    run s es = Some s' ->
    queue (sq s) ++ enqueuedJobs es = starts s es ++ queue (sq s').
Proof.
  induction es as [|e es IH]; intros s s'; cbn [run starts enqueuedJobs].
  - intros [= <-]. now rewrite app_nil_r.
  - destruct (step s e) as [[s1 ws]|] eqn:E; [|discriminate].
    intros Hrun. specialize (IH s1 s' Hrun).
    destruct e as [j|w|j]; cbn [step startedAt] in *.
    + destruct (enqueue j (sq s)) as [q' started] eqn:Eq.
      injection E as <- _. cbn [sq snd] in *.
      apply JobQueueTheory.enqueue_split in Eq.
      rewrite <- app_assoc, <- IH, app_assoc, <- Eq, <- app_assoc.
      reflexivity.
    + destruct (drain w (sq s)) as [q' now] eqn:Ed.
      injection E as <- _. cbn [sq app] in *.
      pose proof (JobQueueTheory.drain_queue w (sq s)) as Hq.
      rewrite Ed in Hq. cbn in Hq. now rewrite <- IH, Hq.
    + destruct (existsb (Nat.eqb j) (inflight s)); [|discriminate].
      destruct (onJobSettled (sq s)) as [[q' started] called] eqn:Eo.
      injection E as <- _. cbn [sq snd fst] in *.
      apply JobQueueTheory.onJobSettled_split in Eo.
      rewrite <- app_assoc, <- IH, app_assoc, <- Eo. reflexivity.
Qed.

(** Jobs are called in the order in which they were handed to
    [enqueue], none is lost and none is called twice: at any moment the
    jobs called so far, followed by the jobs still waiting, are the jobs
    enqueued so far. *)
Theorem jobs_start_in_enqueue_order :
  forall (c : option Z) (es : list Event) (s : System),
    run (init c) es = Some s ->
    starts (init c) es ++ queue (sq s) = enqueuedJobs es.
Proof.
  intros c es s Hrun. apply run_starts in Hrun. cbn in Hrun. now symmetry.
Qed.

Lemma jobs_start_in_enqueue_order_witness :
  exists s,
    run (init (Some 2)) fiveJobs = Some s /\
    starts (init (Some 2)) fiveJobs = [1; 2; 3; 4]%nat /\
    queue (sq s) = [5%nat] /\
    starts (init (Some 2)) fiveJobs ++ queue (sq s) = enqueuedJobs fiveJobs.
Proof.
  destruct (run (init (Some 2)) fiveJobs) as [s|] eqn:Hrun;
    [|vm_compute in Hrun; discriminate].
  exists s. split; [reflexivity|].
  pose proof (jobs_start_in_enqueue_order (Some 2) fiveJobs s Hrun) as H.
  vm_compute in Hrun. injection Hrun as <-.
  split; [reflexivity|]. split; [reflexivity|exact H].
Defined.

(** A job waits only while every slot is taken.  In a state the queue
    can reach, [enqueue] calls the job at once when fewer jobs than the
    limit are running (and then nothing was waiting); it appends the job
    to the waiting ones exactly when the limit is reached. *)
Theorem enqueue_starts_job_unless_full :
  forall (c : option Z) (s : System) (j : Job),
    reachable c s ->
    exists s',
      step s (Enqueue j) = Some (s', []) /\
      ((running (sq s) < limit c /\ queue (sq s) = [] /\
        inflight s' = inflight s ++ [j] /\ queue (sq s') = [] /\
        running (sq s') = running (sq s) + 1)
       \/
       (running (sq s) = limit c /\
        inflight s' = inflight s /\ queue (sq s') = queue (sq s) ++ [j] /\
        running (sq s') = running (sq s))).
Proof.
  intros c s j Hs.
  destruct (JobQueueTheory.queue_reachable_Inv c s Hs) as [Hc Hr Hb Hf Hn Hw].
  cbn [step]. unfold enqueue, schedule.
  cbn [queue running concurrency waiters].
  destruct (Z.lt_ge_cases (running (sq s)) (concurrency (sq s))) as [Hlt|Hge].
  - assert (Hq : queue (sq s) = []).
    { destruct (queue (sq s)) eqn:E; [reflexivity|].
      assert (running (sq s) = concurrency (sq s)) by (apply Hf; discriminate).
      lia. }
    rewrite Hq. cbn [app scheduleLoop].
    destruct (Z.ltb_spec (running (sq s)) (concurrency (sq s))); [|lia].
    eexists. split; [reflexivity|]. left. cbn. rewrite <- Hc. auto.
  - assert (He : running (sq s) = concurrency (sq s)) by lia.
    assert (Hloop : forall pending,
               pending <> [] ->
               scheduleLoop pending (running (sq s)) (concurrency (sq s)) []
               = (pending, running (sq s), [])).
    { intros [|x l] Hne; [congruence|]. cbn [scheduleLoop].
      destruct (Z.ltb_spec (running (sq s)) (concurrency (sq s)));
        [lia|reflexivity]. }
    rewrite Hloop by (destruct (queue (sq s)); discriminate).
    eexists. split; [reflexivity|]. right. cbn. rewrite app_nil_r, <- Hc. auto.
Qed.

Lemma enqueue_starts_job_unless_full_witness :
  exists s',
    step busyQueue (Enqueue 3%nat) = Some (s', []) /\
    inflight s' = [1; 2]%nat /\ queue (sq s') = [3%nat].
Proof.
  assert (Hreach : reachable (Some 2) busyQueue).
  { apply (JobQueueTheory.queue_run_reachable (Some 2)
             [Enqueue 1%nat; Enqueue 2%nat] (init (Some 2))).
    - apply reach_init.
    - reflexivity. }
  destruct (enqueue_starts_job_unless_full (Some 2) busyQueue 3%nat Hreach)
    as (s' & Hstep & [(Hlt & _)|(_ & Hin & Hq & _)]).
  - vm_compute in Hlt. discriminate.
  - exists s'. split; [exact Hstep|]. split; [exact Hin|exact Hq].
Defined.

End QueueTraceTheory.

(* ------------------------------------------------------------------ *)
(** * FileRotator: when to rotate, and how a rotation ends *)
Module RotationCasesTheory.
Import Rotator Rotation RotationCases.

Lemma append_assoc (a b c : string) : ((a ++ b) ++ c = a ++ (b ++ c))%string.
Proof. induction a as [|x a IH]; cbn; [reflexivity|now rewrite IH]. Qed.

Lemma prefix_append (a b : string) : String.prefix a (a ++ b) = true.
Proof.
  induction a as [|x a IH]; cbn; [now destruct b|].
  destruct (ascii_dec x x); [exact IH|congruence].
Qed.

Lemma matchesRotated_name (b e ts : string) :
  matchesRotated b e (b ++ "." ++ ts ++ e) = true /\
  matchesRotated b e ((b ++ "." ++ ts ++ e) ++ ".gz") = true.
Proof.
  unfold matchesRotated, startsWith. split.
  - rewrite <- append_assoc, prefix_append. cbn [andb].
    rewrite <- (append_assoc (b ++ ".") ts e), RetentionTheory.endsWith_append.
    reflexivity.
  - rewrite <- (append_assoc b "." (ts ++ e)), (append_assoc (b ++ ".")),
      prefix_append. cbn [andb].
    replace ((b ++ ".") ++ (ts ++ e) ++ ".gz")%string
      with (((b ++ ".") ++ ts) ++ (e ++ ".gz"))%string
      by (now rewrite !append_assoc).
    rewrite RetentionTheory.endsWith_append. apply orb_true_r.
Qed.

(** The first thing a rotation does is rename the live file, and the
    name it chooses, with or without the [.gz] of compression, always
    passes the filter by which [retention] finds the rotated files. *)
Theorem rotation_names_its_file_for_pruning :
  forall (r : FileRotator) (env : RotateEnv),
    let p := path r in
    let name := rotatedName p (now env) in
    (exists attempts rest,
        snd (fst (doRotate r env))
        = Rename (join (dir p) name) attempts :: rest) /\
    matchesRotated (base p) (ext p) name = true /\
    matchesRotated (base p) (ext p) (name ++ ".gz") = true.
Proof.
  intros r env p name. split.
  - unfold doRotate. fold p.
    destruct (retried (renameSync env)) as [[[]|e] attempts].
    + destruct (compressStep (opts r) env _) as [[[]|e1] effs1].
      * destruct (retentionStep p (opts r) env) as [[[]|e2] effs2];
          cbn; eauto.
      * cbn. eauto.
    + destruct (report env "Failed to rename log.") as [[[]|e1] effs];
        cbn; eauto.
  - apply matchesRotated_name.
Qed.

Lemma retried_refused (op : nat -> Completion unit) (e : Thrown) :
  op 0%nat = Throws e -> Retry.notAllowed retryErrorCodes e ->
  exists e', retried op = (Throws e', 1%nat).
Proof.
  intros Hop Hna. unfold retried, Retry.withRetry.
  change (Retry.effectiveMaxRetry fsRetry) with 5.
  cbn [Z.to_nat Pos.to_nat Pos.iter_op Nat.add Retry.attemptLoop Z.leb
       Z.compare Pos.compare Pos.compare_cont].
  rewrite Hop. destruct (isAbortError e); [cbn; eauto|].
  rewrite (RetryTheory.codeBreaks_notAllowed retryErrorCodes e) by
      (try discriminate; exact Hna).
  cbn. eauto.
Qed.

(** A rename that fails with a code other than [ENOENT] and [EBUSY] (or
    with no code) is not tried again, and the rotation is abandoned:
    the failure is reported, the result is [false], nothing is
    compressed or pruned, and the rotator is left as it was. *)
Theorem failed_rename_abandons_rotation :
  forall (r : FileRotator) (env : RotateEnv) (e : Thrown),
    renameSync env 0%nat = Throws e ->
    Retry.notAllowed retryErrorCodes e ->
    onError env "Failed to rename log." = Returns tt ->
    doRotate r env
    = (Returns false,
       [Rename (join (dir (path r)) (rotatedName (path r) (now env))) 1;
        OnError "Failed to rename log."],
       r).
Proof.
  intros r env e Hop Hna Herr.
  destruct (retried_refused (renameSync env) e Hop Hna) as (e' & Hr).
  unfold doRotate, report. rewrite Hr, Herr. reflexivity.
Qed.

Lemma failed_rename_abandons_rotation_witness :
  doRotate sampleRotator renameDenied
  = (Returns false,
     [Rename "logs/app.2025-07-21T10-00-00-000Z.log" 1;
      OnError "Failed to rename log."],
     sampleRotator).
Proof.
  apply (failed_rename_abandons_rotation sampleRotator renameDenied denied).
  - reflexivity.
  - right. exists "EPERM"%string. split; [reflexivity|].
    cbn. intros [H|[H|[]]]; discriminate.
  - reflexivity.
Defined.



(** With [maxFiles: 0] a rotation compresses nothing, whatever
    [compress] says, and prunes every rotated file it finds: all the
    entries that match the pattern, except a path that ends with the live
    file's name. *)
Theorem keeping_no_files_prunes_everything :
  forall (r : FileRotator) (env : RotateEnv) (files : list string),
    maxFiles (opts r) = Some (Finite 0) ->
    fst (retried (renameSync env)) = Returns tt ->
    readdir env = Returns files ->
    let p := path r in
    exists attempts,
      doRotate r env
      = (Returns true,
         [Rename (join (dir p) (rotatedName p (now env))) attempts;
          Prune (filter (fun c => negb (endsWith c (base p ++ ext p)))
                        (candidates (dir p) (base p) (ext p) files))],
         withKey (computeKey (opts r) (nowAfter env)) r).
Proof.
  intros r env files Hmax Hren Hdir p. unfold doRotate. fold p.
  destruct (retried (renameSync env)) as [res attempts]. cbn in Hren. subst res.
  exists attempts.
  unfold compressStep, maxFilesNonZero. rewrite Hmax. cbn [Z.eqb negb].
  rewrite andb_false_r.
  unfold retentionStep. rewrite Hmax, Hdir. cbn [retention excessOf].
  rewrite Z.sub_0_r.
  set (cands := candidates (dir p) (base p) (ext p) files).
  destruct (Z.ltb_spec 0 (Z.of_nat (List.length cands))) as [Hpos|Hnone].
  - rewrite Nat2Z.id, RetentionTheory.pruneLoop_spec by lia.
    cbn [skipn app]. rewrite firstn_all. reflexivity.
  - destruct cands as [|c cands']; [reflexivity|cbn in Hnone; lia].
Qed.

Lemma keeping_no_files_prunes_everything_witness :
  exists attempts,
    doRotate keepNothing quietEnv
    = (Returns true,
       [Rename "logs/app.2025-07-21T10-00-00-000Z.log" attempts;
        Prune ["logs/app.2025-07-20T10-00-00-000Z.log.gz";
               "logs/app.2025-07-21T10-00-00-000Z.log.gz"]%string],
       withKey (Some "2025-07-21T10"%string) keepNothing).
Proof.
  destruct (keeping_no_files_prunes_everything keepNothing quietEnv sampleDir
              eq_refl eq_refl eq_refl) as (attempts & H).
  exists attempts. rewrite H. reflexivity.
Defined.

Lemma optStringEqb_refl k : optStringEqb k k = true.
Proof. destruct k; cbn; [apply String.eqb_refl|reflexivity]. Qed.

(** Crossing a time boundary makes [shouldRotate] answer [true] exactly
    once: the call that notices the new period records its key, so a
    second call within that period decides by the size alone (and changes
    nothing). *)
Theorem time_boundary_rotates_once :
  forall (r : FileRotator) (now now' : string) (size size' : Z),
    interval (opts r) <> None ->
    optStringEqb (computeKey (opts r) now) (currentKey r) = false ->
    computeKey (opts r) now' = computeKey (opts r) now ->
    let r1 := withKey (computeKey (opts r) now) r in
    shouldRotate r now size = (true, r1) /\
    shouldRotate r1 now' size' = (sizeRule (opts r) size', r1).
Proof.
  intros r now now' size size' Hint Hkey Hsame r1. split.
  - unfold shouldRotate. destruct (interval (opts r)); [|congruence].
    rewrite Hkey. reflexivity.
  - unfold shouldRotate, r1, withKey. cbn [opts currentKey].
    rewrite Hsame, optStringEqb_refl.
    destruct (interval (opts r)); cbn [negb]; unfold sizeRule;
      destruct (maxSize (opts r)) as [m|]; try reflexivity;
      destruct (m =? 0); reflexivity.
Qed.

Lemma time_boundary_rotates_once_witness :
  shouldRotate keepNothing "2025-07-21T10:00:00.000Z" 10
  = (true, withKey (Some "2025-07-21T10"%string) keepNothing) /\
  shouldRotate (withKey (Some "2025-07-21T10"%string) keepNothing)
               "2025-07-21T10:59:59.999Z" 1000000
  = (false, withKey (Some "2025-07-21T10"%string) keepNothing).
Proof.
  apply (time_boundary_rotates_once keepNothing "2025-07-21T10:00:00.000Z"
           "2025-07-21T10:59:59.999Z" 10 1000000).
  - discriminate.
  - reflexivity.
  - reflexivity.
Defined.

End RotationCasesTheory.

(* ------------------------------------------------------------------ *)
(** * waitUntil: polling with backoff *)
Module PollingTheory.
Import Polling.

Section Loop.
Context {T : Type}.
Variable condition : nat -> Completion (option T).
Variable clock : nat -> Z.
Variable signal : option Signal.
Variable opts : WaitUntilOptions.

Lemma backoff_snoc maxI :
  forall n interval,
    backoff interval maxI (S n)
    = backoff interval maxI n
      ++ [nth n (backoff interval maxI (S n)) 0].
Proof.
  induction n as [|n IH]; intros interval; [reflexivity|].
  change (backoff interval maxI (S (S n)))
    with (interval :: backoff (Z.min (interval * 2) maxI) maxI (S n)).
  rewrite (IH (Z.min (interval * 2) maxI)) at 1.
  reflexivity.
Qed.

(** [n] undisturbed iterations with a falsy condition. *)
Lemma pollLoop_through :
  forall n fuel i interval slept,
    (forall k, (i <= k)%nat -> (k < i + n)%nat ->
               undisturbed clock signal opts k /\
               condition (S k) = Returns None) ->
    pollLoop condition clock signal opts (n + fuel) i interval slept
    = pollLoop condition clock signal opts fuel (i + n)
               (nth n (backoff interval (maxOf opts) (S n)) 0)
               (slept ++ backoff interval (maxOf opts) n).
Proof.
  induction n as [|n IH]; intros fuel i interval slept Hq.
  - cbn [backoff nth Nat.add]. now rewrite Nat.add_0_r, app_nil_r.
  - destruct (Hq i ltac:(lia) ltac:(lia)) as ((Hb & Hd & Hu) & Hc).
    cbn [Nat.add pollLoop]. rewrite Hb, Hd, Hu, Hc.
    rewrite IH by (intros k Hk1 Hk2; apply Hq; lia).
    replace (S i + n)%nat with (i + S n)%nat by lia.
    f_equal. cbn [backoff app]. now rewrite <- app_assoc.
Qed.

(** Whatever ends a call, the delays it started are the first steps of
    the backoff sequence, and it evaluated the condition once before the
    first delay and at most once after each. *)
Lemma pollLoop_delays :
  forall fuel i interval slept r,
    pollLoop condition clock signal opts fuel i interval slept = Some r ->
    exists n,
      delays r = slept ++ backoff interval (maxOf opts) n /\
      (i + n <= evaluations r)%nat /\ (evaluations r <= S (i + n))%nat.
Proof.
  induction fuel as [|fuel IH]; intros i interval slept r; [discriminate|].
  cbn [pollLoop].
  destruct (abortedAt signal abortedBefore i).
  { intros [= <-]. exists 0%nat. cbn. rewrite app_nil_r. split; [auto|lia]. }
  destruct (deadlinePassed clock opts i).
  { intros [= <-]. exists 0%nat. cbn. rewrite app_nil_r. split; [auto|lia]. }
  destruct (abortedAt signal abortedDuring i).
  { intros [= <-]. exists 1%nat. cbn. split; [auto|lia]. }
  destruct (condition (S i)) as [[v|]|e].
  - intros [= <-]. exists 1%nat. cbn. split; [auto|lia].
  - intros H. apply IH in H as (n & Hd & Hlo & Hhi).
    exists (S n). cbn [backoff]. rewrite <- app_assoc in Hd. cbn [app] in Hd.
    split; [exact Hd|lia].
  - intros [= <-]. exists 1%nat. cbn. split; [auto|lia].
Qed.

End Loop.

(** The closed form of the backoff sequence when the first interval does
    not exceed the cap. *)
Lemma backoff_closed maxI :
  forall n interval k,
    0 <= interval <= maxI -> (k < n)%nat ->
    nth_error (backoff interval maxI n) k
    = Some (Z.min (interval * 2 ^ Z.of_nat k) maxI).
Proof.
  induction n as [|n IH]; intros interval k Hi Hk; [lia|].
  destruct k as [|k]; cbn [backoff nth_error].
  - f_equal. cbn. lia.
  - rewrite IH by lia. f_equal.
    replace (Z.of_nat (S k)) with (Z.of_nat k + 1) by lia.
    rewrite Z.pow_add_r, Z.pow_1_r by lia.
    assert (Hp : 1 <= 2 ^ Z.of_nat k) by (apply Z.pow_le_mono_r with (b := 0) (c := Z.of_nat k) (a := 2); lia).
    destruct (Z.le_ge_cases (interval * 2) maxI).
    + rewrite (Z.min_l (interval * 2)) by lia. f_equal. lia.
    + rewrite (Z.min_r (interval * 2)) by lia.
      rewrite !Z.min_r; [reflexivity|nia|nia].
Qed.

Lemma backoff_length maxI :
  forall n interval, List.length (backoff interval maxI n) = n.
Proof. induction n as [|n IH]; intros; cbn; [reflexivity|now rewrite IH]. Qed.

(** Every delay after the first is at most the cap. *)
Lemma backoff_capped maxI :
  forall n interval k d,
    nth_error (backoff interval maxI n) (S k) = Some d -> d <= maxI.
Proof.
  induction n as [|n IH]; intros interval k d; [destruct k; discriminate|].
  cbn [backoff nth_error]. destruct n as [|n]; [destruct k; discriminate|].
  destruct k as [|k].
  - cbn. intros [= <-]. lia.
  - apply IH.
Qed.

(** A call whose condition is falsy [n] times and then gives a truthy
    value, or throws, ends with that value or that exception after
    exactly [n + 1] evaluations (an exception of the condition is not
    retried), having slept [n] times, as long as no abort and no
    deadline interferes; the delays start at [initialInterval] and double
    up to [maxInterval]. *)
Theorem waitUntil_polls_until_condition_settles :
  forall (T : Type) (condition : nat -> Completion (option T))
         (clock : nat -> Z) (signal : option Signal)
         (opts : WaitUntilOptions) (n : nat) (final : Completion T)
         (fuel : nat),
    (forall k, (k < n)%nat ->
               condition k = Returns None /\
               undisturbed clock signal opts k) ->
    condition n = lift final ->
    (n <= fuel)%nat ->
    waitUntil condition clock signal opts fuel
    = Some (mkWaited final (S n) (backoff (initialOf opts) (maxOf opts) n)).
Proof.
  intros T condition clock signal opts n final fuel Hq Hfin Hfuel.
  unfold waitUntil. destruct n as [|n].
  - rewrite Hfin. destruct final; reflexivity.
  - destruct (Hq 0%nat ltac:(lia)) as [H0 _]. rewrite H0.
    replace fuel with (n + (fuel - n))%nat by lia.
    rewrite (pollLoop_through condition clock signal opts n (fuel - n) 0
               (initialOf opts) []).
    2:{ intros k _ Hk. split; [apply Hq; lia|].
        destruct (Hq (S k) ltac:(lia)) as [Hc _]. exact Hc. }
    destruct (fuel - n)%nat as [|rest] eqn:Ef; [lia|].
    destruct (Hq n ltac:(lia)) as (_ & Hb & Hd & Hu).
    cbn [Nat.add pollLoop app]. rewrite Hb, Hd, Hu, Hfin.
    destruct final; cbn [lift]; do 2 f_equal; symmetry; apply backoff_snoc.
Qed.

Lemma waitUntil_polls_until_condition_settles_witness :
  waitUntil fourthTime ticking None noOptions 10
  = Some (mkWaited (Returns 7) 4 [50; 100; 200]).
Proof.
  apply (waitUntil_polls_until_condition_settles Z fourthTime ticking None
           noOptions 3 (Returns 7) 10).
  - intros k Hk. split.
    + destruct k as [|[|[|k]]]; [reflexivity|reflexivity|reflexivity|lia].
    + repeat split.
  - reflexivity.
  - lia.
Defined.

(** However a call ends, the delay of iteration [k] is
    [min(initialInterval * 2^k, maxInterval)], provided the initial
    interval is not negative and not above the cap; in any case every
    delay after the first is at most [maxInterval]. *)
Theorem waitUntil_delays_double_up_to_cap :
  forall (T : Type) (condition : nat -> Completion (option T))
         (clock : nat -> Z) (signal : option Signal)
         (opts : WaitUntilOptions) (fuel : nat) (r : Waited T),
    waitUntil condition clock signal opts fuel = Some r ->
    (forall k d, nth_error (delays r) (S k) = Some d -> d <= maxOf opts) /\
    (0 <= initialOf opts <= maxOf opts ->
     forall k, (k < List.length (delays r))%nat ->
               nth_error (delays r) k
               = Some (Z.min (initialOf opts * 2 ^ Z.of_nat k) (maxOf opts))).
Proof.
  intros T condition clock signal opts fuel r. unfold waitUntil.
  assert (Hnil : forall x : Waited T,
             delays x = [] ->
             (forall k d, nth_error (delays x) (S k) = Some d -> d <= maxOf opts) /\
             (0 <= initialOf opts <= maxOf opts ->
              forall k, (k < List.length (delays x))%nat ->
                        nth_error (delays x) k
                        = Some (Z.min (initialOf opts * 2 ^ Z.of_nat k)
                                      (maxOf opts)))).
  { intros x ->. split; [intros k d; discriminate|cbn; intros; lia]. }
  destruct (condition 0%nat) as [[v|]|e];
    [intros [= <-]; now apply Hnil| |intros [= <-]; now apply Hnil].
  intros H.
  apply pollLoop_delays in H as (n & Hd & _). cbn [app] in Hd. rewrite Hd.
  split.
  - intros k d. apply backoff_capped.
  - intros Hi k Hk. apply backoff_closed; [exact Hi|].
    now rewrite backoff_length in Hk.
Qed.

Lemma waitUntil_delays_double_up_to_cap_witness :
  exists r,
    waitUntil fourthTime ticking None (mkWaitUntilOptions (Some 10) (Some 30) None)
              10 = Some r /\
    nth_error (delays r) 2 = Some (Z.min (10 * 2 ^ 2) 30).
Proof.
  destruct (waitUntil fourthTime ticking None
              (mkWaitUntilOptions (Some 10) (Some 30) None) 10) as [r|] eqn:E;
    [|vm_compute in E; discriminate].
  exists r. split; [reflexivity|].
  destruct (waitUntil_delays_double_up_to_cap Z fourthTime ticking None _ 10 r E)
    as [_ Hclosed].
  apply (Hclosed ltac:(cbn; lia) 2%nat).
  vm_compute in E. injection E as <-. cbn. lia.
Defined.

(** The deadline is looked at only between evaluations: the condition is
    always evaluated once, even with [timeout: 0], and when the clock is
    first seen at or past the deadline the call throws an abort error
    (one that [isAbortError] recognises, so that a retry executor around
    it does not retry) without evaluating the condition again. *)
Theorem waitUntil_deadline :
  forall (T : Type) (condition : nat -> Completion (option T))
         (clock : nat -> Z) (signal : option Signal)
         (opts : WaitUntilOptions) (t : Z) (n fuel : nat),
    timeout opts = Some t ->
    (forall k, (k <= n)%nat -> condition k = Returns None) ->
    (forall k, (k < n)%nat -> undisturbed clock signal opts k) ->
    abortedAt signal abortedBefore n = None ->
    t <= clock (S n) - clock 0%nat ->
    (n < fuel)%nat ->
    exists e,
      waitUntil condition clock signal opts fuel
      = Some (mkWaited (Throws e) (S n)
                       (backoff (initialOf opts) (maxOf opts) n)) /\
      e = makeAbortError (Some (timeoutMessage t)) /\
      isAbortError e = true.
Proof.
  intros T condition clock signal opts t n fuel Ht Hc Hq Hb Hlate Hfuel.
  exists (makeAbortError (Some (timeoutMessage t))).
  split; [|split; reflexivity].
  unfold waitUntil. rewrite (Hc 0%nat) by lia.
  replace fuel with (n + (fuel - n))%nat by lia.
  rewrite (pollLoop_through condition clock signal opts n (fuel - n) 0
             (initialOf opts) []).
  2:{ intros k _ Hk. split; [apply Hq; lia|apply Hc; lia]. }
  destruct (fuel - n)%nat as [|rest] eqn:Ef; [lia|].
  cbn [Nat.add pollLoop app]. rewrite Hb.
  unfold deadlinePassed. rewrite Ht.
  destruct (Z.leb_spec t (clock (S n) - clock 0%nat)); [reflexivity|lia].
Qed.

Lemma waitUntil_deadline_witness :
  exists e,
    waitUntil never ticking None within100 10
    = Some (mkWaited (Throws e) 3 [10; 20]) /\
    e = makeAbortError (Some "Timed out after 100ms"%string) /\
    isAbortError e = true.
Proof.
  apply (waitUntil_deadline Z never ticking None within100 100 2 10).
  - reflexivity.
  - intros k Hk. reflexivity.
  - intros k Hk. destruct k as [|[|k]]; [repeat split|repeat split|lia].
  - reflexivity.
  - vm_compute. discriminate.
  - lia.
Defined.

End PollingTheory.

(* ------------------------------------------------------------------ *)
(** * merge: the lookup law *)
Module MergeTheory.
Import Merge.

Lemma get_set_same k v fs : get k (set k v fs) = Some v.
Proof.
  induction fs as [|[k' v'] fs IH]; cbn.
  - now rewrite String.eqb_refl.
  - destruct (String.eqb k' k) eqn:E; cbn; rewrite E; auto.
Qed.

Lemma get_set_other k k' v fs : k <> k' -> get k (set k' v fs) = get k fs.
Proof.
  intros Hne. induction fs as [|[k1 v1] fs IH]; cbn.
  - destruct (String.eqb_spec k' k); [congruence|reflexivity].
  - destruct (String.eqb_spec k1 k'); cbn.
    + subst. destruct (String.eqb_spec k' k); [congruence|reflexivity].
    + destruct (String.eqb k1 k); [reflexivity|exact IH].
Qed.

Lemma get_None k fs : ~ In k (keys fs) -> get k fs = None.
Proof.
  induction fs as [|[k1 v1] fs IH]; cbn; [reflexivity|].
  intros Hn. destruct (String.eqb_spec k1 k); [tauto|]. apply IH. tauto.
Qed.

Lemma set_fresh k v fs : ~ In k (keys fs) -> set k v fs = fs ++ [(k, v)].
Proof.
  induction fs as [|[k1 v1] fs IH]; cbn; [reflexivity|].
  intros Hn. destruct (String.eqb_spec k1 k); [tauto|].
  rewrite IH by tauto. reflexivity.
Qed.

Lemma keys_set k v fs :
  keys (set k v fs) = if existsb (String.eqb k) (keys fs)
                      then keys fs else keys fs ++ [k].
Proof.
  induction fs as [|[k1 v1] fs IH]; cbn; [reflexivity|].
  rewrite (String.eqb_sym k k1).
  destruct (String.eqb k1 k); cbn; [reflexivity|].
  fold (keys (set k v fs)) (keys fs).
  rewrite IH. now destruct (existsb (String.eqb k) (keys fs)).
Qed.

Lemma NoDup_set k v fs : NoDup (keys fs) -> NoDup (keys (set k v fs)).
Proof.
  intros Hnd. rewrite keys_set.
  destruct (existsb (String.eqb k) (keys fs)) eqn:E; [exact Hnd|].
  apply NoDup_app; [exact Hnd|repeat constructor; intros []|].
  intros x Hx [->|[]].
  assert (existsb (String.eqb x) (keys fs) = true); [|congruence].
  apply existsb_exists. exists x. split; [exact Hx|apply String.eqb_refl].
Qed.

(** The inner loop of [absorb] is the loop of [mergeInto]. *)
Lemma absorb_plain p s :
  absorb (Some (Plain p)) (Plain s) = Plain (mergeInto (copy p) (Plain s)).
Proof.
  cbn [absorb mergeInto]. f_equal. generalize (copy p).
  induction s as [|[k v] s IH]; intros result; cbn [fold_left fst snd];
    [reflexivity|apply IH].
Qed.

(** The loop over the keys of one object, key by key. *)
Lemma get_mergeInto k s :
  NoDup (keys s) ->
  forall result,
    get k (mergeInto result (Plain s))
    = match get k s with
      | None => get k result
      | Some v => Some (absorb (get k result) v)
      end.
Proof.
  cbn [mergeInto]. induction s as [|[k1 v1] s IH]; intros Hnd result;
    cbn [fold_left fst snd get]; [reflexivity|].
  inversion Hnd as [|? ? Hnin Hnd']; subst.
  rewrite IH by exact Hnd'.
  destruct (String.eqb_spec k1 k) as [->|Hne].
  - rewrite (get_None k s Hnin). apply get_set_same.
  - rewrite !(get_set_other k k1) by congruence. reflexivity.
Qed.

Lemma NoDup_mergeInto obj :
  forall result, NoDup (keys result) -> NoDup (keys (mergeInto result obj)).
Proof.
  destruct obj as [s|a]; cbn [mergeInto]; [|auto].
  induction s as [|[k v] s IH]; intros result Hnd; cbn [fold_left];
    [exact Hnd|].
  apply IH. now apply NoDup_set.
Qed.

Lemma NoDup_mergeInternal objs : NoDup (keys (mergeInternal objs)).
Proof.
  unfold mergeInternal.
  assert (H : forall result, NoDup (keys result) ->
                             NoDup (keys (fold_left mergeInto objs result))).
  { induction objs as [|o objs IH]; intros result Hnd; cbn [fold_left];
      [exact Hnd|]. apply IH. now apply NoDup_mergeInto. }
  apply H. constructor.
Qed.

(** Going through an object whose keys are all new appends it. *)
Lemma mergeInto_fresh s :
  NoDup (keys s) ->
  forall result,
    (forall k, In k (keys s) -> ~ In k (keys result)) ->
    mergeInto result (Plain s) = result ++ s.
Proof.
  cbn [mergeInto]. induction s as [|[k v] s IH]; intros Hnd result Hdis;
    cbn [fold_left fst snd]; [now rewrite app_nil_r|].
  inversion Hnd as [|? ? Hnin Hnd']; subst.
  assert (Hk : ~ In k (keys result)) by (apply Hdis; now left).
  rewrite (get_None k result Hk), (set_fresh k _ result Hk).
  replace (absorb None v) with v by (now destruct v).
  rewrite IH; [now rewrite <- app_assoc|exact Hnd'|].
  intros k' Hin Hin'. unfold keys in Hin'. rewrite map_app in Hin'.
  apply in_app_or in Hin' as [Hin'|[<-|[]]].
  - apply (Hdis k'); [now right|exact Hin'].
  - contradiction.
Qed.

Lemma wf_keys fs : wf (Plain fs) -> NoDup (keys fs).
Proof. now inversion 1. Qed.

Lemma get_In k v fs : get k fs = Some v -> In (k, v) fs.
Proof.
  induction fs as [|[k1 v1] fs IH]; cbn; [discriminate|].
  destruct (String.eqb_spec k1 k) as [->|_].
  - intros [= ->]. now left.
  - intros H. right. now apply IH.
Qed.

(** Copying an object key by key gives the object. *)
Lemma copy_distinct fs : NoDup (keys fs) -> copy fs = fs.
Proof.
  unfold copy.
  assert (H : forall acc,
             NoDup (keys fs) ->
             (forall k, In k (keys fs) -> ~ In k (keys acc)) ->
             fold_left (fun result kv => set (fst kv) (snd kv) result) fs acc
             = acc ++ fs).
  { induction fs as [|[k v] fs IH]; intros acc Hnd Hdis; cbn [fold_left fst snd];
      [now rewrite app_nil_r|].
    inversion Hnd as [|? ? Hnin Hnd']; subst.
    assert (Hk : ~ In k (keys acc)) by (apply Hdis; now left).
    rewrite (set_fresh k v acc Hk).
    rewrite IH; [now rewrite <- app_assoc|exact Hnd'|].
    intros k' Hin Hin'. unfold keys in Hin'. rewrite map_app in Hin'.
    apply in_app_or in Hin' as [Hin'|[<-|[]]].
    - apply (Hdis k'); [now right|exact Hin'].
    - contradiction. }
  intros Hnd. apply (H [] Hnd). intros k _ [].
Qed.

(** The lookup law of [merge(a, b)] for two plain objects.  A key that
    the override lacks keeps the base's value; a key that the override
    has takes the override's value, whatever it is ([undefined]
    included), except that two plain objects are merged in turn. *)
Theorem merge_lookup :
  forall (a b : Fields) (key : string),
    wf (Plain a) -> wf (Plain b) ->
    get key (mergeInternal [Plain a; Plain b])
    = match get key b with
      | None => get key a
      | Some vb =>
          Some (match get key a, vb with
                | Some (Plain p), Plain s =>
                    Plain (mergeInternal [Plain p; Plain s])
                | _, _ => vb
                end)
      end.
Proof.
  intros a b key Ha Hb. unfold mergeInternal. cbn [fold_left].
  rewrite (get_mergeInto key b (wf_keys b Hb)).
  rewrite (mergeInto_fresh a (wf_keys a Ha) []) by (intros k _ []). cbn [app].
  destruct (get key b) as [vb|]; [|reflexivity]. f_equal.
  destruct (get key a) as [[p|x]|] eqn:Ea; destruct vb as [s|y];
    try reflexivity.
  rewrite absorb_plain. f_equal.
  assert (Hp : NoDup (keys p)).
  { apply wf_keys. inversion Ha as [|? _ Hsub]; subst.
    apply (Hsub key). now apply get_In. }
  rewrite (copy_distinct p Hp).
  rewrite (mergeInto_fresh p Hp []) by (intros k _ []). reflexivity.
Qed.

Ltac wf_sample :=
  repeat first
    [ apply wf_leaf
    | apply wf_plain;
      [ repeat constructor; cbn; intuition discriminate
      | cbn; intros ? ? H;
        repeat (destruct H as [H|H]; [injection H as <- <-|]); try contradiction ] ].

Lemma merge_lookup_witness :
  get "level" (mergeInternal [Plain baseObject; Plain overrideObject])
  = Some (Leaf UndefinedA) /\
  get "worker" (mergeInternal [Plain baseObject; Plain overrideObject])
  = Some (Plain [("closeTimeout"%string, Leaf (NumberA 60000));
                 ("readyTimeout"%string, Leaf (NumberA 10))]).
Proof.
  assert (Ha : wf (Plain baseObject)) by wf_sample.
  assert (Hb : wf (Plain overrideObject)) by wf_sample.
  split.
  - rewrite (merge_lookup baseObject overrideObject "level" Ha Hb). reflexivity.
  - rewrite (merge_lookup baseObject overrideObject "worker" Ha Hb). reflexivity.
Defined.

(** Overrides can be merged one after the other or all at once: merging
    a further object into the result of a merge gives what merging it
    together with the others gives. *)
Theorem merge_one_at_a_time :
  forall (objects : list Val) (last : Val),
    mergeInternal [Plain (mergeInternal objects); last]
    = mergeInternal (objects ++ [last]).
Proof.
  intros objects last. unfold mergeInternal at 1 3.
  rewrite fold_left_app. cbn [fold_left].
  rewrite (mergeInto_fresh (mergeInternal objects) (NoDup_mergeInternal objects) [])
    by (intros k _ []).
  reflexivity.
Qed.

(** Values that are not plain objects ([undefined], arrays, ...) among
    the overrides are passed over; a base that is not a plain object
    makes [merge] throw. *)
Theorem merge_skips_what_is_not_an_object :
  forall (base : Val) (before after : list Val) (a : Atom),
    merge base (before ++ Leaf a :: after) = merge base (before ++ after) /\
    (exists e, merge (Leaf a) before = Throws e).
Proof.
  intros base before after a. split; [|cbn; eauto].
  unfold merge, mergeInternal. destruct base as [fs|x]; [|reflexivity].
  cbn [fold_left]. now rewrite !fold_left_app.
Qed.

(** What the options of a transport give for [worker]: the defaults
    fill in the timeouts the caller left out, and only those.  A caller
    who passes [worker: undefined], or a [closeTimeout] that is
    [undefined], loses the default, and every handshake is then armed
    with a timeout of 0. *)
Theorem worker_options_after_merge :
  forall user : Field Handshake.WorkerOptions,
    mergedWorker user = Handshake.mergeWorker user /\
    Handshake.handshakeTimeout (mergedWorker user)
    = match user with
      | Absent => 60000
      | Undefined => 0
      | Value u =>
          match Handshake.closeTimeout u with
          | Absent => 60000
          | Undefined => 0
          | Value n => n
          end
      end.
Proof.
  intros [| |[[| |ct] [| |rt]]]; split; reflexivity.
Qed.

End MergeTheory.

(* ------------------------------------------------------------------ *)
(** * The two ends of the worker channel fit *)
Module WorkerLinkTheory.
Import Handshake WorkerLink.

Lemma prefix_of_append (a b : string) : String.prefix a (a ++ b) = true.
Proof.
  induction a as [|x a IH]; cbn; [now destruct b|].
  destruct (ascii_dec x x); [exact IH|congruence].
Qed.

Lemma tagged_workerError payload : isErrorTagged (workerError payload) = true.
Proof. apply prefix_of_append. Qed.

Lemma substring_skip (a s : string) (n : nat) :
  substring (String.length a) n (a ++ s) = substring 0 n s.
Proof. induction a as [|x a IH]; cbn; [reflexivity|exact IH]. Qed.

Lemma length_append (a b : string) :
  String.length (a ++ b) = (String.length a + String.length b)%nat.
Proof. induction a as [|x a IH]; cbn; [reflexivity|now rewrite IH]. Qed.

Lemma substring_all (s : string) : substring 0 (String.length s) s = s.
Proof. induction s as [|a s IH]; cbn; [reflexivity|now rewrite IH]. Qed.

Lemma parsedText_workerError payload :
  parsedText (workerError payload) = Some payload.
Proof.
  unfold parsedText, workerError.
  rewrite prefix_of_append, substring_skip, length_append. f_equal.
  replace (String.length errorPrefix + String.length payload
           - String.length errorPrefix)%nat
    with (String.length payload) by lia.
  apply substring_all.
Qed.

Lemma parsedTexts_app a b : parsedTexts (a ++ b) = parsedTexts a ++ parsedTexts b.
Proof. unfold parsedTexts. apply flat_map_app. Qed.

Lemma parsedTexts_errors payloads :
  parsedTexts (map workerError payloads) = payloads.
Proof.
  induction payloads as [|p ps IH]; [reflexivity|].
  cbn [map]. change (parsedTexts (workerError p :: map workerError ps))
    with (match parsedText (workerError p) with
          | Some q => [q]
          | None => []
          end ++ parsedTexts (map workerError ps)).
  now rewrite parsedText_workerError, IH.
Qed.

(** The worker answers what the initiator waits for.  A drain or a
    close is answered whether the flush or the close inside the worker
    succeeded or not, the construction options are answered when the
    worker's set-up returns; the answer completes the handshake, also
    after any number of errors reported by the worker in between.  For
    each of those reports the parent's listener hands to [JSON.parse]
    exactly the text that the worker serialized, in the order of the
    reports, and parses nothing for the answer itself. *)
Theorem worker_reply_completes_the_handshake :
  forall (worker : Field WorkerOptions) (k : Kind) (settled : Completion unit)
         (payloads : list string),
    (k = Ready -> settled = Returns tt) ->
    exists reply,
      workerReply (command (start worker k)) settled = Some reply /\
      parsedText reply = None /\
      let msgs := map workerError payloads ++ [reply] in
      let h := deliverAll (start worker k) (map OnMessage msgs) in
      outcome h = Some Succeeded /\ listening h = false /\
      parsedTexts msgs = payloads.
Proof.
  intros worker k settled payloads Hready.
  assert (Hreply : workerReply (command (start worker k)) settled
                   = Some (Text (expectedReply (start worker k)))).
  { destruct k; cbn; [now rewrite Hready| |]; now destruct settled. }
  eexists. split; [exact Hreply|]. split; [now destruct k|]. cbv zeta.
  rewrite map_app. unfold deliverAll. rewrite fold_left_app.
  fold (deliverAll (start worker k) (map OnMessage (map workerError payloads))).
  rewrite HandshakeTheory.deliverAll_tagged
    by (apply Forall_forall; intros m Hin; apply in_map_iff in Hin as (p & <- & _);
        apply tagged_workerError).
  rewrite parsedTexts_app, parsedTexts_errors.
  destruct k; cbn; repeat split; now rewrite app_nil_r.
Qed.

Lemma worker_reply_completes_the_handshake_witness :
  exists reply,
    workerReply DrainToken (Throws (plainError "flush failed")) = Some reply /\
    outcome (deliverAll (drainWorker (Value defaultWorker))
               (map OnMessage (map workerError serializedErrors ++ [reply])))
    = Some Succeeded /\
    parsedTexts (map workerError serializedErrors ++ [reply]) = serializedErrors.
Proof.
  destruct (worker_reply_completes_the_handshake (Value defaultWorker) Drain
              (Throws (plainError "flush failed")) serializedErrors)
    as (reply & Hreply & _ & Hout & _ & Hfwd).
  - discriminate.
  - exists reply. split; [exact Hreply|]. split; [exact Hout|exact Hfwd].
Defined.

(** A reply of the worker reaches every handshake that is under way,
    not only the one it answers: those waiting for this reply succeed,
    every other one fails on it, and none keeps listening. *)
Theorem reply_settles_every_pending_handshake :
  forall (hs : list Handshake) (reply : string),
    Forall waiting hs ->
    isErrorTagged (Text reply) = false ->
    let hs' := broadcast hs (OnMessage (Text reply)) in
    map outcome hs' = map (fun h => Some (settledBy reply h)) hs /\
    Forall (fun h => listening h = false) hs'.
Proof.
  intros hs reply Hwait Htag. cbv zeta. unfold broadcast.
  induction Hwait as [|h hs [Hl Ho] _ [IH1 IH2]]; [split; constructor|].
  cbn [map]. rewrite IH1. split; [|constructor; [|exact IH2]].
  - f_equal. unfold deliver. rewrite Hl, Htag. unfold settledBy.
    cbn [isExpected]. destruct (String.eqb reply (expectedReply h));
      cbn [finish outcome]; now rewrite Ho.
  - unfold deliver. rewrite Hl, Htag.
    now destruct (isExpected (expectedReply h) (Text reply)).
Qed.

Lemma reply_settles_every_pending_handshake_witness :
  map outcome (broadcast [drainWorker (Value defaultWorker);
                          closeWorker (Value defaultWorker)]
                         (OnMessage (Text "drained")))
  = [Some Succeeded; Some (Failed (Unexpected "closed" (Text "drained")))].
Proof.
  destruct (reply_settles_every_pending_handshake
              [drainWorker (Value defaultWorker); closeWorker (Value defaultWorker)]
              "drained") as [H _].
  - repeat constructor.
  - reflexivity.
  - exact H.
Defined.

Section Calls.
Context {S : Type}.
Variable doLog : Transport.Log -> Transport.Core -> S
                 -> Completion unit * Transport.Core * S.
Variable postMessage : Transport.WireMessage -> Completion unit.

Lemma perform_offloaded call c s sent :
  Transport.worker c = Some sent ->
  Transport.isClosing c = false -> Transport.isClosed c = false ->
  postMessage (wire call) = Returns tt ->
  Transport.perform doLog postMessage call c s
  = (Returns tt,
     Transport.withWorker (Some (sent ++ [wire call]))
       (Transport.withRequests (Transport.logRequests c + 1) c),
     s).
Proof.
  intros Hw Hclosing Hclosed Hpost.
  destruct call as [l|data]; cbn [Transport.perform wire] in *.
  - unfold Transport.log, Transport.tryLog, Transport.checkTransportState,
      Transport.post.
    cbn. rewrite Hclosed, Hclosing, Hw, Hpost. reflexivity.
  - unfold Transport.raw, Transport.tryRaw, Transport.checkTransportState,
      Transport.post.
    rewrite Hw. cbn. rewrite Hclosed, Hclosing, Hpost. reflexivity.
Qed.

End Calls.

(** On a transport that runs in a worker and is not closing, [log] and
    [raw] only forward: each call posts its record or its text, in the
    order of the calls, and is counted as requested; the sink of the
    main thread is not touched, nothing is counted as processed and
    nothing is reported. *)
Theorem offloaded_calls_are_forwarded_in_order :
  forall (S : Type)
         (doLog : Transport.Log -> Transport.Core -> S
                  -> Completion unit * Transport.Core * S)
         (postMessage : Transport.WireMessage -> Completion unit)
         (calls : list Transport.Call) (c : Transport.Core) (s : S)
         (sent : list Transport.WireMessage),
    Transport.worker c = Some sent ->
    Transport.isClosing c = false -> Transport.isClosed c = false ->
    (forall call, In call calls -> postMessage (wire call) = Returns tt) ->
    let '(c', s') := performAll doLog postMessage calls c s in
    Transport.worker c' = Some (sent ++ map wire calls) /\
    s' = s /\
    Transport.logRequests c' = Transport.logRequests c + Z.of_nat (List.length calls) /\
    Transport.logProcessed c' = Transport.logProcessed c /\
    Transport.reported c' = Transport.reported c.
Proof.
  intros S doLog postMessage calls.
  induction calls as [|call calls IH]; intros c s sent Hw Hclosing Hclosed Hpost.
  - cbn. rewrite app_nil_r. repeat split; auto. lia.
  - cbn [performAll].
    rewrite (perform_offloaded doLog postMessage call c s sent Hw Hclosing Hclosed)
      by (apply Hpost; now left).
    specialize (IH (Transport.withWorker (Some (sent ++ [wire call]))
                      (Transport.withRequests (Transport.logRequests c + 1) c))
                   s (sent ++ [wire call]) eq_refl Hclosing Hclosed
                   (fun call' Hin => Hpost call' (or_intror Hin))).
    destruct (performAll doLog postMessage calls _ s) as [c' s'].
    destruct IH as (H1 & H2 & H3 & H4 & H5).
    cbn [map]. rewrite H1, <- app_assoc. cbn in *.
    repeat split; auto. lia.
Qed.

Lemma offloaded_calls_are_forwarded_in_order_witness :
  let '(c', s') := performAll Transport.acceptAll Transport.postOk
                     [Transport.CallLog 1%nat; Transport.CallRaw Transport.sampleRaw;
                      Transport.CallLog 2%nat] offloaded tt in
  Transport.worker c'
  = Some [Transport.WireLog 1%nat; Transport.WireRaw "{}"; Transport.WireLog 2%nat] /\
  Transport.logRequests c' = 3 /\ Transport.logProcessed c' = 0.
Proof.
  pose proof (offloaded_calls_are_forwarded_in_order unit Transport.acceptAll
                Transport.postOk
                [Transport.CallLog 1%nat; Transport.CallRaw Transport.sampleRaw;
                 Transport.CallLog 2%nat] offloaded tt [] eq_refl eq_refl eq_refl
                (fun _ _ => eq_refl)) as H.
  destruct (performAll _ _ _ _ _) as [c' s'].
  destruct H as (H1 & _ & H3 & H4 & _).
  split; [exact H1|]. split; [exact H3|exact H4].
Defined.

End WorkerLinkTheory.

(* ------------------------------------------------------------------ *)
(** * The HTTP transport: what [flush] and [sendBatch] do with a batch *)
Module HttpSendTheory.
Import Transport HttpSink HttpSend.

Lemma fullButLast_nonempty {A : Type} size (batches : list (list A)) :
  (1 <= size)%nat -> fullButLast size batches ->
  Forall (fun b => (1 <= List.length b <= size)%nat) batches.
Proof.
  intros Hs. induction batches as [|b rest IH]; [constructor|].
  cbn [fullButLast]. destruct rest as [|b' rest'].
  - intros H. constructor; [exact H|constructor].
  - intros [Hb Hrest]. constructor; [lia|]. apply IH. exact Hrest.
Qed.

Lemma flushLoop_batches :
  forall fuel c s c' s',
    (1 <= batchSize s)%nat ->
    (List.length (buffer s) <= fuel)%nat ->
    flushLoop fuel c s = (c', s') ->
    buffer s' = [] /\
    logProcessed c' = logProcessed c /\
    exists batches,
      jobs s' = jobs s ++ combine (seq (nextJob s) (List.length batches)) batches /\
      List.concat batches = buffer s /\
      fullButLast (batchSize s) batches.
Proof.
  induction fuel as [|fuel IH]; intros c s c' s' Hs Hfuel; cbn [flushLoop].
  - intros [= <- <-]. destruct (buffer s) as [|x xs] eqn:Hb; [|cbn in Hfuel; lia].
    split; [reflexivity|]. split; [reflexivity|]. exists []. cbn.
    now rewrite app_nil_r.
  - destruct (buffer s) as [|x xs] eqn:Hb.
    + intros [= <- <-]. rewrite Hb. split; [reflexivity|].
      split; [reflexivity|]. exists []. cbn. now rewrite app_nil_r.
    + destruct (JobQueue.enqueue (nextJob s) (queue c)) as [q started] eqn:E.
      intros Hloop.
      pose proof (firstn_skipn (batchSize s) (x :: xs)) as Hsplit.
      pose proof (length_firstn (batchSize s) (x :: xs)) as Hfirst.
      pose proof (length_skipn (batchSize s) (x :: xs)) as Hskip.
      cbn [List.length] in Hfirst, Hskip, Hfuel.
      apply IH in Hloop; cbn [batchSize buffer jobs nextJob] in *;
        [|exact Hs|lia].
      destruct Hloop as (Hempty & Hp & batches & Hjobs & Hcat & Hfull).
      split; [exact Hempty|]. split; [exact Hp|].
      exists (firstn (batchSize s) (x :: xs) :: batches).
      split; [|split].
      * rewrite Hjobs, <- app_assoc. reflexivity.
      * cbn [List.concat]. now rewrite Hcat.
      * cbn [fullButLast]. destruct batches as [|b rest].
        -- lia.
        -- split; [|exact Hfull].
           pose proof (fullButLast_nonempty _ _ Hs Hfull) as Hne.
           inversion Hne as [|? ? Hb1 _]; subst.
           assert (Hlen : (1 <= List.length (skipn (batchSize s) (x :: xs)))%nat).
           { rewrite <- Hcat. cbn [List.concat]. rewrite length_app. lia. }
           lia.
Qed.

(** [flush] empties the buffer into send jobs without losing, repeating
    or reordering a record: the batches of the new jobs, put end to end,
    are the buffer; every batch holds [batchSize] records, the last one
    possibly fewer; nothing is counted as processed yet. *)
Theorem http_flush_batches_the_buffer :
  forall (c : Core) (s : State) (c' : Core) (s' : State),
    (1 <= batchSize s)%nat ->
    flush c s = (c', s') ->
    buffer s' = [] /\
    logProcessed c' = logProcessed c /\
    exists batches,
      jobs s' = jobs s ++ combine (seq (nextJob s) (List.length batches)) batches /\
      List.concat batches = buffer s /\
      fullButLast (batchSize s) batches.
Proof.
  intros c s c' s' Hs Hf. unfold flush in Hf.
  now apply (flushLoop_batches _ c s c' s' Hs (Nat.le_refl _)).
Qed.

Lemma http_flush_batches_the_buffer_witness :
  exists c' s',
    flush (newCore (Some 1) quiet) threeBuffered = (c', s') /\
    buffer s' = [] /\
    exists batches,
      jobs s' = combine (seq 0 (List.length batches)) batches /\
      List.concat batches = [1; 2; 3]%nat /\
      fullButLast 2 batches.
Proof.
  destruct (flush (newCore (Some 1) quiet) threeBuffered) as [c' s'] eqn:E.
  exists c', s'. split; [reflexivity|].
  assert (Hs : (1 <= batchSize threeBuffered)%nat) by (cbn; lia).
  destruct (http_flush_batches_the_buffer _ threeBuffered _ _ Hs E)
    as (Hb & _ & batches & Hj & Hc & Hf).
  split; [exact Hb|]. exists batches. repeat split; assumption.
Defined.

Lemma reports_of_errs errs :
  forall n first calls,
    map snd (RetryTrace.reportsFrom errs first calls n) = map errs (seq calls n).
Proof.
  induction n as [|n IH]; intros first calls; [reflexivity|].
  cbn [RetryTrace.reportsFrom map seq snd]. now rewrite IH.
Qed.

(** A response whose status is not worth a retry ends the sending of
    the batch: after [n] failures that are retried (no status, 5xx, 408
    or 429) a failure with any other status is the last request, whatever
    budget remains.  Every failed request has been reported, and the
    rejection of [withRetry] is reported once more. *)
Theorem non_retryable_status_ends_sending :
  forall (r : Retry.RetryOption) (attempts : nat -> Completion unit)
         (errs : nat -> Thrown) (n : nat),
    (forall k, (k < n)%nat ->
               attempts k = Throws (errs k) /\
               isAbortError (errs k) = false /\
               isRetryableHttpError (errs k) = true) ->
    Z.of_nat n < Retry.effectiveMaxRetry r ->
    attempts n = Throws (errs n) ->
    isAbortError (errs n) = false ->
    isRetryableHttpError (errs n) = false ->
    sendBatch r attempts
    = Some (S n, map errs (seq 0 (S n)) ++ [attemptsError (Z.of_nat n + 1)]).
Proof.
  intros r attempts errs n Hpre HM Hop Hab Hstop.
  unfold sendBatch, Retry.withRetry. cbv zeta.
  replace (S (Z.to_nat (Retry.effectiveMaxRetry r)))
    with (n + S (Z.to_nat (Retry.effectiveMaxRetry r) - n))%nat by lia.
  change 1 with (Z.of_nat 0 + 1) at 1.
  rewrite (RetryTraceTheory.loop_trace attempts (Some onAttemptFailed) None
             (Retry.effectiveMaxRetry r) errs n).
  - cbn [Nat.add Retry.attemptLoop app RetryTrace.seen Z.of_nat Z.add].
    destruct (Z.leb_spec (Z.of_nat n + 1) (Retry.effectiveMaxRetry r)); [|lia].
    rewrite Hop, Hab. cbn [Retry.codeBreaks Retry.callOnError].
    unfold onAttemptFailed. rewrite Hstop.
    cbn [Retry.noteReport Retry.giveUp Retry.invocations Retry.reported
         Retry.settled].
    rewrite Z.min_l by lia. f_equal. f_equal.
    rewrite map_app, reports_of_errs. cbn [map snd].
    rewrite seq_S. now rewrite map_app.
  - cbn. lia.
  - intros k _ Hk. destruct (Hpre k ltac:(lia)) as (Hk1 & Hk2 & Hk3).
    split; [exact Hk1|]. unfold Retry.continues.
    rewrite Hk2. cbn [Retry.codeBreaks Retry.callOnError negb andb].
    unfold onAttemptFailed. now rewrite Hk3.
Qed.

Lemma non_retryable_status_ends_sending_witness :
  sendBatch (Retry.withMaxRetry (Num 5) Retry.noOption)
            (fun k => Throws (busyThenRefused k))
  = Some (3%nat, [httpStatus 503; httpStatus 503; httpStatus 400;
                  attemptsError 3]).
Proof.
  apply (non_retryable_status_ends_sending
           (Retry.withMaxRetry (Num 5) Retry.noOption)
           (fun k => Throws (busyThenRefused k)) busyThenRefused 2%nat).
  - intros k Hk. destruct k as [|[|k]]; [repeat split; reflexivity
                                        |repeat split; reflexivity|lia].
  - vm_compute. reflexivity.
  - reflexivity.
  - reflexivity.
  - reflexivity.
Defined.

(** The two transports that keep their books, at work. *)
Lemma console_close_balanced_witness :
  exists m1 m,
    run (ConsoleSink.create true (Some 1) quiet) consoleRun = Some m1 /\
    run m1 (@CloseCall ConsoleSink.sink (Returns ""%string) :: consoleClosing)
    = Some m /\
    phase m = Completed /\
    logRequests (core m) = 2 /\
    logProcessed (core m) = logRequests (core m) /\
    alarm m = false /\ JobQueue.length (queue (core m)) = 0.
Proof.
  eexists. eexists.
  split; [vm_compute; reflexivity|].
  split; [vm_compute; reflexivity|].
  split; [reflexivity|]. split; [reflexivity|].
  eapply (ConsoleTheory.console_close_balanced true (Some 1) quiet consoleRun
            (Returns ""%string) consoleClosing).
  - vm_compute. reflexivity.
  - reflexivity.
  - reflexivity.
  - vm_compute. reflexivity.
  - reflexivity.
Defined.

Lemma http_close_balanced_witness :
  exists m1 m,
    run (create 2 Retry.noOption (Some 1) quiet) httpRun = Some m1 /\
    run m1 (@CloseCall sink tt :: httpClosing) = Some m /\
    phase m = Completed /\
    logRequests (core m) = 3 /\
    logProcessed (core m) = logRequests (core m) /\
    alarm m = false /\ JobQueue.length (queue (core m)) = 0.
Proof.
  eexists. eexists.
  split; [vm_compute; reflexivity|].
  split; [vm_compute; reflexivity|].
  split; [reflexivity|]. split; [reflexivity|].
  eapply (HttpTheory.http_close_balanced 2 Retry.noOption (Some 1) quiet
            ltac:(lia) httpRun tt httpClosing).
  - vm_compute. reflexivity.
  - reflexivity.
  - reflexivity.
  - vm_compute. reflexivity.
  - reflexivity.
Defined.

End HttpSendTheory.

(* ------------------------------------------------------------------ *)
(** * A file transport without a rotation policy never rotates *)
Module FilePlainTheory.
Import Transport FileSink FilePlain.

Lemma wantsRotation_plain env body s :
  rotator s = None -> wantsRotation env body s = (false, s).
Proof.
  intros Hr. unfold wantsRotation. rewrite Hr.
  now destruct (currentSize s =? 0).
Qed.

Lemma sendBody_plain body n c s c' s' :
  sendBody body n c s = (c', s') -> plain s -> plain s'.
Proof.
  unfold sendBody. destruct (JobQueue.enqueue _ _) as [q started].
  intros [= <- <-]. auto.
Qed.

Lemma flushLoop_plain env :
  forall fuel c s r c' s',
    flushLoop env fuel c s = (r, c', s') -> plain s -> plain s'.
Proof.
  induction fuel as [|fuel IH]; intros c s r c' s'; cbn [flushLoop].
  - intros [= <- <- <-]. auto.
  - destruct (buffer s) as [|l ls] eqn:Eb; [intros [= <- <- <-]; auto|].
    intros H Hp.
    assert (Hp1 : plain (setBuffer (skipn (batchSize s) (l :: ls)) s))
      by exact Hp.
    destruct (format env _) as [body|e].
    + rewrite (wantsRotation_plain env body _ (proj1 Hp1)) in H.
      destruct (sendBody body _ c _) as [c3 s3] eqn:Es.
      apply (IH _ _ _ _ _ H). exact (sendBody_plain _ _ _ _ _ _ Es Hp1).
    + destruct (handleError _ c) as [[[]|e'] c1].
      * exact (IH _ _ _ _ _ H Hp1).
      * injection H as <- <- <-. exact Hp1.
Qed.

Lemma flush_plain env c s r c' s' :
  flush env c s = (r, c', s') -> plain s -> plain s'.
Proof.
  unfold flush. intros H Hp.
  destruct (isFlushing s); [injection H as <- <- <-; exact Hp|].
  destruct (isRotating s); [injection H as <- <- <-; exact Hp|].
  destruct (isOpen (setFlushing true s)).
  - destruct (flushLoop env _ c _) as [[r1 c1] s1] eqn:E.
    injection H as <- <- <-.
    exact (flushLoop_plain env _ _ _ _ _ _ E Hp).
  - destruct (ensureDir env) as [[]|e].
    + destruct (flushLoop env _ c _) as [[r1 c1] s1] eqn:E.
      injection H as <- <- <-.
      exact (flushLoop_plain env _ _ _ _ _ _ E Hp).
    + injection H as <- <- <-. exact Hp.
Qed.

Lemma doLog_plain env l c s r c' s' :
  doLog env l c s = (r, c', s') -> plain s -> plain s'.
Proof.
  unfold doLog. intros H Hp.
  destruct (_ <=? _)%nat.
  - exact (flush_plain env _ _ _ _ _ H Hp).
  - injection H as <- <- <-. exact Hp.
Qed.

Lemma log_plain env post l c s r c' s' :
  log (doLog env) post l c s = (r, c', s') -> plain s -> plain s'.
Proof.
  unfold log. intros H Hp.
  assert (Ht : forall r2 c2 s2, tryLog (doLog env) post l c s = (r2, c2, s2) ->
                                plain s2).
  { unfold tryLog. intros r2 c2 s2.
    destruct (checkTransportState _); [|intros [= <- <- <-]; exact Hp].
    destruct (worker _).
    - destruct (Transport.post _ _ _ _). intros [= <- <- <-]. exact Hp.
    - intros Hd. exact (doLog_plain env _ _ _ _ _ _ Hd Hp). }
  destruct (tryLog (doLog env) post l c s) as [[[[]|e] c2] s2] eqn:Et;
    specialize (Ht _ _ _ eq_refl).
  - injection H as <- <- <-. exact Ht.
  - destruct (handleError _ _). injection H as <- <- <-. exact Ht.
Qed.

Lemma poll_plain env c s snapshot a :
  plain s -> plain (Transport.sink (poll sink env c s snapshot a)).
Proof.
  intros Hp. unfold poll. cbn [beforeDrain sink].
  destruct (flush env c s) as [[[[]|e] c1] s1] eqn:Ef;
    apply flush_plain in Ef; auto.
  destruct (JobQueue.drain _ _). exact Ef.
Qed.

Lemma step_plain (m m' : Machine sink) e :
  step m e = Some m' -> plain (Transport.sink m) -> plain (Transport.sink m').
Proof.
  destruct e as [env l|env|d|env| |env|r]; cbn [step]; intros H Hp.
  - destruct (log _ _ l _ _) as [[r c] s] eqn:El.
    injection H as <-. exact (log_plain _ _ _ _ _ _ _ _ El Hp).
  - cbn [Transport.onTimer sink] in H. unfold onTimer in H.
    destruct (timerOn (Transport.sink m)); [|discriminate].
    destruct (flush env _ _) as [[r c] s] eqn:Ef.
    injection H as <-. exact (flush_plain env _ _ _ _ _ Ef Hp).
  - cbn [Transport.onDone sink] in H.
    destruct d as [id attempts|env errors result]; cbn [onDone] in H.
    + destruct (existsb _ _); [|discriminate].
      destruct (takeJob _ _) as [[count rest]|]; [|discriminate].
      destruct (JobQueue.onJobSettled _) as [[q started] released].
      destruct Hp as (H1 & H2 & H3).
      cbn [setJobs held] in H. rewrite H3 in H.
      destruct (existsb _ released); injection H as <-; cbn; repeat split; auto.
    + destruct Hp as (_ & _ & H3). rewrite H3 in H. discriminate.
  - destruct (phase m); try discriminate.
    injection H as <-. now apply poll_plain.
  - destruct (phase m) as [|snapshot [|]| | | |]; try discriminate.
    destruct (_ <=? _); injection H as <-; exact Hp.
  - destruct (phase m); try discriminate.
    injection H as <-. now apply poll_plain.
  - destruct (phase m); try discriminate.
    destruct r as [[]|e]; [|injection H as <-; exact Hp].
    cbn [closeEnd Transport.closeEnd sink] in H.
    destruct (assertStats _) as [[[[]|e] c'] a]; injection H as <-; exact Hp.
Qed.

(** A file transport created without a rotation policy never starts a
    rotation, however large the file grows and whatever the clock
    shows: over any run it has no rotator, its rotation flag is down, it
    holds no batch back, and no rotation can settle on it. *)
Theorem file_without_policy_never_rotates :
  forall (size : nat) (r : Retry.RetryOption) (concurrency : option Z)
         (callback : TransportError -> Completion unit)
         (es : list (Event sink)) (m : Machine sink),
    run (create size r concurrency callback) es = Some m ->
    rotator (Transport.sink m) = None /\
    isRotating (Transport.sink m) = false /\
    held (Transport.sink m) = None /\
    forall env errors result,
      step m (@Settled sink (RotationSettled env errors result)) = None.
Proof.
  intros size r concurrency callback es m Hrun.
  assert (Hp : plain (Transport.sink m)).
  { assert (H0 : plain (Transport.sink (create size r concurrency callback)))
      by (repeat split).
    revert H0 Hrun. generalize (create size r concurrency callback).
    induction es as [|e es IH]; intros m0 H0; cbn [run].
    - intros [= <-]. exact H0.
    - destruct (step m0 e) as [m1|] eqn:Es; [|discriminate].
      intros Hrun. apply (IH m1); [|exact Hrun].
      exact (step_plain m0 m1 e Es H0). }
  destruct Hp as (H1 & H2 & H3). repeat split; auto.
  intros env errors result. cbn. now rewrite H3.
Qed.

Lemma file_without_policy_never_rotates_witness :
  exists m,
    run (create 1 Retry.noOption (Some 4) quiet) plainRun = Some m /\
    isRotating (Transport.sink m) = false /\
    held (Transport.sink m) = None /\
    logRequests (core m) = 3.
Proof.
  destruct (run (create 1 Retry.noOption (Some 4) quiet) plainRun) as [m|] eqn:E;
    [|vm_compute in E; discriminate].
  exists m. split; [reflexivity|].
  destruct (file_without_policy_never_rotates 1 Retry.noOption (Some 4) quiet
              plainRun m E) as (_ & H2 & H3 & _).
  split; [exact H2|]. split; [exact H3|].
  vm_compute in E. injection E as <-. reflexivity.
Defined.

End FilePlainTheory.

(* ------------------------------------------------------------------ *)
(** * Level names and numbers *)
Module LevelsTheory.
Import Levels.

Lemma mapGet_set_same n name m : mapGet n (mapSet n name m) = Some name.
Proof.
  induction m as [|[k old] m IH]; cbn.
  - now rewrite Z.eqb_refl.
  - destruct (k =? n) eqn:E; cbn; rewrite E; auto.
Qed.

Lemma mapGet_set_other n n' name m :
  n <> n' -> mapGet n (mapSet n' name m) = mapGet n m.
Proof.
  intros Hne. induction m as [|[k old] m IH]; cbn.
  - destruct (Z.eqb_spec n' n); [congruence|reflexivity].
  - destruct (Z.eqb_spec k n'); cbn.
    + subst. destruct (Z.eqb_spec n' n); [congruence|reflexivity].
    + destruct (k =? n); [reflexivity|exact IH].
Qed.

(** What the map holds for a number after the names of [levels] have
    gone in: a name that [levels] gives this number, or what it held. *)
Lemma levelNames_origin n :
  forall levels m name,
    mapGet n (fold_left (fun m entry => mapSet (snd entry) (fst entry) m)
                        levels m) = Some name ->
    In (name, n) levels \/ mapGet n m = Some name.
Proof.
  induction levels as [|[k v] levels IH]; intros m name; cbn [fold_left fst snd].
  - auto.
  - intros H. apply IH in H as [H|H]; [left; now right|].
    destruct (Z.eq_dec n v) as [->|Hne].
    + rewrite mapGet_set_same in H. injection H as ->. left. now left.
    + rewrite mapGet_set_other in H by exact Hne. now right.
Qed.

Lemma levelNames_untouched n :
  forall levels m,
    ~ In n (map snd levels) ->
    mapGet n (fold_left (fun m entry => mapSet (snd entry) (fst entry) m)
                        levels m) = mapGet n m.
Proof.
  induction levels as [|[k v] levels IH]; intros m Hn; cbn [fold_left fst snd];
    [reflexivity|].
  cbn in Hn. rewrite IH by tauto. apply mapGet_set_other. intros ->. tauto.
Qed.

Lemma numberOf_In name n levels :
  NoDup (map fst levels) -> In (name, n) levels -> numberOf name levels = Some n.
Proof.
  induction levels as [|[k v] levels IH]; cbn; [tauto|].
  intros Hnd [H|H]; inversion Hnd as [|? ? Hnin Hnd']; subst.
  - injection H as -> ->. now rewrite String.eqb_refl.
  - destruct (String.eqb_spec k name) as [->|_]; [|now apply IH].
    exfalso. apply Hnin. apply in_map_iff. now exists (name, n).
Qed.

(** The name that [getLevelName] returns for a number is a name of that
    number: [getLevelNumber] maps it back. *)
Theorem level_name_maps_back_to_its_number :
  forall (levels : LevelMap) (n : Z) (name : string),
    NoDup (map fst levels) ->
    getLevelName levels n = Returns name ->
    getLevelNumber levels name = Returns n.
Proof.
  intros levels n name Hnd. unfold getLevelName, getLevelNumber, levelNames.
  destruct (mapGet n _) as [found|] eqn:E; [|discriminate].
  destruct (String.eqb found ""); [discriminate|]. intros [= ->].
  apply levelNames_origin in E as [E|E]; [|discriminate].
  now rewrite (numberOf_In name n levels Hnd E).
Qed.

Lemma level_name_maps_back_to_its_number_witness :
  getLevelNumber standard "WARN" = Returns 40.
Proof.
  apply (level_name_maps_back_to_its_number standard 40 "WARN").
  - repeat constructor; cbn; intuition discriminate.
  - reflexivity.
Defined.

(** When several names share a number, the number maps to the one that
    comes last in the levels: [getLevelName] returns that name for the
    number of each of them, so a name that has a later alias does not
    come back from its own number. *)
Theorem level_number_maps_to_its_last_name :
  forall (before after : LevelMap) (last : string) (n : Z),
    let levels := before ++ (last, n) :: after in
    NoDup (map fst levels) ->
    ~ In n (map snd after) ->
    last <> ""%string ->
    getLevelName levels n = Returns last /\
    hasLevel levels n = true /\
    forall name, In (name, n) before ->
                 getLevelNumber levels name = Returns n /\ name <> last.
Proof.
  intros before after last n levels Hnd Hafter Hlast.
  assert (Hget : mapGet n (levelNames levels) = Some last).
  { unfold levelNames, levels. rewrite fold_left_app. cbn [fold_left fst snd].
    rewrite levelNames_untouched by exact Hafter. apply mapGet_set_same. }
  unfold getLevelName, hasLevel. rewrite Hget.
  destruct (String.eqb_spec last ""); [contradiction|].
  split; [reflexivity|]. split; [reflexivity|].
  intros name Hin. split.
  - unfold getLevelNumber.
    rewrite (numberOf_In name n levels Hnd); [reflexivity|].
    unfold levels. apply in_or_app. now left.
  - intros ->. unfold levels in Hnd. rewrite map_app in Hnd. cbn [map fst] in Hnd.
    apply NoDup_remove_2 in Hnd. apply Hnd. apply in_or_app. left.
    apply in_map_iff. now exists (last, n).
Qed.

Lemma level_number_maps_to_its_last_name_witness :
  getLevelName aliased 40 = Returns "ALERT"%string /\
  getLevelNumber aliased "WARN" = Returns 40.
Proof.
  destruct (level_number_maps_to_its_last_name
              [("INFO", 30); ("WARN", 40)]%string [("ERROR", 50)]%string
              "ALERT" 40) as (H1 & _ & H3).
  - repeat constructor; cbn; intuition discriminate.
  - cbn. intuition discriminate.
  - discriminate.
  - split; [exact H1|]. apply (H3 "WARN"%string). cbn. auto.
Defined.

End LevelsTheory.

(* ------------------------------------------------------------------ *)
(** * LogPot: its transports and its contexts *)
Module LogPotTheory.
Import Merge LogPot.

Lemma includes_In t arr : includes t arr = true <-> In t arr.
Proof.
  unfold includes. rewrite existsb_exists. split.
  - intros (x & Hin & Heq). apply Nat.eqb_eq in Heq. now subst.
  - intros Hin. exists t. split; [exact Hin|apply Nat.eqb_refl].
Qed.

Lemma removeTransport_middle kept t rest :
  ~ In t kept -> removeTransport t (kept ++ t :: rest) = kept ++ rest.
Proof.
  intros Hn. unfold removeTransport.
  assert (Hin : includes t (kept ++ t :: rest) = true).
  { apply includes_In. apply in_or_app. right. now left. }
  rewrite Hin. clear Hin.
  induction kept as [|x kept IH]; cbn.
  - now rewrite Nat.eqb_refl.
  - destruct (Nat.eqb_spec x t) as [->|_]; [exfalso; apply Hn; now left|].
    rewrite IH; [reflexivity|]. intros H. apply Hn. now right.
Qed.

Lemma mapRemoving_beyond :
  forall remaining k arr closed,
    (List.length arr <= k)%nat ->
    mapRemoving remaining k arr closed = (arr, closed).
Proof.
  induction remaining as [|remaining IH]; intros k arr closed Hk; cbn;
    [reflexivity|].
  destruct (nth_error arr k) eqn:E.
  - apply nth_error_None in Hk. congruence.
  - apply IH. lia.
Qed.

Lemma mapRemoving_everyOther :
  forall remaining rest kept closed,
    NoDup (kept ++ rest) ->
    (List.length rest <= remaining)%nat ->
    snd (mapRemoving remaining (List.length kept) (kept ++ rest) closed)
    = closed ++ everyOther rest.
Proof.
  induction remaining as [|remaining IH]; intros rest kept closed Hnd Hlen.
  - destruct rest; [|cbn in Hlen; lia]. cbn. now rewrite app_nil_r.
  - cbn [mapRemoving]. destruct rest as [|x rest].
    + rewrite app_nil_r.
      assert (E : nth_error kept (List.length kept) = None)
        by (apply nth_error_None; lia).
      rewrite E, mapRemoving_beyond by lia. cbn. now rewrite app_nil_r.
    + assert (E : nth_error (kept ++ x :: rest) (List.length kept) = Some x).
      { rewrite nth_error_app2 by lia. now rewrite Nat.sub_diag. }
      rewrite E.
      assert (Hx : ~ In x kept).
      { apply NoDup_remove_2 in Hnd. intros H. apply Hnd. apply in_or_app.
        now left. }
      rewrite (removeTransport_middle kept x rest Hx).
      apply NoDup_remove_1 in Hnd.
      destruct rest as [|y rest].
      * rewrite app_nil_r, mapRemoving_beyond by lia. reflexivity.
      * change (kept ++ y :: rest) with (kept ++ [y] ++ rest).
        rewrite app_assoc.
        replace (S (List.length kept)) with (List.length (kept ++ [y]))
          by (rewrite length_app; cbn; lia).
        rewrite IH.
        -- cbn [everyOther]. now rewrite <- app_assoc.
        -- now rewrite <- app_assoc.
        -- cbn in Hlen. lia.
Qed.

Lemma everyOther_nth {A : Type} :
  forall (n : nat) (l : list A) (i : nat),
    (List.length l <= n)%nat ->
    nth_error (everyOther l) i = nth_error l (2 * i).
Proof.
  induction n as [|n IH]; intros l i Hlen.
  - destruct l; [|cbn in Hlen; lia]. now destruct i.
  - destruct l as [|x [|y l]]; [now destruct i| |].
    + destruct i as [|i]; [reflexivity|].
      replace (2 * S i)%nat with (S (S (2 * i))) by lia.
      cbn [everyOther nth_error]. now destruct i.
    + destruct i as [|i]; [reflexivity|].
      cbn [everyOther nth_error].
      replace (2 * S i)%nat with (S (S (2 * i))) by lia. cbn [nth_error].
      apply IH. cbn in Hlen. lia.
Qed.

(** [clear()] closes every other transport only.  While [map] walks the
    array, each call of [removeTransport] takes the visited transport
    out and moves the following ones down, so the walk skips the one
    that took its place: the transports at the positions 0, 2, 4, ... are
    closed, those at the positions 1, 3, 5, ... are dropped from the
    logger without [close()] being called on them. *)
Theorem clear_closes_every_other_transport :
  forall arr : list TransportRef,
    NoDup arr ->
    clear arr = ([], everyOther arr) /\
    forall i t, nth_error arr (2 * i + 1) = Some t -> ~ In t (snd (clear arr)).
Proof.
  intros arr Hnd.
  assert (Hc : clear arr = ([], everyOther arr)).
  { unfold clear. f_equal.
    apply (mapRemoving_everyOther (List.length arr) arr [] [] Hnd (Nat.le_refl _)). }
  split; [exact Hc|]. rewrite Hc. cbn [snd].
  intros i t Hodd Hin. apply In_nth_error in Hin as [j Hj].
  rewrite (everyOther_nth (List.length arr) arr j (Nat.le_refl _)) in Hj.
  assert (Heq : (2 * i + 1 = 2 * j)%nat).
  { apply (proj1 (NoDup_nth_error arr) Hnd).
    - apply nth_error_Some. congruence.
    - congruence. }
  lia.
Qed.

Lemma clear_closes_every_other_transport_witness :
  clear [11; 12; 13; 14; 15]%nat = ([], [11; 13; 15]%nat) /\
  ~ In 12%nat (snd (clear [11; 12; 13; 14; 15]%nat)).
Proof.
  destruct (clear_closes_every_other_transport [11; 12; 13; 14; 15]%nat)
    as [H1 H2].
  - repeat constructor; cbn; intuition discriminate.
  - split; [exact H1|]. exact (H2 0%nat 12%nat eq_refl).
Defined.

(** [merge(meta, context)], key by key. *)
Lemma get_merge_two (a b : Fields) key :
  NoDup (keys a) -> NoDup (keys b) ->
  get key (mergeInternal [Plain a; Plain b])
  = match get key b with
    | None => get key a
    | Some v => Some (absorb (get key a) v)
    end.
Proof.
  intros Ha Hb. unfold mergeInternal. cbn [fold_left].
  rewrite (MergeTheory.get_mergeInto key b Hb).
  now rewrite (MergeTheory.mergeInto_fresh a Ha []) by (intros k _ []).
Qed.

Lemma broadcastMeta_keys :
  forall contexts meta,
    NoDup (keys meta) ->
    Forall distinctKeys contexts ->
    exists result,
      broadcastMeta contexts (Plain meta) = Returns (Plain result) /\
      forall key, get key result = overridden key contexts (get key meta).
Proof.
  induction contexts as [|ctx contexts IH]; intros meta Hnd Hall.
  - exists meta. split; reflexivity.
  - inversion Hall as [|? ? Hctx Hall']; subst.
    cbn [broadcastMeta]. destruct ctx as [c|]; cbn [inContext falsy merge].
    + cbn in Hctx.
      destruct (IH (mergeInternal [Plain meta; Plain c])
                   (MergeTheory.NoDup_mergeInternal _) Hall')
        as (result & Hres & Hkeys).
      exists result. split; [exact Hres|]. intros key.
      rewrite Hkeys, (get_merge_two meta c key Hnd Hctx).
      unfold overridden. cbn [fold_left].
      now destruct (get key c).
    + destruct (IH meta Hnd Hall') as (result & Hres & Hkeys).
      exists result. split; [exact Hres|exact Hkeys].
Qed.

(** The outermost context that has a key, looked for from a value
    already found. *)
Lemma overridden_outermost (key : string) :
  forall contexts found start,
    (forall v, found = Some v -> start = Some v \/ exists p s, v = Plain s /\ start = Some (Plain p)) ->
    match fold_left (fun found ctx =>
                       match ctx with
                       | Some c => match get key c with
                                   | Some v => Some v
                                   | None => found
                                   end
                       | None => found
                       end) contexts found with
    | None => found = None /\ overridden key contexts start = start
    | Some (Leaf a) => overridden key contexts start = Some (Leaf a)
    | Some (Plain _) => True
    end.
Proof.
  induction contexts as [|ctx contexts IH]; intros found start Hf.
  - cbn. destruct found as [[s|a]|]; [exact I| |split; reflexivity].
    destruct (Hf _ eq_refl) as [H|(p & s & H & _)]; [exact H|discriminate].
  - cbn [fold_left]. unfold overridden. cbn [fold_left].
    fold (overridden key contexts).
    destruct ctx as [c|]; [destruct (get key c) as [v|] eqn:Hv|].
    + specialize (IH (Some v) (Some (absorb start v))).
      match type of IH with ?P -> _ => assert (Hp : P) end.
      { intros v' [= <-].
        destruct v as [s|a]; [|left; reflexivity].
        destruct start as [[p|a]|];
          [right; do 2 eexists; split; reflexivity|left; reflexivity..]. }
      specialize (IH Hp).
      destruct (fold_left _ contexts (Some v)) as [[s|a]|];
        [exact I|exact IH|destruct IH; discriminate].
    + exact (IH found start Hf).
    + exact (IH found start Hf).
Qed.

(** The final meta of a log that goes up through the contexts of the
    loggers on its way to the root is decided key by key: each context
    that has the key stores what [mergeInternal] makes of the value so
    far and its own.  A value that is no plain object replaces what was
    there, so that of the outermost context that has the key wins; a
    plain object replaces a value that is no plain object and is merged
    recursively into one that is; a key that no context has keeps the
    value of the call. *)
Theorem contexts_override_meta_key_by_key :
  forall (meta : Fields) (contexts : list (option Fields)),
    NoDup (keys meta) ->
    Forall distinctKeys contexts ->
    exists result,
      broadcastMeta contexts (Plain meta) = Returns (Plain result) /\
      forall key,
        get key result = overridden key contexts (get key meta) /\
        (outermost key contexts = None -> get key result = get key meta) /\
        (forall a, outermost key contexts = Some (Leaf a) ->
                   get key result = Some (Leaf a)) /\
        (forall c s, contexts = [Some c] -> get key c = Some (Plain s) ->
           get key result
           = Some (match get key meta with
                   | Some (Plain p) => Plain (mergeInto (copy p) (Plain s))
                   | _ => Plain s
                   end)).
Proof.
  intros meta contexts Hnd Hall.
  destruct (broadcastMeta_keys contexts meta Hnd Hall) as (result & Hres & Hkeys).
  exists result. split; [exact Hres|]. intros key.
  pose proof (overridden_outermost key contexts None (get key meta)) as Ho.
  fold (outermost key contexts) in Ho.
  match type of Ho with ?P -> _ => assert (Hp : P) by (intros v [=]) end.
  specialize (Ho Hp).
  split; [apply Hkeys|]. split; [|split].
  - intros Hnone. rewrite Hnone in Ho. rewrite Hkeys. apply Ho.
  - intros a Ha. rewrite Ha in Ho. rewrite Hkeys. exact Ho.
  - intros c s -> Hs. rewrite Hkeys. unfold overridden. cbn [fold_left].
    rewrite Hs. f_equal.
    destruct (get key meta) as [[p|a]|]; [|reflexivity..].
    apply MergeTheory.absorb_plain.
Qed.

Lemma contexts_override_meta_key_by_key_witness :
  exists result,
    broadcastMeta loggerChain (Plain requestMeta) = Returns (Plain result) /\
    get "service" result = Some (Leaf (TextA "api")) /\
    get "category" result = Some (Leaf (TextA "root")) /\
    get "user" result = Some (Leaf (TextA "ada")) /\
    get "tags" result
    = Some (Plain [("x"%string, Leaf (NumberA 1));
                   ("shared"%string, Leaf (TextA "root"));
                   ("y"%string, Leaf (NumberA 2))]).
Proof.
  destruct (contexts_override_meta_key_by_key requestMeta loggerChain)
    as (result & Hres & Hkeys).
  - repeat constructor; cbn; intuition discriminate.
  - repeat constructor; cbn; intuition discriminate.
  - exists result. split; [exact Hres|].
    split; [exact (proj1 (proj2 (proj2 (Hkeys "service"%string))) _ eq_refl)|].
    split; [exact (proj1 (proj2 (proj2 (Hkeys "category"%string))) _ eq_refl)|].
    split; [exact (proj1 (proj2 (Hkeys "user"%string)) eq_refl)|].
    exact (proj1 (Hkeys "tags"%string)).
Defined.

(** Meta that is not a plain object (an array, an instance of a class)
    passes through loggers that have no context, and makes the first
    logger with a context on the way up throw, out of the logging
    call. *)
Theorem meta_that_is_no_object_breaks_on_a_context :
  forall (a : Atom) (free : nat) (ctx : Fields) (parents : list (option Fields)),
    falsy (Leaf a) = false ->
    broadcastMeta (repeat None free) (Leaf a) = Returns (Leaf a) /\
    broadcastMeta (repeat None free ++ Some ctx :: parents) (Leaf a)
    = Throws (plainError ("merge is not possible with " ++ shown a)).
Proof.
  intros a free ctx parents Hf.
  induction free as [|free [IH1 IH2]]; cbn [repeat app broadcastMeta inContext].
  - rewrite Hf. split; reflexivity.
  - split; assumption.
Qed.

Lemma meta_that_is_no_object_breaks_on_a_context_witness :
  broadcastMeta [None; Some requestMeta] (Leaf (ObjectA "1,2"))
  = Throws (plainError "merge is not possible with 1,2").
Proof.
  exact (proj2 (meta_that_is_no_object_breaks_on_a_context
                  (ObjectA "1,2") 1 requestMeta [] eq_refl)).
Defined.

End LogPotTheory.

(* ------------------------------------------------------------------ *)
(** * The file transport keeps its books while the directory can be
      created and the formatter returns *)
Module FileSteadyTheory.
Import Transport FileSink FileSteady.

#[local] Arguments jobTotal : simpl never.

Lemma jobTotal_app l l' : jobTotal (l ++ l') = (jobTotal l + jobTotal l')%nat.
Proof. unfold jobTotal. now rewrite map_app, list_sum_app. Qed.

Lemma jobTotal_cons id (n : nat) rest :
  jobTotal ((id, n) :: rest) = (n + jobTotal rest)%nat.
Proof. reflexivity. Qed.

Lemma jobTotal_perm l l' : Permutation l l' -> jobTotal l = jobTotal l'.
Proof. induction 1; unfold jobTotal in *; cbn; auto; try lia. Qed.

Lemma jobTotal_ge_length l :
  Forall (fun jb : nat * nat => (1 <= snd jb)%nat) l ->
  (List.length l <= jobTotal l)%nat.
Proof.
  unfold jobTotal, list_sum. induction 1 as [|jb l Hjb _ IH]; cbn in *; lia.
Qed.

Lemma takeCount_perm id :
  forall l n rest, takeJob id l = Some (n, rest) ->
                   Permutation l ((id, n) :: rest).
Proof.
  induction l as [|[k n0] l IH]; intros n rest; cbn; [discriminate|].
  destruct (Nat.eqb_spec k id) as [->|Hne].
  - intros [= <- <-]. reflexivity.
  - destruct (takeJob id l) as [[n' rest']|]; [|discriminate].
    intros [= <- <-]. rewrite perm_swap. constructor. now apply IH.
Qed.

Lemma noteAll_same about errs :
  forall c, same c (noteAll about errs c) /\
            logProcessed (noteAll about errs c) = logProcessed c /\
            queue (noteAll about errs c) = queue c.
Proof.
  unfold noteAll. induction errs as [|e errs IH]; intros c; cbn.
  - unfold same. auto 10.
  - destruct (IH (note (mkTransportError e about) c))
      as ((H1 & H2 & H3 & H4 & H5) & Hp & Hq).
    unfold same. cbn in *. repeat split; congruence.
Qed.

Lemma kept_refl c s : good accounting (queue c) s -> kept c s c s.
Proof. intros Hg. unfold kept, same. auto 10. Qed.

(** [sendBody] puts the entries it is given into a job. *)
Lemma sendBody_kept body n c s c' s' :
  (1 <= n)%nat ->
  (1 <= batchSize s)%nat ->
  Permutation (map fst (jobs s)) (JobQueue.queue (queue c) ++ running s) ->
  Forall (fun jb => (1 <= snd jb)%nat) (jobs s) ->
  sendBody body n c s = (c', s') ->
  (1 <= batchSize s')%nat /\
  Permutation (map fst (jobs s')) (JobQueue.queue (queue c') ++ running s') /\
  Forall (fun jb => (1 <= snd jb)%nat) (jobs s') /\
  same c c' /\ logProcessed c' = logProcessed c /\
  jobTotal (jobs s') = (jobTotal (jobs s) + n)%nat /\
  buffer s' = buffer s /\ held s' = held s /\ isRotating s' = isRotating s /\
  rotator s' = rotator s /\ FileSink.isFlushing s' = FileSink.isFlushing s.
Proof.
  intros Hn Hbs Hperm Hall. unfold sendBody.
  destruct (JobQueue.enqueue _ _) as [q started] eqn:E.
  intros [= <- <-]. cbn.
  split; [exact Hbs|]. split.
  - rewrite map_app. cbn.
    apply HttpTheory.perm_enqueue with (Q := JobQueue.queue (queue c)); auto.
    now apply JobQueueTheory.enqueue_split.
  - split.
    + apply Forall_app. split; [exact Hall|]. constructor; [exact Hn|constructor].
    + unfold same. cbn. rewrite jobTotal_app, jobTotal_cons.
      unfold jobTotal at 2. cbn. repeat split; auto; lia.
Qed.

Lemma wantsRotation_fields env body s yes s' :
  wantsRotation env body s = (yes, s') ->
  batchSize s' = batchSize s /\ buffer s' = buffer s /\ jobs s' = jobs s /\
  running s' = running s /\ held s' = held s /\
  FileSink.isRotating s' = FileSink.isRotating s.
Proof.
  unfold wantsRotation. destruct (currentSize s =? 0); [intros [= <- <-]; auto 10|].
  destruct (rotator s) as [r|]; [|intros [= <- <-]; auto 10].
  destruct (Rotator.shouldRotate r (now env) _) as [y r'].
  intros [= <- <-]. cbn. auto 10.
Qed.

Lemma flushLoop_kept g :
  forall fuel c s r c' s',
    good accounting (queue c) s -> held s = None ->
    flushLoop (lift g) fuel c s = (r, c', s') ->
    r = Returns tt /\ kept c s c' s'.
Proof.
  induction fuel as [|fuel IH]; intros c s r c' s' Hg Hheld; cbn [flushLoop].
  - intros [= <- <- <-]. split; [reflexivity|now apply kept_refl].
  - destruct (buffer s) as [|l ls] eqn:Eb.
    + intros [= <- <- <-]. split; [reflexivity|now apply kept_refl].
    + cbn [format lift].
      destruct Hg as (Hbs & Hperm & Hall & _).
      pose proof (firstn_skipn (batchSize s) (l :: ls)) as Hsplit.
      apply (f_equal (@List.length Log)) in Hsplit.
      rewrite length_app in Hsplit.
      assert (Hfirst : (1 <= List.length (firstn (batchSize s) (l :: ls)))%nat).
      { rewrite length_firstn. cbn [List.length]. lia. }
      destruct (wantsRotation _ _ _) as [rotate s2] eqn:Ew.
      apply wantsRotation_fields in Ew as (W1 & W2 & W3 & W4 & W5 & W6).
      cbn [setBuffer batchSize buffer jobs running held FileSink.isRotating] in *.
      destruct rotate.
      * destruct (JobQueue.drain _ _) as [q now0] eqn:Ed.
        intros [= <- <- <-]. split; [reflexivity|].
        assert (Hq : JobQueue.queue q = JobQueue.queue (queue c)).
        { pose proof (JobQueueTheory.drain_queue rotationWaiter (queue c)) as H.
          now rewrite Ed in H. }
        unfold kept, same, heldCount. cbn. rewrite W1, W2, W3, W4, Hq, Hheld, Eb.
        repeat split; auto. cbn [List.length] in *. lia.
      * destruct (sendBody _ _ c s2) as [c3 s3] eqn:Es.
        apply sendBody_kept in Es; [|exact Hfirst|lia|now rewrite W3, W4
                                    |now rewrite W3].
        destruct Es as (S1 & S2 & S3 & S4 & S5 & S6 & S7 & S8 & S9 & _).
        intros Hloop. apply IH in Hloop; [|cbn; rewrite S8, W5, Hheld; auto
                                          |congruence].
        destruct Hloop as (-> & Hg' & Hsame & Hp & Hsum).
        split; [reflexivity|]. unfold kept. split; [exact Hg'|].
        split; [|split].
        -- destruct S4 as (A1 & A2 & A3 & A4 & A5).
           destruct Hsame as (B1 & B2 & B3 & B4 & B5).
           unfold same. repeat split; congruence.
        -- congruence.
        -- rewrite Hsum. unfold heldCount. rewrite S6, S7, S8, W2, W3, W5, Hheld, Eb.
           cbn [List.length] in *. lia.
Qed.

Lemma flush_kept g c s r c' s' :
  good accounting (queue c) s ->
  flush (lift g) c s = (r, c', s') ->
  r = Returns tt /\ kept c s c' s'.
Proof.
  intros Hg. unfold flush.
  destruct (FileSink.isFlushing s);
    [intros [= <- <- <-]; split; [reflexivity|now apply kept_refl]|].
  destruct (FileSink.isRotating s) eqn:Hr;
    [intros [= <- <- <-]; split; [reflexivity|now apply kept_refl]|].
  assert (Hheld : held s = None).
  { destruct Hg as (_ & _ & _ & Hh). destruct (held s); [|reflexivity].
    destruct Hh. congruence. }
  assert (Hgo : forall s0,
             batchSize s0 = batchSize s -> buffer s0 = buffer s ->
             jobs s0 = jobs s -> running s0 = running s -> held s0 = None ->
             forall r1 c1 s1,
               flushLoop (lift g) (List.length (buffer s0)) c s0 = (r1, c1, s1) ->
               r1 = Returns tt /\ kept c s c1 (setFlushing false s1)).
  { intros s0 E1 E2 E3 E4 E5 r1 c1 s1 Hloop.
    apply flushLoop_kept in Hloop; [|cbn; rewrite E1, E3, E4, E5;
                                     repeat split; apply Hg|exact E5].
    destruct Hloop as (-> & Hg' & Hsame & Hp & Hsum).
    split; [reflexivity|]. unfold kept. split; [exact Hg'|].
    split; [exact Hsame|]. split; [exact Hp|].
    unfold heldCount in *. cbn. rewrite Hsum, E2, E3, E5, Hheld. reflexivity. }
  cbn [setFlushing isOpen].
  destruct (isOpen s).
  - destruct (flushLoop _ _ c _) as [[r1 c1] s1] eqn:E.
    intros [= <- <- <-]. eapply Hgo; [..|exact E]; reflexivity || exact Hheld.
  - cbn [ensureDir lift].
    destruct (flushLoop _ _ c _) as [[r1 c1] s1] eqn:E.
    intros [= <- <- <-]. eapply Hgo; [..|exact E]; reflexivity || exact Hheld.
Qed.

Lemma kept_keeps c s c' s' extra :
  kept c s c' s' -> extra = 0 -> keeps accounting extra c s c' s'.
Proof.
  intros (Hg & Hsame & Hp & Hsum) ->. unfold keeps. cbn [owed accounting].
  split; [exact Hg|]. split; [exact Hsame|]. lia.
Qed.

Lemma steady_lawful : Lawful steady accounting.
Proof.
  constructor.
  - intros q s _. cbn. lia.
  - intros q s (Hbs & Hperm & Hall & _). cbn. unfold JobQueue.length.
    apply Permutation_length in Hperm. rewrite length_map, length_app in Hperm.
    pose proof (jobTotal_ge_length _ Hall). lia.
  - intros q s w Hg. cbn in *. now rewrite JobQueueTheory.drain_queue.
  - (* doLog *)
    intros g l c s r c' s' Hg. unfold steady at 2; cbn [Transport.doLog].
    unfold doLog.
    assert (Hg1 : good accounting (queue c) (setBuffer (buffer s ++ [l]) s))
      by exact Hg.
    destruct (_ <=? _)%nat.
    + intros Hf. apply flush_kept in Hf as (-> & Hg' & Hsame & Hp & Hsum);
        [|exact Hg1].
      unfold keeps. cbn [owed accounting]. split; [exact Hg'|].
      split; [exact Hsame|]. split; [lia|].
      unfold heldCount in *. cbn in Hsum. rewrite length_app in Hsum.
      cbn in Hsum. lia.
    + intros [= <- <- <-]. unfold keeps, same. cbn. unfold heldCount. cbn.
      rewrite length_app. cbn. repeat split; auto; try apply Hg; lia.
  - intros g c s r c' s' Hg. unfold steady at 2; cbn [Transport.beforeDrain].
    intros Hf. apply flush_kept in Hf as [_ Hk]; [|exact Hg].
    now apply kept_keeps.
  - intros g c s r c' s' Hg. unfold steady at 2; cbn [Transport.onTimer].
    unfold onTimer. destruct (timerOn s); [|discriminate].
    intros [= Hf]. apply flush_kept in Hf as [_ Hk]; [|exact Hg].
    now apply kept_keeps.
  - (* a write job or a rotation settles *)
    intros [id attempts|g errors result] c s c' s' released
           (Hbs & Hperm & Hall & Hheld);
      unfold steady at 2; cbn [Transport.onDone liftDone onDone].
    + destruct (existsb (Nat.eqb id) (running s)) eqn:Hin; [|discriminate].
      destruct (takeJob id (jobs s)) as [[count rest]|] eqn:Ht; [|discriminate].
      pose proof (takeCount_perm _ _ _ _ Ht) as Hjobs.
      destruct (noteAll_same (ForData None) (writeReports (retry s) attempts) c)
        as ((H1 & H2 & H3 & H4 & H5) & Hp & Hq).
      destruct (JobQueue.onJobSettled _) as [[q started] rel] eqn:E.
      apply JobQueueTheory.onJobSettled_split in E. cbn in E. rewrite Hq in E.
      assert (Hperm' : Permutation (map fst rest)
                         (JobQueue.queue q
                          ++ JobQueue.removeFirst id (running s) ++ started)).
      { apply HttpTheory.perm_settle with (Q := JobQueue.queue (queue c)); auto.
        rewrite <- Hperm. rewrite Hjobs. reflexivity. }
      assert (Hall' : Forall (fun jb => (1 <= snd jb)%nat) rest).
      { rewrite Hjobs in Hall. now inversion Hall. }
      assert (Hsum : jobTotal (jobs s) = (count + jobTotal rest)%nat).
      { now rewrite (jobTotal_perm _ _ Hjobs), jobTotal_cons. }
      intros H. cbn [held setJobs] in H.
      destruct (held s) as [h|] eqn:Eh;
        destruct (existsb (Nat.eqb rotationWaiter) rel);
        injection H as <- <- <-; unfold keeps, same; cbn; unfold heldCount; cbn;
        rewrite ?Eh, ?Hp; cbn; repeat split; auto; try apply Hheld; lia.
    + destruct (held s) as [h|] eqn:Eh; [|discriminate].
      destruct (rotateCalled h); [|discriminate].
      destruct Hheld as [Hrot Hlen].
      set (c1 := noteAll (ForBatch (heldBatch h)) errors c).
      set (c2 := match result with
                 | Throws e => note (mkTransportError e (ForBatch (heldBatch h))) c1
                 | Returns _ => c1
                 end).
      assert (Hc2 : same c c2 /\ logProcessed c2 = logProcessed c /\
                    queue c2 = queue c).
      { destruct (noteAll_same (ForBatch (heldBatch h)) errors c)
          as ((H1 & H2 & H3 & H4 & H5) & Hp & Hq).
        subst c2 c1. destruct result; unfold same; cbn; repeat split; auto. }
      destruct Hc2 as (Hsame2 & Hp2 & Hq2).
      destruct (sendBody _ _ c2 _) as [c3 s2] eqn:Es.
      apply sendBody_kept in Es; [|exact Hlen|exact Hbs|now rewrite Hq2|exact Hall].
      destruct Es as (S1 & S2 & S3 & S4 & S5 & S6 & S7 & S8 & S9 & _).
      cbn [openStream setStream buffer held FileSink.isRotating jobs] in *.
      destruct (flush (lift g) c3 _) as [[r4 c4] s4] eqn:Ef.
      apply flush_kept in Ef as (_ & Hg' & Hsame4 & Hp4 & Hsum4);
        [|cbn; repeat split; auto].
      intros [= <- <- <-]. unfold keeps. cbn [owed accounting].
      split; [exact Hg'|]. split; [|split].
      * destruct Hsame2 as (A1 & A2 & A3 & A4 & A5).
        destruct S4 as (B1 & B2 & B3 & B4 & B5).
        destruct Hsame4 as (C1 & C2 & C3 & C4 & C5).
        unfold same. repeat split; congruence.
      * lia.
      * unfold heldCount in *. cbn in Hsum4.
        rewrite Eh, Hsum4, S6, S7, Hp4, S5, Hp2. lia.
  - intros c s c' s' Hg [= <- <-]. unfold keeps, same. cbn. unfold heldCount.
    cbn. repeat split; auto; try apply Hg; lia.
  - intros c s c' s' Hg [= <- <-]. unfold keeps, same. cbn. unfold heldCount.
    cbn. repeat split; auto; try apply Hg; lia.
Qed.

(** The restricted transport is the file transport. *)
Lemma step_lift (m : Machine steady) (e : Event steady) :
  step (asFile m) (liftEvent e) = option_map asFile (step m e).
Proof.
  destruct e as [g l|g|d|g| |g|r]; cbn [step liftEvent asFile core Transport.sink
                                        phase alarm option_map].
  - cbn [Transport.doLog steady sink].
    now destruct (log _ _ l _ _) as [[r c] s].
  - cbn [Transport.onTimer steady sink].
    now destruct (onTimer (lift g) _ _) as [[[r c] s]|].
  - cbn [Transport.onDone steady sink].
    now destruct (onDone (liftDone d) _ _) as [[[c s] released]|].
  - destruct (phase m); try reflexivity.
    unfold poll. cbn [Transport.beforeDrain steady sink option_map asFile].
    destruct (flush (lift g) _ _) as [[[[]|e] c] s]; [|reflexivity].
    now destruct (JobQueue.drain _ _).
  - destruct (phase m) as [|snapshot [|]| | | |]; try reflexivity.
    now destruct (_ <=? _).
  - destruct (phase m); try reflexivity.
    unfold poll. cbn [Transport.beforeDrain steady sink option_map asFile].
    destruct (flush (lift g) _ _) as [[[[]|e] c] s]; [|reflexivity].
    now destruct (JobQueue.drain _ _).
  - destruct (phase m); try reflexivity.
    destruct r as [[]|e]; [|reflexivity].
    cbn [Transport.closeEnd steady sink closeEnd].
    now destruct (assertStats _) as [[[[]|e] c'] a].
Qed.

Lemma run_lift :
  forall (es : list (Event steady)) (m : Machine steady),
    run (asFile m) (map liftEvent es) = option_map asFile (run m es).
Proof.
  induction es as [|e es IH]; intros m; cbn [map run]; [reflexivity|].
  rewrite step_lift. destruct (step m e) as [m'|]; cbn [option_map];
    [apply IH|reflexivity].
Qed.

Lemma asFile_asSteady (m : Machine sink) : asFile (asSteady m) = m.
Proof. now destruct m. Qed.

Lemma run_steady (m : Machine sink) es m' :
  run m (map liftEvent es) = Some m' ->
  run (asSteady m) es = Some (asSteady m').
Proof.
  rewrite <- (asFile_asSteady m) at 1. rewrite run_lift.
  destruct (run (asSteady m) es) as [m1|]; [|discriminate].
  intros [= <-]. now destruct m1.
Qed.

Lemma createWith_Balanced rotate size r concurrency callback :
  (1 <= size)%nat ->
  Balanced accounting (asSteady (createWith rotate size r concurrency callback)).
Proof. intros Hs. constructor; cbn; auto. Qed.

(** The file transport with a batch size of at least one, with or
    without a rotation policy, in environments where the directory of
    the file can be created and the formatter returns: after any events
    (records logged, timer ticks, writes settling with or without
    success, rotations settling with or without success) followed by a
    [close()] call with no [log] call after it, the moment [close()]
    completes finds [logProcessed = logRequests], no queued job and no
    diagnostic from [assertStats]. *)
Theorem file_close_balanced_when_steady :
  forall (rotate : option Rotator.FileRotator) (size : nat)
         (r : Retry.RetryOption) (concurrency : option Z)
         (callback : TransportError -> Completion unit)
         (pre : list (Event steady)) (g : Steady) (post : list (Event steady))
         (m1 m : Machine sink),
    (1 <= size)%nat ->
    run (createWith rotate size r concurrency callback) (map liftEvent pre)
    = Some m1 ->
    phase m1 = Open ->
    forallb (fun e => negb (isLogCall e)) post = true ->
    run m1 (map liftEvent (@CloseCall steady g :: post)) = Some m ->
    phase m = Completed ->
    logProcessed (core m) = logRequests (core m) /\
    alarm m = false /\ JobQueue.length (queue (core m)) = 0.
Proof.
  intros rotate size r concurrency callback pre g post m1 m Hs Hpre Hopen Hnl
         Hrun Hdone.
  apply run_steady in Hpre, Hrun.
  change (logProcessed (core (asSteady m)) = logRequests (core (asSteady m)) /\
          alarm (asSteady m) = false /\
          JobQueue.length (queue (core (asSteady m))) = 0).
  eapply (CloseTheory.close_completes_balanced steady accounting steady_lawful g
            post (asSteady m1)); eauto.
  eapply (CloseTheory.run_Balanced steady accounting steady_lawful); eauto.
  now apply createWith_Balanced.
Qed.

Lemma file_close_balanced_when_steady_witness :
  exists m1 m,
    run (createWith (Some bySize) 1 Retry.noOption (Some 4) quiet)
        (map liftEvent rotatingRun) = Some m1 /\
    run m1 (map liftEvent (@CloseCall steady smallFile :: rotatingClose)) = Some m /\
    phase m = Completed /\
    logRequests (core m) = 3 /\
    List.length (reported (core m)) = 1%nat /\
    logProcessed (core m) = logRequests (core m) /\
    alarm m = false /\ JobQueue.length (queue (core m)) = 0.
Proof.
  eexists. eexists.
  split; [vm_compute; reflexivity|].
  split; [vm_compute; reflexivity|].
  split; [reflexivity|]. split; [reflexivity|]. split; [reflexivity|].
  eapply (file_close_balanced_when_steady (Some bySize) 1 Retry.noOption (Some 4)
            quiet rotatingRun smallFile rotatingClose).
  - lia.
  - vm_compute. reflexivity.
  - reflexivity.
  - reflexivity.
  - vm_compute. reflexivity.
  - reflexivity.
Defined.

End FileSteadyTheory.

(* ------------------------------------------------------------------ *)
(** * The OAuth2 authenticator retries every refusal *)
Module OAuth2Theory.
Import Retry OAuth2.

Lemma refusal_continues attempt status text :
  continues (Some onFetchFailed) None attempt (refusal status text) = true.
Proof. reflexivity. Qed.

(** A token request that the endpoint refuses is always tried again,
    whatever the status of the refusal (401 and 403 included): the error
    made for it carries no [status], so the retry callback finds it
    worth a retry.  An authenticator that needs a token and is refused
    every time makes as many requests as the retry options allow,
    rejects with the last refusal as cause, and is left as it was. *)
Theorem token_refusals_are_always_retried :
  forall (a : Authenticator) (now fetched : Z) (answers : nat -> Answer),
    String.eqb (accessToken a) "" || (expiresAt a <=? now) = true ->
    (forall k, Z.of_nat k < effectiveMaxRetry (retry a) ->
               isRefused (answers k) = true) ->
    let limit := Z.to_nat (effectiveMaxRetry (retry a)) in
    apply now answers fetched a
    = Some (Rejected (AttemptsFailed (effectiveMaxRetry (retry a))
                        (Some (refusalOf (answers (limit - 1)%nat)))),
            a, limit).
Proof.
  intros a now fetched answers Hneeds Hall limit.
  pose proof (RetryTheory.effectiveMaxRetry_pos (retry a)) as Hpos.
  unfold apply. rewrite Hneeds. unfold fetchTokenWithRetry, withRetry. cbv zeta.
  fold limit.
  replace (S limit) with (limit + 1)%nat by lia.
  change 1 with (Z.of_nat 0 + 1) at 1.
  rewrite (RetryTraceTheory.loop_trace (fun k => fetchToken (answers k))
             (Some onFetchFailed) None (effectiveMaxRetry (retry a))
             (fun k => refusalOf (answers k)) limit).
  - cbn [Nat.add attemptLoop app Z.of_nat Z.add].
    destruct (Z.leb_spec (Z.of_nat limit + 1) (effectiveMaxRetry (retry a)));
      [subst limit; lia|].
    cbn [settled invocations giveUp]. rewrite Z.min_r by lia.
    destruct limit as [|m] eqn:El; [subst limit; lia|].
    cbn [lastAfter Nat.add]. now replace (S m - 1)%nat with m by lia.
  - subst limit. cbn. lia.
  - intros k _ Hk. specialize (Hall k ltac:(subst limit; lia)).
    destruct (answers k) as [status text| |]; try discriminate.
    split; [reflexivity|apply refusal_continues].
Qed.

Lemma token_refusals_are_always_retried_witness :
  apply 1000 unauthorized 2000 (create None (withMaxRetry (Num 4) noOption))
  = Some (Rejected (AttemptsFailed 4
                      (Some (refusal 401 (Some "invalid_client"%string)))),
          create None (withMaxRetry (Num 4) noOption), 4%nat).
Proof.
  apply (token_refusals_are_always_retried
           (create None (withMaxRetry (Num 4) noOption)) 1000 2000 unauthorized).
  - reflexivity.
  - reflexivity.
Defined.

End OAuth2Theory.
